(** * easySTL allocators: a shallow embedding and its verified properties

    The development embeds the three allocator layers of easySTL

      - [MallocAllocator]      (include/malloc_allocator.h)
      - [MemoryPoolAllocator]  (include/memory_pool_allocator.h)
      - [AllocatorWrapper]     (include/allocator_wrapper.h)

    as state-passing functions over an explicit [World]: the static members
    of the classes, the words stored in raw memory (the intrusive free-list
    links), and the system heap the code talks to through [malloc], [free]
    and [realloc].  The OOM handler is code of the client: the OOM protocol
    is studied for an arbitrary handler ([WithHandler]), the pool allocator
    and its clients with a handler that returns and leaves the allocators'
    state alone ([call_handler]).

    On top of them it embeds the clients of the allocator interface, read
    at the element type [std::size_t]:

      - [Construct], [Destroy]                   (include/constructor.h)
      - [Max], [Copy], [CopyBackward], [Fill], [Swap]  (include/algo.h)
      - [uninitialized_copy], [uninitialized_fill],
        [uninitialized_fill_n]                   (include/uninitialized.h)
      - [vector]                                 (include/vector.h)
      - Distance and Advance                     (include/iterator.h)

    Conventions.
      - [std::size_t] and pointers are 64-bit: a value is a [Z] in
        [0, 2^64) and every arithmetic result is reduced by [wrap].
      - [nullptr] is the address [0].
      - Undefined behaviour of the C++ program (indexing [freelist_] out of
        bounds, dereferencing a pointer that does not point into live
        storage) is an explicit outcome, [Undefined]; [std::abort] is the
        outcome [Aborted]. *)

From Stdlib Require Import ZArith Lia List Bool.
From stdpp Require Import base numbers option list functions gmap.

Local Open Scope Z_scope.

(** ** Machine integers *)

Definition wrap (z : Z) : Z := z mod 2 ^ 64.

(** [static_cast<int>] of a [size_t]. *)
Definition to_int (z : Z) : Z :=
  let m := z mod 2 ^ 32 in if m <? 2 ^ 31 then m else m - 2 ^ 32.

(** ** The world the allocators run in *)

Inductive event :=
| EvMalloc (size result : Z)
| EvFree (p : Z)
| EvHandler (h : Z)
| EvAbort.

Inductive fault :=
| OutOfBounds (index : Z)
| BadAccess (addr : Z)
| UninitRead (addr : Z)
| BadFree (p : Z).

Record World := mkWorld {
  (* MemoryPoolAllocator's static members; freelist_ holds the node_ field
     of each MemoryPoolList *)
  freelist_ : list Z;
  freespacestart_ : Z;
  freespaceend_ : Z;
  mallocoffset_ : Z;
  (* MallocAllocator's static member, 0 for nullptr *)
  CustomerOomHandler : Z;
  (* the word last stored at an address *)
  mem : gmap Z Z;
  (* the system heap: live regions (base, length), the placements malloc
     will be offered next, and the calls made so far (latest first) *)
  regions : list (Z * Z);
  oracle : list Z;
  trace : list event
}.

Definition set_freelist (l : list Z) (w : World) : World :=
  mkWorld l (freespacestart_ w) (freespaceend_ w) (mallocoffset_ w)
          (CustomerOomHandler w) (mem w) (regions w) (oracle w) (trace w).
Definition set_start (p : Z) (w : World) : World :=
  mkWorld (freelist_ w) p (freespaceend_ w) (mallocoffset_ w)
          (CustomerOomHandler w) (mem w) (regions w) (oracle w) (trace w).
Definition set_end (p : Z) (w : World) : World :=
  mkWorld (freelist_ w) (freespacestart_ w) p (mallocoffset_ w)
          (CustomerOomHandler w) (mem w) (regions w) (oracle w) (trace w).
Definition set_offset (n : Z) (w : World) : World :=
  mkWorld (freelist_ w) (freespacestart_ w) (freespaceend_ w) n
          (CustomerOomHandler w) (mem w) (regions w) (oracle w) (trace w).
Definition set_handler (h : Z) (w : World) : World :=
  mkWorld (freelist_ w) (freespacestart_ w) (freespaceend_ w) (mallocoffset_ w)
          h (mem w) (regions w) (oracle w) (trace w).
Definition set_mem (m : gmap Z Z) (w : World) : World :=
  mkWorld (freelist_ w) (freespacestart_ w) (freespaceend_ w) (mallocoffset_ w)
          (CustomerOomHandler w) m (regions w) (oracle w) (trace w).
Definition set_sys (rs : list (Z * Z)) (o : list Z) (t : list event) (w : World) : World :=
  mkWorld (freelist_ w) (freespacestart_ w) (freespaceend_ w) (mallocoffset_ w)
          (CustomerOomHandler w) (mem w) rs o t.
Definition log (e : event) (w : World) : World :=
  set_sys (regions w) (oracle w) (e :: trace w) w.

(** ** Outcomes and the state monad *)

Inductive outcome (A : Type) :=
| Ok (a : A) (w : World)
| Aborted (w : World)
| Undefined (f : fault)
| OutOfFuel.
Arguments Ok {A} a w.
Arguments Aborted {A} w.
Arguments Undefined {A} f.
Arguments OutOfFuel {A}.

Definition M (A : Type) : Type := World -> outcome A.

Definition ret {A} (a : A) : M A := fun w => Ok a w.
Definition bind {A B} (m : M A) (k : A -> M B) : M B :=
  fun w => match m w with
           | Ok a w' => k a w'
           | Aborted w' => Aborted w'
           | Undefined f => Undefined f
           | OutOfFuel => OutOfFuel
           end.
Definition get {A} (f : World -> A) : M A := fun w => Ok (f w) w.
Definition modify (f : World -> World) : M unit := fun w => Ok tt (f w).
Definition out_of_fuel {A} : M A := fun _ => OutOfFuel.

Declare Scope mpool_scope.
Delimit Scope mpool_scope with mpool.
Notation "x <- m ;; k" := (bind m (fun x => k))
  (at level 100, m at next level, right associativity) : mpool_scope.
Notation "m ;;; k" := (bind m (fun _ => k))
  (at level 100, right associativity) : mpool_scope.
Local Open Scope mpool_scope.

(** ** The system heap: malloc, free, abort

    [malloc n] is offered the next placement of the oracle.  The placement is
    taken when it describes storage malloc may legally return: above the
    unmapped page at address 0, suitably aligned, ending below the top of
    the address space (the one-past-the-end pointer exists) and disjoint
    from every live region; otherwise the call fails and returns [nullptr].
    Every sequence of legal malloc answers arises from some oracle. *)

Definition page_size : Z := 4096.
Definition malloc_align : Z := 16.

Definition region_len (n : Z) : Z := Z.max n 1.

Definition disjointb (p n : Z) (r : Z * Z) : bool :=
  (p + n <=? fst r) || (fst r + snd r <=? p).

Definition placement_ok (p n : Z) (rs : list (Z * Z)) : bool :=
  (page_size <=? p) && (p mod malloc_align =? 0)
  && (p + region_len n <? 2 ^ 64)
  && forallb (disjointb p (region_len n)) rs.

Definition malloc (n : Z) : M Z := fun w =>
  match oracle w with
  | [] => Ok 0 (log (EvMalloc n 0) w)
  | p :: o =>
      if placement_ok p n (regions w)
      then Ok p (set_sys ((p, region_len n) :: regions w) o
                         (EvMalloc n p :: trace w) w)
      else Ok 0 (set_sys (regions w) o (EvMalloc n 0 :: trace w) w)
  end.

Definition is_base (p : Z) (r : Z * Z) : bool := fst r =? p.

Definition free (p : Z) : M unit := fun w =>
  if p =? 0 then Ok tt (log (EvFree p) w)
  else if existsb (is_base p) (regions w)
       then Ok tt (set_sys (filter (fun r => negb (is_base p r)) (regions w))
                           (oracle w) (EvFree p :: trace w) w)
       else Undefined (BadFree p).

(** [realloc p n].  With a null [p] it is [malloc n].  Otherwise [p] has to
    be the base of a live region.  A request of size 0 for such a block
    releases it and returns [nullptr], as the C library the program is
    built against (glibc) does.  For any other size the oracle offers where
    the resized block goes: [p] itself, when the block can be resized where
    it is, or storage that is free while the old block is still live, when
    it has to move.  A placement that is taken replaces the old region and
    carries the words of the common prefix over; when it is not taken the
    call fails, returns [nullptr] and leaves the old block as it was.  In
    the trace a successful call shows as the release of [p] followed by the
    new allocation. *)

Definition copy_words (src dst len : Z) (m : gmap Z Z) : gmap Z Z :=
  kmap (fun a => a - src + dst)
       (filter (fun kv => src <= fst kv /\ fst kv + 8 <= src + len) m) ∪ m.

Definition realloc (p n : Z) : M Z := fun w =>
  if p =? 0 then malloc n w
  else match List.find (is_base p) (regions w) with
       | None => Undefined (BadFree p)
       | Some old =>
           let others := filter (fun r => negb (is_base p r)) (regions w) in
           if n =? 0
           then Ok 0 (set_sys others (oracle w) (EvFree p :: trace w) w)
           else
             match oracle w with
             | [] => Ok 0 (log (EvMalloc n 0) w)
             | q :: o =>
                 if placement_ok q n (if q =? p then others else regions w)
                 then Ok q (set_mem (copy_words p q (Z.min (snd old) (region_len n))
                                                (mem w))
                              (set_sys ((q, region_len n) :: others) o
                                       (EvMalloc n q :: EvFree p :: trace w) w))
                 else Ok 0 (set_sys (regions w) o (EvMalloc n 0 :: trace w) w)
             end
       end.

Definition abort {A} : M A := fun w => Aborted (log EvAbort w).

(** Calling through the handler pointer, for a handler that returns and
    leaves the allocators' state alone: the call is recorded and nothing
    else changes; what such a handler does to the heap shows in the answers
    malloc gives afterwards.  This is the handler the pool allocator and
    its clients are studied with.  The OOM protocol itself is studied for
    an arbitrary handler, in [WithHandler] below. *)
Definition call_handler (h : Z) : M unit := modify (log (EvHandler h)).

(** ** Raw memory: the word behind a [void **]

    [*static_cast<void **>(node)] is defined when [node] is not null, is
    aligned for a pointer and its eight bytes lie in a live region. *)

Definition inside (a : Z) (r : Z * Z) : bool :=
  (fst r <=? a) && (a + 8 <=? fst r + snd r).

Definition accessible (a : Z) (w : World) : bool :=
  negb (a =? 0) && (a mod 8 =? 0) && existsb (inside a) (regions w).

Definition store64 (a v : Z) : M unit := fun w =>
  if accessible a w then Ok tt (set_mem (<[a := v]> (mem w)) w)
  else Undefined (BadAccess a).

Definition load64 (a : Z) : M Z := fun w =>
  if accessible a w
  then match mem w !! a with
       | Some v => Ok v w
       | None => Undefined (UninitRead a)
       end
  else Undefined (BadAccess a).

(** ** include/malloc_allocator.h *)

Module MallocAllocator.

(** The [while (retry_count < max_retries)] loop; [left] is
    [max_retries - retry_count]. *)
Fixpoint MallocInOom_loop (left : nat) (size : Z) : M Z :=
  match left with
  | O => ret 0
  | S left' =>
      my_malloc_handler <- get CustomerOomHandler ;;
      if my_malloc_handler =? 0 then abort
      else
        call_handler my_malloc_handler ;;;
        result <- malloc size ;;
        if negb (result =? 0) then ret result
        else MallocInOom_loop left' size
  end.

Definition max_retries : nat := 3.

Definition MallocInOom (size : Z) : M Z := MallocInOom_loop max_retries size.

Definition Allocate (size : Z) : M Z :=
  result <- malloc size ;;
  if result =? 0 then MallocInOom size else ret result.

Definition Deallocate (obj : Z) (size : Z) : M unit := free obj.

Definition SetMallocHandler (func : Z) : M Z :=
  old <- get CustomerOomHandler ;;
  modify (set_handler func) ;;;
  ret old.

(** The retry loop of ReallocInOom, as in MallocInOom. *)
Fixpoint ReallocInOom_loop (left : nat) (obj size : Z) : M Z :=
  match left with
  | O => ret 0
  | S left' =>
      my_malloc_handler <- get CustomerOomHandler ;;
      if my_malloc_handler =? 0 then abort
      else
        call_handler my_malloc_handler ;;;
        result <- realloc obj size ;;
        if negb (result =? 0) then ret result
        else ReallocInOom_loop left' obj size
  end.

Definition ReallocInOom (obj size : Z) : M Z :=
  ReallocInOom_loop max_retries obj size.

Definition Reallocate (obj oldsize newsize : Z) : M Z :=
  result <- realloc obj newsize ;;
  if result =? 0 then ReallocInOom obj newsize else ret result.

End MallocAllocator.

(** *** The OOM protocol with the handler as code

    [CustomerOomHandler] points to a function of the client, which the
    retry loops call through the pointer they read afresh in every round.
    [handler_code h] is what calling the function at [h] does: it may
    change any part of the world, [CustomerOomHandler] and the system heap
    included, it may abort, fault, or never return (it runs out of fuel).
    Each call is recorded in the trace before the function runs. *)

Module WithHandler.
Section Code.
Variable handler_code : Z -> M unit.

Definition call (h : Z) : M unit :=
  modify (log (EvHandler h)) ;;; handler_code h.

Fixpoint MallocInOom_loop (left : nat) (size : Z) : M Z :=
  match left with
  | O => ret 0
  | S left' =>
      my_malloc_handler <- get CustomerOomHandler ;;
      if my_malloc_handler =? 0 then abort
      else
        call my_malloc_handler ;;;
        result <- malloc size ;;
        if negb (result =? 0) then ret result
        else MallocInOom_loop left' size
  end.

Definition MallocInOom (size : Z) : M Z :=
  MallocInOom_loop MallocAllocator.max_retries size.

Definition Allocate (size : Z) : M Z :=
  result <- malloc size ;;
  if result =? 0 then MallocInOom size else ret result.

Fixpoint ReallocInOom_loop (left : nat) (obj size : Z) : M Z :=
  match left with
  | O => ret 0
  | S left' =>
      my_malloc_handler <- get CustomerOomHandler ;;
      if my_malloc_handler =? 0 then abort
      else
        call my_malloc_handler ;;;
        result <- realloc obj size ;;
        if negb (result =? 0) then ret result
        else ReallocInOom_loop left' obj size
  end.

Definition ReallocInOom (obj size : Z) : M Z :=
  ReallocInOom_loop MallocAllocator.max_retries obj size.

Definition Reallocate (obj oldsize newsize : Z) : M Z :=
  result <- realloc obj newsize ;;
  if result =? 0 then ReallocInOom obj newsize else ret result.

End Code.
End WithHandler.

(** Three handlers: one that returns at once, one that uninstalls itself,
    and one that aborts. *)
Definition quiet_handler : Z -> M unit := fun _ => ret tt.
Definition clearing_handler : Z -> M unit := fun _ => modify (set_handler 0).
Definition aborting_handler : Z -> M unit := fun _ => abort.

(** ** include/memory_pool_allocator.h *)

Definition kAlign : Z := 8.
Definition kMaxBytes : Z := 128.
Definition kFreeListNum : Z := kMaxBytes / kAlign.

(** [freelist_[index].node_], as an lvalue: out of bounds is undefined. *)
Definition node_at (index : Z) : M Z := fun w =>
  if (0 <=? index) && (index <? kFreeListNum)
  then match freelist_ w !! Z.to_nat index with
       | Some h => Ok h w
       | None => Undefined (OutOfBounds index)
       end
  else Undefined (OutOfBounds index).

Definition set_node_at (index : Z) (v : Z) : M unit := fun w =>
  if (0 <=? index) && (index <? kFreeListNum)
  then match freelist_ w !! Z.to_nat index with
       | Some _ => Ok tt (set_freelist (<[Z.to_nat index := v]> (freelist_ w)) w)
       | None => Undefined (OutOfBounds index)
       end
  else Undefined (OutOfBounds index).

Module MemoryPoolList.

Definition Empty (index : Z) : M bool :=
  node_ <- node_at index ;; ret (node_ =? 0).

(** [GetNextNode(node)] is the lvalue [*static_cast<void **>(node)]: it is
    read in Pop and assigned to in Push. *)
Definition GetNextNode (node : Z) : M Z := load64 node.
Definition GetNextNode_assign (node v : Z) : M unit := store64 node v.

Definition Push (index : Z) (node : Z) : M unit :=
  node_ <- node_at index ;;
  GetNextNode_assign node node_ ;;;
  set_node_at index node.

Definition Pop (index : Z) : M Z :=
  result <- node_at index ;;
  next <- GetNextNode result ;;
  set_node_at index next ;;;
  ret result.

End MemoryPoolList.

Module MemoryPoolAllocator.

Definition RoundUp (bytes : Z) : Z :=
  Z.land (wrap (bytes + kAlign - 1)) (wrap (Z.lnot (kAlign - 1))).

Definition GetFreelistIndex (bytes : Z) : Z :=
  wrap (wrap (bytes + kAlign - 1) / kAlign - 1).

(** The [for (i = size; i <= kMaxBytes; i += kAlign)] loop of ChunkAlloc.
    [true]: a block was requisitioned as the new arena. *)
Fixpoint scan_freelists (fuel : nat) (i : Z) : M bool :=
  match fuel with
  | O => out_of_fuel
  | S fuel' =>
      if i <=? kMaxBytes then
        e <- MemoryPoolList.Empty (GetFreelistIndex i) ;;
        if negb e then
          p <- MemoryPoolList.Pop (GetFreelistIndex i) ;;
          modify (set_start p) ;;;
          modify (set_end (wrap (p + i))) ;;;
          ret true
        else scan_freelists fuel' (wrap (i + kAlign))
      else ret false
  end.

Definition scan_fuel : nat := 18.

(** [chunknums] is passed by reference: its final value is returned
    next to the result. *)
Fixpoint ChunkAlloc (fuel : nat) (size chunknums : Z) : M (Z * Z) :=
  match fuel with
  | O => out_of_fuel
  | S fuel' =>
      start <- get freespacestart_ ;;
      end_ <- get freespaceend_ ;;
      let bytesneed := wrap (size * chunknums) in
      let bytesleft := wrap (end_ - start) in
      if bytesneed <=? bytesleft then
        modify (set_start (wrap (start + bytesneed))) ;;;
        ret (start, chunknums)
      else if size <=? bytesleft then
        let chunknums := bytesleft / size in
        let bytesneed := wrap (chunknums * size) in
        modify (set_start (wrap (start + bytesneed))) ;;;
        ret (start, chunknums)
      else
        offset <- get mallocoffset_ ;;
        let bytesget := wrap (wrap (bytesneed * 2) + RoundUp (Z.shiftr offset 4)) in
        (if kAlign <=? bytesleft
         then MemoryPoolList.Push (GetFreelistIndex bytesleft) start
         else ret tt) ;;;
        p <- malloc bytesget ;;
        modify (set_start p) ;;;
        if p =? 0 then
          found <- scan_freelists scan_fuel size ;;
          if found then ChunkAlloc fuel' size chunknums
          else
            modify (set_end 0) ;;;
            p <- MallocAllocator.Allocate bytesget ;;
            modify (set_start p) ;;;
            modify (set_offset (wrap (offset + bytesget))) ;;;
            modify (set_end (wrap (p + bytesget))) ;;;
            ChunkAlloc fuel' size chunknums
        else
          modify (set_offset (wrap (offset + bytesget))) ;;;
          modify (set_end (wrap (p + bytesget))) ;;;
          ChunkAlloc fuel' size chunknums
  end.

(** The [for (int i = 1; i < static_cast<int>(chunknums); i++)] loop of
    ReFill; [n] is the number of iterations left. *)
Fixpoint ReFill_loop (n : nat) (size nextchunk : Z) : M unit :=
  match n with
  | O => ret tt
  | S n' =>
      MemoryPoolList.Push (GetFreelistIndex size) nextchunk ;;;
      ReFill_loop n' size (wrap (nextchunk + size))
  end.

Definition chunk_fuel : nat := 3.

Definition ReFill (size : Z) : M Z :=
  r <- ChunkAlloc chunk_fuel size 20 ;;
  let chunk := fst r in
  let chunknums := snd r in
  let nextchunk := wrap (chunk + size) in
  if chunknums =? 1 then ret chunk
  else
    ReFill_loop (Z.to_nat (to_int chunknums - 1)) size nextchunk ;;;
    ret chunk.

Definition Allocate (size : Z) : M Z :=
  if kMaxBytes <? size then MallocAllocator.Allocate size
  else
    let index := GetFreelistIndex size in
    e <- MemoryPoolList.Empty index ;;
    if e then ReFill (RoundUp size)
    else MemoryPoolList.Pop index.

Definition Deallocate (obj : Z) (size : Z) : M unit :=
  if kMaxBytes <? size then MallocAllocator.Deallocate obj size
  else MemoryPoolList.Push (GetFreelistIndex size) obj.

Definition Reallocate (obj : Z) (oldsize newsize : Z) : M Z :=
  if RoundUp newsize =? RoundUp oldsize then ret obj
  else
    Deallocate obj oldsize ;;;
    Allocate newsize.

End MemoryPoolAllocator.

(** ** include/allocator_wrapper.h

    The template parameters: [sizeof_T] is [sizeof(T)] and the [Allocator]
    class is the pair of its static member functions. *)

Record Allocator := mkAllocator {
  Allocator_Allocate : Z -> M Z;
  Allocator_Deallocate : Z -> Z -> M unit
}.

Definition Alloc : Allocator :=
  mkAllocator MemoryPoolAllocator.Allocate MemoryPoolAllocator.Deallocate.

Definition MallocAlloc : Allocator :=
  mkAllocator MallocAllocator.Allocate MallocAllocator.Deallocate.

Module AllocatorWrapper.

Definition Allocate (sizeof_T : Z) (A : Allocator) (n : Z) : M Z :=
  if n =? 0 then ret 0
  else Allocator_Allocate A (wrap (n * sizeof_T)).


Definition Deallocate (sizeof_T : Z) (A : Allocator) (ptr : Z) (n : Z) : M unit :=
  if negb (n =? 0) then Allocator_Deallocate A ptr (wrap (n * sizeof_T))
  else ret tt.


End AllocatorWrapper.

(** ** The program's initial state *)

Definition initial_world (o : list Z) : World :=
  mkWorld (replicate (Z.to_nat kFreeListNum) 0) 0 0 0 0 ∅ [] o [].

(** What the pool allocator owns of the world: its static members and the
    words of raw memory. *)
Definition pool_state (w : World) : list Z * Z * Z * Z * gmap Z Z :=
  (freelist_ w, freespacestart_ w, freespaceend_ w, mallocoffset_ w, mem w).

(** Handler invocations recorded in a trace. *)
Definition is_handler_call (e : event) : bool :=
  match e with EvHandler _ => true | _ => false end.
Definition handler_calls (t : list event) : nat :=
  length (filter (fun e => is_handler_call e = true) t).

(** The calls of [k] failed retries, latest first. *)
Fixpoint failed_retries (k : nat) (h size : Z) : list event :=
  match k with
  | O => []
  | S k' => EvMalloc size 0 :: EvHandler h :: failed_retries k' h size
  end.

(** The arena size ChunkAlloc computes: [bytesneed * 2 +
    RoundUp(mallocoffset_ >> 4)] with [bytesneed = size * chunknums]. *)
Definition bytesget (size chunknums offset : Z) : Z :=
  wrap (wrap (wrap (size * chunknums) * 2)
        + MemoryPoolAllocator.RoundUp (Z.shiftr offset 4)).

(** What ChunkAlloc does with the arena remainder before replacing the
    arena. *)
Definition salvage (w : World) : M unit :=
  let bytesleft := wrap (freespaceend_ w - freespacestart_ w) in
  if kAlign <=? bytesleft
  then MemoryPoolList.Push (MemoryPoolAllocator.GetFreelistIndex bytesleft)
                           (freespacestart_ w)
  else ret tt.

(** The three assignments that install a fresh arena of [bg] bytes at [p]. *)
Definition install_arena (p bg offset : Z) (w : World) : World :=
  set_end (wrap (p + bg)) (set_offset (wrap (offset + bg)) (set_start p w)).

(** A state with an exhausted arena, an exhausted system heap, no OOM
    handler, and one spare block in the 128-byte class. *)
Definition spare_block_world : World :=
  mkWorld (<[15%nat := 8192]> (replicate 16 0)) 0 0 0 0
          {[ 8192 := 0 ]} [(8192, 128)] [] [].

(** The head of the free list that serves requests of [bytes] bytes. *)
Definition head_of (w : World) (bytes : Z) : option Z :=
  freelist_ w !! Z.to_nat (MemoryPoolAllocator.GetFreelistIndex bytes).

(** ** The block invariant

    Ghost view of the pool: [fl i] lists the blocks threaded on the free
    list of class [i], head first; [out] lists the allocations the client
    holds, each with the size it was requested with; [pool] lists the
    regions obtained from the system heap for arenas; [extra] lists blocks
    in transit (carved or popped, not yet threaded or handed out). *)

Definition class_size (i : nat) : Z := 8 * (Z.of_nat i + 1).

(** Extents are pairs (address, length). *)
Definition disj (x y : Z * Z) : Prop :=
  fst x + snd x <= fst y \/ fst y + snd y <= fst x.

Fixpoint pairwise_disjoint (l : list (Z * Z)) : Prop :=
  match l with
  | [] => True
  | x :: l' => Forall (disj x) l' /\ pairwise_disjoint l'
  end.

(** The intrusive list that starts at [h] threads exactly the blocks [l]. *)
Fixpoint chain (m : gmap Z Z) (h : Z) (l : list Z) : Prop :=
  match l with
  | [] => h = 0
  | p :: l' => h = p /\ p <> 0 /\ exists next, m !! p = Some next /\ chain m next l'
  end.

Definition free_exts (fl : nat -> list Z) : list (Z * Z) :=
  flat_map (fun i => map (fun p => (p, class_size i)) (fl i)) (seq 0 16).

Definition out_exts (out : list (Z * Z)) : list (Z * Z) :=
  map (fun x => (fst x, MemoryPoolAllocator.RoundUp (snd x)))
      (filter (fun x => snd x <= kMaxBytes) out).

Definition larges (out : list (Z * Z)) : list Z :=
  map fst (filter (fun x => kMaxBytes < snd x /\ fst x <> 0) out).

Definition within (pool : list (Z * Z)) (x : Z * Z) : Prop :=
  exists r, r ∈ pool /\ fst r <= fst x /\ fst x + snd x <= fst r + snd r.

Definition ext_ok (pool : list (Z * Z)) (x : Z * Z) : Prop :=
  fst x mod 8 = 0 /\ 0 <= snd x /\ within pool x.

Definition heap_ok (rs : list (Z * Z)) : Prop :=
  Forall (fun r => page_size <= fst r /\ 1 <= snd r /\ fst r + snd r < 2 ^ 64) rs
  /\ NoDup (map fst rs).

Record PInv (heads : list Z) (s e : Z) (m : gmap Z Z) (rs : list (Z * Z))
            (out extra : list (Z * Z)) (fl : nat -> list Z)
            (pool : list (Z * Z)) : Prop := mkPInv {
  (* sixteen lists, each threading the blocks of its class *)
  pi_len : length heads = 16%nat;
  pi_chain : forall i h, heads !! i = Some h -> chain m h (fl i);
  (* the system heap, and the arenas obtained from it *)
  pi_heap : heap_ok rs;
  pi_pool : forall r, r ∈ pool -> r ∈ rs;
  (* the arena: aligned bounds, inside an arena region unless empty *)
  pi_arena : 0 <= s <= e /\ e < 2 ^ 64 /\ s mod 8 = 0 /\ e mod 8 = 0
             /\ (s < e -> within pool (s, e - s));
  (* every block is aligned and lies inside an arena region: a free block
     of class i has 8 * (i + 1) bytes, a block handed out for a request of
     n bytes has RoundUp n bytes *)
  pi_exts : Forall (ext_ok pool) (extra ++ free_exts fl ++ out_exts out);
  (* the arena and all blocks are pairwise disjoint *)
  pi_disj : pairwise_disjoint ((s, e - s) :: extra ++ free_exts fl ++ out_exts out);
  (* requests are positive; large blocks are live regions outside the arenas *)
  pi_out : Forall (fun x => 0 < snd x) out;
  pi_large : NoDup (larges out)
             /\ forall p, p ∈ larges out -> p ∈ map fst rs /\ p ∉ map fst pool
}.

Definition PoolInv (w : World) (out extra : list (Z * Z))
           (fl : nat -> list Z) (pool : list (Z * Z)) : Prop :=
  PInv (freelist_ w) (freespacestart_ w) (freespaceend_ w) (mem w) (regions w)
       out extra fl pool
  /\ 0 <= mallocoffset_ w < 2 ^ 64.

Definition Inv (w : World) (out : list (Z * Z)) : Prop :=
  exists fl pool, PoolInv w out [] fl pool.

(** The arena remainder, should ChunkAlloc salvage it, has the size of the
    class it is filed under. *)
Definition remainder_fits (w : World) : Prop :=
  let bytesleft := wrap (freespaceend_ w - freespacestart_ w) in
  bytesleft mod 8 = 0
  /\ (kAlign <= bytesleft <= kMaxBytes ->
      8 * (MemoryPoolAllocator.GetFreelistIndex bytesleft + 1) = bytesleft).

(** States a client reaches that passes to Deallocate only blocks it holds,
    with the size it asked for; the second component is what it holds. *)
Inductive reach : World -> list (Z * Z) -> Prop :=
| reach_init o :
    reach (initial_world o) []
| reach_Allocate w out size p w' :
    reach w out -> 0 <= size < 2 ^ 64 ->
    MemoryPoolAllocator.Allocate size w = Ok p w' ->
    reach w' ((p, size) :: out)
| reach_Deallocate w out obj size out' w' :
    reach w out -> out ≡ₚ (obj, size) :: out' ->
    MemoryPoolAllocator.Deallocate obj size w = Ok tt w' ->
    reach w' out'
| reach_SetMallocHandler w out func old w' :
    reach w out ->
    MallocAllocator.SetMallocHandler func w = Ok old w' ->
    reach w' out.

(** ** Running a computation to its final state *)

Definition run_world {A} (m : M A) (w : World) : World :=
  match m w with
  | Ok _ w' => w'
  | Aborted w' => w'
  | _ => w
  end.

Definition run_value (m : M Z) (w : World) : Z :=
  match m w with
  | Ok a _ => a
  | _ => 0
  end.

(** A run of two allocations and two deallocations in the 8-byte class. *)
Definition lifo_w0 : World := initial_world [4096].
Definition lifo_p1 : Z := run_value (MemoryPoolAllocator.Allocate 8) lifo_w0.
Definition lifo_w1 : World := run_world (MemoryPoolAllocator.Allocate 8) lifo_w0.
Definition lifo_p2 : Z := run_value (MemoryPoolAllocator.Allocate 3) lifo_w1.
Definition lifo_w2 : World := run_world (MemoryPoolAllocator.Allocate 3) lifo_w1.
Definition lifo_w3 : World :=
  run_world (MemoryPoolAllocator.Deallocate lifo_p1 8) lifo_w2.
Definition lifo_w4 : World :=
  run_world (MemoryPoolAllocator.Deallocate lifo_p2 3) lifo_w3.

(** ** Element ranges in raw memory

    The function templates of constructor.h, algo.h and uninitialized.h are
    read at [T = std::size_t] with [T *] as the iterator: an element is one
    64-bit word, [++p] and [--p] move by [sizeof(T) = 8] bytes, [*p] is the
    word at [p].  Copy construction of such a [T] is a store and cannot
    throw; its destructor does nothing. *)

Definition ptr_inc (p : Z) : Z := wrap (p + 8).
Definition ptr_dec (p : Z) : Z := wrap (p - 8).

(** An argument passed as [const T &]: bound to an object outside the heap
    (a temporary, a local), whose value cannot change under the callee, or
    to a word in the heap, which is read each time the reference is used. *)
Inductive const_ref :=
| Temp (v : Z)
| Ref (a : Z).

Definition read_ref (r : const_ref) : M Z :=
  match r with
  | Temp v => ret v
  | Ref a => load64 a
  end.

(** ** include/constructor.h *)

(** [new (p) T()]: value-initialisation. *)
Definition Construct_default (p : Z) : M unit := store64 p 0.

(** [new (p) T(value)]. *)
Definition Construct (p : Z) (value : const_ref) : M unit :=
  v <- read_ref value ;; store64 p v.

(** [p->~T()]. *)
Definition Destroy (p : Z) : M unit := ret tt.

(** [Destroy(first, last)]. *)
Fixpoint Destroy_range (fuel : nat) (first last : Z) : M unit :=
  match fuel with
  | O => out_of_fuel
  | S fuel' =>
      if negb (first =? last) then
        Destroy first ;;;
        Destroy_range fuel' (ptr_inc first) last
      else ret tt
  end.

(** ** include/algo.h *)

Definition Max (a b : Z) : Z := if b <? a then a else b.

Fixpoint Copy (fuel : nat) (first last result : Z) : M Z :=
  match fuel with
  | O => out_of_fuel
  | S fuel' =>
      if negb (first =? last) then
        v <- load64 first ;;
        store64 result v ;;;
        Copy fuel' (ptr_inc first) last (ptr_inc result)
      else ret result
  end.

Fixpoint CopyBackward (fuel : nat) (first last result : Z) : M Z :=
  match fuel with
  | O => out_of_fuel
  | S fuel' =>
      if negb (first =? last) then
        let last := ptr_dec last in
        let result := ptr_dec result in
        v <- load64 last ;;
        store64 result v ;;;
        CopyBackward fuel' first last result
      else ret result
  end.

Fixpoint Fill (fuel : nat) (first last : Z) (value : const_ref) : M unit :=
  match fuel with
  | O => out_of_fuel
  | S fuel' =>
      if negb (first =? last) then
        v <- read_ref value ;;
        store64 first v ;;;
        Fill fuel' (ptr_inc first) last value
      else ret tt
  end.

(** [Swap(a, b)] on two distinct objects: the new values of [a] and [b]. *)
Definition Swap {T : Type} (a b : T) : T * T :=
  let temp := a in
  let a := b in
  let b := temp in
  (a, b).

(** ** include/uninitialized.h

    The [catch (...)] arms (destroy what was built, then abort) are never
    entered: constructing a [std::size_t] does not throw. *)

Fixpoint uninitialized_copy (fuel : nat) (first last current : Z) : M Z :=
  match fuel with
  | O => out_of_fuel
  | S fuel' =>
      if negb (first =? last) then
        Construct current (Ref first) ;;;
        uninitialized_copy fuel' (ptr_inc first) last (ptr_inc current)
      else ret current
  end.

Fixpoint uninitialized_fill (fuel : nat) (current last : Z) (value : const_ref)
  : M unit :=
  match fuel with
  | O => out_of_fuel
  | S fuel' =>
      if negb (current =? last) then
        Construct current value ;;;
        uninitialized_fill fuel' (ptr_inc current) last value
      else ret tt
  end.

(** [for (; n > 0; --n, ++current)] with an unsigned [n] runs [n] times. *)
Fixpoint uninitialized_fill_n_loop (n : nat) (current : Z) (value : const_ref)
  : M Z :=
  match n with
  | O => ret current
  | S n' =>
      Construct current value ;;;
      uninitialized_fill_n_loop n' (ptr_inc current) value
  end.

Definition uninitialized_fill_n (first n : Z) (value : const_ref) : M Z :=
  uninitialized_fill_n_loop (Z.to_nat n) first value.

(** The loops above run until [first] meets [last]: one round per element
    and one more for the final test. *)
Definition range_fuel (first last : Z) : nat := S (Z.to_nat ((last - first) / 8)).

(** ** What a range of memory holds *)

(** The words at [a], [a + 8], ... are [vs]. *)
Definition words_at (m : gmap Z Z) (a : Z) (vs : list Z) : Prop :=
  forall i v, vs !! i = Some v -> m !! (a + 8 * Z.of_nat i) = Some v.

(** [n] elements starting at [a] lie in live storage, below the top of the
    address space. *)
Definition range_ok (w : World) (a : Z) (n : nat) : Prop :=
  0 <= a /\ a + 8 * Z.of_nat n < 2 ^ 64
  /\ forall i, (i < n)%nat -> accessible (a + 8 * Z.of_nat i) w = true.

(** Same state but for the contents of memory. *)
Definition same_but_mem (w w' : World) : Prop := w' = set_mem (mem w') w.

(** What reading [value] gives: a reference into the heap has to point at
    an initialised word. *)
Definition ref_holds (w : World) (value : const_ref) (v : Z) : Prop :=
  match value with
  | Temp x => x = v
  | Ref a => accessible a w = true /\ mem w !! a = Some v
  end.

(** Executable checks of the two predicates. *)
Definition range_okb (w : World) (a : Z) (n : nat) : bool :=
  (0 <=? a) && (a + 8 * Z.of_nat n <? 2 ^ 64)
  && forallb (fun i => accessible (a + 8 * Z.of_nat i) w) (seq 0 n).

Fixpoint words_atb (m : gmap Z Z) (a : Z) (vs : list Z) : bool :=
  match vs with
  | [] => true
  | v :: vs' =>
      match m !! a with
      | Some x => (x =? v) && words_atb m (a + 8) vs'
      | None => false
      end
  end.

(** A heap with one live block of eight words, the first four initialised. *)
Definition range_world : World :=
  mkWorld (replicate 16 0) 0 0 0 0
          {[ 4096 := 1; 4104 := 2; 4112 := 3; 4120 := 4 ]}
          [(4096, 64)] [] [].

(** ** include/vector.h

    [vector<T, Alloc>] is read at [T = std::size_t] with the default
    allocator [Alloc]: the object is its three pointers, the elements are
    words of raw memory.  A member function takes the object and returns
    its new value next to the result. *)

(** [p + n], [p - n] on a [T *]; [a - b] between two of them, a
    [std::ptrdiff_t]. *)
Definition ptr_add (p n : Z) : Z := wrap (p + 8 * n).
Definition ptr_sub (p n : Z) : Z := wrap (p - 8 * n).
Definition to_ptrdiff (z : Z) : Z :=
  let m := wrap z in if m <? 2 ^ 63 then m else m - 2 ^ 64.
Definition ptr_diff (a b : Z) : Z := Z.quot (to_ptrdiff (a - b)) 8.

Record vector := mkVector {
  begin_ : Z;
  end_ : Z;
  capacity_ : Z
}.

Definition set_end_ (p : Z) (v : vector) : vector :=
  mkVector (begin_ v) p (capacity_ v).

Module vector.

(** [vector()]. *)
Definition default : vector := mkVector 0 0 0.

Definition size (v : vector) : Z := wrap (ptr_diff (end_ v) (begin_ v)).
Definition empty (v : vector) : bool := begin_ v =? end_ v.
Definition capacity (v : vector) : Z := wrap (ptr_diff (capacity_ v) (begin_ v)).

(** [operator[]], [front], [back]: the address of the element referred to. *)
Definition subscript (v : vector) (n : Z) : Z := ptr_add (begin_ v) n.
Definition front (v : vector) : Z := begin_ v.
Definition back (v : vector) : Z := ptr_sub (end_ v) 1.

(** [DataAllocator = AllocatorWrapper<T, Alloc>]. *)
Definition DataAllocator_Allocate (n : Z) : M Z :=
  AllocatorWrapper.Allocate 8 Alloc n.
Definition DataAllocator_Deallocate (ptr n : Z) : M unit :=
  AllocatorWrapper.Deallocate 8 Alloc ptr n.

Definition NumsInit (n : Z) (value : const_ref) : M vector :=
  let initsize := Max n 16 in
  current <- DataAllocator_Allocate initsize ;;
  let begin_ := current in
  end_ <- uninitialized_fill_n current n value ;;
  ret (mkVector begin_ end_ (ptr_add begin_ initsize)).

Definition RangeInit (first last : Z) : M vector :=
  let initsize := Max (wrap (ptr_diff last first)) 16 in
  begin_ <- DataAllocator_Allocate initsize ;;
  end_ <- uninitialized_copy (range_fuel first last) first last begin_ ;;
  ret (mkVector begin_ end_ (ptr_add begin_ initsize)).

(** [vector(len, value)], [vector(len)], [vector(other)]. *)
Definition ctor_fill (len : Z) (value : const_ref) : M vector := NumsInit len value.
Definition ctor_len (len : Z) : M vector := NumsInit len (Temp 0).
Definition ctor_copy (other : vector) : M vector :=
  RangeInit (begin_ other) (end_ other).

Definition DestroyDeallocate (first last len : Z) : M unit :=
  if negb (first =? 0) then
    Destroy_range (range_fuel first last) first last ;;;
    DataAllocator_Deallocate first len
  else ret tt.

(** [~vector()]. *)
Definition dtor (v : vector) : M unit :=
  DestroyDeallocate (begin_ v) (end_ v) (wrap (ptr_diff (capacity_ v) (begin_ v))).

Definition InsertAux (pos nums : Z) (x : const_ref) (v : vector) : M vector :=
  let newsize := Max (wrap (size v * 2)) 16 in
  newbegin <- DataAllocator_Allocate newsize ;;
  newend <- uninitialized_copy (range_fuel (begin_ v) pos) (begin_ v) pos newbegin ;;
  newend <- uninitialized_fill_n newend nums x ;;
  newend <- uninitialized_copy (range_fuel pos (end_ v)) pos (end_ v) newend ;;
  DestroyDeallocate (begin_ v) (end_ v)
                    (wrap (ptr_diff (capacity_ v) (begin_ v))) ;;;
  ret (mkVector newbegin newend (ptr_add newbegin newsize)).

Definition push_back (x : const_ref) (v : vector) : M vector :=
  if negb (end_ v =? capacity_ v) then
    Construct (end_ v) x ;;;
    ret (set_end_ (ptr_inc (end_ v)) v)
  else InsertAux (end_ v) 1 x v.

(** [erase(pos)]. *)
Definition erase (pos : Z) (v : vector) : M (Z * vector) :=
  Copy (range_fuel (ptr_add pos 1) (end_ v)) (ptr_add pos 1) (end_ v) pos ;;;
  Destroy (end_ v) ;;;
  ret (pos, set_end_ (ptr_dec (end_ v)) v).

(** [erase(first, last)]. *)
Definition erase_range (first last : Z) (v : vector) : M (Z * vector) :=
  if negb (first =? last) then
    i <- Copy (range_fuel last (end_ v)) last (end_ v) first ;;
    Destroy_range (range_fuel i (end_ v)) i (end_ v) ;;;
    ret (last, set_end_ (ptr_sub (end_ v) (ptr_diff last first)) v)
  else ret (last, v).

Definition clear (v : vector) : M vector :=
  r <- erase_range (begin_ v) (end_ v) v ;; ret (snd r).

(** [insert(pos, size, x)]. *)
Definition insert (pos size : Z) (x : const_ref) (v : vector) : M (Z * vector) :=
  if size <=? wrap (ptr_diff (capacity_ v) (end_ v)) then
    let elemsafter := wrap (ptr_diff (end_ v) pos) in
    let oldend := end_ v in
    if size <? elemsafter then
      uninitialized_copy (range_fuel (ptr_sub (end_ v) size) (end_ v))
                         (ptr_sub (end_ v) size) (end_ v) (end_ v) ;;;
      let v := set_end_ (ptr_add (end_ v) size) v in
      CopyBackward (range_fuel pos (ptr_sub oldend size))
                   pos (ptr_sub oldend size) oldend ;;;
      Fill (range_fuel pos (ptr_add pos size)) pos (ptr_add pos size) x ;;;
      ret (pos, v)
    else
      uninitialized_fill_n (end_ v) (wrap (size - elemsafter)) x ;;;
      let v := set_end_ (ptr_add (end_ v) (wrap (size - elemsafter))) v in
      uninitialized_copy (range_fuel pos oldend) pos oldend (end_ v) ;;;
      let v := set_end_ (ptr_add (end_ v) elemsafter) v in
      Fill (range_fuel pos oldend) pos oldend x ;;;
      ret (pos, v)
  else
    v' <- InsertAux pos size x v ;;
    ret (pos, v').

(** [insert(pos, x)]. *)
Definition insert1 (pos : Z) (x : const_ref) (v : vector) : M (Z * vector) :=
  insert pos 1 x v.

(** [resize(newsize, x)]. *)
Definition resize (newsize : Z) (x : const_ref) (v : vector) : M vector :=
  if newsize <? size v then
    r <- erase_range (ptr_add (begin_ v) newsize) (end_ v) v ;; ret (snd r)
  else
    r <- insert (end_ v) (wrap (newsize - size v)) x v ;; ret (snd r).

(** [swap(rhs)] on two distinct vectors: the new values of both. *)
Definition swap (v rhs : vector) : vector * vector :=
  let '(b1, b2) := Swap (begin_ v) (begin_ rhs) in
  let '(e1, e2) := Swap (end_ v) (end_ rhs) in
  let '(c1, c2) := Swap (capacity_ v) (capacity_ rhs) in
  (mkVector b1 e1 c1, mkVector b2 e2 c2).

(** [assign(n, value)]; the temporary is destroyed when its block ends. *)
Definition assign (n : Z) (value : const_ref) (v : vector) : M vector :=
  v <- clear v ;;
  if capacity v <? n then
    tmp <- ctor_fill n value ;;
    let '(v, tmp) := swap v tmp in
    dtor tmp ;;;
    ret v
  else
    uninitialized_fill_n (begin_ v) n value ;;;
    ret (set_end_ (ptr_add (begin_ v) n) v).

End vector.

(** The vector [v] holds the elements [xs] in a block of [cap] elements
    (no object is larger than [PTRDIFF_MAX] bytes). *)
Definition vec_repr (w : World) (v : vector) (xs : list Z) (cap : nat) : Prop :=
  range_ok w (begin_ v) cap
  /\ 8 * Z.of_nat cap < 2 ^ 63
  /\ end_ v = begin_ v + 8 * Z.of_nat (length xs)
  /\ capacity_ v = begin_ v + 8 * Z.of_nat cap
  /\ (length xs <= cap)%nat
  /\ words_at (mem w) (begin_ v) xs.

(** ** The client's side of the invariant

    What a client that stores into the blocks it holds relies on: the live
    regions of the system heap are aligned and pairwise disjoint, and a
    large block it holds is one of them, with the length it asked for. *)

Definition large_live (rs : list (Z * Z)) (out : list (Z * Z)) : Prop :=
  forall p s, (p, s) ∈ out -> kMaxBytes < s -> p <> 0 -> (p, region_len s) ∈ rs.

Definition ClientInv (w : World) (out : list (Z * Z)) : Prop :=
  Inv w out
  /\ pairwise_disjoint (regions w)
  /\ Forall (fun r => fst r mod malloc_align = 0) (regions w)
  /\ large_live (regions w) out.

(** The bytes of a block handed out for a request of [s] bytes. *)
Definition block_len (s : Z) : Z :=
  if kMaxBytes <? s then s else MemoryPoolAllocator.RoundUp s.

(** How one allocator call changes the live regions: not at all, or by one
    placement that malloc accepted. *)
Definition grows (rs rs' : list (Z * Z)) : Prop :=
  rs' = rs
  \/ exists q n, placement_ok q n rs = true /\ rs' = (q, region_len n) :: rs.

(** An executable check of [vec_repr], and a vector of four elements in
    the block of [range_world]. *)
Definition vec_reprb (w : World) (v : vector) (xs : list Z) (cap : nat) : bool :=
  range_okb w (begin_ v) cap
  && (8 * Z.of_nat cap <? 2 ^ 63)
  && (end_ v =? begin_ v + 8 * Z.of_nat (length xs))
  && (capacity_ v =? begin_ v + 8 * Z.of_nat cap)
  && (length xs <=? cap)%nat
  && words_atb (mem w) (begin_ v) xs.

Definition range_vec : vector := mkVector 4096 4128 4160.

(** ** Example runs of a vector *)

Definition run_result {A} (d : A) (m : M A) (w : World) : A :=
  match m w with
  | Ok a _ => a
  | _ => d
  end.

(** A heap that grants an arena at 4096 and a large block at 1048576. *)
Definition vec_w0 : World := initial_world [4096; 1048576].

(** [vector v(16, 7)]: sixteen elements in a block of sixteen. *)
Definition vec16 : vector :=
  run_result vector.default (vector.ctor_fill 16 (Temp 7)) vec_w0.
Definition vec_w16 : World := run_world (vector.ctor_fill 16 (Temp 7)) vec_w0.

(** [vector v(0, 7)]: no element in a block of sixteen. *)
Definition vec_empty : vector :=
  run_result vector.default (vector.ctor_fill 0 (Temp 7)) vec_w0.
Definition vec_w_empty : World := run_world (vector.ctor_fill 0 (Temp 7)) vec_w0.

(** A pooled block and a block from the system heap, held together. *)
Definition mix_p1 : Z := run_value (MemoryPoolAllocator.Allocate 8) vec_w0.
Definition mix_w1 : World := run_world (MemoryPoolAllocator.Allocate 8) vec_w0.
Definition mix_p2 : Z := run_value (MemoryPoolAllocator.Allocate 200) mix_w1.
Definition mix_w2 : World := run_world (MemoryPoolAllocator.Allocate 200) mix_w1.

(** The client has written into both blocks. *)
Definition mix_w3 : World :=
  run_world (store64 (mix_p2 + 16) 9) (run_world (store64 mix_p1 5) mix_w2).

(** A block of 193 bytes from the system heap. *)
Definition big_p : Z := run_value (MemoryPoolAllocator.Allocate 193) vec_w0.
Definition big_w : World := run_world (MemoryPoolAllocator.Allocate 193) vec_w0.

(** ** include/iterator.h: Distance and Advance

    The overloads for input and bidirectional iterators are read over an
    iterator type [I] given by [++], [--] and [==]; their loops carry fuel.
    The overloads for random access iterators are read at [T *].  The
    distance is a [std::ptrdiff_t]. *)

Section Iterators.
Context {I : Type} (inc dec : I -> I) (eqb : I -> I -> bool).

(** [while (first != last) { ++first; ++n; }] *)
Fixpoint Distance_loop (fuel : nat) (first last : I) (n : Z) : option Z :=
  match fuel with
  | O => None
  | S fuel' =>
      if negb (eqb first last)
      then Distance_loop fuel' (inc first) last (to_ptrdiff (n + 1))
      else Some n
  end.

Definition Distance_input (fuel : nat) (first last : I) : option Z :=
  Distance_loop fuel first last 0.

(** [while (n--) { ++i; }] *)
Fixpoint Advance_input (fuel : nat) (i : I) (n : Z) : option I :=
  match fuel with
  | O => None
  | S fuel' =>
      if negb (n =? 0) then Advance_input fuel' (inc i) (to_ptrdiff (n - 1))
      else Some i
  end.

(** [while (n++) { --i; }] *)
Fixpoint Advance_back (fuel : nat) (i : I) (n : Z) : option I :=
  match fuel with
  | O => None
  | S fuel' =>
      if negb (n =? 0) then Advance_back fuel' (dec i) (to_ptrdiff (n + 1))
      else Some i
  end.

Definition Advance_bidirectional (fuel : nat) (i : I) (n : Z) : option I :=
  if 0 <? n then Advance_input fuel i n else Advance_back fuel i n.

End Iterators.

(** [last - first] and [i += n] on a [T *]. *)
Definition Distance_random (first last : Z) : Z := ptr_diff last first.
Definition Advance_random (i n : Z) : Z := ptr_add i n.

(** ** The rounds of the retry loops

    [failed_rounds code attempt k w w']: starting in [w], [k] rounds in a
    row found a handler installed, called it, saw it return, and then saw
    [attempt] (the retried malloc or realloc) return [nullptr]; [w'] is the
    state after the last of them. *)
Inductive failed_rounds (code : Z -> M unit) (attempt : M Z)
  : nat -> World -> World -> Prop :=
| failed_rounds_O w : failed_rounds code attempt O w w
| failed_rounds_S k w w1 w2 w' :
    CustomerOomHandler w <> 0 ->
    WithHandler.call code (CustomerOomHandler w) w = Ok tt w1 ->
    attempt w1 = Ok 0 w2 ->
    failed_rounds code attempt k w2 w' ->
    failed_rounds code attempt (S k) w w'.

(** The computation [r] ended where [o] did not return. *)
Definition stops_with {A B} (o : outcome A) (r : outcome B) : Prop :=
  match o with
  | Ok _ _ => False
  | Aborted w => r = Aborted w
  | Undefined f => r = Undefined f
  | OutOfFuel => r = OutOfFuel
  end.

(** A handler that leaves the block at [obj] alone: when it returns or
    aborts, the block is as live as it was and holds the words it held. *)
Definition keeps_block (code : Z -> M unit) (obj : Z) (old : Z * Z) : Prop :=
  forall h u,
    List.find (is_base obj) (regions u) = Some old ->
    match code h u with
    | Ok _ u' | Aborted u' =>
        List.find (is_base obj) (regions u') = Some old
        /\ forall a, obj <= a < obj + snd old -> mem u' !! a = mem u !! a
    | _ => True
    end.

(** A handler that returns, stays installed and makes no memory available:
    the handler pointer, the answers malloc will give and the record of
    calls are as it found them. *)
Definition idle_handler (code : Z -> M unit) (h : Z) : Prop :=
  forall u, exists u',
    code h u = Ok tt u'
    /\ CustomerOomHandler u' = CustomerOomHandler u
    /\ oracle u' = oracle u /\ trace u' = trace u.

(** A handler that returns having cleared the handler pointer. *)
Definition self_clearing_handler (code : Z -> M unit) (h : Z) : Prop :=
  forall u, exists u',
    code h u = Ok tt u'
    /\ CustomerOomHandler u' = 0
    /\ oracle u' = oracle u /\ trace u' = trace u.

(** The value behind a [const T&] parameter is a temporary, or an object
    inside a block the client holds. *)
Definition held_ref (out : list (Z * Z)) (value : const_ref) : Prop :=
  match value with
  | Temp _ => True
  | Ref a => exists q t, (q, t) ∈ out /\ q <> 0 /\ q <= a < q + block_len t
  end.

(** ** A block that went back to the allocator

    [Deallocate(p, s)] was the last thing that happened to the block at
    [p]: a pooled block is the head of the free list of its class, a block
    from the system heap is no longer a live region. *)
Definition given_back (w : World) (p s : Z) : Prop :=
  if kMaxBytes <? s then p ∉ map fst (regions w)
  else head_of w s = Some p.

(** * Properties *)

(** ** Machine arithmetic *)

Lemma wrap_range z : 0 <= wrap z < 2 ^ 64.
Proof. unfold wrap. apply Z.mod_pos_bound. lia. Qed.

Lemma wrap_small z : 0 <= z < 2 ^ 64 -> wrap z = z.
Proof. intros H. unfold wrap. apply Z.mod_small. exact H. Qed.

Lemma wrap_lnot_mask : wrap (Z.lnot (kAlign - 1)) = 2 ^ 64 - 8.
Proof. reflexivity. Qed.

Lemma land_mask x : 0 <= x < 2 ^ 64 -> Z.land x (2 ^ 64 - 8) = 8 * (x / 8).
Proof.
  intros Hx.
  assert (Hm : 2 ^ 64 - 8 = Z.land (Z.lnot (Z.ones 3)) (Z.ones 64)).
  { rewrite Z.land_ones by lia. reflexivity. }
  rewrite Hm, (Z.land_comm (Z.lnot _)), Z.land_assoc.
  rewrite (Z.land_ones x 64) by lia.
  rewrite Z.mod_small by lia.
  rewrite <- Z.ldiff_land, Z.ldiff_ones_r by lia.
  rewrite Z.shiftr_div_pow2, Z.shiftl_mul_pow2 by lia.
  change (2 ^ 3) with 8. lia.
Qed.

Lemma RoundUp_eq bytes :
  MemoryPoolAllocator.RoundUp bytes = 8 * (wrap (bytes + 7) / 8).
Proof.
  unfold MemoryPoolAllocator.RoundUp. rewrite wrap_lnot_mask.
  change (bytes + kAlign - 1) with (bytes + 8 - 1).
  replace (bytes + 8 - 1) with (bytes + 7) by lia.
  apply land_mask, wrap_range.
Qed.

Lemma RoundUp_range bytes :
  0 <= MemoryPoolAllocator.RoundUp bytes <= 2 ^ 64 - 8.
Proof.
  rewrite RoundUp_eq. pose proof (wrap_range (bytes + 7)) as H.
  assert (0 <= wrap (bytes + 7) / 8 < 2 ^ 61).
  { split; [apply Z.div_pos; lia|].
    apply Z.div_lt_upper_bound; [lia|]. change (8 * 2 ^ 61) with (2 ^ 64). lia. }
  lia.
Qed.

Lemma RoundUp_multiple bytes : MemoryPoolAllocator.RoundUp bytes mod 8 = 0.
Proof. rewrite RoundUp_eq, Z.mul_comm. apply Z.mod_mul. lia. Qed.

Lemma RoundUp_fix r :
  0 <= r <= 2 ^ 64 - 8 -> r mod 8 = 0 -> MemoryPoolAllocator.RoundUp r = r.
Proof.
  intros Hr Hm. rewrite RoundUp_eq, wrap_small by lia.
  pose proof (Z.div_mod r 8 ltac:(lia)) as Hd.
  replace (r + 7) with (r / 8 * 8 + 7) by lia.
  rewrite Z.div_add_l by lia. change (7 / 8) with 0. lia.
Qed.

(** C7. RoundUp is idempotent on every value, wrap-around included:
    [RoundUp (RoundUp s) = RoundUp s], with
    [RoundUp s = (s + 7) & ~7] computed in 64-bit unsigned arithmetic. *)
Theorem RoundUp_idempotent (s : Z) :
  MemoryPoolAllocator.RoundUp (MemoryPoolAllocator.RoundUp s)
  = MemoryPoolAllocator.RoundUp s.
Proof.
  apply RoundUp_fix; [apply RoundUp_range | apply RoundUp_multiple].
Qed.

(** ** Size zero reaches an out-of-bounds free list *)

Lemma node_at_out_of_bounds index w :
  kFreeListNum <= index -> node_at index w = Undefined (OutOfBounds index).
Proof.
  intros H. unfold node_at.
  destruct (0 <=? index); simpl; [|reflexivity].
  destruct (index <? kFreeListNum) eqn:E; [|reflexivity].
  apply Z.ltb_lt in E. lia.
Qed.

(** C9. [Allocate 0] does not take the large-object branch (0 is not above
    the ceiling); the free-list index it computes, (0 + 7) / 8 - 1 in
    unsigned arithmetic, is 2^64 - 1, which is outside the 16-entry
    array, and the call ends in that out-of-bounds access in every
    state. *)
Theorem Allocate_zero_out_of_bounds (w : World) :
  (kMaxBytes <? 0) = false
  /\ MemoryPoolAllocator.GetFreelistIndex 0 = 2 ^ 64 - 1
  /\ kFreeListNum <= MemoryPoolAllocator.GetFreelistIndex 0
  /\ MemoryPoolAllocator.Allocate 0 w = Undefined (OutOfBounds (2 ^ 64 - 1)).
Proof.
  assert (Hi : MemoryPoolAllocator.GetFreelistIndex 0 = 2 ^ 64 - 1) by reflexivity.
  split; [reflexivity|]. split; [exact Hi|]. split.
  - rewrite Hi. vm_compute. discriminate.
  - unfold MemoryPoolAllocator.Allocate.
    change (kMaxBytes <? 0) with false. cbv iota. rewrite Hi.
    unfold MemoryPoolList.Empty, bind.
    rewrite node_at_out_of_bounds; [reflexivity|].
    vm_compute. discriminate.
Qed.

(** ** The typed wrapper *)

(** C10. [AllocatorWrapper<T>::Deallocate(ptr, 0)] returns at once, for every
    element size, every configured allocator and every pointer: the world is
    left exactly as it was, and since this holds whatever the allocator's
    own Deallocate would do, that function is not called.  In particular
    [Deallocate(Allocate(0), 0)] is safe. *)
Theorem Wrapper_Deallocate_zero (sizeof_T : Z) (A : Allocator) (ptr : Z) (w : World) :
  AllocatorWrapper.Deallocate sizeof_T A ptr 0 w = Ok tt w
  /\ (p <- AllocatorWrapper.Allocate sizeof_T A 0 ;;
      AllocatorWrapper.Deallocate sizeof_T A p 0) w = Ok tt w.
Proof. split; reflexivity. Qed.

(** [AllocatorWrapper<T>::Allocate(n)] as the code computes it: nullptr
    for [n = 0] without calling the configured allocator (the result is the
    same whatever that allocator does); for [n <> 0] the allocator's
    Allocate on [n * sizeof(T)] computed in [size_t], that is reduced
    modulo 2^64, whose result it returns; when the product fits in
    [size_t] the request is [n * sizeof(T)] itself. *)
Theorem Wrapper_Allocate_request (sizeof_T : Z) (A : Allocator) (n : Z) (w : World) :
  AllocatorWrapper.Allocate sizeof_T A 0 w = Ok 0 w
  /\ (n <> 0 ->
      AllocatorWrapper.Allocate sizeof_T A n w
      = Allocator_Allocate A (wrap (n * sizeof_T)) w)
  /\ (n <> 0 -> 0 <= n * sizeof_T < 2 ^ 64 ->
      AllocatorWrapper.Allocate sizeof_T A n w
      = Allocator_Allocate A (n * sizeof_T) w).
Proof.
  split; [reflexivity|].
  assert (Hn : n <> 0 ->
               AllocatorWrapper.Allocate sizeof_T A n w
               = Allocator_Allocate A (wrap (n * sizeof_T)) w).
  { intros Hne. unfold AllocatorWrapper.Allocate.
    destruct (n =? 0) eqn:E; [apply Z.eqb_eq in E; contradiction | reflexivity]. }
  split; [exact Hn|].
  intros Hne Hfit. rewrite Hn by exact Hne. rewrite wrap_small by exact Hfit.
  reflexivity.
Qed.

Lemma Wrapper_Allocate_request_witness :
  AllocatorWrapper.Allocate 4 MallocAlloc 0 (initial_world [4096])
  = Ok 0 (initial_world [4096])
  /\ AllocatorWrapper.Allocate 4 MallocAlloc 10 (initial_world [4096])
     = MallocAllocator.Allocate 40 (initial_world [4096]).
Proof.
  destruct (Wrapper_Allocate_request 4 MallocAlloc 10 (initial_world [4096]))
    as (H0 & _ & H).
  split; [exact H0|].
  apply H; [discriminate | split; [vm_compute; discriminate | reflexivity]].
Defined.

(** C8. The wrapper does not request [n * sizeof(T)] bytes when that
    product does not fit in [size_t]: there is no overflow check.  Asking
    for 2^62 elements of 4 bytes computes 2^62 * 4 in [size_t], which is 0.
    Over MallocAllocator the call then requests 0 bytes from the system
    heap and hands the caller, for its 2^62 elements, a block of which
    not one word can be used; over the pool allocator, the default, it is
    Allocate(0), which indexes the free-list array out of bounds.  In
    neither case is it the allocator's Allocate on [n * sizeof(T)]. *)
Theorem Wrapper_Allocate_overflow :
  2 ^ 62 * 4 <> 0
  /\ wrap (2 ^ 62 * 4) = 0
  /\ (exists w',
        AllocatorWrapper.Allocate 4 MallocAlloc (2 ^ 62) (initial_world [4096])
        = Ok 4096 w'
        /\ trace w' = [EvMalloc 0 4096]
        /\ regions w' = [(4096, 1)]
        /\ accessible 4096 w' = false)
  /\ AllocatorWrapper.Allocate 4 Alloc (2 ^ 62) (initial_world [4096])
     = Undefined (OutOfBounds (2 ^ 64 - 1))
  /\ AllocatorWrapper.Allocate 4 MallocAlloc (2 ^ 62) (initial_world [4096])
     <> Allocator_Allocate MallocAlloc (2 ^ 62 * 4) (initial_world [4096]).
Proof.
  split; [vm_compute; discriminate|].
  split; [reflexivity|].
  split.
  - eexists. split; [vm_compute; reflexivity|].
    split; [reflexivity|]. split; [reflexivity | vm_compute; reflexivity].
  - split; [vm_compute; reflexivity | vm_compute; discriminate].
Qed.

(** ** Reallocate *)

Lemma node_at_Ok index w h w' :
  node_at index w = Ok h w' ->
  w' = w /\ 0 <= index < kFreeListNum /\ freelist_ w !! Z.to_nat index = Some h.
Proof.
  unfold node_at. intros H.
  destruct (0 <=? index) eqn:E1; simpl in H; [|discriminate].
  destruct (index <? kFreeListNum) eqn:E2; [|discriminate].
  destruct (freelist_ w !! Z.to_nat index) eqn:E3; [|discriminate].
  inversion H; subst. apply Z.leb_le in E1. apply Z.ltb_lt in E2. auto.
Qed.

Lemma Push_Ok index node w w' :
  MemoryPoolList.Push index node w = Ok tt w' ->
  exists h,
    node_at index w = Ok h w
    /\ accessible node w = true
    /\ w' = set_freelist (<[Z.to_nat index := node]> (freelist_ w))
                         (set_mem (<[node := h]> (mem w)) w).
Proof.
  unfold MemoryPoolList.Push, bind. intros H.
  destruct (node_at index w) as [h w1| | |] eqn:E; try discriminate.
  destruct (node_at_Ok _ _ _ _ E) as (-> & Hr & Hl).
  exists h. split; [reflexivity|].
  unfold MemoryPoolList.GetNextNode_assign, store64 in H. destruct (accessible node w) eqn:Ea; [|discriminate].
  split; [reflexivity|].
  unfold set_node_at in H. simpl in H.
  destruct ((0 <=? index) && (index <? kFreeListNum)); [|discriminate].
  rewrite Hl in H. inversion H. reflexivity.
Qed.

(** C6. [Reallocate(obj, oldsize, newsize)]: when both sizes round up to the
    same boundary the call returns [obj] and the world is untouched;
    otherwise it is [Deallocate(obj, oldsize)] followed by
    [Allocate(newsize)], returning what Allocate returns, and nothing is
    copied: for a pooled old block the deallocation even overwrites its
    first word with the free-list link. *)
Theorem Reallocate_spec (obj oldsize newsize : Z) (w : World) :
  (MemoryPoolAllocator.RoundUp oldsize = MemoryPoolAllocator.RoundUp newsize ->
   MemoryPoolAllocator.Reallocate obj oldsize newsize w = Ok obj w)
  /\ (MemoryPoolAllocator.RoundUp oldsize <> MemoryPoolAllocator.RoundUp newsize ->
      MemoryPoolAllocator.Reallocate obj oldsize newsize w
      = (MemoryPoolAllocator.Deallocate obj oldsize ;;;
         MemoryPoolAllocator.Allocate newsize) w)
  /\ (oldsize <= kMaxBytes ->
      forall w1, MemoryPoolAllocator.Deallocate obj oldsize w = Ok tt w1 ->
      exists h,
        node_at (MemoryPoolAllocator.GetFreelistIndex oldsize) w = Ok h w
        /\ mem w1 !! obj = Some h).
Proof.
  unfold MemoryPoolAllocator.Reallocate. repeat split.
  - intros H. rewrite H, Z.eqb_refl. reflexivity.
  - intros H.
    destruct (MemoryPoolAllocator.RoundUp newsize =? MemoryPoolAllocator.RoundUp oldsize) eqn:E;
      [apply Z.eqb_eq in E; congruence | reflexivity].
  - intros Hs w1 H. unfold MemoryPoolAllocator.Deallocate in H.
    destruct (kMaxBytes <? oldsize) eqn:E; [apply Z.ltb_lt in E; lia|].
    apply Push_Ok in H. destruct H as (h & Hn & _ & ->).
    exists h. split; [exact Hn|]. simpl. apply lookup_insert_eq.
Qed.

(** ** The system heap and the OOM protocol *)

(** One call of malloc always returns: either a fresh region or nullptr. *)
Lemma malloc_cases n w :
  (exists p,
     p <> 0
     /\ placement_ok p n (regions w) = true
     /\ malloc n w = Ok p (set_sys ((p, region_len n) :: regions w)
                                   (tl (oracle w)) (EvMalloc n p :: trace w) w))
  \/ malloc n w = Ok 0 (set_sys (regions w) (tl (oracle w))
                                (EvMalloc n 0 :: trace w) w).
Proof.
  unfold malloc, log. destruct (oracle w) as [|p o] eqn:Eo.
  - right. reflexivity.
  - destruct (placement_ok p n (regions w)) eqn:E.
    + left. exists p. repeat split; try assumption.
      intros ->. unfold placement_ok in E. simpl in E. discriminate.
    + right. reflexivity.
Qed.

Lemma failed_retries_shift k h size t :
  failed_retries k h size ++ EvMalloc size 0 :: EvHandler h :: t
  = EvMalloc size 0 :: EvHandler h :: failed_retries k h size ++ t.
Proof.
  induction k as [|k IH]; [reflexivity|].
  simpl. rewrite IH. reflexivity.
Qed.

Lemma MallocInOom_loop_spec left size w :
  CustomerOomHandler w <> 0 ->
  let h := CustomerOomHandler w in
  (exists k p w',
      (k < left)%nat /\ p <> 0
      /\ MallocAllocator.MallocInOom_loop left size w = Ok p w'
      /\ trace w' = EvMalloc size p :: EvHandler h :: failed_retries k h size ++ trace w
      /\ regions w' = (p, region_len size) :: regions w
      /\ placement_ok p size (regions w) = true
      /\ pool_state w' = pool_state w
      /\ CustomerOomHandler w' = h)
  \/ (exists w',
      MallocAllocator.MallocInOom_loop left size w = Ok 0 w'
      /\ trace w' = failed_retries left h size ++ trace w
      /\ regions w' = regions w
      /\ pool_state w' = pool_state w
      /\ CustomerOomHandler w' = h).
Proof.
  revert w. induction left as [|left IH]; intros w Hh h.
  - right. exists w. repeat split; reflexivity.
  - cbn [MallocAllocator.MallocInOom_loop]. unfold bind, get.
    destruct (CustomerOomHandler w =? 0) eqn:E; [apply Z.eqb_eq in E; contradiction|].
    unfold call_handler, modify. fold h.
    set (w1 := log (EvHandler h) w).
    destruct (malloc_cases size w1) as [(p & Hp & Hok & Hm) | Hm]; rewrite Hm.
    + left. exists O, p. eexists. split; [lia|]. split; [exact Hp|].
      destruct (p =? 0) eqn:Ep; [apply Z.eqb_eq in Ep; contradiction|].
      simpl. repeat split; try reflexivity. exact Hok.
    + simpl negb. cbv iota.
      set (w2 := set_sys _ _ _ w1).
      destruct (IH w2 Hh) as [(k & p & w' & Hk & Hp & Hr & Ht & Hreg & Hok & Hps & Hhd)
                             | (w' & Hr & Ht & Hreg & Hps & Hhd)].
      * left. exists (S k), p, w'. split; [lia|]. split; [exact Hp|].
        split; [exact Hr|]. repeat split; try assumption.
        rewrite Ht. simpl. rewrite failed_retries_shift. reflexivity.
      * right. exists w'. split; [exact Hr|]. repeat split; try assumption.
        rewrite Ht. simpl. rewrite failed_retries_shift. reflexivity.
Qed.

Lemma MallocAllocator_Allocate_first size w p w' :
  malloc size w = Ok p w' -> p <> 0 -> MallocAllocator.Allocate size w = Ok p w'.
Proof.
  intros Hm Hp. unfold MallocAllocator.Allocate, bind. rewrite Hm.
  destruct (p =? 0) eqn:E; [apply Z.eqb_eq in E; contradiction | reflexivity].
Qed.

Lemma MallocAllocator_Allocate_retry size w w0 :
  malloc size w = Ok 0 w0 ->
  MallocAllocator.Allocate size w = MallocAllocator.MallocInOom size w0.
Proof.
  intros Hm. unfold MallocAllocator.Allocate, bind. rewrite Hm. reflexivity.
Qed.

(** One round of the retry loop, spelled out. *)
Lemma MallocInOom_loop_S code left size w :
  WithHandler.MallocInOom_loop code (S left) size w
  = if CustomerOomHandler w =? 0 then Aborted (log EvAbort w)
    else match WithHandler.call code (CustomerOomHandler w) w with
         | Ok _ w1 =>
             match malloc size w1 with
             | Ok p w2 =>
                 if p =? 0 then WithHandler.MallocInOom_loop code left size w2
                 else Ok p w2
             | Aborted w' => Aborted w'
             | Undefined f => Undefined f
             | OutOfFuel => OutOfFuel
             end
         | Aborted w' => Aborted w'
         | Undefined f => Undefined f
         | OutOfFuel => OutOfFuel
         end.
Proof.
  cbn [WithHandler.MallocInOom_loop]. unfold bind at 1. unfold get.
  destruct (CustomerOomHandler w =? 0); [reflexivity|].
  unfold bind at 1.
  destruct (WithHandler.call code (CustomerOomHandler w) w) as [[] w1| | |];
    try reflexivity.
  unfold bind. destruct (malloc size w1) as [p w2| | |]; try reflexivity.
  destruct (p =? 0); reflexivity.
Qed.

Lemma malloc_returns n w : exists p w', malloc n w = Ok p w'.
Proof.
  destruct (malloc_cases n w) as [(p & _ & _ & H) | H];
    rewrite H; eexists; eexists; reflexivity.
Qed.

Lemma MallocInOom_loop_protocol code size left : forall w,
  exists k wk,
    (k <= left)%nat
    /\ failed_rounds code (malloc size) k w wk
    /\ ((k = left /\ WithHandler.MallocInOom_loop code left size w = Ok 0 wk)
        \/ ((k < left)%nat /\ CustomerOomHandler wk = 0
            /\ WithHandler.MallocInOom_loop code left size w
               = Aborted (log EvAbort wk))
        \/ ((k < left)%nat /\ CustomerOomHandler wk <> 0
            /\ exists w1 p w',
                 WithHandler.call code (CustomerOomHandler wk) wk = Ok tt w1
                 /\ malloc size w1 = Ok p w' /\ p <> 0
                 /\ WithHandler.MallocInOom_loop code left size w = Ok p w')
        \/ ((k < left)%nat /\ CustomerOomHandler wk <> 0
            /\ stops_with (WithHandler.call code (CustomerOomHandler wk) wk)
                          (WithHandler.MallocInOom_loop code left size w))).
Proof.
  induction left as [|left IH]; intros w.
  - exists O, w. split; [lia|]. split; [constructor|]. left. split; reflexivity.
  - rewrite MallocInOom_loop_S.
    destruct (CustomerOomHandler w =? 0) eqn:E.
    { apply Z.eqb_eq in E. exists O, w. split; [lia|]. split; [constructor|].
      right. left. split; [lia|]. split; [exact E | reflexivity]. }
    apply Z.eqb_neq in E.
    destruct (WithHandler.call code (CustomerOomHandler w) w) as [[] w1|wa|f|] eqn:Ec.
    + destruct (malloc_returns size w1) as (p & w2 & Hm). rewrite Hm.
      destruct (p =? 0) eqn:Ep.
      * apply Z.eqb_eq in Ep. subst p.
        destruct (IH w2) as (k & wk & Hk & Hfr & Hend).
        exists (S k), wk. split; [lia|].
        split; [eapply failed_rounds_S; eassumption|].
        destruct Hend as [(-> & Hr) | [(Hlt & Hh & Hr) | [(Hlt & Hh & Hr) | (Hlt & Hh & Hr)]]].
        -- left. split; [reflexivity | exact Hr].
        -- right. left. split; [lia|]. split; assumption.
        -- right. right. left. split; [lia|]. split; assumption.
        -- right. right. right. split; [lia|]. split; assumption.
      * apply Z.eqb_neq in Ep. exists O, w. split; [lia|]. split; [constructor|].
        right. right. left. split; [lia|]. split; [exact E|].
        exists w1, p, w2. rewrite Ec. repeat split; assumption.
    + exists O, w. split; [lia|]. split; [constructor|].
      right. right. right. split; [lia|]. split; [exact E|]. rewrite Ec. reflexivity.
    + exists O, w. split; [lia|]. split; [constructor|].
      right. right. right. split; [lia|]. split; [exact E|]. rewrite Ec. reflexivity.
    + exists O, w. split; [lia|]. split; [constructor|].
      right. right. right. split; [lia|]. split; [exact E|]. rewrite Ec. reflexivity.
Qed.

(** Rounds that failed are rounds the loop has gone through. *)
Lemma failed_rounds_loop code size k w wk :
  failed_rounds code (malloc size) k w wk ->
  forall left,
    WithHandler.MallocInOom_loop code (k + left) size w
    = WithHandler.MallocInOom_loop code left size wk.
Proof.
  induction 1 as [w | k w w1 w2 w' Hh Hc Hm _ IH]; intros left; [reflexivity|].
  change (S k + left)%nat with (S (k + left)).
  rewrite MallocInOom_loop_S.
  destruct (CustomerOomHandler w =? 0) eqn:E; [apply Z.eqb_eq in E; contradiction|].
  rewrite Hc, Hm. change (0 =? 0) with true. cbv iota. apply IH.
Qed.

(** C3. The OOM protocol of [MallocAllocator::Allocate(size)], for any
    handler code.  The first system allocation is returned when it is not
    null.  When it fails and no handler is installed, the process aborts.
    When it fails and a handler is installed, the call goes through at
    most three rounds, each of which reads the handler pointer afresh:
    [k] rounds in a row find a handler installed, call it, see it return
    and see the retried malloc fail, and
      - after three such rounds the call returns nullptr, it does not
        abort;
      - before that, a round that finds no handler installed aborts
        (the handler has cleared the pointer);
      - a round whose retried malloc succeeds returns that block;
      - a round whose handler does not return (it aborts, faults or runs
        for ever) ends the call the same way.
    So the handler is called at most three times. *)
Theorem MallocAllocator_Allocate_oom_protocol
        (code : Z -> M unit) (size : Z) (w : World) :
  ((exists p w', p <> 0 /\ malloc size w = Ok p w'
                 /\ WithHandler.Allocate code size w = Ok p w')
   \/ (exists w0 k wk,
         malloc size w = Ok 0 w0
         /\ (k <= 3)%nat
         /\ failed_rounds code (malloc size) k w0 wk
         /\ ((k = 3%nat /\ WithHandler.Allocate code size w = Ok 0 wk)
             \/ ((k < 3)%nat /\ CustomerOomHandler wk = 0
                 /\ WithHandler.Allocate code size w = Aborted (log EvAbort wk))
             \/ ((k < 3)%nat /\ CustomerOomHandler wk <> 0
                 /\ exists w1 p w',
                      WithHandler.call code (CustomerOomHandler wk) wk = Ok tt w1
                      /\ malloc size w1 = Ok p w' /\ p <> 0
                      /\ WithHandler.Allocate code size w = Ok p w')
             \/ ((k < 3)%nat /\ CustomerOomHandler wk <> 0
                 /\ stops_with (WithHandler.call code (CustomerOomHandler wk) wk)
                               (WithHandler.Allocate code size w)))))
  /\ (forall w0,
        malloc size w = Ok 0 w0 -> CustomerOomHandler w = 0 ->
        WithHandler.Allocate code size w = Aborted (log EvAbort w0))
  /\ (forall w0 wk,
        malloc size w = Ok 0 w0 ->
        failed_rounds code (malloc size) 3 w0 wk ->
        WithHandler.Allocate code size w = Ok 0 wk).
Proof.
  assert (HA : forall w0, malloc size w = Ok 0 w0 ->
                          WithHandler.Allocate code size w
                          = WithHandler.MallocInOom_loop code 3 size w0).
  { intros w0 Hm. unfold WithHandler.Allocate, bind. rewrite Hm. reflexivity. }
  split; [|split].
  - destruct (malloc_returns size w) as (p & w0 & Hm).
    destruct (Z.eq_dec p 0) as [-> | Hp].
    + right. rewrite (HA w0 Hm).
      destruct (MallocInOom_loop_protocol code size 3 w0)
        as (k & wk & Hk & Hfr & Hend).
      exists w0, k, wk. split; [exact Hm|]. split; [exact Hk|].
      split; [exact Hfr | exact Hend].
    + left. exists p, w0. split; [exact Hp|]. split; [exact Hm|].
      unfold WithHandler.Allocate, bind. rewrite Hm.
      destruct (p =? 0) eqn:E; [apply Z.eqb_eq in E; contradiction | reflexivity].
  - intros w0 Hm Hh. rewrite (HA w0 Hm), MallocInOom_loop_S.
    assert (Hh0 : CustomerOomHandler w0 = 0).
    { destruct (malloc_cases size w) as [(p & _ & _ & H) | H];
        rewrite H in Hm; inversion Hm; subst; exact Hh. }
    rewrite Hh0. reflexivity.
  - intros w0 wk Hm Hfr. rewrite (HA w0 Hm).
    apply (failed_rounds_loop code size 3 w0 wk Hfr O).
Qed.

Lemma MallocAllocator_Allocate_oom_protocol_witness :
  (exists wk,
     WithHandler.Allocate quiet_handler 100 (set_handler 7 (initial_world []))
     = Ok 0 wk)
  /\ (exists wa,
        WithHandler.Allocate quiet_handler 100 (initial_world []) = Aborted wa).
Proof.
  split.
  - destruct (MallocAllocator_Allocate_oom_protocol quiet_handler 100
                (set_handler 7 (initial_world []))) as (_ & _ & H).
    eexists. eapply H; [reflexivity|].
    eapply failed_rounds_S; [simpl; discriminate | reflexivity | reflexivity |].
    eapply failed_rounds_S; [simpl; discriminate | reflexivity | reflexivity |].
    eapply failed_rounds_S; [simpl; discriminate | reflexivity | reflexivity |].
    apply failed_rounds_O.
  - destruct (MallocAllocator_Allocate_oom_protocol quiet_handler 100
                (initial_world [])) as (_ & H & _).
    eexists. apply H; reflexivity.
Defined.

(** The retry loops studied with [call_handler] are the loops above run
    with a handler that returns at once. *)
Lemma MallocInOom_loop_quiet left size : forall w,
  WithHandler.MallocInOom_loop quiet_handler left size w
  = MallocAllocator.MallocInOom_loop left size w.
Proof.
  induction left as [|left IH]; intros w; [reflexivity|].
  rewrite MallocInOom_loop_S.
  cbn [MallocAllocator.MallocInOom_loop]. unfold bind at 1. unfold get.
  destruct (CustomerOomHandler w =? 0); [reflexivity|].
  change (WithHandler.call quiet_handler (CustomerOomHandler w) w)
    with (call_handler (CustomerOomHandler w) w).
  unfold bind at 1. unfold call_handler, modify.
  unfold bind. destruct (malloc size _) as [p w2| | |]; try reflexivity.
  destruct (p =? 0); [apply IH | reflexivity].
Qed.

Lemma Allocate_quiet size w :
  WithHandler.Allocate quiet_handler size w = MallocAllocator.Allocate size w.
Proof.
  unfold WithHandler.Allocate, MallocAllocator.Allocate, bind.
  destruct (malloc size w) as [p w1| | |]; [|reflexivity..].
  destruct (p =? 0); [|reflexivity].
  apply MallocInOom_loop_quiet.
Qed.

(** The protocol on a heap that cannot satisfy the request.  A handler
    that returns at once is called three times and the call returns
    nullptr; a handler that uninstalls itself is called once and the second
    round aborts; a handler that aborts ends the call in its first round. *)
Example MallocAllocator_Allocate_exhausted :
  (exists w',
     WithHandler.Allocate quiet_handler 100 (set_handler 7 (initial_world [])) = Ok 0 w'
     /\ trace w' = [EvMalloc 100 0; EvHandler 7; EvMalloc 100 0; EvHandler 7;
                    EvMalloc 100 0; EvHandler 7; EvMalloc 100 0])
  /\ (exists wa,
        WithHandler.Allocate clearing_handler 100 (set_handler 7 (initial_world []))
        = Aborted wa
        /\ trace wa = [EvAbort; EvMalloc 100 0; EvHandler 7; EvMalloc 100 0])
  /\ (exists wa,
        WithHandler.Allocate aborting_handler 100 (set_handler 7 (initial_world []))
        = Aborted wa
        /\ trace wa = [EvAbort; EvHandler 7; EvMalloc 100 0]).
Proof.
  split; [|split]; eexists; (split; [vm_compute; reflexivity | reflexivity]).
Qed.

(** ** Large requests bypass the pool *)

Lemma placement_ok_fresh p n rs :
  placement_ok p n rs = true ->
  page_size <= p /\ p mod malloc_align = 0 /\ p + region_len n < 2 ^ 64
  /\ Forall (fun r => p + region_len n <= fst r \/ fst r + snd r <= p) rs.
Proof.
  unfold placement_ok. intros H.
  apply andb_prop in H. destruct H as [H H4].
  apply andb_prop in H. destruct H as [H H3].
  apply andb_prop in H. destruct H as [H1 H2].
  apply Z.leb_le in H1. apply Z.eqb_eq in H2. apply Z.ltb_lt in H3.
  repeat split; try assumption.
  rewrite forallb_forall in H4. apply Forall_forall. intros r Hr.
  apply list_elem_of_In in Hr. specialize (H4 r Hr). unfold disjointb in H4.
  apply orb_prop in H4. destruct H4 as [H4 | H4]; apply Z.leb_le in H4; auto.
Qed.

Lemma MallocAllocator_Allocate_frame size w :
  match MallocAllocator.Allocate size w with
  | Ok p w' =>
      pool_state w' = pool_state w
      /\ CustomerOomHandler w' = CustomerOomHandler w
      /\ ((p <> 0 /\ regions w' = (p, region_len size) :: regions w
           /\ placement_ok p size (regions w) = true)
          \/ (p = 0 /\ regions w' = regions w))
  | Aborted w' => pool_state w' = pool_state w /\ regions w' = regions w
  | _ => False
  end.
Proof.
  destruct (malloc_cases size w) as [(p & Hp & Hok & Hm) | Hm].
  - rewrite (MallocAllocator_Allocate_first _ _ _ _ Hm Hp).
    split; [reflexivity|]. split; [reflexivity|]. left. auto.
  - rewrite (MallocAllocator_Allocate_retry _ _ _ Hm).
    set (w0 := set_sys _ _ _ w).
    destruct (Z.eq_dec (CustomerOomHandler w0) 0) as [Hz | Hnz].
    + unfold MallocAllocator.MallocInOom. simpl. unfold bind, get.
      rewrite Hz. simpl. split; reflexivity.
    + destruct (MallocInOom_loop_spec MallocAllocator.max_retries size w0 Hnz)
        as [(k & p & w' & Hk & Hp & Hr & Ht & Hreg & Hok & Hps & Hh)
           | (w' & Hr & Ht & Hreg & Hps & Hh)];
        unfold MallocAllocator.MallocInOom; rewrite Hr.
      * split; [exact Hps|]. split; [exact Hh|]. left. auto.
      * split; [exact Hps|]. split; [exact Hh|]. right. auto.
Qed.

(** C4. For every size above the 128-byte ceiling, the pool's Allocate is
    the raw allocator's Allocate and its Deallocate is the raw allocator's
    Deallocate (std::free).  Neither touches the pool: the free-list heads,
    the arena bounds, the allocation counter and the link words in memory
    are the same afterwards, and a block that Allocate returns is a region
    fresh from the system heap, disjoint from every region that was live
    before (so from the arena and from every free block). *)
Theorem Large_size_routing (s ptr : Z) (w : World) :
  kMaxBytes < s ->
  MemoryPoolAllocator.Allocate s w = MallocAllocator.Allocate s w
  /\ MemoryPoolAllocator.Deallocate ptr s w = MallocAllocator.Deallocate ptr s w
  /\ match MemoryPoolAllocator.Allocate s w with
     | Ok p w' =>
         pool_state w' = pool_state w
         /\ (p <> 0 ->
             regions w' = (p, region_len s) :: regions w
             /\ Forall (fun r => p + region_len s <= fst r \/ fst r + snd r <= p)
                       (regions w))
     | Aborted w' => pool_state w' = pool_state w
     | _ => False
     end
  /\ match MemoryPoolAllocator.Deallocate ptr s w with
     | Ok _ w' => pool_state w' = pool_state w
     | Undefined f => f = BadFree ptr
     | _ => False
     end.
Proof.
  intros Hs.
  assert (E : (kMaxBytes <? s) = true) by (apply Z.ltb_lt; exact Hs).
  unfold MemoryPoolAllocator.Allocate, MemoryPoolAllocator.Deallocate.
  rewrite E. split; [reflexivity|]. split; [reflexivity|]. split.
  - pose proof (MallocAllocator_Allocate_frame s w) as H.
    destruct (MallocAllocator.Allocate s w) as [p w'|w'| |]; try exact H.
    + destruct H as (Hps & _ & Hr). split; [exact Hps|].
      intros Hp. destruct Hr as [(_ & Hreg & Hok) | (Hz & _)]; [|contradiction].
      split; [exact Hreg|]. apply placement_ok_fresh in Hok. apply Hok.
    + apply H.
  - unfold MallocAllocator.Deallocate, free.
    destruct (ptr =? 0); [reflexivity|].
    destruct (existsb (is_base ptr) (regions w)); reflexivity.
Qed.

Lemma Large_size_routing_witness :
  MemoryPoolAllocator.Allocate 200 (initial_world [8192])
  = MallocAllocator.Allocate 200 (initial_world [8192])
  /\ MemoryPoolAllocator.Deallocate 8192 200 (initial_world [8192])
     = MallocAllocator.Deallocate 8192 200 (initial_world [8192]).
Proof.
  destruct (Large_size_routing 200 8192 (initial_world [8192])) as (H1 & H2 & _).
  - reflexivity.
  - split; assumption.
Defined.

(** ** The intrusive free lists *)

Lemma node_at_eq index w h :
  0 <= index < kFreeListNum ->
  freelist_ w !! Z.to_nat index = Some h ->
  node_at index w = Ok h w.
Proof.
  intros [H1 H2] Hl. unfold node_at.
  apply Z.leb_le in H1. apply Z.ltb_lt in H2. rewrite H1, H2, Hl. reflexivity.
Qed.

Lemma set_node_at_eq index v w h :
  0 <= index < kFreeListNum ->
  freelist_ w !! Z.to_nat index = Some h ->
  set_node_at index v w
  = Ok tt (set_freelist (<[Z.to_nat index := v]> (freelist_ w)) w).
Proof.
  intros [H1 H2] Hl. unfold set_node_at.
  apply Z.leb_le in H1. apply Z.ltb_lt in H2. rewrite H1, H2, Hl. reflexivity.
Qed.

Lemma Empty_eq index w h :
  0 <= index < kFreeListNum ->
  freelist_ w !! Z.to_nat index = Some h ->
  MemoryPoolList.Empty index w = Ok (h =? 0) w.
Proof.
  intros Hi Hl. unfold MemoryPoolList.Empty, bind.
  rewrite (node_at_eq _ _ _ Hi Hl). reflexivity.
Qed.

Lemma Push_eq index node w h :
  0 <= index < kFreeListNum ->
  freelist_ w !! Z.to_nat index = Some h ->
  accessible node w = true ->
  MemoryPoolList.Push index node w
  = Ok tt (set_freelist (<[Z.to_nat index := node]> (freelist_ w))
                        (set_mem (<[node := h]> (mem w)) w)).
Proof.
  intros Hi Hl Ha. unfold MemoryPoolList.Push, bind.
  rewrite (node_at_eq _ _ _ Hi Hl). unfold MemoryPoolList.GetNextNode_assign, store64. rewrite Ha.
  rewrite (set_node_at_eq index node (set_mem _ w) h Hi Hl). reflexivity.
Qed.

Lemma Pop_eq index w h next :
  0 <= index < kFreeListNum ->
  freelist_ w !! Z.to_nat index = Some h ->
  accessible h w = true ->
  mem w !! h = Some next ->
  MemoryPoolList.Pop index w
  = Ok h (set_freelist (<[Z.to_nat index := next]> (freelist_ w)) w).
Proof.
  intros Hi Hl Ha Hm. unfold MemoryPoolList.Pop, bind.
  rewrite (node_at_eq _ _ _ Hi Hl). unfold MemoryPoolList.GetNextNode, load64. rewrite Ha, Hm.
  rewrite (set_node_at_eq index next w h Hi Hl). reflexivity.
Qed.

Lemma accessible_nonnull a w : accessible a w = true -> a <> 0.
Proof.
  unfold accessible. intros H.
  apply andb_prop in H. destruct H as [H _].
  apply andb_prop in H. destruct H as [H _].
  intros ->. discriminate.
Qed.

Lemma Allocate_small size w :
  size <= kMaxBytes ->
  MemoryPoolAllocator.Allocate size w
  = (e <- MemoryPoolList.Empty (MemoryPoolAllocator.GetFreelistIndex size) ;;
     if e then MemoryPoolAllocator.ReFill (MemoryPoolAllocator.RoundUp size)
     else MemoryPoolList.Pop (MemoryPoolAllocator.GetFreelistIndex size)) w.
Proof.
  intros H. unfold MemoryPoolAllocator.Allocate.
  destruct (kMaxBytes <? size) eqn:E; [apply Z.ltb_lt in E; lia | reflexivity].
Qed.

Lemma Deallocate_small obj size w :
  size <= kMaxBytes ->
  MemoryPoolAllocator.Deallocate obj size w
  = MemoryPoolList.Push (MemoryPoolAllocator.GetFreelistIndex size) obj w.
Proof.
  intros H. unfold MemoryPoolAllocator.Deallocate.
  destruct (kMaxBytes <? size) eqn:E; [apply Z.ltb_lt in E; lia | reflexivity].
Qed.

(** C5. Free-list reuse is LIFO.  Take three sizes of one size class, all
    within the ceiling.  If Allocate returned [p1] and then [p2], and the
    caller then carried out [Deallocate(p1)] followed by [Deallocate(p2)],
    the next Allocate in that class returns [p2], the address freed last,
    and leaves [p1] at the head of the class's list. *)
Theorem LIFO_reuse (s1 s2 s3 p1 p2 : Z) (w w1 w2 w3 w4 : World) :
  0 < s1 <= kMaxBytes -> 0 < s2 <= kMaxBytes -> 0 < s3 <= kMaxBytes ->
  MemoryPoolAllocator.GetFreelistIndex s2 = MemoryPoolAllocator.GetFreelistIndex s1 ->
  MemoryPoolAllocator.GetFreelistIndex s3 = MemoryPoolAllocator.GetFreelistIndex s1 ->
  MemoryPoolAllocator.Allocate s1 w = Ok p1 w1 ->
  MemoryPoolAllocator.Allocate s2 w1 = Ok p2 w2 ->
  MemoryPoolAllocator.Deallocate p1 s1 w2 = Ok tt w3 ->
  MemoryPoolAllocator.Deallocate p2 s2 w3 = Ok tt w4 ->
  exists w5,
    MemoryPoolAllocator.Allocate s3 w4 = Ok p2 w5
    /\ node_at (MemoryPoolAllocator.GetFreelistIndex s1) w5 = Ok p1 w5.
Proof.
  intros Hs1 Hs2 Hs3 E2 E3 _ _ D1 D2.
  set (i := MemoryPoolAllocator.GetFreelistIndex s1) in *.
  rewrite Deallocate_small in D1 by lia. rewrite Deallocate_small in D2 by lia.
  rewrite E2 in D2. fold i in D1.
  apply Push_Ok in D1. destruct D1 as (h1 & N1 & A1 & ->).
  apply Push_Ok in D2. destruct D2 as (h2 & N2 & A2 & ->).
  apply node_at_Ok in N1. destruct N1 as (_ & Hi & L1).
  apply node_at_Ok in N2. destruct N2 as (_ & _ & L2).
  simpl in L2, A2.
  assert (Hlen : (Z.to_nat i < length (freelist_ w2))%nat)
    by (apply lookup_lt_is_Some; eauto).
  rewrite list_lookup_insert_eq in L2 by exact Hlen.
  inversion L2; subst h2. clear L2.
  set (w4 := set_freelist _ _).
  assert (Hhead : freelist_ w4 !! Z.to_nat i = Some p2).
  { simpl. apply list_lookup_insert_eq. rewrite length_insert. exact Hlen. }
  assert (Hp2 : p2 <> 0) by (eapply accessible_nonnull; exact A2).
  eexists. split.
  - rewrite Allocate_small by lia. rewrite E3. fold i. unfold bind.
    rewrite (Empty_eq _ _ _ Hi Hhead).
    destruct (p2 =? 0) eqn:Ez; [apply Z.eqb_eq in Ez; contradiction|].
    apply (Pop_eq i w4 p2 p1 Hi Hhead).
    + exact A2.
    + simpl. apply lookup_insert_eq.
  - apply node_at_eq; [exact Hi|]. simpl.
    apply list_lookup_insert_eq. rewrite !length_insert. exact Hlen.
Qed.

Lemma LIFO_reuse_witness :
  exists w5,
    MemoryPoolAllocator.Allocate 5 lifo_w4 = Ok lifo_p2 w5
    /\ node_at (MemoryPoolAllocator.GetFreelistIndex 8) w5 = Ok lifo_p1 w5.
Proof.
  apply (LIFO_reuse 8 3 5 lifo_p1 lifo_p2 lifo_w0 lifo_w1 lifo_w2 lifo_w3 lifo_w4);
    vm_compute; repeat split; try reflexivity; discriminate.
Defined.

(** ** Size classes *)

Lemma GetFreelistIndex_small bytes :
  0 < bytes <= kMaxBytes ->
  MemoryPoolAllocator.GetFreelistIndex bytes = (bytes + 7) / 8 - 1
  /\ 0 <= MemoryPoolAllocator.GetFreelistIndex bytes < kFreeListNum.
Proof.
  unfold kMaxBytes. intros H.
  unfold MemoryPoolAllocator.GetFreelistIndex, kAlign.
  replace (bytes + 8 - 1) with (bytes + 7) by lia.
  assert (H1 : 1 <= (bytes + 7) / 8) by (apply Z.div_le_lower_bound; lia).
  assert (H2 : (bytes + 7) / 8 < 17) by (apply Z.div_lt_upper_bound; lia).
  rewrite (wrap_small (bytes + 7)) by lia.
  rewrite wrap_small by lia.
  split; [reflexivity|]. change kFreeListNum with 16. lia.
Qed.

Lemma RoundUp_small bytes :
  0 < bytes <= kMaxBytes ->
  MemoryPoolAllocator.RoundUp bytes
  = 8 * (MemoryPoolAllocator.GetFreelistIndex bytes + 1)
  /\ 8 <= MemoryPoolAllocator.RoundUp bytes <= kMaxBytes
  /\ bytes <= MemoryPoolAllocator.RoundUp bytes.
Proof.
  intros H. destruct (GetFreelistIndex_small bytes H) as [-> _].
  unfold kMaxBytes in *. rewrite RoundUp_eq, wrap_small by lia.
  assert (H1 : 1 <= (bytes + 7) / 8) by (apply Z.div_le_lower_bound; lia).
  assert (H2 : (bytes + 7) / 8 < 17) by (apply Z.div_lt_upper_bound; lia).
  pose proof (Z.div_mod (bytes + 7) 8 ltac:(lia)) as Hd.
  pose proof (Z.mod_pos_bound (bytes + 7) 8 ltac:(lia)) as Hm.
  lia.
Qed.

(** A remainder of class size is filed under its own class. *)
Lemma GetFreelistIndex_multiple bytes :
  8 <= bytes <= kMaxBytes -> bytes mod 8 = 0 ->
  8 * (MemoryPoolAllocator.GetFreelistIndex bytes + 1) = bytes.
Proof.
  intros H Hm. destruct (GetFreelistIndex_small bytes ltac:(lia)) as [-> _].
  pose proof (Z.div_mod bytes 8 ltac:(lia)) as Hd.
  replace (bytes + 7) with (bytes / 8 * 8 + 7) by lia.
  rewrite Z.div_add_l by lia. change (7 / 8) with 0. lia.
Qed.

(** ** The scan over the free lists *)

Lemma scan_freelists_none fuel i w :
  0 < i <= 136 -> 144 - i <= 8 * Z.of_nat fuel ->
  (forall j, i <= j <= kMaxBytes -> (j - i) mod 8 = 0 -> head_of w j = Some 0) ->
  MemoryPoolAllocator.scan_freelists fuel i w = Ok false w.
Proof.
  revert i. induction fuel as [|fuel IH]; intros i Hi Hf Hall; [lia|].
  cbn [MemoryPoolAllocator.scan_freelists].
  destruct (i <=? kMaxBytes) eqn:E; [|reflexivity].
  apply Z.leb_le in E. unfold kMaxBytes in *.
  destruct (GetFreelistIndex_small i ltac:(unfold kMaxBytes; lia)) as [_ Hr].
  unfold bind.
  rewrite (Empty_eq _ w 0 Hr); [|apply Hall; [lia | rewrite Z.sub_diag; reflexivity]].
  simpl. unfold kAlign. rewrite wrap_small by lia.
  apply IH; [lia | lia |].
  intros j Hj Hm. apply Hall; [lia|].
  replace (j - i) with (j - (i + 8) + 1 * 8) by lia.
  rewrite Z.mod_add by lia. exact Hm.
Qed.

Lemma scan_freelists_found fuel i i' h next w :
  0 < i <= i' -> i' <= kMaxBytes -> (i' - i) mod 8 = 0 ->
  144 - i <= 8 * Z.of_nat fuel ->
  (forall j, i <= j < i' -> (j - i) mod 8 = 0 -> head_of w j = Some 0) ->
  head_of w i' = Some h -> h <> 0 ->
  accessible h w = true -> mem w !! h = Some next ->
  MemoryPoolAllocator.scan_freelists fuel i w
  = Ok true
       (set_end (wrap (h + i'))
          (set_start h
             (set_freelist
                (<[Z.to_nat (MemoryPoolAllocator.GetFreelistIndex i') := next]>
                   (freelist_ w)) w))).
Proof.
  revert i. induction fuel as [|fuel IH];
    intros i Hi Hi' Hmod Hf Hall Hh Hnz Ha Hm; unfold kMaxBytes in *; [lia|].
  cbn [MemoryPoolAllocator.scan_freelists].
  destruct (i <=? kMaxBytes) eqn:E; [|apply Z.leb_gt in E; unfold kMaxBytes in E; lia].
  destruct (GetFreelistIndex_small i ltac:(unfold kMaxBytes; lia)) as [_ Hr].
  unfold bind.
  destruct (Z.eq_dec i i') as [-> | Hne].
  - rewrite (Empty_eq _ w h Hr Hh).
    destruct (h =? 0) eqn:Ez; [apply Z.eqb_eq in Ez; contradiction|].
    simpl. rewrite (Pop_eq _ w h next Hr Hh Ha Hm). reflexivity.
  - assert (Hstep : i + 8 <= i').
    { pose proof (Z.div_mod (i' - i) 8 ltac:(lia)) as Hd.
      assert (0 < (i' - i) / 8) by (apply Z.div_str_pos; lia || (split; [lia|]; lia)).
      lia. }
    rewrite (Empty_eq _ w 0 Hr);
      [|apply Hall; [lia | rewrite Z.sub_diag; reflexivity]].
    simpl. unfold kAlign. rewrite wrap_small by lia.
    apply IH; try assumption; try lia.
    + replace (i' - (i + 8)) with (i' - i + (-1) * 8) by lia.
      rewrite Z.mod_add by lia. exact Hmod.
    + intros j Hj Hjm. apply Hall; [lia|].
      replace (j - i) with (j - (i + 8) + 1 * 8) by lia.
      rewrite Z.mod_add by lia. exact Hjm.
Qed.

(** ** ChunkAlloc, branch by branch *)

Lemma ChunkAlloc_enough fuel size n w :
  wrap (size * n) <= wrap (freespaceend_ w - freespacestart_ w) ->
  MemoryPoolAllocator.ChunkAlloc (S fuel) size n w
  = Ok (freespacestart_ w, n)
       (set_start (wrap (freespacestart_ w + wrap (size * n))) w).
Proof.
  intros H. cbn [MemoryPoolAllocator.ChunkAlloc]. unfold bind, get.
  apply Z.leb_le in H. rewrite H. reflexivity.
Qed.

Lemma ChunkAlloc_partial fuel size n w :
  wrap (freespaceend_ w - freespacestart_ w) < wrap (size * n) ->
  size <= wrap (freespaceend_ w - freespacestart_ w) ->
  MemoryPoolAllocator.ChunkAlloc (S fuel) size n w
  = Ok (freespacestart_ w, wrap (freespaceend_ w - freespacestart_ w) / size)
       (set_start
          (wrap (freespacestart_ w
                 + wrap (wrap (freespaceend_ w - freespacestart_ w) / size * size)))
          w).
Proof.
  intros H1 H2. cbn [MemoryPoolAllocator.ChunkAlloc]. unfold bind, get.
  apply Z.leb_gt in H1. apply Z.leb_le in H2. rewrite H1, H2. reflexivity.
Qed.

(** The size of the arena ChunkAlloc asks for. *)
Lemma bytesget_eq size n offset :
  0 < size <= kMaxBytes -> 0 < n <= 20 -> 0 <= offset < 2 ^ 64 ->
  bytesget size n offset
  = 2 * (size * n) + MemoryPoolAllocator.RoundUp (Z.shiftr offset 4)
  /\ bytesget size n offset mod 8 = (2 * (size * n)) mod 8
  /\ 2 * (size * n) <= bytesget size n offset < 2 ^ 62.
Proof.
  unfold kMaxBytes. intros Hs Hn Ho. unfold bytesget.
  assert (Hsn : 0 < size * n <= 2560) by nia.
  rewrite (wrap_small (size * n)) by lia.
  rewrite (wrap_small (size * n * 2)) by lia.
  assert (Hsh : 0 <= Z.shiftr offset 4 < 2 ^ 60).
  { rewrite Z.shiftr_div_pow2 by lia. split; [apply Z.div_pos; lia|].
    apply Z.div_lt_upper_bound; [lia|]. change (2 ^ 4 * 2 ^ 60) with (2 ^ 64). lia. }
  assert (Hr : 0 <= MemoryPoolAllocator.RoundUp (Z.shiftr offset 4) <= 2 ^ 60 + 8).
  { rewrite RoundUp_eq, wrap_small by lia.
    pose proof (Z.div_mod (Z.shiftr offset 4 + 7) 8 ltac:(lia)) as Hd.
    pose proof (Z.mod_pos_bound (Z.shiftr offset 4 + 7) 8 ltac:(lia)) as Hm.
    lia. }
  rewrite wrap_small by lia.
  split; [lia|]. split; [|lia].
  rewrite Z.add_mod by lia. rewrite RoundUp_multiple, Z.add_0_r, Z.mod_mod by lia.
  f_equal. lia.
Qed.

Lemma wrap_add_sub a b : wrap (wrap (a + b) - a) = wrap b.
Proof.
  unfold wrap. rewrite Zminus_mod_idemp_l. f_equal. lia.
Qed.

Lemma ChunkAlloc_grow fuel size n w :
  wrap (freespaceend_ w - freespacestart_ w) < wrap (size * n) ->
  wrap (freespaceend_ w - freespacestart_ w) < size ->
  MemoryPoolAllocator.ChunkAlloc (S fuel) size n w
  = (salvage w ;;;
     p <- malloc (bytesget size n (mallocoffset_ w)) ;;
     modify (set_start p) ;;;
     if p =? 0 then
       found <- MemoryPoolAllocator.scan_freelists MemoryPoolAllocator.scan_fuel size ;;
       if found then MemoryPoolAllocator.ChunkAlloc fuel size n
       else
         modify (set_end 0) ;;;
         p <- MallocAllocator.Allocate (bytesget size n (mallocoffset_ w)) ;;
         modify (set_start p) ;;;
         modify (set_offset (wrap (mallocoffset_ w + bytesget size n (mallocoffset_ w)))) ;;;
         modify (set_end (wrap (p + bytesget size n (mallocoffset_ w)))) ;;;
         MemoryPoolAllocator.ChunkAlloc fuel size n
     else
       modify (set_offset (wrap (mallocoffset_ w + bytesget size n (mallocoffset_ w)))) ;;;
       modify (set_end (wrap (p + bytesget size n (mallocoffset_ w)))) ;;;
       MemoryPoolAllocator.ChunkAlloc fuel size n) w.
Proof.
  intros H1 H2. cbn [MemoryPoolAllocator.ChunkAlloc].
  unfold bind at 1 2. unfold get at 1 2.
  apply Z.leb_gt in H1. apply Z.leb_gt in H2. rewrite H1, H2.
  unfold bind at 1. unfold get at 1. reflexivity.
Qed.

(** After a fresh arena of [bg >= bytesneed] bytes was installed at [p], the
    retry carves all the blocks asked for. *)
Lemma ChunkAlloc_fresh_arena fuel size p bg w :
  0 < size <= kMaxBytes -> 2 * (size * 20) <= bg < 2 ^ 64 ->
  freespacestart_ w = p -> freespaceend_ w = wrap (p + bg) ->
  MemoryPoolAllocator.ChunkAlloc (S fuel) size 20 w
  = Ok (p, 20) (set_start (wrap (p + size * 20)) w).
Proof.
  unfold kMaxBytes. intros Hs Hbg Hst Hen.
  rewrite ChunkAlloc_enough.
  - rewrite Hst, (wrap_small (size * 20)) by lia. reflexivity.
  - rewrite Hst, Hen, wrap_add_sub, (wrap_small bg), (wrap_small (size * 20)) by lia.
    lia.
Qed.

(** After a free block of [i] bytes became the arena, the retry carves the
    [i / size] blocks that fit. *)
Lemma ChunkAlloc_mini_arena fuel size h i w :
  8 <= size <= i -> i <= kMaxBytes ->
  freespacestart_ w = h -> freespaceend_ w = wrap (h + i) ->
  MemoryPoolAllocator.ChunkAlloc (S fuel) size 20 w
  = Ok (h, i / size) (set_start (wrap (h + i / size * size)) w).
Proof.
  unfold kMaxBytes. intros Hs Hi Hst Hen.
  assert (Hl : wrap (freespaceend_ w - freespacestart_ w) = i).
  { rewrite Hst, Hen, wrap_add_sub. apply wrap_small. lia. }
  assert (Hq : 0 <= i / size * size <= i).
  { pose proof (Z.div_mod i size ltac:(lia)) as Hd.
    pose proof (Z.mod_pos_bound i size ltac:(lia)) as Hm. nia. }
  rewrite ChunkAlloc_partial.
  - rewrite Hl, Hst, (wrap_small (i / size * size)) by lia. reflexivity.
  - rewrite Hl, (wrap_small (size * 20)) by lia. lia.
  - rewrite Hl. lia.
Qed.

(** C2 (as the code has it). ChunkAlloc with an arena that holds less than
    one block, called with the batch count 20 that ReFill passes.  After the
    remainder was salvaged, the new arena size is
    [2 * (size * 20) + RoundUp(mallocoffset_ >> 4)], and:
      - it is requested with a plain [malloc], outside the OOM-handler
        protocol; when that succeeds the block becomes the arena and all 20
        blocks are carved from it;
      - only when that malloc fails are the free lists scanned from [size]
        upward in steps of 8; the first non-empty class gives up its head
        block, which becomes the arena, and the [i / size] blocks that fit
        are carved from it;
      - only when all those classes are empty is the new arena size
        requested from [MallocAllocator::Allocate], which runs the OOM
        protocol: the call aborts when that aborts, and otherwise installs
        what it returned as the arena and carves from it. *)
Theorem ChunkAlloc_escalation (fuel : nat) (size : Z) (w ws : World) :
  8 <= size <= kMaxBytes ->
  0 <= mallocoffset_ w < 2 ^ 64 ->
  wrap (freespaceend_ w - freespacestart_ w) < size ->
  salvage w w = Ok tt ws ->
  let offset := mallocoffset_ w in
  let bg := bytesget size 20 offset in
  bg = 2 * (size * 20) + MemoryPoolAllocator.RoundUp (Z.shiftr offset 4)
  /\ (forall p wm,
        malloc bg ws = Ok p wm -> p <> 0 ->
        MemoryPoolAllocator.ChunkAlloc (S (S fuel)) size 20 w
        = Ok (p, 20) (set_start (wrap (p + size * 20)) (install_arena p bg offset wm)))
  /\ (forall wm,
        malloc bg ws = Ok 0 wm ->
        (forall i h next,
            size <= i <= kMaxBytes -> (i - size) mod 8 = 0 ->
            (forall j, size <= j < i -> (j - size) mod 8 = 0 -> head_of wm j = Some 0) ->
            head_of wm i = Some h -> h <> 0 ->
            accessible h wm = true -> mem wm !! h = Some next ->
            MemoryPoolAllocator.ChunkAlloc (S (S fuel)) size 20 w
            = Ok (h, i / size)
                 (set_start (wrap (h + i / size * size))
                    (set_end (wrap (h + i))
                       (set_start h
                          (set_freelist
                             (<[Z.to_nat (MemoryPoolAllocator.GetFreelistIndex i) := next]>
                                (freelist_ wm))
                             (set_start 0 wm))))))
        /\ ((forall j, size <= j <= kMaxBytes -> (j - size) mod 8 = 0 ->
                       head_of wm j = Some 0) ->
            match MallocAllocator.Allocate bg (set_end 0 (set_start 0 wm)) with
            | Ok p wa =>
                MemoryPoolAllocator.ChunkAlloc (S (S fuel)) size 20 w
                = Ok (p, 20) (set_start (wrap (p + size * 20))
                                        (install_arena p bg offset wa))
            | Aborted wa =>
                MemoryPoolAllocator.ChunkAlloc (S (S fuel)) size 20 w = Aborted wa
            | _ => False
            end)).
Proof.
  intros Hs Ho Hleft Hsalv offset bg.
  destruct (bytesget_eq size 20 offset ltac:(lia) ltac:(lia) Ho) as (Hbg & _ & Hbgr).
  fold bg in Hbg, Hbgr.
  assert (Hneed : wrap (freespaceend_ w - freespacestart_ w) < wrap (size * 20)).
  { unfold kMaxBytes in Hs. rewrite (wrap_small (size * 20)) by lia. lia. }
  assert (Hgrow := ChunkAlloc_grow (S fuel) size 20 w Hneed Hleft).
  fold offset in Hgrow. fold bg in Hgrow.
  unfold bind at 1 in Hgrow. rewrite Hsalv in Hgrow.
  split; [exact Hbg|]. split.
  - intros p wm Hm Hp. rewrite Hgrow. unfold bind at 1. rewrite Hm.
    unfold bind at 1. unfold modify at 1.
    destruct (p =? 0) eqn:E; [apply Z.eqb_eq in E; contradiction|].
    unfold bind, modify.
    apply ChunkAlloc_fresh_arena with (bg := bg); [lia | lia | reflexivity | reflexivity].
  - intros wm Hm. split.
    + intros i h next Hi Hmod Hempty Hh Hnz Ha Hmem.
      rewrite Hgrow. unfold bind at 1. rewrite Hm.
      unfold bind at 1. unfold modify at 1. simpl (0 =? 0). cbv iota.
      unfold bind at 1.
      rewrite (scan_freelists_found MemoryPoolAllocator.scan_fuel size i h next
                 (set_start 0 wm)); try assumption; try lia.
      * apply ChunkAlloc_mini_arena; [lia | lia | reflexivity | reflexivity].
      * unfold MemoryPoolAllocator.scan_fuel, kMaxBytes in *. lia.
    + intros Hempty.
      assert (Hmid : MemoryPoolAllocator.ChunkAlloc (S (S fuel)) size 20 w
                     = (p <- MallocAllocator.Allocate bg ;;
                        modify (set_start p) ;;;
                        modify (set_offset (wrap (offset + bg))) ;;;
                        modify (set_end (wrap (p + bg))) ;;;
                        MemoryPoolAllocator.ChunkAlloc (S fuel) size 20)
                         (set_end 0 (set_start 0 wm))).
      { rewrite Hgrow. unfold bind at 1. rewrite Hm.
        unfold bind at 1. unfold modify at 1. simpl (0 =? 0). cbv iota.
        unfold bind at 1.
        rewrite (scan_freelists_none MemoryPoolAllocator.scan_fuel size (set_start 0 wm));
          [reflexivity | unfold kMaxBytes in *; lia
           | unfold MemoryPoolAllocator.scan_fuel, kMaxBytes in *; lia | exact Hempty]. }
      pose proof (MallocAllocator_Allocate_frame bg (set_end 0 (set_start 0 wm))) as Hfr.
      destruct (MallocAllocator.Allocate bg (set_end 0 (set_start 0 wm)))
        as [p wa|wa| |] eqn:EA; try exact Hfr;
        rewrite Hmid; unfold bind at 1; rewrite EA; [|reflexivity].
      unfold bind, modify.
      apply ChunkAlloc_fresh_arena with (bg := bg); [lia | lia | reflexivity | reflexivity].
Qed.

Lemma ChunkAlloc_escalation_witness :
  MemoryPoolAllocator.ChunkAlloc 3 8 20 (initial_world [4096])
  = Ok (4096, 20)
       (set_start (wrap (4096 + 8 * 20))
          (install_arena 4096 (bytesget 8 20 0) 0
             (run_world (malloc (bytesget 8 20 0)) (initial_world [4096])))).
Proof.
  destruct (ChunkAlloc_escalation 1 8 (initial_world [4096]) (initial_world [4096]))
    as (_ & H & _).
  - vm_compute. split; discriminate.
  - vm_compute. split; [discriminate | reflexivity].
  - reflexivity.
  - reflexivity.
  - apply H; [reflexivity | discriminate].
Defined.

(** C2, the claim as stated fails: the first request does not go through the
    allocator that runs the OOM protocol.  With the system heap exhausted
    and no handler installed that allocator aborts, yet ChunkAlloc returns
    blocks carved from a spare free block after a single failed malloc; with
    a handler installed that allocator invokes it three times, ChunkAlloc
    not once.  It is the last resort that runs the protocol: without a spare
    block ChunkAlloc aborts when no handler is installed. *)
Lemma ChunkAlloc_first_request_is_plain_malloc :
  (exists wa, MallocAllocator.Allocate 320 spare_block_world = Aborted wa)
  /\ (exists w',
        MemoryPoolAllocator.ChunkAlloc 3 8 20 spare_block_world = Ok (8192, 16) w'
        /\ trace w' = [EvMalloc 320 0])
  /\ (exists wr,
        MallocAllocator.Allocate 320 (set_handler 7 spare_block_world) = Ok 0 wr
        /\ handler_calls (trace wr) = 3%nat)
  /\ (exists w',
        MemoryPoolAllocator.ChunkAlloc 3 8 20 (set_handler 7 spare_block_world)
        = Ok (8192, 16) w'
        /\ handler_calls (trace w') = 0%nat)
  /\ (exists wa,
        MemoryPoolAllocator.ChunkAlloc 3 8 20 (initial_world []) = Aborted wa
        /\ trace wa = [EvAbort; EvMalloc 320 0; EvMalloc 320 0]).
Proof.
  repeat split; eexists; try split; vm_compute; reflexivity.
Qed.

(** ** Disjoint families of extents *)

Lemma disj_sym x y : disj x y -> disj y x.
Proof. unfold disj. tauto. Qed.

Lemma pairwise_disjoint_perm l l' :
  l ≡ₚ l' -> pairwise_disjoint l -> pairwise_disjoint l'.
Proof.
  induction 1 as [|x l l' Hp IH|x y l|l l' l'' H1 IH1 H2 IH2]; simpl.
  - auto.
  - intros [Hx Hl]. split; [rewrite <- Hp; exact Hx | auto].
  - intros [Hy [Hx Hl]]. inversion Hy as [|? ? Hyx Hyl]; subst.
    repeat split; try assumption.
    constructor; [apply disj_sym; exact Hyx | exact Hx].
  - auto.
Qed.

Lemma pairwise_disjoint_tail x l : pairwise_disjoint (x :: l) -> pairwise_disjoint l.
Proof. simpl. tauto. Qed.

(** Replacing an extent by one inside it. *)
Lemma pairwise_disjoint_shrink x y l :
  fst x <= fst y -> fst y + snd y <= fst x + snd x -> 0 <= snd y ->
  pairwise_disjoint (x :: l) -> pairwise_disjoint (y :: l).
Proof.
  intros H1 H2 H3 [Hx Hl]. split; [|exact Hl].
  eapply Forall_impl; [exact Hx|]. intros z. unfold disj. lia.
Qed.

(** Cutting [k] bytes off the front of an extent. *)
Lemma pairwise_disjoint_split a n k l :
  0 <= k <= n ->
  pairwise_disjoint ((a, n) :: l) ->
  pairwise_disjoint ((a + k, n - k) :: (a, k) :: l).
Proof.
  intros Hk [Hx Hl]. simpl. repeat split; try assumption.
  - constructor; [unfold disj; simpl; lia|].
    eapply Forall_impl; [exact Hx|]. intros z. unfold disj. simpl. lia.
  - eapply Forall_impl; [exact Hx|]. intros z. unfold disj. simpl. lia.
Qed.

Lemma pairwise_disjoint_distinct x y l :
  pairwise_disjoint (x :: l) -> y ∈ l -> 0 < snd x -> 0 < snd y -> fst x <> fst y.
Proof.
  intros [Hx _] Hy Hsx Hsy. rewrite Forall_forall in Hx.
  specialize (Hx y Hy). unfold disj in Hx. lia.
Qed.

(** Extents inside live regions are disjoint from a fresh region. *)
Lemma within_fresh_disj pool rs p n x y :
  (forall r, r ∈ pool -> r ∈ rs) ->
  Forall (fun r => p + n <= fst r \/ fst r + snd r <= p) rs ->
  within pool x -> 0 <= snd x ->
  p <= fst y -> fst y + snd y <= p + n -> 0 <= snd y ->
  disj y x.
Proof.
  intros Hsub Hfresh (r & Hr & H1 & H2) Hx Hy1 Hy2 Hy3.
  rewrite Forall_forall in Hfresh. specialize (Hfresh r (Hsub r Hr)).
  unfold disj. lia.
Qed.

(** ** The ghost free lists *)

Lemma flat_map_agree {A B} (f g : A -> list B) (l : list A) :
  (forall a, a ∈ l -> f a = g a) -> flat_map f l = flat_map g l.
Proof.
  induction l as [|a l IH]; intros H; [reflexivity|].
  simpl. rewrite (H a) by apply list_elem_of_here.
  rewrite IH; [reflexivity|]. intros b Hb. apply H. apply list_elem_of_further. exact Hb.
Qed.

Lemma flat_map_insert_perm (g g' : nat -> list (Z * Z)) (i : nat) x (js : list nat) :
  NoDup js -> i ∈ js ->
  g' i = x :: g i -> (forall j, j <> i -> g' j = g j) ->
  flat_map g' js ≡ₚ x :: flat_map g js.
Proof.
  intros Hnd Hi Hgi Hgj. induction js as [|j js IH]; [inversion Hi|].
  apply NoDup_cons in Hnd. destruct Hnd as [Hj Hnd]. simpl.
  destruct (decide (j = i)) as [-> | Hne].
  - rewrite Hgi. simpl. constructor.
    apply Permutation_app_head.
    assert (E : flat_map g' js = flat_map g js).
    { apply flat_map_agree. intros a Ha. apply Hgj. intros ->.
      apply Hj. exact Ha. }
    rewrite E. reflexivity.
  - rewrite (Hgj j Hne).
    apply elem_of_cons in Hi. destruct Hi as [-> | Hi]; [contradiction|].
    rewrite (IH Hnd Hi). symmetry. apply Permutation_middle.
Qed.

Lemma free_exts_insert fl fl' i p :
  (i < 16)%nat ->
  fl' i = p :: fl i -> (forall j, j <> i -> fl' j = fl j) ->
  free_exts fl' ≡ₚ (p, class_size i) :: free_exts fl.
Proof.
  intros Hi Hfi Hfj. unfold free_exts.
  apply (flat_map_insert_perm
           (fun i => map (fun p => (p, class_size i)) (fl i))
           (fun i => map (fun p => (p, class_size i)) (fl' i)) i).
  - apply NoDup_seq.
  - apply list_elem_of_In, in_seq. lia.
  - rewrite Hfi. reflexivity.
  - intros j Hj. rewrite (Hfj j Hj). reflexivity.
Qed.

Lemma elem_of_free_exts fl i p :
  (i < 16)%nat -> p ∈ fl i -> (p, class_size i) ∈ free_exts fl.
Proof.
  intros Hi Hp. unfold free_exts. apply list_elem_of_In, in_flat_map.
  exists i. split; [apply in_seq; lia|].
  apply list_elem_of_In. apply (list_elem_of_fmap_2 (fun p => (p, class_size i))).
  exact Hp.
Qed.

Lemma class_size_range i : (i < 16)%nat -> 8 <= class_size i <= kMaxBytes.
Proof. unfold class_size, kMaxBytes. lia. Qed.

Lemma class_size_index i :
  (i < 16)%nat ->
  MemoryPoolAllocator.GetFreelistIndex (class_size i) = Z.of_nat i.
Proof.
  intros Hi. pose proof (class_size_range i Hi) as Hr.
  destruct (GetFreelistIndex_small (class_size i) ltac:(lia)) as [-> _].
  unfold class_size. replace (8 * (Z.of_nat i + 1) + 7) with ((Z.of_nat i + 1) * 8 + 7) by lia.
  rewrite Z.div_add_l by lia. change (7 / 8) with 0. lia.
Qed.

(** ** Chains in memory *)

Lemma chain_frame m h l a v :
  a ∉ l -> chain m h l -> chain (<[a := v]> m) h l.
Proof.
  revert h. induction l as [|p l IH]; intros h Ha; simpl; [auto|].
  intros (-> & Hp & next & Hm & Hc).
  apply not_elem_of_cons in Ha. destruct Ha as [Hne Ha].
  split; [reflexivity|]. split; [exact Hp|]. exists next. split.
  - rewrite lookup_insert_ne by exact Hne. exact Hm.
  - apply IH; assumption.
Qed.

Lemma chain_null m l : chain m 0 l -> l = [].
Proof. destruct l as [|p l]; [reflexivity|]. simpl. intros (<- & Hp & _). contradiction. Qed.

Lemma chain_nonnull m h l :
  chain m h l -> h <> 0 ->
  exists rest next, l = h :: rest /\ m !! h = Some next /\ chain m next rest.
Proof.
  destruct l as [|p l]; simpl.
  - intros -> H. contradiction.
  - intros (-> & _ & next & Hm & Hc) _. exists l, next. auto.
Qed.

(** ** Ghost moves on the invariant *)

Lemma ext_ok_mono pool pool' x :
  (forall r, r ∈ pool -> r ∈ pool') -> ext_ok pool x -> ext_ok pool' x.
Proof.
  intros Hsub (Ha & Hn & r & Hr & H1 & H2).
  split; [exact Ha|]. split; [exact Hn|]. exists r. auto.
Qed.

Lemma within_bounds rs pool x :
  heap_ok rs -> (forall r, r ∈ pool -> r ∈ rs) -> within pool x -> 0 <= snd x ->
  page_size <= fst x /\ fst x + snd x < 2 ^ 64.
Proof.
  intros [Hh _] Hsub (r & Hr & H1 & H2) Hn.
  rewrite Forall_forall in Hh. specialize (Hh r (Hsub r Hr)). lia.
Qed.

Lemma ext_accessible w pool p n :
  heap_ok (regions w) -> (forall r, r ∈ pool -> r ∈ regions w) ->
  ext_ok pool (p, n) -> 8 <= n ->
  accessible p w = true.
Proof.
  intros Hh Hsub (Ha & Hn & Hw) H8. simpl in *.
  destruct (within_bounds _ _ _ Hh Hsub Hw Hn) as [Hp _]. simpl in Hp.
  destruct Hw as (r & Hr & H1 & H2). simpl in *.
  unfold accessible. unfold page_size in Hp.
  apply andb_true_intro. split; [apply andb_true_intro; split|].
  - apply negb_true_iff, Z.eqb_neq. lia.
  - apply Z.eqb_eq. exact Ha.
  - apply existsb_exists. exists r. split; [apply list_elem_of_In; auto|].
    unfold inside. apply andb_true_intro. split; [apply Z.leb_le | apply Z.leb_le]; lia.
Qed.

Section GhostMoves.
Context (heads : list Z) (s e : Z) (m : gmap Z Z) (rs : list (Z * Z)).
Context (out extra : list (Z * Z)) (fl : nat -> list Z) (pool : list (Z * Z)).

(** A block in transit is on no free list. *)
Lemma PInv_transit_fresh p n j :
  PInv heads s e m rs out ((p, n) :: extra) fl pool ->
  0 < n -> (j < 16)%nat -> p ∉ fl j.
Proof.
  intros HI Hn Hj Hin.
  pose proof (pi_disj _ _ _ _ _ _ _ _ _ HI) as Hd.
  apply pairwise_disjoint_tail in Hd. simpl in Hd.
  assert (Hy : (p, class_size j) ∈ extra ++ free_exts fl ++ out_exts out).
  { apply elem_of_app. right. apply elem_of_app. left.
    apply elem_of_free_exts; assumption. }
  pose proof (class_size_range j Hj).
  apply (pairwise_disjoint_distinct _ _ _ Hd Hy); simpl; lia.
Qed.

Lemma PInv_push i p h :
  PInv heads s e m rs out ((p, class_size i) :: extra) fl pool ->
  (i < 16)%nat -> heads !! i = Some h ->
  PInv (<[i := p]> heads) s e (<[p := h]> m) rs out extra
       (<[i := p :: fl i]> fl) pool.
Proof.
  intros HI Hi Hh.
  pose proof (class_size_range i Hi) as Hcs.
  assert (Hperm : extra ++ free_exts (<[i := p :: fl i]> fl) ++ out_exts out
                  ≡ₚ ((p, class_size i) :: extra) ++ free_exts fl ++ out_exts out).
  { rewrite (free_exts_insert fl (<[i := p :: fl i]> fl) i p Hi).
    - simpl. symmetry. apply Permutation_middle.
    - apply fn_lookup_insert.
    - intros j Hj. apply fn_lookup_insert_ne. congruence. }
  destruct HI as [Hlen Hch Hheap Hpool Har Hex Hdj Hout Hlg].
  assert (Hext : ext_ok pool (p, class_size i)).
  { inversion Hex; assumption. }
  assert (Hp0 : p <> 0).
  { destruct Hext as (_ & Hn & Hw).
    destruct (within_bounds _ _ _ Hheap Hpool Hw Hn) as [Hp _].
    unfold page_size in Hp. simpl in Hp. lia. }
  constructor; try assumption.
  - rewrite length_insert. exact Hlen.
  - intros j hj Hj.
    assert (Hj16 : (j < 16)%nat).
    { apply lookup_lt_Some in Hj. rewrite length_insert in Hj. lia. }
    assert (Hfresh : p ∉ fl j).
    { apply (PInv_transit_fresh p (class_size i) j); [|lia|exact Hj16].
      constructor; assumption. }
    destruct (decide (i = j)) as [<- | Hne].
    + rewrite list_lookup_insert_eq in Hj by lia. inversion Hj; subst hj.
      rewrite fn_lookup_insert. simpl.
      split; [reflexivity|]. split; [exact Hp0|]. exists h.
      split; [apply lookup_insert_eq|].
      apply chain_frame; [exact Hfresh | apply Hch; exact Hh].
    + rewrite list_lookup_insert_ne in Hj by exact Hne.
      rewrite fn_lookup_insert_ne by exact Hne.
      apply chain_frame; [exact Hfresh | apply Hch; exact Hj].
  - rewrite Hperm. exact Hex.
  - simpl. simpl in Hdj. destruct Hdj as [H1 H2].
    split; [rewrite Hperm; exact H1|].
    apply (pairwise_disjoint_perm _ _ (symmetry Hperm)). exact H2.
Qed.

Lemma PInv_pop i h :
  PInv heads s e m rs out extra fl pool ->
  heads !! i = Some h -> h <> 0 ->
  exists rest next,
    fl i = h :: rest /\ m !! h = Some next
    /\ ext_ok pool (h, class_size i)
    /\ PInv (<[i := next]> heads) s e m rs out ((h, class_size i) :: extra)
            (<[i := rest]> fl) pool.
Proof.
  intros HI Hh Hnz.
  assert (Hi : (i < 16)%nat).
  { apply lookup_lt_Some in Hh. rewrite (pi_len _ _ _ _ _ _ _ _ _ HI) in Hh. exact Hh. }
  destruct HI as [Hlen Hch Hheap Hpool Har Hex Hdj Hout Hlg].
  destruct (chain_nonnull _ _ _ (Hch i h Hh) Hnz) as (rest & next & Hfl & Hm & Hc).
  exists rest, next. split; [exact Hfl|]. split; [exact Hm|].
  assert (Hperm : ((h, class_size i) :: extra) ++ free_exts (<[i := rest]> fl) ++ out_exts out
                  ≡ₚ extra ++ free_exts fl ++ out_exts out).
  { rewrite (free_exts_insert (<[i := rest]> fl) fl i h Hi).
    - simpl. apply Permutation_middle.
    - rewrite fn_lookup_insert. exact Hfl.
    - intros j Hj. symmetry. apply fn_lookup_insert_ne. congruence. }
  assert (Hex' : Forall (ext_ok pool)
                   (((h, class_size i) :: extra) ++ free_exts (<[i := rest]> fl) ++ out_exts out)).
  { rewrite Hperm. exact Hex. }
  split; [inversion Hex'; assumption|].
  constructor; try assumption.
  - rewrite length_insert. exact Hlen.
  - intros j hj Hj.
    destruct (decide (i = j)) as [<- | Hne].
    + rewrite list_lookup_insert_eq in Hj by lia. inversion Hj; subst hj.
      rewrite fn_lookup_insert. exact Hc.
    + rewrite list_lookup_insert_ne in Hj by exact Hne.
      rewrite fn_lookup_insert_ne by exact Hne. apply Hch. exact Hj.
  - destruct Hdj as [H1 H2].
    split; [rewrite Hperm; exact H1|].
    apply (pairwise_disjoint_perm _ _ (symmetry Hperm)). exact H2.
Qed.

End GhostMoves.

Section GhostMoves2.
Context (heads : list Z) (s e : Z) (m : gmap Z Z) (rs : list (Z * Z)).
Context (out extra : list (Z * Z)) (fl : nat -> list Z) (pool : list (Z * Z)).

Lemma out_exts_small p sz :
  sz <= kMaxBytes ->
  out_exts ((p, sz) :: out) = (p, MemoryPoolAllocator.RoundUp sz) :: out_exts out.
Proof.
  intros H. unfold out_exts. rewrite filter_cons_True by exact H. reflexivity.
Qed.

Lemma out_exts_large p sz :
  kMaxBytes < sz -> out_exts ((p, sz) :: out) = out_exts out.
Proof.
  intros H. unfold out_exts. rewrite filter_cons_False by (simpl; lia). reflexivity.
Qed.

Lemma larges_small p sz :
  sz <= kMaxBytes -> larges ((p, sz) :: out) = larges out.
Proof.
  intros H. unfold larges. rewrite filter_cons_False by (simpl; lia). reflexivity.
Qed.

Lemma larges_null sz : larges ((0, sz) :: out) = larges out.
Proof.
  unfold larges. rewrite filter_cons_False by (simpl; tauto). reflexivity.
Qed.

Lemma larges_large p sz :
  kMaxBytes < sz -> p <> 0 -> larges ((p, sz) :: out) = p :: larges out.
Proof.
  intros H Hp. unfold larges. rewrite filter_cons_True by (simpl; tauto). reflexivity.
Qed.

(** A block in transit is handed to the client. *)
Lemma PInv_hand_out p sz :
  0 < sz <= kMaxBytes ->
  PInv heads s e m rs out ((p, MemoryPoolAllocator.RoundUp sz) :: extra) fl pool ->
  PInv heads s e m rs ((p, sz) :: out) extra fl pool.
Proof.
  intros Hsz [Hlen Hch Hheap Hpool Har Hex Hdj Hout Hlg].
  assert (Hperm : extra ++ free_exts fl ++ out_exts ((p, sz) :: out)
                  ≡ₚ ((p, MemoryPoolAllocator.RoundUp sz) :: extra)
                       ++ free_exts fl ++ out_exts out).
  { rewrite out_exts_small by lia. simpl.
    rewrite !app_assoc. symmetry. apply Permutation_middle. }
  constructor; try assumption.
  - rewrite Hperm. exact Hex.
  - destruct Hdj as [H1 H2].
    split; [rewrite Hperm; exact H1|].
    apply (pairwise_disjoint_perm _ _ (symmetry Hperm)). exact H2.
  - constructor; [simpl; lia | exact Hout].
  - rewrite larges_small by lia. exact Hlg.
Qed.

(** The client gives a block back. *)
Lemma PInv_take_back p sz :
  sz <= kMaxBytes ->
  PInv heads s e m rs ((p, sz) :: out) extra fl pool ->
  PInv heads s e m rs out ((p, MemoryPoolAllocator.RoundUp sz) :: extra) fl pool.
Proof.
  intros Hsz [Hlen Hch Hheap Hpool Har Hex Hdj Hout Hlg].
  assert (Hperm : extra ++ free_exts fl ++ out_exts ((p, sz) :: out)
                  ≡ₚ ((p, MemoryPoolAllocator.RoundUp sz) :: extra)
                       ++ free_exts fl ++ out_exts out).
  { rewrite out_exts_small by lia. simpl.
    rewrite !app_assoc. symmetry. apply Permutation_middle. }
  constructor; try assumption.
  - rewrite <- Hperm. exact Hex.
  - destruct Hdj as [H1 H2].
    split; [rewrite <- Hperm; exact H1|].
    apply (pairwise_disjoint_perm _ _ Hperm). exact H2.
  - inversion Hout; assumption.
  - rewrite larges_small in Hlg by lia. exact Hlg.
Qed.

Lemma PInv_out_perm out' :
  out ≡ₚ out' ->
  PInv heads s e m rs out extra fl pool ->
  PInv heads s e m rs out' extra fl pool.
Proof.
  intros Hp [Hlen Hch Hheap Hpool Har Hex Hdj Hout Hlg].
  assert (Ho : out_exts out ≡ₚ out_exts out').
  { unfold out_exts. rewrite Hp. reflexivity. }
  assert (Hl : larges out ≡ₚ larges out').
  { unfold larges. rewrite Hp. reflexivity. }
  constructor; try assumption.
  - rewrite <- Ho. exact Hex.
  - destruct Hdj as [H1 H2].
    split; [rewrite <- Ho; exact H1|].
    eapply pairwise_disjoint_perm; [|exact H2]. rewrite Ho. reflexivity.
  - rewrite <- Hp. exact Hout.
  - destruct Hlg as [Hnd Hin]. split; [rewrite <- Hl; exact Hnd|].
    intros p Hpin. apply Hin. rewrite Hl. exact Hpin.
Qed.

(** Bump allocation: [k] bytes leave the front of the arena. *)
Lemma PInv_carve k :
  0 < k <= e - s -> k mod 8 = 0 ->
  PInv heads s e m rs out extra fl pool ->
  PInv heads (s + k) e m rs out ((s, k) :: extra) fl pool.
Proof.
  intros Hk Hk8 [Hlen Hch Hheap Hpool Har Hex Hdj Hout Hlg].
  destruct Har as (Hse & He & Hs8 & He8 & Hw).
  assert (Hws : within pool (s, e - s)) by (apply Hw; lia).
  constructor; try assumption.
  - split; [lia|]. split; [exact He|]. split.
    + rewrite Z.add_mod, Hs8, Hk8 by lia. reflexivity.
    + split; [exact He8|]. intros _.
      destruct Hws as (r & Hr & H1 & H2). exists r. simpl in *. split; [exact Hr|]. lia.
  - simpl. constructor; [|exact Hex].
    split; [exact Hs8|]. split; [simpl; lia|].
    destruct Hws as (r & Hr & H1 & H2). exists r. simpl in *. split; [exact Hr|]. lia.
  - replace (e - (s + k)) with (e - s - k) by lia.
    apply pairwise_disjoint_split; [lia | exact Hdj].
Qed.

(** A block in transit becomes the arena; the old arena is given up. *)
Lemma PInv_mini_arena h n :
  0 < n -> n mod 8 = 0 ->
  PInv heads s e m rs out ((h, n) :: extra) fl pool ->
  PInv heads h (h + n) m rs out extra fl pool.
Proof.
  intros Hn Hn8 [Hlen Hch Hheap Hpool Har Hex Hdj Hout Hlg].
  inversion Hex as [|? ? Hx Hex']; subst.
  destruct Hx as (Hh8 & _ & Hw). simpl in Hh8.
  destruct (within_bounds _ _ _ Hheap Hpool Hw ltac:(simpl; lia)) as [Hlo Hhi].
  simpl in Hlo, Hhi. unfold page_size in Hlo.
  constructor; try assumption.
  - split; [lia|]. split; [lia|]. split; [exact Hh8|]. split.
    + rewrite Z.add_mod, Hh8, Hn8 by lia. reflexivity.
    + intros _. replace (h + n - h) with n by lia. exact Hw.
  - apply pairwise_disjoint_tail in Hdj.
    replace (h + n - h) with n by lia. exact Hdj.
Qed.

(** A fresh region from the system heap becomes the arena. *)
Lemma PInv_new_arena p n :
  page_size <= p -> p mod malloc_align = 0 -> p + n < 2 ^ 64 ->
  1 <= n -> n mod 8 = 0 ->
  Forall (fun r => p + n <= fst r \/ fst r + snd r <= p) rs ->
  PInv heads s e m rs out extra fl pool ->
  PInv heads p (p + n) m ((p, n) :: rs) out extra fl ((p, n) :: pool).
Proof.
  intros Hp Hal Htop Hn Hn8 Hfresh [Hlen Hch Hheap Hpool Har Hex Hdj Hout Hlg].
  assert (Hp8 : p mod 8 = 0).
  { unfold malloc_align in Hal.
    pose proof (Z.div_mod p 16 ltac:(lia)) as Hd. rewrite Hal in Hd.
    replace p with (2 * (p / 16) * 8) by lia. apply Z.mod_mul. lia. }
  assert (Hnew : p ∉ map fst rs).
  { intros Hin. apply list_elem_of_fmap in Hin. destruct Hin as (r & Hr1 & Hr2).
    destruct Hheap as [Hh _]. rewrite Forall_forall in Hh, Hfresh.
    specialize (Hh r Hr2). specialize (Hfresh r Hr2). lia. }
  unfold page_size in Hp.
  constructor; try assumption.
  - destruct Hheap as [Hh Hnd]. split.
    + constructor; [simpl; unfold page_size; lia | exact Hh].
    + simpl. apply NoDup_cons. split; assumption.
  - intros r Hr. apply elem_of_cons in Hr. destruct Hr as [-> | Hr].
    + apply list_elem_of_here.
    + apply list_elem_of_further. auto.
  - split; [lia|]. split; [lia|]. split; [exact Hp8|]. split.
    + rewrite Z.add_mod, Hp8, Hn8 by lia. reflexivity.
    + intros _. exists (p, n). split; [apply list_elem_of_here|]. simpl. lia.
  - eapply Forall_impl; [exact Hex|]. intros x. apply ext_ok_mono.
    intros r Hr. apply list_elem_of_further. exact Hr.
  - apply pairwise_disjoint_tail in Hdj. split; [|exact Hdj].
    rewrite Forall_forall in Hex. apply Forall_forall. intros x Hx.
    destruct (Hex x Hx) as (_ & Hxn & Hxw).
    apply (within_fresh_disj pool rs p n x (p, p + n - p) Hpool Hfresh Hxw Hxn);
      simpl; lia.
  - destruct Hlg as [Hnd Hin]. split; [exact Hnd|].
    intros q Hq. destruct (Hin q Hq) as [Hq1 Hq2]. split.
    + simpl. apply list_elem_of_further. exact Hq1.
    + simpl. intros Hq3. apply elem_of_cons in Hq3. destruct Hq3 as [-> | Hq3];
        [contradiction | contradiction].
Qed.

End GhostMoves2.

Section GhostMoves3.
Context (heads : list Z) (s e : Z) (m : gmap Z Z) (rs : list (Z * Z)).
Context (out extra : list (Z * Z)) (fl : nat -> list Z) (pool : list (Z * Z)).

(** A block in transit may be given up. *)
Lemma PInv_drop x :
  PInv heads s e m rs out (x :: extra) fl pool ->
  PInv heads s e m rs out extra fl pool.
Proof.
  intros [Hlen Hch Hheap Hpool Har Hex Hdj Hout Hlg].
  constructor; try assumption.
  - inversion Hex; assumption.
  - destruct Hdj as [H1 [_ H2]]. split; [inversion H1; assumption | exact H2].
Qed.

(** The first [c] bytes of a block in transit become a block of their own. *)
Lemma PInv_cut p n c :
  0 <= c <= n -> c mod 8 = 0 ->
  PInv heads s e m rs out ((p, n) :: extra) fl pool ->
  PInv heads s e m rs out ((p, c) :: (p + c, n - c) :: extra) fl pool.
Proof.
  intros Hc Hc8 [Hlen Hch Hheap Hpool Har Hex Hdj Hout Hlg].
  inversion Hex as [|? ? Hx Hex']; subst.
  destruct Hx as (Hp8 & Hn & r & Hr & H1 & H2). simpl in Hp8, Hn, H1, H2.
  constructor; try assumption.
  - simpl. constructor; [|constructor; [|exact Hex']].
    + split; [exact Hp8|]. split; [simpl; lia|]. exists r. simpl. split; [exact Hr|]. lia.
    + split; [simpl; rewrite Z.add_mod, Hp8, Hc8 by lia; reflexivity|].
      split; [simpl; lia|]. exists r. simpl. split; [exact Hr|]. lia.
  - set (rest := extra ++ free_exts fl ++ out_exts out) in *.
    assert (Hd1 : pairwise_disjoint ((p, n) :: (s, e - s) :: rest)).
    { eapply pairwise_disjoint_perm; [|exact Hdj]. apply perm_swap. }
    apply (pairwise_disjoint_split p n c _ Hc) in Hd1.
    eapply pairwise_disjoint_perm; [|exact Hd1].
    change (((p, c) :: (p + c, n - c) :: extra) ++ free_exts fl ++ out_exts out)
      with ((p, c) :: (p + c, n - c) :: rest).
    etransitivity; [apply perm_swap|].
    etransitivity; [apply perm_skip, perm_swap|].
    apply perm_swap.
Qed.

(** A large block comes fresh from the system heap. *)
Lemma PInv_large_alloc p sz :
  kMaxBytes < sz -> p <> 0 ->
  placement_ok p sz rs = true ->
  PInv heads s e m rs out extra fl pool ->
  PInv heads s e m ((p, region_len sz) :: rs) ((p, sz) :: out) extra fl pool.
Proof.
  intros Hsz Hp Hok [Hlen Hch Hheap Hpool Har Hex Hdj Hout Hlg].
  apply placement_ok_fresh in Hok. destruct Hok as (Hlo & _ & Hhi & Hfresh).
  assert (Hrl : 1 <= region_len sz) by (unfold region_len; lia).
  assert (Hnew : p ∉ map fst rs).
  { intros Hin. apply list_elem_of_fmap in Hin. destruct Hin as (r & Hr1 & Hr2).
    destruct Hheap as [Hh _]. rewrite Forall_forall in Hh, Hfresh.
    specialize (Hh r Hr2). specialize (Hfresh r Hr2). lia. }
  unfold kMaxBytes in Hsz.
  constructor; try assumption.
  - destruct Hheap as [Hh Hnd]. split.
    + constructor; [simpl; lia | exact Hh].
    + simpl. apply NoDup_cons. split; assumption.
  - intros r Hr. apply list_elem_of_further. auto.
  - rewrite out_exts_large by (unfold kMaxBytes; lia). exact Hex.
  - rewrite out_exts_large by (unfold kMaxBytes; lia). exact Hdj.
  - constructor; [simpl; lia | exact Hout].
  - rewrite larges_large by (unfold kMaxBytes; lia || exact Hp).
    destruct Hlg as [Hnd Hin]. split.
    + apply NoDup_cons. split; [|exact Hnd].
      intros Hq. apply Hnew. apply Hin. exact Hq.
    + intros q Hq. apply elem_of_cons in Hq. destruct Hq as [-> | Hq].
      * split; [simpl; apply list_elem_of_here|].
        intros Hq. apply Hnew. apply list_elem_of_fmap in Hq.
        destruct Hq as (r & Hr1 & Hr2). apply list_elem_of_fmap.
        exists r. split; [exact Hr1 | auto].
      * destruct (Hin q Hq) as [Hq1 Hq2]. split; [|exact Hq2].
        simpl. apply list_elem_of_further. exact Hq1.
Qed.

Lemma PInv_large_null sz :
  kMaxBytes < sz ->
  PInv heads s e m rs out extra fl pool ->
  PInv heads s e m rs ((0, sz) :: out) extra fl pool.
Proof.
  intros Hsz [Hlen Hch Hheap Hpool Har Hex Hdj Hout Hlg].
  unfold kMaxBytes in Hsz.
  constructor; try assumption.
  - rewrite out_exts_large by (unfold kMaxBytes; lia). exact Hex.
  - rewrite out_exts_large by (unfold kMaxBytes; lia). exact Hdj.
  - constructor; [simpl; lia | exact Hout].
  - rewrite larges_null. exact Hlg.
Qed.

Lemma PInv_large_free_null sz :
  kMaxBytes < sz ->
  PInv heads s e m rs ((0, sz) :: out) extra fl pool ->
  PInv heads s e m rs out extra fl pool.
Proof.
  intros Hsz [Hlen Hch Hheap Hpool Har Hex Hdj Hout Hlg].
  constructor; try assumption.
  - rewrite out_exts_large in Hex by exact Hsz. exact Hex.
  - rewrite out_exts_large in Hdj by exact Hsz. exact Hdj.
  - inversion Hout; assumption.
  - rewrite larges_null in Hlg. exact Hlg.
Qed.

(** A large block goes back to the system heap. *)
Lemma PInv_large_free p sz :
  kMaxBytes < sz -> p <> 0 ->
  PInv heads s e m rs ((p, sz) :: out) extra fl pool ->
  existsb (is_base p) rs = true
  /\ PInv heads s e m (filter (fun r => negb (is_base p r)) rs) out extra fl pool.
Proof.
  intros Hsz Hp [Hlen Hch Hheap Hpool Har Hex Hdj Hout Hlg].
  rewrite larges_large in Hlg by assumption.
  destruct Hlg as [Hnd Hin]. apply NoDup_cons in Hnd. destruct Hnd as [Hpn Hnd].
  destruct (Hin p (list_elem_of_here _ _)) as [Hlive Hnotpool].
  assert (Hkeep : forall r, r ∈ rs -> fst r <> p ->
                   r ∈ filter (fun r => negb (is_base p r)) rs).
  { intros r Hr Hne. apply list_elem_of_filter. split; [|exact Hr].
    unfold is_base. apply negb_prop_intro. intros Hb.
    apply Is_true_eq_true in Hb. apply Z.eqb_eq in Hb. contradiction. }
  split.
  - apply existsb_exists. apply list_elem_of_fmap in Hlive.
    destruct Hlive as (r & Hr1 & Hr2). exists r.
    split; [apply list_elem_of_In; exact Hr2|]. unfold is_base. apply Z.eqb_eq. auto.
  - constructor; try assumption.
    + destruct Hheap as [Hh Hnd']. split.
      * apply Forall_forall. intros r Hr. apply list_elem_of_filter in Hr.
        rewrite Forall_forall in Hh. apply Hh. apply Hr.
      * apply (NoDup_fmap_2_strong fst).
        -- intros x y Hx Hy Hxy.
           apply list_elem_of_filter in Hx. apply list_elem_of_filter in Hy.
           destruct Hx as [_ Hx]. destruct Hy as [_ Hy].
           apply list_elem_of_lookup in Hx. apply list_elem_of_lookup in Hy.
           destruct Hx as [ix Hx]. destruct Hy as [iy Hy].
           assert (ix = iy).
           { apply (NoDup_lookup (fst <$> rs) ix iy (fst x)); [exact Hnd'| |].
             - rewrite list_lookup_fmap, Hx. reflexivity.
             - rewrite list_lookup_fmap, Hy. simpl. congruence. }
           subst. congruence.
        -- apply NoDup_filter. apply (NoDup_fmap_1 fst). exact Hnd'.
    + intros r Hr. apply Hkeep; [auto|].
      intros Heq. apply Hnotpool. apply list_elem_of_fmap. exists r. auto.
    + rewrite out_exts_large in Hex by exact Hsz. exact Hex.
    + rewrite out_exts_large in Hdj by exact Hsz. exact Hdj.
    + inversion Hout; assumption.
    + split; [exact Hnd|]. intros q Hq.
      destruct (Hin q (list_elem_of_further _ _ _ Hq)) as [Hq1 Hq2]. split; [|exact Hq2].
      apply list_elem_of_fmap in Hq1. destruct Hq1 as (r & Hr1 & Hr2).
      apply list_elem_of_fmap. exists r. split; [exact Hr1|].
      apply Hkeep; [exact Hr2|]. intros Heq. apply Hpn. congruence.
Qed.

End GhostMoves3.

(** ** Push, Pop and the ReFill loop under the invariant *)

Lemma Push_PInv w s e out extra fl pool i p :
  (i < 16)%nat ->
  PInv (freelist_ w) s e (mem w) (regions w) out ((p, class_size i) :: extra) fl pool ->
  exists h,
    freelist_ w !! i = Some h
    /\ MemoryPoolList.Push (Z.of_nat i) p w
       = Ok tt (set_freelist (<[i := p]> (freelist_ w))
                             (set_mem (<[p := h]> (mem w)) w))
    /\ PInv (<[i := p]> (freelist_ w)) s e (<[p := h]> (mem w)) (regions w)
            out extra (<[i := p :: fl i]> fl) pool.
Proof.
  intros Hi HI.
  destruct (lookup_lt_is_Some_2 (freelist_ w) i) as [h Hh].
  { rewrite (pi_len _ _ _ _ _ _ _ _ _ HI). exact Hi. }
  exists h. split; [exact Hh|]. split.
  - pose proof (Push_eq (Z.of_nat i) p w h) as HP. rewrite Nat2Z.id in HP.
    apply HP; [change kFreeListNum with 16; lia | exact Hh |].
    apply (ext_accessible w pool p (class_size i)).
    + apply (pi_heap _ _ _ _ _ _ _ _ _ HI).
    + apply (pi_pool _ _ _ _ _ _ _ _ _ HI).
    + pose proof (pi_exts _ _ _ _ _ _ _ _ _ HI) as Hex. inversion Hex; assumption.
    + apply class_size_range. exact Hi.
  - apply PInv_push; assumption.
Qed.

Lemma Pop_PInv w s e out extra fl pool i h :
  freelist_ w !! i = Some h -> h <> 0 ->
  PInv (freelist_ w) s e (mem w) (regions w) out extra fl pool ->
  exists rest next,
    fl i = h :: rest
    /\ MemoryPoolList.Pop (Z.of_nat i) w
       = Ok h (set_freelist (<[i := next]> (freelist_ w)) w)
    /\ PInv (<[i := next]> (freelist_ w)) s e (mem w) (regions w)
            out ((h, class_size i) :: extra) (<[i := rest]> fl) pool.
Proof.
  intros Hh Hnz HI.
  assert (Hi : (i < 16)%nat).
  { apply lookup_lt_Some in Hh. rewrite (pi_len _ _ _ _ _ _ _ _ _ HI) in Hh. exact Hh. }
  destruct (PInv_pop _ _ _ _ _ _ _ _ _ i h HI Hh Hnz)
    as (rest & next & Hfl & Hm & Hext & HI').
  exists rest, next. split; [exact Hfl|]. split; [|exact HI'].
  pose proof (Pop_eq (Z.of_nat i) w h next) as HP. rewrite Nat2Z.id in HP.
  apply HP; [change kFreeListNum with 16; lia | exact Hh | | exact Hm].
  apply (ext_accessible w pool h (class_size i)).
  - apply (pi_heap _ _ _ _ _ _ _ _ _ HI).
  - apply (pi_pool _ _ _ _ _ _ _ _ _ HI).
  - exact Hext.
  - apply class_size_range. exact Hi.
Qed.

Lemma ReFill_loop_PInv s e out extra pool i k :
  (i < 16)%nat ->
  forall next w fl,
    PInv (freelist_ w) s e (mem w) (regions w) out
         ((next, Z.of_nat k * class_size i) :: extra) fl pool ->
    exists w' fl',
      MemoryPoolAllocator.ReFill_loop k (class_size i) next w = Ok tt w'
      /\ PInv (freelist_ w') s e (mem w') (regions w) out extra fl' pool
      /\ regions w' = regions w
      /\ freespacestart_ w' = freespacestart_ w
      /\ freespaceend_ w' = freespaceend_ w
      /\ mallocoffset_ w' = mallocoffset_ w.
Proof.
  intros Hi. pose proof (class_size_range i Hi) as Hcs. unfold kMaxBytes in Hcs.
  induction k as [|k IH]; intros next w fl HI.
  - exists w, fl. split; [reflexivity|]. split; [|auto].
    eapply PInv_drop. exact HI.
  - cbn [MemoryPoolAllocator.ReFill_loop].
    rewrite class_size_index by exact Hi.
    apply (PInv_cut _ _ _ _ _ _ _ _ _ next _ (class_size i)) in HI;
      [|lia | unfold class_size; rewrite Z.mul_comm; apply Z.mod_mul; lia].
    destruct (Push_PInv w s e out _ fl pool i next Hi HI) as (h & Hh & HP & HI1).
    unfold bind. rewrite HP.
    set (w1 := set_freelist _ _) in *.
    assert (Hnext : wrap (next + class_size i) = next + class_size i).
    { pose proof (pi_exts _ _ _ _ _ _ _ _ _ HI) as Hex.
      inversion Hex as [|? ? Hx _]; subst. destruct Hx as (_ & Hn & Hw).
      destruct (within_bounds _ _ _ (pi_heap _ _ _ _ _ _ _ _ _ HI)
                  (pi_pool _ _ _ _ _ _ _ _ _ HI) Hw Hn) as [Hlo Hhi].
      simpl in Hlo, Hhi. unfold page_size in Hlo. apply wrap_small. lia. }
    rewrite Hnext.
    replace (Z.of_nat (S k) * class_size i - class_size i)
      with (Z.of_nat k * class_size i) in HI1 by lia.
    destruct (IH (next + class_size i) w1 _ HI1)
      as (w' & fl' & HR & HI' & Hreg & Hst & Hen & Hof).
    exists w', fl'. split; [exact HR|]. split; [exact HI'|].
    repeat split; assumption.
Qed.

Lemma PInv_extra_perm heads s e m rs out extra extra' fl pool :
  extra ≡ₚ extra' ->
  PInv heads s e m rs out extra fl pool ->
  PInv heads s e m rs out extra' fl pool.
Proof.
  intros Hp [Hlen Hch Hheap Hpool Har Hex Hdj Hout Hlg].
  constructor; try assumption.
  - rewrite <- Hp. exact Hex.
  - destruct Hdj as [H1 H2]. split; [rewrite <- Hp; exact H1|].
    eapply pairwise_disjoint_perm; [|exact H2]. rewrite Hp. reflexivity.
Qed.

(** ** The scan and the salvage under the invariant *)

Lemma class_of_multiple n :
  8 <= n <= kMaxBytes -> n mod 8 = 0 ->
  exists i, (i < 16)%nat
            /\ MemoryPoolAllocator.GetFreelistIndex n = Z.of_nat i
            /\ class_size i = n.
Proof.
  intros Hn Hn8.
  destruct (GetFreelistIndex_small n ltac:(lia)) as [_ Hr].
  pose proof (GetFreelistIndex_multiple n Hn Hn8) as Hc.
  change kFreeListNum with 16 in Hr.
  exists (Z.to_nat (MemoryPoolAllocator.GetFreelistIndex n)).
  split; [lia|]. split; [lia|]. unfold class_size. lia.
Qed.

Lemma scan_PInv s e out pool fuel :
  forall i w fl,
    PInv (freelist_ w) s e (mem w) (regions w) out [] fl pool ->
    8 <= i <= 136 -> i mod 8 = 0 -> 144 - i <= 8 * Z.of_nat fuel ->
    MemoryPoolAllocator.scan_freelists fuel i w = Ok false w
    \/ exists i' h w' fl',
         MemoryPoolAllocator.scan_freelists fuel i w = Ok true w'
         /\ i <= i' <= kMaxBytes /\ i' mod 8 = 0
         /\ freespacestart_ w' = h /\ freespaceend_ w' = wrap (h + i')
         /\ regions w' = regions w /\ mallocoffset_ w' = mallocoffset_ w
         /\ PInv (freelist_ w') s e (mem w') (regions w) out [(h, i')] fl' pool.
Proof.
  induction fuel as [|fuel IH]; intros i w fl HI Hi Hi8 Hf; [lia|].
  cbn [MemoryPoolAllocator.scan_freelists].
  destruct (i <=? kMaxBytes) eqn:E; [|left; reflexivity].
  apply Z.leb_le in E.
  destruct (class_of_multiple i ltac:(lia) Hi8) as (j & Hj & Hidx & Hcs).
  rewrite Hidx.
  destruct (lookup_lt_is_Some_2 (freelist_ w) j) as [h Hh].
  { rewrite (pi_len _ _ _ _ _ _ _ _ _ HI). exact Hj. }
  unfold bind.
  pose proof (Empty_eq (Z.of_nat j) w h) as HE. rewrite Nat2Z.id in HE.
  rewrite HE by (change kFreeListNum with 16; lia || exact Hh).
  destruct (h =? 0) eqn:Ez.
  - cbn [negb]. cbv beta iota. unfold kAlign, kMaxBytes in *.
    rewrite wrap_small by lia.
    destruct (IH (i + 8) w fl HI ltac:(lia)) as [Hn | (i' & h' & w' & fl' & Hs & Hr & Hrest)].
    + rewrite Z.add_mod, Hi8 by lia. reflexivity.
    + lia.
    + left. exact Hn.
    + right. exists i', h', w', fl'. split; [exact Hs|]. split; [lia | exact Hrest].
  - cbn [negb]. cbv beta iota. apply Z.eqb_neq in Ez.
    destruct (Pop_PInv w s e out [] fl pool j h Hh Ez HI) as (rest & next & Hfl & HP & HI').
    rewrite HP. unfold modify. right.
    exists i, h. eexists. exists (<[j := rest]> fl).
    split; [reflexivity|]. split; [lia|]. split; [exact Hi8|].
    simpl. do 4 (split; [reflexivity|]). rewrite <- Hcs. exact HI'.
Qed.

Lemma salvage_PInv w out fl pool :
  PInv (freelist_ w) (freespacestart_ w) (freespaceend_ w) (mem w) (regions w)
       out [] fl pool ->
  freespaceend_ w - freespacestart_ w < kMaxBytes ->
  exists ws fl',
    salvage w w = Ok tt ws
    /\ PInv (freelist_ ws) (freespaceend_ w) (freespaceend_ w) (mem ws) (regions w)
            out [] fl' pool
    /\ ws = set_freelist (freelist_ ws) (set_mem (mem ws) w).
Proof.
  intros HI Hsmall.
  pose proof (pi_arena _ _ _ _ _ _ _ _ _ HI) as (Hse & He & Hs8 & He8 & Hw).
  set (s := freespacestart_ w) in *. set (e := freespaceend_ w) in *.
  assert (Hl : wrap (e - s) = e - s) by (apply wrap_small; lia).
  assert (Hl8 : (e - s) mod 8 = 0).
  { rewrite Zminus_mod, He8, Hs8. reflexivity. }
  unfold salvage. fold s e. rewrite Hl.
  destruct (kAlign <=? e - s) eqn:E.
  - apply Z.leb_le in E. unfold kAlign in E.
    destruct (class_of_multiple (e - s) ltac:(lia) Hl8) as (j & Hj & Hidx & Hcs).
    rewrite Hidx.
    assert (HI1 : PInv (freelist_ w) e e (mem w) (regions w) out
                       [(s, class_size j)] fl pool).
    { rewrite Hcs. replace e with (s + (e - s)) at 1 by lia.
      apply PInv_carve; [lia | exact Hl8 | exact HI]. }
    destruct (Push_PInv w e e out [] fl pool j s Hj HI1) as (h & Hh & HP & HI2).
    eexists. exists (<[j := s :: fl j]> fl). split; [exact HP|].
    split; [exact HI2 | reflexivity].
  - apply Z.leb_gt in E. unfold kAlign in E.
    assert (e = s).
    { pose proof (Z.div_mod (e - s) 8 ltac:(lia)) as Hd. lia. }
    exists w, fl. split; [reflexivity|]. split.
    + replace s with e in HI by congruence. exact HI.
    + destruct w; reflexivity.
Qed.

(** A store just above the null page faults. *)
Lemma Push_low_address w i a :
  heap_ok (regions w) -> length (freelist_ w) = 16%nat -> (i < 16)%nat ->
  a < page_size ->
  MemoryPoolList.Push (Z.of_nat i) a w = Undefined (BadAccess a).
Proof.
  intros [Hh _] Hlen Hi Ha.
  destruct (lookup_lt_is_Some_2 (freelist_ w) i) as [h Hh'].
  { rewrite Hlen. exact Hi. }
  unfold MemoryPoolList.Push, bind.
  pose proof (node_at_eq (Z.of_nat i) w h) as HN. rewrite Nat2Z.id in HN.
  rewrite HN by (change kFreeListNum with 16; lia || exact Hh').
  unfold MemoryPoolList.GetNextNode_assign, store64.
  assert (Hacc : accessible a w = false).
  { unfold accessible. apply andb_false_intro2.
    apply not_true_is_false. intros Hex. apply existsb_exists in Hex.
    destruct Hex as (r & Hr & Hin). rewrite Forall_forall in Hh.
    specialize (Hh r (proj2 (list_elem_of_In _ _) Hr)).
    unfold inside in Hin. apply andb_prop in Hin. destruct Hin as [Hin _].
    apply Z.leb_le in Hin. lia. }
  rewrite Hacc. reflexivity.
Qed.

(** ** ChunkAlloc under the invariant *)

(** A fresh region becomes the arena and the twenty blocks are carved. *)
Lemma fresh_arena_PInv heads e m rs out fl pool p bg size :
  8 <= size <= kMaxBytes -> size mod 8 = 0 ->
  2 * (size * 20) <= bg < 2 ^ 62 -> bg mod 8 = 0 ->
  placement_ok p bg rs = true ->
  PInv heads e e m rs out [] fl pool ->
  PInv heads (p + size * 20) (p + bg) m ((p, region_len bg) :: rs) out
       [(p, 20 * size)] fl ((p, bg) :: pool)
  /\ 0 <= p /\ p + bg < 2 ^ 64.
Proof.
  unfold kMaxBytes. intros Hs Hs8 Hbg Hbg8 Hok HI.
  apply placement_ok_fresh in Hok. destruct Hok as (Hlo & Hal & Hhi & Hfresh).
  assert (Hrl : region_len bg = bg) by (unfold region_len; lia).
  rewrite Hrl in *. unfold page_size in Hlo.
  split; [|lia].
  replace (20 * size) with (size * 20) by lia.
  apply PInv_carve; [lia | |].
  - rewrite Z.mul_comm, Z.mul_mod, Hs8 by lia. reflexivity.
  - apply (PInv_new_arena heads e e m rs out [] fl pool p bg);
      try assumption; unfold page_size; lia.
Qed.

Lemma ChunkAlloc_PoolInv w out fl pool i chunk k w' :
  (i < 16)%nat ->
  PoolInv w out [] fl pool ->
  MemoryPoolAllocator.ChunkAlloc MemoryPoolAllocator.chunk_fuel (class_size i) 20 w
  = Ok (chunk, k) w' ->
  (chunk = 0 /\ k = 20 /\ heap_ok (regions w') /\ length (freelist_ w') = 16%nat)
  \/ (1 <= k <= 20
      /\ exists fl' pool', PoolInv w' out [(chunk, k * class_size i)] fl' pool').
Proof.
  intros Hi [HI Hoff] H.
  pose proof (class_size_range i Hi) as Hcs.
  assert (Hcs8 : class_size i mod 8 = 0).
  { unfold class_size. rewrite Z.mul_comm. apply Z.mod_mul. lia. }
  set (size := class_size i) in *.
  pose proof (pi_arena _ _ _ _ _ _ _ _ _ HI) as (Hse & He & Hs8 & He8 & Hw).
  set (s := freespacestart_ w) in *. set (e := freespaceend_ w) in *.
  assert (Hl : wrap (e - s) = e - s) by (apply wrap_small; lia).
  assert (Hneed : wrap (size * 20) = size * 20)
    by (apply wrap_small; unfold kMaxBytes in Hcs; lia).
  unfold MemoryPoolAllocator.chunk_fuel in H. unfold kMaxBytes in Hcs.
  destruct (Z_le_gt_dec (size * 20) (e - s)) as [Hen | Hen].
  { (* the arena holds the whole batch *)
    rewrite ChunkAlloc_enough in H by (fold s e; rewrite Hl, Hneed; exact Hen).
    inversion H; subst chunk k w'. right. split; [lia|].
    exists fl, pool. split; [|exact Hoff]. simpl. fold s e.
    rewrite Hneed, wrap_small by lia.
    replace (20 * size) with (size * 20) by lia.
    apply PInv_carve; [lia | | exact HI].
    rewrite Z.mul_comm, Z.mul_mod, Hcs8 by lia. reflexivity. }
  destruct (Z_le_gt_dec size (e - s)) as [Hone | Hone].
  { (* the arena holds some blocks *)
    rewrite ChunkAlloc_partial in H by (fold s e; rewrite Hl, ?Hneed; lia).
    fold s e in H. rewrite Hl in H.
    inversion H; subst chunk k w'. clear H.
    pose proof (Z.div_mod (e - s) size ltac:(lia)) as Hd.
    pose proof (Z.mod_pos_bound (e - s) size ltac:(lia)) as Hm.
    assert (Hq : 1 <= (e - s) / size < 20).
    { split; [apply Z.div_le_lower_bound; lia | apply Z.div_lt_upper_bound; lia]. }
    right. split; [lia|].
    exists fl, pool. split; [|exact Hoff]. simpl. fold s e.
    rewrite (wrap_small ((e - s) / size * size)) by nia.
    rewrite wrap_small by nia.
    apply PInv_carve; [nia | | exact HI].
    rewrite Z.mul_mod, Hcs8, Z.mul_0_r by lia. reflexivity. }
  (* the arena is exhausted *)
  rewrite ChunkAlloc_grow in H by (fold s e; rewrite Hl, ?Hneed; lia).
  destruct (bytesget_eq size 20 (mallocoffset_ w) ltac:(unfold kMaxBytes; lia) ltac:(lia) Hoff)
    as (_ & Hbg8 & Hbgr).
  set (bg := bytesget size 20 (mallocoffset_ w)) in *.
  assert (Hbg8' : bg mod 8 = 0).
  { rewrite Hbg8. replace (2 * (size * 20)) with (5 * size * 8) by lia.
    apply Z.mod_mul. lia. }
  destruct (salvage_PInv w out fl pool HI ltac:(fold s e; unfold kMaxBytes; lia))
    as (ws & fl1 & Hsalv & HI1 & Hws).
  fold e in HI1.
  unfold bind at 1 in H. rewrite Hsalv in H.
  assert (Hregs : regions ws = regions w) by (rewrite Hws; reflexivity).
  assert (Hoffs : 0 <= wrap (mallocoffset_ w + bg) < 2 ^ 64) by apply wrap_range.
  unfold bind at 1 in H.
  destruct (malloc_cases bg ws) as [(p & Hp & Hok & Hm) | Hm]; rewrite Hm in H.
  { (* malloc granted the new arena *)
    unfold bind at 1 in H. unfold modify at 1 in H.
    destruct (p =? 0) eqn:E; [apply Z.eqb_eq in E; contradiction|].
    unfold bind, modify in H.
    rewrite (ChunkAlloc_fresh_arena 1 size p bg) in H;
      [| unfold kMaxBytes; lia | lia | reflexivity | reflexivity].
    inversion H; subst chunk k w'. clear H.
    right. split; [lia|].
    rewrite Hregs in Hok.
    destruct (fresh_arena_PInv _ _ _ _ _ _ _ p bg size
                ltac:(unfold kMaxBytes; lia) Hcs8 Hbgr Hbg8' Hok HI1) as (HI2 & Hp0 & Hpb).
    exists fl1, ((p, bg) :: pool). split; [|exact Hoffs]. simpl.
    rewrite Hregs, (wrap_small (p + size * 20)), (wrap_small (p + bg)) by lia.
    exact HI2. }
  (* malloc failed: scan the free lists *)
  unfold bind at 1 in H. unfold modify at 1 in H.
  change (0 =? 0) with true in H. cbv iota in H.
  set (wm := set_start 0 (set_sys _ _ _ ws)) in H.
  assert (HIm : PInv (freelist_ wm) e e (mem wm) (regions wm) out [] fl1 pool).
  { simpl. rewrite Hregs. exact HI1. }
  assert (Hregm : regions wm = regions w) by (simpl; exact Hregs).
  assert (Hoffm : mallocoffset_ wm = mallocoffset_ w)
    by (unfold wm; simpl; rewrite Hws; reflexivity).
  unfold bind at 1 in H.
  destruct (scan_PInv e e out pool MemoryPoolAllocator.scan_fuel size wm fl1 HIm
              ltac:(lia) Hcs8 ltac:(unfold MemoryPoolAllocator.scan_fuel; lia))
    as [Hscan | (i' & h & w2 & fl2 & Hscan & Hi' & Hi8 & Hst & Hen2 & Hreg2 & Hoff2 & HI2)];
    rewrite Hscan in H.
  { (* no spare block: the last resort *)
    unfold bind at 1 in H. unfold modify at 1 in H.
    unfold bind at 1 in H.
    pose proof (MallocAllocator_Allocate_frame bg (set_end 0 wm)) as Hfr.
    destruct (MallocAllocator.Allocate bg (set_end 0 wm)) as [p wa|wa| |];
      try discriminate; try contradiction.
    destruct Hfr as (Hps & _ & Hr).
    unfold pool_state in Hps. simpl in Hps.
    injection Hps as Hfl Hsta Hend Hofa Hmem.
    unfold bind, modify in H.
    rewrite (ChunkAlloc_fresh_arena 1 size p bg) in H;
      [| unfold kMaxBytes; lia | lia | reflexivity | reflexivity].
    inversion H; subst chunk k w'. clear H.
    destruct Hr as [(Hp & Hreg & Hok) | (Hp & Hreg)].
    - right. split; [lia|].
      simpl in Hok, Hreg. rewrite Hregs in Hok, Hreg.
      destruct (fresh_arena_PInv _ _ _ _ _ _ _ p bg size
                  ltac:(unfold kMaxBytes; lia) Hcs8 Hbgr Hbg8' Hok HI1) as (HI2 & Hp0 & Hpb).
      exists fl1, ((p, bg) :: pool). split; [|exact Hoffs]. simpl.
      rewrite Hfl, Hmem, Hreg, (wrap_small (p + size * 20)), (wrap_small (p + bg)) by lia.
      exact HI2.
    - left. subst p. split; [reflexivity|]. split; [reflexivity|]. simpl.
      rewrite Hreg, Hfl. simpl. rewrite Hregs. split.
      + apply (pi_heap _ _ _ _ _ _ _ _ _ HI).
      + apply (pi_len _ _ _ _ _ _ _ _ _ HI1). }
  (* a spare block becomes the arena *)
  rewrite (ChunkAlloc_mini_arena 1 size h i' w2) in H;
    [| lia | lia | exact Hst | exact Hen2].
  inversion H; subst chunk k w'. clear H.
  unfold kMaxBytes in Hi'.
  pose proof (Z.div_mod i' size ltac:(lia)) as Hd.
  pose proof (Z.mod_pos_bound i' size ltac:(lia)) as Hmo.
  assert (Hq : 1 <= i' / size <= 16).
  { split; [apply Z.div_le_lower_bound; lia|].
    apply Z.div_le_upper_bound; lia. }
  right. split; [lia|].
  apply (PInv_mini_arena _ _ _ _ _ _ _ _ _ h i' ltac:(lia) Hi8) in HI2.
  pose proof (pi_arena _ _ _ _ _ _ _ _ _ HI2) as (Hh0 & Hhi & _).
  exists fl2, pool. split; [|simpl; rewrite Hoff2, Hoffm; exact Hoff].
  simpl. rewrite Hen2, Hreg2, Hregm, (wrap_small (h + i')), wrap_small by nia.
  rewrite Hregm in HI2.
  apply PInv_carve; [nia | | exact HI2].
  rewrite Z.mul_mod, Hcs8, Z.mul_0_r by lia. reflexivity.
Qed.

(** ** ReFill, Allocate and Deallocate under the invariant *)

Lemma ReFill_PoolInv w out fl pool i p w' :
  (i < 16)%nat ->
  PoolInv w out [] fl pool ->
  MemoryPoolAllocator.ReFill (class_size i) w = Ok p w' ->
  exists fl' pool', PoolInv w' out [(p, class_size i)] fl' pool'.
Proof.
  intros Hi HI H.
  pose proof (class_size_range i Hi) as Hcs. unfold kMaxBytes in Hcs.
  unfold MemoryPoolAllocator.ReFill in H. unfold bind at 1 in H.
  destruct (MemoryPoolAllocator.ChunkAlloc _ _ _ w) as [[chunk k] w1| | |] eqn:EC;
    try discriminate.
  cbn [fst snd] in H.
  destruct (ChunkAlloc_PoolInv w out fl pool i chunk k w1 Hi HI EC)
    as [(-> & -> & Hheap & Hlen) | (Hk & fl1 & pool1 & [HI1 Hoff1])].
  - (* the arena is the null page: threading the blocks faults *)
    change (20 =? 1) with false in H. cbv iota in H.
    change (Z.to_nat (to_int 20 - 1)) with 19%nat in H.
    cbn [MemoryPoolAllocator.ReFill_loop] in H.
    rewrite class_size_index in H by exact Hi.
    unfold bind at 1 2 in H.
    rewrite (Push_low_address w1 i) in H; try assumption; [discriminate|].
    rewrite wrap_small by lia. unfold page_size. lia.
  - destruct (k =? 1) eqn:Ek.
    + apply Z.eqb_eq in Ek. subst k. inversion H; subst p w'. clear H.
      exists fl1, pool1. split; [|exact Hoff1].
      rewrite Z.mul_1_l in HI1. exact HI1.
    + apply Z.eqb_neq in Ek.
      assert (Hti : to_int k = k).
      { unfold to_int. rewrite Z.mod_small by lia.
        destruct (k <? 2 ^ 31) eqn:E; [reflexivity | apply Z.ltb_ge in E; lia]. }
      rewrite Hti in H.
      assert (Hbounds : 0 <= chunk /\ chunk + k * class_size i < 2 ^ 64).
      { pose proof (pi_exts _ _ _ _ _ _ _ _ _ HI1) as Hex.
        inversion Hex as [|? ? Hx _]; subst. destruct Hx as (_ & Hn & Hw).
        destruct (within_bounds _ _ _ (pi_heap _ _ _ _ _ _ _ _ _ HI1)
                    (pi_pool _ _ _ _ _ _ _ _ _ HI1) Hw Hn) as [Hlo Hhi].
        simpl in Hlo, Hhi. unfold page_size in Hlo. lia. }
      rewrite (wrap_small (chunk + class_size i)) in H by nia.
      apply (PInv_cut _ _ _ _ _ _ _ _ _ chunk _ (class_size i)) in HI1;
        [| nia | unfold class_size; rewrite Z.mul_comm; apply Z.mod_mul; lia].
      apply (PInv_extra_perm _ _ _ _ _ _ _ _ _ _ (perm_swap _ _ _)) in HI1.
      replace (k * class_size i - class_size i)
        with (Z.of_nat (Z.to_nat (k - 1)) * class_size i) in HI1 by lia.
      destruct (ReFill_loop_PInv _ _ out [(chunk, class_size i)] pool1 i
                  (Z.to_nat (k - 1)) Hi (chunk + class_size i) w1 fl1 HI1)
        as (w2 & fl2 & HR & HI2 & Hreg & Hst & Hen & Hof).
      unfold bind in H. rewrite HR in H. inversion H; subst p w'. clear H.
      exists fl2, pool1. split.
      * rewrite Hreg, Hst, Hen. exact HI2.
      * rewrite Hof. exact Hoff1.
Qed.

Lemma Allocate_zero w :
  MemoryPoolAllocator.Allocate 0 w = Undefined (OutOfBounds (2 ^ 64 - 1)).
Proof.
  rewrite Allocate_small by (unfold kMaxBytes; lia).
  unfold bind, MemoryPoolList.Empty, bind.
  rewrite node_at_out_of_bounds; [reflexivity|]. vm_compute. discriminate.
Qed.

Lemma class_of_request sz :
  0 < sz <= kMaxBytes ->
  exists i, (i < 16)%nat
            /\ MemoryPoolAllocator.GetFreelistIndex sz = Z.of_nat i
            /\ MemoryPoolAllocator.RoundUp sz = class_size i.
Proof.
  intros Hsz.
  destruct (GetFreelistIndex_small sz Hsz) as [_ Hr].
  destruct (RoundUp_small sz Hsz) as (Hru & _ & _).
  change kFreeListNum with 16 in Hr.
  exists (Z.to_nat (MemoryPoolAllocator.GetFreelistIndex sz)).
  split; [lia|]. split; [lia|]. rewrite Hru. unfold class_size. lia.
Qed.

Lemma Allocate_Inv w out sz p w' :
  Inv w out -> 0 <= sz < 2 ^ 64 ->
  MemoryPoolAllocator.Allocate sz w = Ok p w' ->
  Inv w' ((p, sz) :: out).
Proof.
  intros (fl & pool & HI) Hsz H.
  destruct (Z.eq_dec sz 0) as [-> | Hnz]; [rewrite Allocate_zero in H; discriminate|].
  destruct (Z_le_gt_dec sz kMaxBytes) as [Hsmall | Hlarge].
  - destruct (class_of_request sz ltac:(lia)) as (i & Hi & Hidx & Hru).
    rewrite Allocate_small in H by exact Hsmall. rewrite Hidx, Hru in H.
    destruct HI as [HI Hoff].
    destruct (lookup_lt_is_Some_2 (freelist_ w) i) as [h Hh].
    { rewrite (pi_len _ _ _ _ _ _ _ _ _ HI). exact Hi. }
    unfold bind in H.
    pose proof (Empty_eq (Z.of_nat i) w h) as HE. rewrite Nat2Z.id in HE.
    rewrite HE in H by (change kFreeListNum with 16; lia || exact Hh).
    destruct (h =? 0) eqn:Ez.
    + destruct (ReFill_PoolInv w out fl pool i p w' Hi (conj HI Hoff) H)
        as (fl' & pool' & [HI' Hoff']).
      exists fl', pool'. split; [|exact Hoff'].
      apply PInv_hand_out; [lia|]. rewrite Hru. exact HI'.
    + apply Z.eqb_neq in Ez.
      destruct (Pop_PInv w _ _ out [] fl pool i h Hh Ez HI) as (rest & next & _ & HP & HI').
      rewrite HP in H. inversion H; subst p w'. clear H.
      exists (<[i := rest]> fl), pool. split; [|exact Hoff]. simpl.
      apply PInv_hand_out; [lia|]. rewrite Hru. exact HI'.
  - unfold MemoryPoolAllocator.Allocate in H.
    destruct (kMaxBytes <? sz) eqn:E; [|apply Z.ltb_ge in E; lia].
    pose proof (MallocAllocator_Allocate_frame sz w) as Hfr. rewrite H in Hfr.
    destruct Hfr as (Hps & _ & Hr). unfold pool_state in Hps.
    injection Hps as Hfl Hsta Hend Hofa Hmem.
    destruct HI as [HI Hoff].
    exists fl, pool. split; [|rewrite Hofa; exact Hoff].
    rewrite Hfl, Hsta, Hend, Hmem.
    destruct Hr as [(Hp & Hreg & Hok) | (-> & Hreg)]; rewrite Hreg.
    + apply PInv_large_alloc; [lia | exact Hp | exact Hok | exact HI].
    + apply PInv_large_null; [lia | exact HI].
Qed.

Lemma Deallocate_Inv w out obj sz :
  Inv w ((obj, sz) :: out) ->
  exists w', MemoryPoolAllocator.Deallocate obj sz w = Ok tt w' /\ Inv w' out.
Proof.
  intros (fl & pool & [HI Hoff]).
  assert (Hpos : 0 < sz).
  { pose proof (pi_out _ _ _ _ _ _ _ _ _ HI) as Ho. inversion Ho; assumption. }
  destruct (Z_le_gt_dec sz kMaxBytes) as [Hsmall | Hlarge].
  - destruct (class_of_request sz ltac:(lia)) as (i & Hi & Hidx & Hru).
    rewrite Deallocate_small by exact Hsmall. rewrite Hidx.
    apply PInv_take_back in HI; [|exact Hsmall]. rewrite Hru in HI.
    destruct (Push_PInv w _ _ out [] fl pool i obj Hi HI) as (h & Hh & HP & HI').
    eexists. split; [exact HP|].
    exists (<[i := obj :: fl i]> fl), pool. split; [exact HI' | exact Hoff].
  - unfold MemoryPoolAllocator.Deallocate.
    destruct (kMaxBytes <? sz) eqn:E; [|apply Z.ltb_ge in E; lia].
    unfold MallocAllocator.Deallocate, free.
    destruct (obj =? 0) eqn:Ez.
    + apply Z.eqb_eq in Ez. subst obj. eexists. split; [reflexivity|].
      exists fl, pool. split; [|exact Hoff]. simpl.
      eapply PInv_large_free_null; [|exact HI]. lia.
    + apply Z.eqb_neq in Ez.
      destruct (PInv_large_free _ _ _ _ _ _ _ _ _ obj sz ltac:(lia) Ez HI) as [Hlive HI'].
      rewrite Hlive. eexists. split; [reflexivity|].
      exists fl, pool. split; [exact HI' | exact Hoff].
Qed.

Lemma initial_Inv o : Inv (initial_world o) [].
Proof.
  exists (fun _ => []), []. split; [|simpl; lia].
  constructor; cbn [initial_world freelist_ freespacestart_ freespaceend_ mem regions].
  - reflexivity.
  - intros i h Hh. apply lookup_replicate in Hh. destruct Hh as [-> _]. reflexivity.
  - split; constructor.
  - intros r Hr. inversion Hr.
  - repeat split; try lia; try reflexivity.
  - constructor.
  - split; constructor.
  - constructor.
  - split; [constructor|]. intros p Hp. inversion Hp.
Qed.

Lemma reach_Inv w out : reach w out -> Inv w out.
Proof.
  induction 1 as [o | w out size p w' _ IH Hs HA
                   | w out obj size out' w' _ IH Hp HD
                   | w out func old w' _ IH HS].
  - apply initial_Inv.
  - eapply Allocate_Inv; eassumption.
  - assert (HI : Inv w ((obj, size) :: out')).
    { destruct IH as (fl & pool & [HI Hoff]). exists fl, pool.
      split; [|exact Hoff]. eapply PInv_out_perm; eassumption. }
    destruct (Deallocate_Inv w out' obj size HI) as (w'' & HD' & HI').
    rewrite HD in HD'. inversion HD'; subst. exact HI'.
  - unfold MallocAllocator.SetMallocHandler, bind, get, modify, ret in HS.
    inversion HS; subst. exact IH.
Qed.

Lemma Inv_remainder_fits w out : Inv w out -> remainder_fits w.
Proof.
  intros (fl & pool & [HI _]).
  pose proof (pi_arena _ _ _ _ _ _ _ _ _ HI) as (Hse & He & Hs8 & He8 & _).
  unfold remainder_fits.
  rewrite wrap_small by lia.
  assert (H8 : (freespaceend_ w - freespacestart_ w) mod 8 = 0).
  { rewrite Zminus_mod, He8, Hs8. reflexivity. }
  split; [exact H8|]. intros Hr. unfold kAlign in Hr.
  apply GetFreelistIndex_multiple; assumption.
Qed.

(** ** The fuel of the model is enough

    The recursion of ChunkAlloc is at most two calls deep and the scan makes
    at most seventeen rounds: no call of the public interface ends for lack
    of fuel. *)

Lemma Push_fuel index node w : MemoryPoolList.Push index node w <> OutOfFuel.
Proof.
  unfold MemoryPoolList.Push, bind, node_at, MemoryPoolList.GetNextNode_assign, store64, set_node_at.
  destruct ((0 <=? index) && (index <? kFreeListNum)); [|discriminate].
  destruct (freelist_ w !! Z.to_nat index); [|discriminate].
  destruct (accessible node w); [|discriminate].
  simpl. destruct (freelist_ w !! Z.to_nat index); discriminate.
Qed.

Lemma Pop_cases index w :
  match MemoryPoolList.Pop index w with
  | Ok h w' => exists l, w' = set_freelist l w
  | Undefined _ => True
  | _ => False
  end.
Proof.
  unfold MemoryPoolList.Pop, bind, node_at, MemoryPoolList.GetNextNode, load64, set_node_at.
  destruct ((0 <=? index) && (index <? kFreeListNum)); [|exact I].
  destruct (freelist_ w !! Z.to_nat index) as [h|] eqn:E; [|exact I].
  destruct (accessible h w); [|exact I].
  destruct (mem w !! h); [|exact I].
  rewrite E. eexists. reflexivity.
Qed.

Lemma Empty_cases index w :
  match MemoryPoolList.Empty index w with
  | Ok _ w' => w' = w
  | Undefined _ => True
  | _ => False
  end.
Proof.
  unfold MemoryPoolList.Empty, bind, node_at.
  destruct ((0 <=? index) && (index <? kFreeListNum)); [|exact I].
  destruct (freelist_ w !! Z.to_nat index); [reflexivity | exact I].
Qed.

Lemma scan_freelists_cases fuel :
  forall i w,
    0 < i <= 136 -> 144 - i <= 8 * Z.of_nat fuel ->
    match MemoryPoolAllocator.scan_freelists fuel i w with
    | Ok false w' => w' = w
    | Ok true w' =>
        exists i', i <= i' <= kMaxBytes
                   /\ freespaceend_ w' = wrap (freespacestart_ w' + i')
    | Undefined _ => True
    | _ => False
    end.
Proof.
  induction fuel as [|fuel IH]; intros i w Hi Hf; [lia|].
  cbn [MemoryPoolAllocator.scan_freelists].
  destruct (i <=? kMaxBytes) eqn:E; [|reflexivity].
  apply Z.leb_le in E. unfold bind at 1.
  pose proof (Empty_cases (MemoryPoolAllocator.GetFreelistIndex i) w) as HE.
  destruct (MemoryPoolList.Empty _ w) as [e w1| | |]; try exact HE. subst w1.
  destruct e; cbn [negb]; cbv beta iota.
  - unfold kAlign, kMaxBytes in *. rewrite wrap_small by lia.
    specialize (IH (i + 8) w ltac:(lia) ltac:(lia)).
    destruct (MemoryPoolAllocator.scan_freelists fuel (i + 8) w) as [[|] w1| | |];
      try exact IH.
    destruct IH as (i' & Hi' & Hen). exists i'. split; [lia | exact Hen].
  - unfold bind at 1.
    pose proof (Pop_cases (MemoryPoolAllocator.GetFreelistIndex i) w) as HP.
    destruct (MemoryPoolList.Pop _ w) as [h w1| | |]; try exact HP.
    unfold bind, modify, ret. exists i. split; [lia | reflexivity].
Qed.

Lemma ChunkAlloc_fuel size w :
  8 <= size <= kMaxBytes -> 0 <= mallocoffset_ w < 2 ^ 64 ->
  MemoryPoolAllocator.ChunkAlloc MemoryPoolAllocator.chunk_fuel size 20 w <> OutOfFuel.
Proof.
  intros Hs Hoff. unfold MemoryPoolAllocator.chunk_fuel.
  destruct (bytesget_eq size 20 (mallocoffset_ w) ltac:(lia) ltac:(lia) Hoff)
    as (_ & _ & Hbg).
  set (bg := bytesget size 20 (mallocoffset_ w)) in *.
  unfold kMaxBytes in Hs.
  destruct (Z_le_gt_dec (wrap (size * 20)) (wrap (freespaceend_ w - freespacestart_ w)))
    as [Hen | Hen]; [rewrite ChunkAlloc_enough by exact Hen; discriminate|].
  destruct (Z_le_gt_dec size (wrap (freespaceend_ w - freespacestart_ w)))
    as [Hone | Hone]; [rewrite ChunkAlloc_partial by lia; discriminate|].
  rewrite ChunkAlloc_grow by lia. fold bg.
  unfold bind at 1.
  assert (Hsalv : salvage w w <> OutOfFuel).
  { unfold salvage. destruct (kAlign <=? _); [apply Push_fuel | discriminate]. }
  destruct (salvage w w) as [[] ws| | |]; try discriminate; [|contradiction].
  unfold bind at 1.
  destruct (malloc_cases bg ws) as [(p & Hp & _ & Hm) | Hm]; rewrite Hm.
  - unfold bind at 1. unfold modify at 1.
    destruct (p =? 0) eqn:E; [apply Z.eqb_eq in E; contradiction|].
    unfold bind, modify.
    rewrite (ChunkAlloc_fresh_arena 1 size p bg);
      [discriminate | unfold kMaxBytes; lia | lia | reflexivity | reflexivity].
  - unfold bind at 1. unfold modify at 1.
    change (0 =? 0) with true. cbv iota.
    set (wm := set_start 0 _).
    unfold bind at 1.
    pose proof (scan_freelists_cases MemoryPoolAllocator.scan_fuel size wm
                  ltac:(lia) ltac:(unfold MemoryPoolAllocator.scan_fuel; lia)) as Hscan.
    destruct (MemoryPoolAllocator.scan_freelists _ size wm) as [[|] w2| | |];
      try discriminate; try contradiction.
    + destruct Hscan as (i' & Hi' & Hen2).
      rewrite (ChunkAlloc_mini_arena 1 size (freespacestart_ w2) i' w2);
        [discriminate | lia | lia | reflexivity | exact Hen2].
    + unfold bind at 1. unfold modify at 1. unfold bind at 1.
      pose proof (MallocAllocator_Allocate_frame bg (set_end 0 w2)) as Hfr.
      destruct (MallocAllocator.Allocate bg (set_end 0 w2)) as [p wa|wa| |];
        try discriminate; try contradiction.
      unfold bind, modify.
      rewrite (ChunkAlloc_fresh_arena 1 size p bg);
        [discriminate | unfold kMaxBytes; lia | lia | reflexivity | reflexivity].
Qed.

Lemma ReFill_loop_fuel n size : forall next w,
  MemoryPoolAllocator.ReFill_loop n size next w <> OutOfFuel.
Proof.
  induction n as [|n IH]; intros next w; [discriminate|].
  cbn [MemoryPoolAllocator.ReFill_loop]. unfold bind.
  pose proof (Push_fuel (MemoryPoolAllocator.GetFreelistIndex size) next w) as HP.
  destruct (MemoryPoolList.Push _ next w) as [[] w1| | |];
    try discriminate; [apply IH | contradiction].
Qed.

(** Allocate, for a [size_t] argument, never runs out of fuel. *)
Lemma Allocate_fuel size w :
  0 <= size < 2 ^ 64 -> 0 <= mallocoffset_ w < 2 ^ 64 ->
  MemoryPoolAllocator.Allocate size w <> OutOfFuel.
Proof.
  intros Hs Hoff.
  destruct (Z.eq_dec size 0) as [-> | Hnz]; [rewrite Allocate_zero; discriminate|].
  destruct (Z_le_gt_dec size kMaxBytes) as [Hsmall | Hlarge].
  - rewrite Allocate_small by exact Hsmall. unfold bind.
    pose proof (Empty_cases (MemoryPoolAllocator.GetFreelistIndex size) w) as HE.
    destruct (MemoryPoolList.Empty _ w) as [e w1| | |];
      try discriminate; try contradiction.
    subst w1. destruct e.
    + destruct (RoundUp_small size ltac:(lia)) as (_ & Hr & _).
      unfold MemoryPoolAllocator.ReFill, bind.
      pose proof (ChunkAlloc_fuel (MemoryPoolAllocator.RoundUp size) w Hr Hoff) as HC.
      destruct (MemoryPoolAllocator.ChunkAlloc _ _ 20 w) as [r w1| | |];
        try discriminate; [|contradiction].
      destruct (snd r =? 1); [discriminate|].
      pose proof (ReFill_loop_fuel (Z.to_nat (to_int (snd r) - 1))
                    (MemoryPoolAllocator.RoundUp size)
                    (wrap (fst r + MemoryPoolAllocator.RoundUp size)) w1) as HL.
      destruct (MemoryPoolAllocator.ReFill_loop _ _ _ w1) as [[] w2| | |];
        try discriminate. contradiction.
    + pose proof (Pop_cases (MemoryPoolAllocator.GetFreelistIndex size) w) as HP.
      destruct (MemoryPoolList.Pop _ w); try discriminate; contradiction.
  - unfold MemoryPoolAllocator.Allocate.
    destruct (kMaxBytes <? size) eqn:E; [|apply Z.ltb_ge in E; lia].
    pose proof (MallocAllocator_Allocate_frame size w) as Hfr.
    destruct (MallocAllocator.Allocate size w); try discriminate; contradiction.
Qed.

(** A pooled block the client holds is non-null, 8-aligned, and has the
    size of its class. *)
Lemma Inv_handed_out w out p sz :
  Inv w out -> (p, sz) ∈ out -> sz <= kMaxBytes ->
  p <> 0 /\ p mod 8 = 0
  /\ MemoryPoolAllocator.RoundUp sz
     = 8 * (MemoryPoolAllocator.GetFreelistIndex sz + 1).
Proof.
  intros (fl & pool & [HI _]) Hin Hsz.
  assert (Hpos : 0 < sz).
  { pose proof (pi_out _ _ _ _ _ _ _ _ _ HI) as Ho.
    rewrite Forall_forall in Ho. apply (Ho (p, sz) Hin). }
  destruct (RoundUp_small sz ltac:(lia)) as (Hru & Hr & _).
  assert (Hext : ext_ok pool (p, MemoryPoolAllocator.RoundUp sz)).
  { pose proof (pi_exts _ _ _ _ _ _ _ _ _ HI) as Hex.
    rewrite Forall_forall in Hex. apply Hex. simpl.
    apply elem_of_app. right. unfold out_exts.
    apply (list_elem_of_fmap_2 (fun x => (fst x, MemoryPoolAllocator.RoundUp (snd x)))
                                 _ (p, sz)).
    apply list_elem_of_filter. split; [exact Hsz | exact Hin]. }
  destruct Hext as (Hal & Hn & Hw).
  destruct (within_bounds _ _ _ (pi_heap _ _ _ _ _ _ _ _ _ HI)
              (pi_pool _ _ _ _ _ _ _ _ _ HI) Hw Hn) as [Hlo _].
  simpl in Hlo, Hal. unfold page_size in Hlo.
  split; [lia|]. split; [exact Hal | exact Hru].
Qed.

(** The pool block invariant, where the code keeps it.  In every state
    reached from the initial one by Allocate and Deallocate calls (and
    handler changes) of a client that deallocates only blocks it holds,
    with the size it requested:
      - each free list threads, through the link words in memory, blocks of
        exactly its class size 8 * (i + 1), and each block the client holds
        for a request of n <= 128 bytes has exactly RoundUp n bytes;
      - every such block is 8-aligned and lies inside a region obtained
        from the system heap for an arena, and the arena and all blocks are
        pairwise disjoint (a block is carved from the arena or is a block
        given back to the list of its own class);
      - a pooled block the client holds is non-null and 8-aligned, and its
        size RoundUp n equals 8 * (i + 1) for the class i of the request;
      - the arena remainder is a multiple of 8 and, when ChunkAlloc salvages
        it, equals the class size of the list it is pushed onto.
    Each step keeps these properties: an Allocate that returns, a
    deallocation the client may perform (which always succeeds), a ReFill
    that returns (its result being a block in transit), and a ChunkAlloc
    that returns a non-null chunk (the chunk being [k] blocks in transit).
    The one step that does not keep them is a ChunkAlloc whose last
    resort, MallocAllocator::Allocate, returns nullptr; it is studied right
    after this theorem. *)
Theorem pool_block_invariant (w : World) (out : list (Z * Z)) :
  reach w out ->
  Inv w out
  /\ (forall p size,
        (p, size) ∈ out -> size <= kMaxBytes ->
        p <> 0 /\ p mod 8 = 0
        /\ MemoryPoolAllocator.RoundUp size
           = 8 * (MemoryPoolAllocator.GetFreelistIndex size + 1))
  /\ remainder_fits w
  /\ (forall size p w',
        0 <= size < 2 ^ 64 ->
        MemoryPoolAllocator.Allocate size w = Ok p w' ->
        Inv w' ((p, size) :: out) /\ remainder_fits w')
  /\ (forall obj size out',
        out ≡ₚ (obj, size) :: out' ->
        exists w', MemoryPoolAllocator.Deallocate obj size w = Ok tt w'
                   /\ Inv w' out' /\ remainder_fits w')
  /\ (forall i p w',
        (i < 16)%nat ->
        MemoryPoolAllocator.ReFill (class_size i) w = Ok p w' ->
        exists fl pool, PoolInv w' out [(p, class_size i)] fl pool)
  /\ (forall i chunk k w',
        (i < 16)%nat ->
        MemoryPoolAllocator.ChunkAlloc MemoryPoolAllocator.chunk_fuel (class_size i) 20 w
        = Ok (chunk, k) w' ->
        chunk <> 0 ->
        1 <= k <= 20
        /\ exists fl pool, PoolInv w' out [(chunk, k * class_size i)] fl pool).
Proof.
  intros Hr. pose proof (reach_Inv w out Hr) as HI.
  split; [exact HI|].
  split; [intros p size; apply (Inv_handed_out w out p size HI)|].
  split; [eapply Inv_remainder_fits; exact HI|].
  split; [|split; [|split]].
  - intros size p w' Hs HA.
    assert (HI' : Inv w' ((p, size) :: out)) by (eapply Allocate_Inv; eassumption).
    split; [exact HI' | eapply Inv_remainder_fits; exact HI'].
  - intros obj size out' Hp.
    assert (HIp : Inv w ((obj, size) :: out')).
    { destruct HI as (fl & pool & [HI Hoff]). exists fl, pool.
      split; [|exact Hoff]. eapply PInv_out_perm; eassumption. }
    destruct (Deallocate_Inv w out' obj size HIp) as (w' & HD & HI').
    exists w'. split; [exact HD|]. split; [exact HI'|].
    eapply Inv_remainder_fits; exact HI'.
  - intros i p w' Hi HR. destruct HI as (fl & pool & HI).
    eapply ReFill_PoolInv; eassumption.
  - intros i chunk k w' Hi HC Hnz. destruct HI as (fl & pool & HI).
    destruct (ChunkAlloc_PoolInv w out fl pool i chunk k w' Hi HI HC)
      as [(Hz & _) | Hgood]; [contradiction | exact Hgood].
Qed.

Lemma pool_block_invariant_witness :
  Inv lifo_w2 [(lifo_p2, 3); (lifo_p1, 8)] /\ remainder_fits lifo_w2.
Proof.
  destruct (pool_block_invariant lifo_w2 [(lifo_p2, 3); (lifo_p1, 8)])
    as (H1 & _ & H2 & _).
  - apply (reach_Allocate lifo_w1 [(lifo_p1, 8)] 3 lifo_p2 lifo_w2).
    + apply (reach_Allocate lifo_w0 [] 8 lifo_p1 lifo_w1).
      * apply reach_init.
      * vm_compute. split; [discriminate | reflexivity].
      * vm_compute. reflexivity.
    + vm_compute. split; [discriminate | reflexivity].
    + vm_compute. reflexivity.
  - split; assumption.
Defined.

(** C1. The pool block invariant does not hold after every ChunkAlloc
    step.  Take the initial pool, a system heap that is exhausted, and an
    OOM handler installed that returns without freeing anything, a state
    the client reaches with one call of SetMallocHandler.  ChunkAlloc's
    first malloc fails, no free list has a spare block, and the last
    resort, MallocAllocator::Allocate, returns nullptr after three rounds
    of the handler.  ChunkAlloc tests the result of the first malloc but
    not this one: it installs the arena at the null pointer and carves
    from it.  The step returns the chunk 0 for twenty blocks and leaves the
    arena [160, 320), storage that belongs to no region obtained from the
    system heap, so the invariant is broken in the state it leaves, with
    or without the chunk counted as blocks in transit.  ReFill then stores
    a free-list link at address 8, and Allocate(8) is undefined. *)
Theorem ChunkAlloc_null_arena :
  reach (set_handler 7 (initial_world [])) []
  /\ exists w',
       MemoryPoolAllocator.ChunkAlloc MemoryPoolAllocator.chunk_fuel 8 20
         (set_handler 7 (initial_world [])) = Ok (0, 20) w'
       /\ handler_calls (trace w') = 3%nat
       /\ freespacestart_ w' = 160 /\ freespaceend_ w' = 320
       /\ regions w' = []
       /\ (forall extra fl pool, ~ PoolInv w' [] extra fl pool)
       /\ MemoryPoolAllocator.ReFill 8 (set_handler 7 (initial_world []))
          = Undefined (BadAccess 8)
       /\ MemoryPoolAllocator.Allocate 8 (set_handler 7 (initial_world []))
          = Undefined (BadAccess 8).
Proof.
  split.
  - apply (reach_SetMallocHandler (initial_world []) [] 7 0); [apply reach_init|].
    reflexivity.
  - eexists. split; [vm_compute; reflexivity|].
    split; [reflexivity|]. split; [reflexivity|]. split; [reflexivity|].
    split; [reflexivity|]. split.
    + intros extra fl pool [HP _].
      pose proof (pi_arena _ _ _ _ _ _ _ _ _ HP) as (_ & _ & _ & _ & Hw).
      simpl in Hw. destruct (Hw ltac:(lia)) as (r & Hr & _).
      pose proof (pi_pool _ _ _ _ _ _ _ _ _ HP r Hr) as Hrs. simpl in Hrs.
      apply elem_of_nil in Hrs. exact Hrs.
    + split; vm_compute; reflexivity.
Qed.

(** * Further properties of the allocators *)

(** ** Allocate, Deallocate, Allocate *)

Lemma list_insert_restore (l : list Z) (i : nat) (h p : Z) :
  l !! i = Some h -> <[i := h]> (<[i := p]> l) = l.
Proof.
  intros H. rewrite list_insert_insert_eq. apply list_insert_id. exact H.
Qed.

(** X1. In a reachable state, a pooled block just returned by Allocate can
    be given back with its size, and the next Allocate of that size class
    returns the same address; the free-list heads, the arena bounds and the
    system heap are then as they were right after the first Allocate. *)
Theorem Allocate_Deallocate_Allocate (w w1 : World) (out : list (Z * Z)) (s s' p : Z) :
  reach w out ->
  0 < s <= kMaxBytes -> 0 < s' <= kMaxBytes ->
  MemoryPoolAllocator.GetFreelistIndex s' = MemoryPoolAllocator.GetFreelistIndex s ->
  MemoryPoolAllocator.Allocate s w = Ok p w1 ->
  exists w2 w3,
    MemoryPoolAllocator.Deallocate p s w1 = Ok tt w2
    /\ MemoryPoolAllocator.Allocate s' w2 = Ok p w3
    /\ freelist_ w3 = freelist_ w1
    /\ freespacestart_ w3 = freespacestart_ w1
    /\ freespaceend_ w3 = freespaceend_ w1
    /\ regions w3 = regions w1
    /\ trace w3 = trace w1.
Proof.
  intros Hr Hs Hs' Hidx HA.
  assert (HI1 : Inv w1 ((p, s) :: out)).
  { eapply Allocate_Inv; [apply reach_Inv; exact Hr | unfold kMaxBytes in Hs; lia | exact HA]. }
  destruct (Deallocate_Inv w1 out p s HI1) as (w2 & HD & _).
  exists w2. pose proof HD as HD'.
  rewrite Deallocate_small in HD' by lia.
  apply Push_Ok in HD'. destruct HD' as (h & HN & Hacc & Hw2).
  apply node_at_Ok in HN. destruct HN as (_ & Hi & Hl).
  set (i := MemoryPoolAllocator.GetFreelistIndex s) in *.
  assert (Hlen : (Z.to_nat i < length (freelist_ w1))%nat)
    by (apply lookup_lt_is_Some; eauto).
  assert (Hhead : freelist_ w2 !! Z.to_nat i = Some p).
  { rewrite Hw2. simpl. apply list_lookup_insert_eq. exact Hlen. }
  assert (Hp : p <> 0) by (eapply accessible_nonnull; exact Hacc).
  eexists. split; [exact HD|]. split.
  - rewrite Allocate_small by lia. rewrite Hidx. fold i. unfold bind.
    rewrite (Empty_eq _ _ _ Hi Hhead).
    destruct (p =? 0) eqn:Ez; [apply Z.eqb_eq in Ez; contradiction|].
    apply (Pop_eq i w2 p h Hi Hhead).
    + rewrite Hw2. exact Hacc.
    + rewrite Hw2. simpl. apply lookup_insert_eq.
  - rewrite Hw2. simpl. rewrite list_insert_restore by exact Hl. auto.
Qed.

Lemma Allocate_Deallocate_Allocate_witness :
  exists w2 w3,
    MemoryPoolAllocator.Deallocate lifo_p1 8 lifo_w1 = Ok tt w2
    /\ MemoryPoolAllocator.Allocate 5 w2 = Ok lifo_p1 w3.
Proof.
  destruct (Allocate_Deallocate_Allocate lifo_w0 lifo_w1 [] 8 5 lifo_p1)
    as (w2 & w3 & H1 & H2 & _).
  - apply reach_init.
  - vm_compute. split; [reflexivity | discriminate].
  - vm_compute. split; [reflexivity | discriminate].
  - reflexivity.
  - vm_compute. reflexivity.
  - exists w2, w3. split; assumption.
Defined.

(** ** Blocks held at the same time *)

Lemma Inv_held_disjoint w out rest p s q t :
  Inv w out ->
  out ≡ₚ (p, s) :: (q, t) :: rest ->
  s <= kMaxBytes -> t <= kMaxBytes ->
  p + MemoryPoolAllocator.RoundUp s <= q \/ q + MemoryPoolAllocator.RoundUp t <= p.
Proof.
  intros (fl & pool & [HI _]) Hp Hs Ht.
  apply (PInv_out_perm _ _ _ _ _ _ _ _ _ _ Hp) in HI.
  apply PInv_take_back in HI; [|exact Hs].
  pose proof (pi_disj _ _ _ _ _ _ _ _ _ HI) as Hd.
  apply pairwise_disjoint_tail in Hd. simpl in Hd. destruct Hd as [Hd _].
  rewrite out_exts_small in Hd by exact Ht.
  rewrite Forall_forall in Hd.
  specialize (Hd (q, MemoryPoolAllocator.RoundUp t)).
  unfold disj in Hd. simpl in Hd. apply Hd.
  apply elem_of_app. right. apply list_elem_of_here.
Qed.

(** X2. Two pooled blocks the client holds at the same time never overlap:
    the RoundUp-sized extents of any two distinct outstanding allocations of
    at most 128 bytes are disjoint (so no address is handed out twice). *)
Theorem held_blocks_disjoint (w : World) (out rest : list (Z * Z)) (p s q t : Z) :
  reach w out ->
  out ≡ₚ (p, s) :: (q, t) :: rest ->
  s <= kMaxBytes -> t <= kMaxBytes ->
  p + MemoryPoolAllocator.RoundUp s <= q \/ q + MemoryPoolAllocator.RoundUp t <= p.
Proof.
  intros Hr. apply (Inv_held_disjoint w). apply reach_Inv. exact Hr.
Qed.

Lemma held_blocks_disjoint_witness :
  lifo_p2 + MemoryPoolAllocator.RoundUp 3 <= lifo_p1
  \/ lifo_p1 + MemoryPoolAllocator.RoundUp 8 <= lifo_p2.
Proof.
  apply (held_blocks_disjoint lifo_w2 [(lifo_p2, 3); (lifo_p1, 8)] [] lifo_p2 3 lifo_p1 8).
  - apply (reach_Allocate lifo_w1 [(lifo_p1, 8)] 3 lifo_p2 lifo_w2).
    + apply (reach_Allocate lifo_w0 [] 8 lifo_p1 lifo_w1).
      * apply reach_init.
      * vm_compute. split; [discriminate | reflexivity].
      * vm_compute. reflexivity.
    + vm_compute. split; [discriminate | reflexivity].
    + vm_compute. reflexivity.
  - reflexivity.
  - vm_compute. discriminate.
  - vm_compute. discriminate.
Defined.

(** ** Large blocks go back to the system heap *)

Lemma filter_other_bases p (rs : list (Z * Z)) :
  p ∉ map fst rs -> filter (fun r => negb (is_base p r)) rs = rs.
Proof.
  induction rs as [|r rs IH]; intros Hp; [reflexivity|].
  simpl in Hp. apply not_elem_of_cons in Hp. destruct Hp as [Hne Hp].
  rewrite filter_cons_True.
  - rewrite IH by exact Hp. reflexivity.
  - unfold is_base. apply negb_prop_intro. intros Hb.
    apply Is_true_eq_true in Hb. apply Z.eqb_eq in Hb. congruence.
Qed.

Lemma placement_new_base p n rs :
  heap_ok rs -> placement_ok p n rs = true -> p ∉ map fst rs.
Proof.
  intros [Hh _] Hok Hin.
  apply placement_ok_fresh in Hok. destruct Hok as (_ & _ & _ & Hfresh).
  apply list_elem_of_fmap in Hin. destruct Hin as (r & Hr1 & Hr2).
  rewrite Forall_forall in Hh, Hfresh.
  specialize (Hh r Hr2). specialize (Hfresh r Hr2).
  unfold region_len in Hfresh. lia.
Qed.

(** X3. A request above 128 bytes followed by its deallocation leaves no
    trace in the allocator: the set of live system-heap regions, the pool
    (free lists, arena, counter, link words) and the installed handler are
    what they were before the Allocate, whether it returned a block or
    nullptr. *)
Theorem Large_Allocate_Deallocate (w w1 : World) (s p : Z) :
  heap_ok (regions w) ->
  kMaxBytes < s ->
  MemoryPoolAllocator.Allocate s w = Ok p w1 ->
  exists w2,
    MemoryPoolAllocator.Deallocate p s w1 = Ok tt w2
    /\ regions w2 = regions w
    /\ pool_state w2 = pool_state w
    /\ CustomerOomHandler w2 = CustomerOomHandler w.
Proof.
  intros Hh Hs HA.
  assert (E : (kMaxBytes <? s) = true) by (apply Z.ltb_lt; exact Hs).
  unfold MemoryPoolAllocator.Allocate in HA. rewrite E in HA.
  unfold MemoryPoolAllocator.Deallocate. rewrite E.
  pose proof (MallocAllocator_Allocate_frame s w) as Hfr. rewrite HA in Hfr.
  destruct Hfr as (Hps & Hhd & Hr).
  unfold MallocAllocator.Deallocate, free.
  destruct Hr as [(Hp & Hreg & Hok) | (-> & Hreg)].
  - destruct (p =? 0) eqn:Ez; [apply Z.eqb_eq in Ez; contradiction|].
    rewrite Hreg. simpl. unfold is_base at 1. simpl. rewrite Z.eqb_refl. simpl.
    eexists. split; [reflexivity|]. simpl.
    split; [|split; assumption].
    rewrite filter_cons_False.
    + apply filter_other_bases. eapply placement_new_base; eassumption.
    + unfold is_base. simpl. rewrite Z.eqb_refl. simpl. tauto.
  - simpl. eexists. split; [reflexivity|]. simpl. auto.
Qed.

Lemma Large_Allocate_Deallocate_witness :
  exists w2,
    MemoryPoolAllocator.Deallocate 8192 200
      (run_world (MemoryPoolAllocator.Allocate 200) (initial_world [8192]))
    = Ok tt w2
    /\ regions w2 = [].
Proof.
  destruct (Large_Allocate_Deallocate (initial_world [8192])
              (run_world (MemoryPoolAllocator.Allocate 200) (initial_world [8192]))
              200 8192) as (w2 & H1 & H2 & _).
  - split; constructor.
  - reflexivity.
  - vm_compute. reflexivity.
  - exists w2. split; assumption.
Defined.

(** ** The typed wrapper as a client of the pool *)



(** ** The handler decides what exhaustion does *)

Lemma handler_calls_malloc n p t :
  handler_calls (EvMalloc n p :: t) = handler_calls t.
Proof. unfold handler_calls. rewrite filter_cons_False by (simpl; discriminate). reflexivity. Qed.

Lemma handler_calls_free p t :
  handler_calls (EvFree p :: t) = handler_calls t.
Proof. unfold handler_calls. rewrite filter_cons_False by (simpl; discriminate). reflexivity. Qed.

Lemma handler_calls_handler h t :
  handler_calls (EvHandler h :: t) = S (handler_calls t).
Proof. unfold handler_calls. rewrite filter_cons_True by reflexivity. reflexivity. Qed.

Lemma handler_calls_abort t :
  handler_calls (EvAbort :: t) = handler_calls t.
Proof. unfold handler_calls. rewrite filter_cons_False by (simpl; discriminate). reflexivity. Qed.

Lemma malloc_exhausted size w :
  oracle w = [] -> malloc size w = Ok 0 (log (EvMalloc size 0) w).
Proof. intros Ho. unfold malloc. rewrite Ho. reflexivity. Qed.

(** A call of a handler that returns, with what the call leaves as it was. *)
Lemma call_returning code h w u' :
  code h (log (EvHandler h) w) = Ok tt u' ->
  WithHandler.call code h w = Ok tt u'.
Proof. intros H. unfold WithHandler.call, bind, modify. rewrite H. reflexivity. Qed.

Lemma MallocInOom_loop_idle code h size k : forall w,
  idle_handler code h -> h <> 0 ->
  oracle w = [] -> CustomerOomHandler w = h ->
  exists w',
    WithHandler.MallocInOom_loop code k size w = Ok 0 w'
    /\ handler_calls (trace w') = (k + handler_calls (trace w))%nat
    /\ CustomerOomHandler w' = h.
Proof.
  induction k as [|k IH]; intros w Hid Hh Ho Hw.
  - exists w. split; [reflexivity|]. split; [reflexivity | exact Hw].
  - rewrite MallocInOom_loop_S. rewrite Hw.
    destruct (h =? 0) eqn:E; [apply Z.eqb_eq in E; contradiction|].
    destruct (Hid (log (EvHandler h) w)) as (u & Hc & Hu1 & Hu2 & Hu3).
    rewrite (call_returning code h w u Hc).
    assert (Hou : oracle u = []) by (rewrite Hu2; exact Ho).
    rewrite (malloc_exhausted size u Hou). change (0 =? 0) with true. cbv iota.
    destruct (IH (log (EvMalloc size 0) u) Hid Hh)
      as (w' & Hr & Hcalls & Hhd).
    { simpl. exact Hou. }
    { simpl. rewrite Hu1. exact Hw. }
    exists w'. split; [exact Hr|]. split; [|exact Hhd].
    rewrite Hcalls. simpl. rewrite handler_calls_malloc, Hu3. simpl.
    rewrite handler_calls_handler. lia.
Qed.

(** X5. SetMallocHandler returns the handler it replaces, and installing
    the returned value again restores the state exactly.  With the system
    heap exhausted, what a failing MallocAllocator::Allocate does is decided
    by the handler installed last, which every round reads afresh:
      - after SetMallocHandler(nullptr) it aborts without calling
        anything;
      - after SetMallocHandler(h), for a handler h that returns, stays
        installed and makes no memory available, it returns nullptr having
        called h exactly three times;
      - after SetMallocHandler(h), for a handler h that returns having
        cleared the handler pointer, it calls h once and aborts in the
        second round. *)
Theorem SetMallocHandler_governs_exhaustion
        (code : Z -> M unit) (w : World) (h size : Z) :
  (old <- MallocAllocator.SetMallocHandler h ;;
   MallocAllocator.SetMallocHandler old) w = Ok h w
  /\ (oracle w = [] ->
      (exists wa,
         (MallocAllocator.SetMallocHandler 0 ;;;
          WithHandler.Allocate code size) w = Aborted wa
         /\ handler_calls (trace wa) = handler_calls (trace w))
      /\ (h <> 0 -> idle_handler code h ->
          exists w',
            (MallocAllocator.SetMallocHandler h ;;;
             WithHandler.Allocate code size) w = Ok 0 w'
            /\ handler_calls (trace w') = (3 + handler_calls (trace w))%nat
            /\ CustomerOomHandler w' = h)
      /\ (h <> 0 -> self_clearing_handler code h ->
          exists wa,
            (MallocAllocator.SetMallocHandler h ;;;
             WithHandler.Allocate code size) w = Aborted wa
            /\ handler_calls (trace wa) = (1 + handler_calls (trace w))%nat)).
Proof.
  split.
  - unfold MallocAllocator.SetMallocHandler, bind, get, modify, ret.
    destruct w; reflexivity.
  - intros Ho.
    assert (Hset : forall f,
               (MallocAllocator.SetMallocHandler f ;;;
                WithHandler.Allocate code size) w
               = WithHandler.MallocInOom_loop code 3 size
                   (log (EvMalloc size 0) (set_handler f w))).
    { intros f. unfold MallocAllocator.SetMallocHandler, bind, get, modify, ret.
      unfold WithHandler.Allocate, bind.
      rewrite (malloc_exhausted size (set_handler f w)) by exact Ho.
      reflexivity. }
    split; [|split].
    + rewrite Hset, MallocInOom_loop_S. simpl.
      eexists. split; [reflexivity|]. simpl.
      rewrite handler_calls_abort, handler_calls_malloc. reflexivity.
    + intros Hh Hid. rewrite Hset.
      destruct (MallocInOom_loop_idle code h size 3
                  (log (EvMalloc size 0) (set_handler h w)) Hid Hh)
        as (w' & Hr & Hcalls & Hhd).
      { simpl. exact Ho. }
      { reflexivity. }
      exists w'. split; [exact Hr|]. split; [|exact Hhd].
      rewrite Hcalls. simpl. rewrite handler_calls_malloc. reflexivity.
    + intros Hh Hcl. rewrite Hset, MallocInOom_loop_S.
      set (w0 := log (EvMalloc size 0) (set_handler h w)).
      change (CustomerOomHandler w0) with h.
      destruct (h =? 0) eqn:E; [apply Z.eqb_eq in E; contradiction|].
      destruct (Hcl (log (EvHandler h) w0)) as (u & Hc & Hu1 & Hu2 & Hu3).
      rewrite (call_returning code h w0 u Hc).
      assert (Hou : oracle u = []) by (rewrite Hu2; simpl; exact Ho).
      rewrite (malloc_exhausted size u Hou). change (0 =? 0) with true. cbv iota.
      rewrite MallocInOom_loop_S. simpl. rewrite Hu1. simpl.
      eexists. split; [reflexivity|]. simpl.
      rewrite handler_calls_abort, handler_calls_malloc, Hu3. simpl.
      rewrite handler_calls_handler, handler_calls_malloc. reflexivity.
Qed.

Lemma idle_quiet h : idle_handler quiet_handler h.
Proof. intros u. exists u. repeat split; reflexivity. Qed.

Lemma self_clearing_clearing h : self_clearing_handler clearing_handler h.
Proof. intros u. eexists. split; [reflexivity|]. repeat split; reflexivity. Qed.

Lemma SetMallocHandler_governs_exhaustion_witness :
  (exists w',
     (MallocAllocator.SetMallocHandler 7 ;;; WithHandler.Allocate quiet_handler 100)
       (initial_world []) = Ok 0 w'
     /\ handler_calls (trace w') = 3%nat)
  /\ (exists wa,
        (MallocAllocator.SetMallocHandler 7 ;;;
         WithHandler.Allocate clearing_handler 100) (initial_world []) = Aborted wa
        /\ handler_calls (trace wa) = 1%nat).
Proof.
  split.
  - destruct (SetMallocHandler_governs_exhaustion quiet_handler (initial_world []) 7 100)
      as [_ H].
    destruct (H eq_refl) as (_ & H' & _).
    destruct (H' ltac:(discriminate) (idle_quiet 7)) as (w' & H1 & H2 & _).
    exists w'. split; [exact H1 | exact H2].
  - destruct (SetMallocHandler_governs_exhaustion clearing_handler (initial_world [])
                7 100) as [_ H].
    destruct (H eq_refl) as (_ & _ & H').
    destruct (H' ltac:(discriminate) (self_clearing_clearing 7)) as (wa & H1 & H2).
    exists wa. split; [exact H1 | exact H2].
Defined.

(** ** What the allocator writes *)

Lemma Push_footprint index node w w' :
  MemoryPoolList.Push index node w = Ok tt w' ->
  (forall a, a <> node -> mem w' !! a = mem w !! a)
  /\ regions w' = regions w.
Proof.
  intros H. apply Push_Ok in H. destruct H as (h & _ & _ & ->). simpl.
  split; [|reflexivity]. intros a Ha. apply lookup_insert_ne. congruence.
Qed.

Lemma ReFill_loop_footprint size k :
  0 < size ->
  forall next w w',
    MemoryPoolAllocator.ReFill_loop k size next w = Ok tt w' ->
    0 <= next -> next + Z.of_nat k * size < 2 ^ 64 ->
    forall a, a < next \/ next + Z.of_nat k * size <= a ->
              mem w' !! a = mem w !! a.
Proof.
  intros Hs. induction k as [|k IH]; intros next w w' H Hn Hb a Ha.
  - inversion H. reflexivity.
  - cbn [MemoryPoolAllocator.ReFill_loop] in H. unfold bind in H.
    destruct (MemoryPoolList.Push _ next w) as [[] w1| | |] eqn:EP; try discriminate.
    destruct (Push_footprint _ _ _ _ EP) as [Hm _].
    rewrite wrap_small in H by nia.
    rewrite (IH _ _ _ H) by nia.
    apply Hm. nia.
Qed.

Lemma Pop_unchanged index w h w' :
  MemoryPoolList.Pop index w = Ok h w' -> mem w' = mem w /\ regions w' = regions w.
Proof.
  intros H. pose proof (Pop_cases index w) as HP. rewrite H in HP.
  destruct HP as (l & ->). split; reflexivity.
Qed.

Lemma scan_freelists_unchanged fuel :
  forall i w b w',
    MemoryPoolAllocator.scan_freelists fuel i w = Ok b w' ->
    mem w' = mem w /\ regions w' = regions w.
Proof.
  induction fuel as [|fuel IH]; intros i w b w' H; [discriminate|].
  cbn [MemoryPoolAllocator.scan_freelists] in H.
  destruct (i <=? kMaxBytes); [|inversion H; split; reflexivity].
  unfold bind at 1 in H.
  pose proof (Empty_cases (MemoryPoolAllocator.GetFreelistIndex i) w) as HE.
  destruct (MemoryPoolList.Empty _ w) as [e w1| | |]; try discriminate. subst w1.
  destruct e; cbn [negb] in H; cbv beta iota in H.
  - eapply IH. exact H.
  - unfold bind at 1 in H.
    destruct (MemoryPoolList.Pop _ w) as [h w1| | |] eqn:EP; try discriminate.
    destruct (Pop_unchanged _ _ _ _ EP) as [Hm Hr].
    unfold bind, modify, ret in H. inversion H; subst. simpl. split; assumption.
Qed.

(** ChunkAlloc stores at most one word: the link written into the arena
    remainder it salvages. *)
Lemma ChunkAlloc_footprint size w r w' :
  8 <= size <= kMaxBytes -> 0 <= mallocoffset_ w < 2 ^ 64 ->
  MemoryPoolAllocator.ChunkAlloc MemoryPoolAllocator.chunk_fuel size 20 w = Ok r w' ->
  forall a,
    (kAlign <= wrap (freespaceend_ w - freespacestart_ w) -> a <> freespacestart_ w) ->
    mem w' !! a = mem w !! a.
Proof.
  intros Hs Hoff H a Ha. unfold MemoryPoolAllocator.chunk_fuel in H.
  destruct (bytesget_eq size 20 (mallocoffset_ w) ltac:(lia) ltac:(lia) Hoff)
    as (_ & _ & Hbg).
  set (bg := bytesget size 20 (mallocoffset_ w)) in *.
  unfold kMaxBytes in Hs.
  destruct (Z_le_gt_dec (wrap (size * 20)) (wrap (freespaceend_ w - freespacestart_ w)))
    as [Hen | Hen].
  { rewrite ChunkAlloc_enough in H by exact Hen. inversion H. reflexivity. }
  destruct (Z_le_gt_dec size (wrap (freespaceend_ w - freespacestart_ w)))
    as [Hone | Hone].
  { rewrite ChunkAlloc_partial in H by lia. inversion H. reflexivity. }
  rewrite ChunkAlloc_grow in H by lia. fold bg in H.
  unfold bind at 1 in H.
  destruct (salvage w w) as [[] ws| | |] eqn:Hsalv; try discriminate.
  assert (Hms : mem ws !! a = mem w !! a).
  { unfold salvage in Hsalv.
    destruct (kAlign <=? wrap (freespaceend_ w - freespacestart_ w)) eqn:E.
    - apply Z.leb_le in E. destruct (Push_footprint _ _ _ _ Hsalv) as [Hm _].
      apply Hm. apply Ha. exact E.
    - inversion Hsalv. reflexivity. }
  rewrite <- Hms. clear Hms Hsalv Ha.
  unfold bind at 1 in H.
  destruct (malloc_cases bg ws) as [(p & Hp & _ & Hm) | Hm]; rewrite Hm in H.
  - unfold bind at 1 in H. unfold modify at 1 in H.
    destruct (p =? 0) eqn:E; [apply Z.eqb_eq in E; contradiction|].
    unfold bind, modify in H.
    rewrite (ChunkAlloc_fresh_arena 1 size p bg) in H;
      [| unfold kMaxBytes; lia | lia | reflexivity | reflexivity].
    inversion H. reflexivity.
  - unfold bind at 1 in H. unfold modify at 1 in H.
    change (0 =? 0) with true in H. cbv iota in H.
    set (wm := set_start 0 _) in H.
    unfold bind at 1 in H.
    pose proof (scan_freelists_cases MemoryPoolAllocator.scan_fuel size wm
                  ltac:(lia) ltac:(unfold MemoryPoolAllocator.scan_fuel; lia)) as Hscan.
    destruct (MemoryPoolAllocator.scan_freelists _ size wm) as [[|] w2| | |] eqn:ES;
      try discriminate.
    + destruct (scan_freelists_unchanged _ _ _ _ _ ES) as [Hm2 _].
      destruct Hscan as (i' & Hi' & Hen2).
      rewrite (ChunkAlloc_mini_arena 1 size (freespacestart_ w2) i' w2) in H;
        [| lia | lia | reflexivity | exact Hen2].
      inversion H. simpl. rewrite Hm2. reflexivity.
    + destruct (scan_freelists_unchanged _ _ _ _ _ ES) as [Hm2 _].
      unfold bind at 1 in H. unfold modify at 1 in H. unfold bind at 1 in H.
      pose proof (MallocAllocator_Allocate_frame bg (set_end 0 w2)) as Hfr.
      destruct (MallocAllocator.Allocate bg (set_end 0 w2)) as [p wa|wa| |];
        try discriminate.
      destruct Hfr as (Hps & _). unfold pool_state in Hps.
      injection Hps as _ _ _ _ Hmem.
      unfold bind, modify in H.
      rewrite (ChunkAlloc_fresh_arena 1 size p bg) in H;
        [| unfold kMaxBytes; lia | lia | reflexivity | reflexivity].
      inversion H. simpl. rewrite Hmem. simpl. rewrite Hm2. reflexivity.
Qed.

Lemma held_ext_elem (out : list (Z * Z)) q t :
  (q, t) ∈ out -> t <= kMaxBytes ->
  (q, MemoryPoolAllocator.RoundUp t) ∈ out_exts out.
Proof.
  intros Hin Ht. unfold out_exts.
  apply (list_elem_of_fmap_2 (fun x => (fst x, MemoryPoolAllocator.RoundUp (snd x)))
                               _ (q, t)).
  apply list_elem_of_filter. split; [exact Ht | exact Hin].
Qed.

Lemma ReFill_mem_frame w out fl pool i p w' q t :
  (i < 16)%nat ->
  PoolInv w out [] fl pool ->
  MemoryPoolAllocator.ReFill (class_size i) w = Ok p w' ->
  (q, t) ∈ out -> t <= kMaxBytes ->
  forall a, q <= a < q + MemoryPoolAllocator.RoundUp t ->
            mem w' !! a = mem w !! a.
Proof.
  intros Hi HI H Hin Ht a Ha.
  pose proof (class_size_range i Hi) as Hcs.
  pose proof (held_ext_elem out q t Hin Ht) as Hext.
  unfold MemoryPoolAllocator.ReFill in H. unfold bind at 1 in H.
  destruct (MemoryPoolAllocator.ChunkAlloc _ _ _ w) as [[chunk k] w1| | |] eqn:EC;
    try discriminate.
  cbn [fst snd] in H.
  assert (Hm1 : mem w1 !! a = mem w !! a).
  { destruct HI as [HI Hoff].
    apply (ChunkAlloc_footprint (class_size i) w (chunk, k) w1 Hcs Hoff EC).
    intros Hleft.
    pose proof (pi_arena _ _ _ _ _ _ _ _ _ HI) as (Hse & He & _).
    rewrite wrap_small in Hleft by lia. unfold kAlign in Hleft.
    pose proof (pi_disj _ _ _ _ _ _ _ _ _ HI) as [Hd _].
    rewrite Forall_forall in Hd.
    specialize (Hd (q, MemoryPoolAllocator.RoundUp t)).
    unfold disj in Hd. simpl in Hd.
    assert (Hq : (q, MemoryPoolAllocator.RoundUp t) ∈ free_exts fl ++ out_exts out)
      by (apply elem_of_app; right; exact Hext).
    specialize (Hd Hq). lia. }
  unfold kMaxBytes in Hcs.
  destruct (ChunkAlloc_PoolInv w out fl pool i chunk k w1 Hi HI EC)
    as [(-> & -> & Hheap & Hlen) | (Hk & fl1 & pool1 & [HI1 Hoff1])].
  - change (20 =? 1) with false in H. cbv iota in H.
    change (Z.to_nat (to_int 20 - 1)) with 19%nat in H.
    cbn [MemoryPoolAllocator.ReFill_loop] in H.
    rewrite class_size_index in H by exact Hi.
    unfold bind at 1 2 in H.
    rewrite (Push_low_address w1 i) in H; try assumption; [discriminate|].
    rewrite wrap_small by lia. unfold page_size. lia.
  - destruct (k =? 1) eqn:Ek.
    + inversion H; subst. exact Hm1.
    + apply Z.eqb_neq in Ek.
      assert (Hti : to_int k = k).
      { unfold to_int. rewrite Z.mod_small by lia.
        destruct (k <? 2 ^ 31) eqn:E; [reflexivity | apply Z.ltb_ge in E; lia]. }
      rewrite Hti in H.
      pose proof (pi_exts _ _ _ _ _ _ _ _ _ HI1) as Hex.
      inversion Hex as [|? ? Hx _]; subst. destruct Hx as (_ & Hn & Hw).
      destruct (within_bounds _ _ _ (pi_heap _ _ _ _ _ _ _ _ _ HI1)
                  (pi_pool _ _ _ _ _ _ _ _ _ HI1) Hw Hn) as [Hlo Hhi].
      simpl in Hlo, Hhi. unfold page_size in Hlo.
      rewrite (wrap_small (chunk + class_size i)) in H by nia.
      unfold bind in H.
      destruct (MemoryPoolAllocator.ReFill_loop _ _ _ w1) as [[] w2| | |] eqn:EL;
        try discriminate.
      inversion H; subst p w'. clear H.
      rewrite <- Hm1.
      apply (ReFill_loop_footprint (class_size i) (Z.to_nat (k - 1)) ltac:(lia)
               (chunk + class_size i) w1 w2 EL); [lia | nia |].
      pose proof (pi_disj _ _ _ _ _ _ _ _ _ HI1) as Hd.
      apply pairwise_disjoint_tail in Hd. simpl in Hd. destruct Hd as [Hd _].
      rewrite Forall_forall in Hd.
      specialize (Hd (q, MemoryPoolAllocator.RoundUp t)).
      unfold disj in Hd. simpl in Hd.
      assert (Hq : (q, MemoryPoolAllocator.RoundUp t) ∈ free_exts fl1 ++ out_exts out)
        by (apply elem_of_app; right; exact Hext).
      specialize (Hd Hq). nia.
Qed.

Lemma Allocate_mem_frame w out s p w' q t :
  Inv w out -> 0 <= s < 2 ^ 64 ->
  MemoryPoolAllocator.Allocate s w = Ok p w' ->
  (q, t) ∈ out -> t <= kMaxBytes ->
  forall a, q <= a < q + MemoryPoolAllocator.RoundUp t ->
            mem w' !! a = mem w !! a.
Proof.
  intros (fl & pool & HI) Hs H Hin Ht a Ha.
  destruct (Z.eq_dec s 0) as [-> | Hnz]; [rewrite Allocate_zero in H; discriminate|].
  destruct (Z_le_gt_dec s kMaxBytes) as [Hsmall | Hlarge].
  - destruct (class_of_request s ltac:(lia)) as (i & Hi & Hidx & Hru).
    rewrite Allocate_small in H by exact Hsmall. rewrite Hidx, Hru in H.
    unfold bind in H.
    pose proof (Empty_cases (Z.of_nat i) w) as HE.
    destruct (MemoryPoolList.Empty _ w) as [e w1| | |]; try discriminate. subst w1.
    destruct e.
    + eapply ReFill_mem_frame; eassumption.
    + destruct (Pop_unchanged _ _ _ _ H) as [Hm _]. rewrite Hm. reflexivity.
  - unfold MemoryPoolAllocator.Allocate in H.
    destruct (kMaxBytes <? s) eqn:E; [|apply Z.ltb_ge in E; lia].
    pose proof (MallocAllocator_Allocate_frame s w) as Hfr. rewrite H in Hfr.
    destruct Hfr as (Hps & _). unfold pool_state in Hps.
    injection Hps as _ _ _ _ Hmem. rewrite Hmem. reflexivity.
Qed.

Lemma Deallocate_mem_frame w out obj sz w' q t :
  Inv w ((obj, sz) :: out) ->
  MemoryPoolAllocator.Deallocate obj sz w = Ok tt w' ->
  (q, t) ∈ out -> t <= kMaxBytes ->
  forall a, q <= a < q + MemoryPoolAllocator.RoundUp t ->
            mem w' !! a = mem w !! a.
Proof.
  intros HI H Hin Ht a Ha.
  destruct (Z_le_gt_dec sz kMaxBytes) as [Hsmall | Hlarge].
  - rewrite Deallocate_small in H by exact Hsmall.
    destruct (Push_footprint _ _ _ _ H) as [Hm _]. apply Hm.
    apply list_elem_of_split in Hin. destruct Hin as (l1 & l2 & ->).
    assert (Hp : (obj, sz) :: l1 ++ (q, t) :: l2 ≡ₚ (obj, sz) :: (q, t) :: l1 ++ l2).
    { apply perm_skip. symmetry. apply Permutation_middle. }
    pose proof (Inv_held_disjoint w _ _ obj sz q t HI Hp Hsmall Ht) as Hd.
    destruct HI as (fl & pool & [HI _]).
    pose proof (pi_out _ _ _ _ _ _ _ _ _ HI) as Ho. inversion Ho as [|? ? Hpos _]; subst.
    simpl in Hpos.
    destruct (RoundUp_small sz ltac:(lia)) as (_ & Hr & _). lia.
  - unfold MemoryPoolAllocator.Deallocate in H.
    destruct (kMaxBytes <? sz) eqn:E; [|apply Z.ltb_ge in E; lia].
    unfold MallocAllocator.Deallocate, free in H.
    destruct (obj =? 0); [inversion H; reflexivity|].
    destruct (existsb (is_base obj) (regions w)); [|discriminate].
    inversion H. reflexivity.
Qed.

(** * MallocAllocator::Reallocate *)

Lemma copy_words_lookup src dst len m off v :
  0 <= off -> off + 8 <= len ->
  m !! (src + off) = Some v ->
  copy_words src dst len m !! (dst + off) = Some v.
Proof.
  intros H0 Hl Hm. unfold copy_words.
  apply lookup_union_Some_l.
  assert (Hinj : Inj eq eq (fun a : Z => a - src + dst)) by (intros x y; lia).
  replace (dst + off) with ((fun a : Z => a - src + dst) (src + off)) by lia.
  rewrite (lookup_kmap (fun a : Z => a - src + dst)).
  apply map_lookup_filter_Some. split; [exact Hm | simpl; lia].
Qed.

Lemma realloc_null n w : realloc 0 n w = malloc n w.
Proof. reflexivity. Qed.

Lemma realloc_cases obj n w old :
  obj <> 0 -> n <> 0 -> List.find (is_base obj) (regions w) = Some old ->
  let others := filter (fun r => negb (is_base obj r)) (regions w) in
  (exists q,
      q <> 0
      /\ placement_ok q n (if q =? obj then others else regions w) = true
      /\ realloc obj n w
         = Ok q (set_mem (copy_words obj q (Z.min (snd old) (region_len n)) (mem w))
                   (set_sys ((q, region_len n) :: others) (tl (oracle w))
                            (EvMalloc n q :: EvFree obj :: trace w) w)))
  \/ realloc obj n w = Ok 0 (set_sys (regions w) (tl (oracle w))
                                     (EvMalloc n 0 :: trace w) w).
Proof.
  intros Hobj Hn Hf others. unfold realloc.
  destruct (obj =? 0) eqn:E; [apply Z.eqb_eq in E; contradiction|].
  rewrite Hf.
  destruct (n =? 0) eqn:En; [apply Z.eqb_eq in En; contradiction|].
  unfold log. destruct (oracle w) as [|q o] eqn:Eo.
  - right. reflexivity.
  - fold others.
    destruct (placement_ok q n (if q =? obj then others else regions w)) eqn:Ep.
    + left. exists q. split; [|split; [exact Ep | reflexivity]].
      intros ->. unfold placement_ok in Ep. simpl in Ep. discriminate.
    + right. reflexivity.
Qed.

(** A request of size 0 releases the block. *)
Lemma realloc_zero obj w old :
  obj <> 0 -> List.find (is_base obj) (regions w) = Some old ->
  realloc obj 0 w
  = Ok 0 (set_sys (filter (fun r => negb (is_base obj r)) (regions w))
                  (oracle w) (EvFree obj :: trace w) w).
Proof.
  intros Hobj Hf. unfold realloc.
  destruct (obj =? 0) eqn:E; [apply Z.eqb_eq in E; contradiction|].
  rewrite Hf. reflexivity.
Qed.

Lemma find_is_base_removed obj (rs : list (Z * Z)) :
  List.find (is_base obj) (filter (fun r => negb (is_base obj r)) rs) = None.
Proof.
  induction rs as [|r rs IH]; [reflexivity|].
  rewrite filter_cons. destruct (decide (negb (is_base obj r))) as [Hd | Hd].
  - simpl. destruct (is_base obj r); [simpl in Hd; contradiction | exact IH].
  - exact IH.
Qed.

Lemma ReallocInOom_loop_null left n w :
  MallocAllocator.ReallocInOom_loop left 0 n w
  = MallocAllocator.MallocInOom_loop left n w.
Proof.
  revert w. induction left as [|left IH]; intros w; [reflexivity|].
  cbn [MallocAllocator.ReallocInOom_loop MallocAllocator.MallocInOom_loop].
  unfold bind. destruct (get CustomerOomHandler w) as [h w1| | |]; try reflexivity.
  destruct (h =? 0); [reflexivity|].
  destruct (call_handler h w1) as [[] w2| | |]; try reflexivity.
  rewrite realloc_null.
  destruct (malloc n w2) as [r w3| | |]; try reflexivity.
  destruct (negb (r =? 0)); [reflexivity | apply IH].
Qed.

Lemma realloc_kept obj size w old (m0 : gmap Z Z) :
  obj <> 0 -> size <> 0 ->
  List.find (is_base obj) (regions w) = Some old ->
  (forall a, obj <= a < obj + snd old -> mem w !! a = m0 !! a) ->
  exists p w',
    realloc obj size w = Ok p w'
    /\ CustomerOomHandler w' = CustomerOomHandler w
    /\ ((p <> 0
         /\ List.find (is_base p) (regions w') = Some (p, region_len size)
         /\ (p <> obj -> List.find (is_base obj) (regions w') = None)
         /\ forall off v,
              0 <= off -> off + 8 <= Z.min (snd old) (region_len size) ->
              m0 !! (obj + off) = Some v -> mem w' !! (p + off) = Some v)
        \/ (p = 0
            /\ List.find (is_base obj) (regions w') = Some old
            /\ forall a, obj <= a < obj + snd old -> mem w' !! a = m0 !! a)).
Proof.
  intros Hobj Hsz Hf Hm.
  destruct (realloc_cases obj size w old Hobj Hsz Hf) as [(q & Hq & _ & Hr) | Hr];
    rewrite Hr.
  - exists q. eexists. split; [reflexivity|]. split; [reflexivity|]. left.
    split; [exact Hq|]. simpl. split.
    { unfold is_base at 1. simpl. rewrite Z.eqb_refl. reflexivity. }
    split.
    { intros Hne. unfold is_base at 1. simpl.
      destruct (q =? obj) eqn:E; [apply Z.eqb_eq in E; contradiction|].
      apply find_is_base_removed. }
    intros off v H0 Hl Hv. apply copy_words_lookup; [exact H0 | exact Hl |].
    rewrite Hm by lia. exact Hv.
  - exists 0. eexists. split; [reflexivity|]. split; [reflexivity|]. right.
    split; [reflexivity|]. simpl. split; [exact Hf | exact Hm].
Qed.

Lemma ReallocInOom_loop_keeps code obj size old (m0 : gmap Z Z) :
  obj <> 0 -> size <> 0 -> keeps_block code obj old ->
  forall left w,
    List.find (is_base obj) (regions w) = Some old ->
    (forall a, obj <= a < obj + snd old -> mem w !! a = m0 !! a) ->
    match WithHandler.ReallocInOom_loop code left obj size w with
    | Ok p w' =>
        (p <> 0
         /\ List.find (is_base p) (regions w') = Some (p, region_len size)
         /\ (p <> obj -> List.find (is_base obj) (regions w') = None)
         /\ forall off v,
              0 <= off -> off + 8 <= Z.min (snd old) (region_len size) ->
              m0 !! (obj + off) = Some v -> mem w' !! (p + off) = Some v)
        \/ (p = 0
            /\ List.find (is_base obj) (regions w') = Some old
            /\ forall a, obj <= a < obj + snd old -> mem w' !! a = m0 !! a)
    | Aborted w' =>
        List.find (is_base obj) (regions w') = Some old
        /\ forall a, obj <= a < obj + snd old -> mem w' !! a = m0 !! a
    | Undefined f => exists h u, code h u = Undefined f
    | OutOfFuel => exists h u, code h u = OutOfFuel
    end.
Proof.
  intros Hobj Hsz Hk. induction left as [|left IH]; intros w Hf Hm.
  - simpl. right. split; [reflexivity|]. split; assumption.
  - cbn [WithHandler.ReallocInOom_loop]. unfold bind at 1. unfold get.
    destruct (CustomerOomHandler w =? 0) eqn:E.
    { unfold abort. simpl. split; assumption. }
    unfold WithHandler.call. unfold bind at 1 2. unfold modify.
    set (h := CustomerOomHandler w). set (w0 := log (EvHandler h) w).
    pose proof (Hk h w0 Hf) as Hc.
    destruct (code h w0) as [[] w1|w1|f|] eqn:Ec.
    + destruct Hc as [Hf1 Hm1].
      assert (Hm1' : forall a, obj <= a < obj + snd old -> mem w1 !! a = m0 !! a).
      { intros a Ha. rewrite Hm1 by exact Ha. apply Hm. exact Ha. }
      destruct (realloc_kept obj size w1 old m0 Hobj Hsz Hf1 Hm1')
        as (p & w2 & Hr & _ & [Hgood | (-> & Hf2 & Hm2)]).
      * unfold bind. rewrite Hr.
        destruct Hgood as (Hp & Hrest).
        destruct (p =? 0) eqn:Ep; [apply Z.eqb_eq in Ep; contradiction|].
        simpl. left. split; [exact Hp | exact Hrest].
      * unfold bind at 1. rewrite Hr. change (negb (0 =? 0)) with false. cbv iota.
        apply IH; assumption.
    + destruct Hc as [Hf1 Hm1]. split; [exact Hf1|].
      intros a Ha. rewrite Hm1 by exact Ha. apply Hm. exact Ha.
    + exists h, w0. exact Ec.
    + exists h, w0. exact Ec.
Qed.

(** X7. MallocAllocator::Reallocate of a live block.  To a size other than
    0 the call never loses the block, whatever the OOM handler does short
    of touching the block itself: when it returns a block, that block is
    live with the new size, has replaced the old one, and carries the words
    of the common prefix; when it returns nullptr, and when it aborts (no
    handler was installed in some round, or the handler aborted), the old
    block is still live and holds the words it held; the call faults or
    fails to return only when the handler does.  To size 0 the call loses
    the block: realloc releases it and returns nullptr (as glibc does),
    which Reallocate takes for a failure; with no handler installed the
    process aborts with the block gone, and with a handler that returns and
    leaves the heap alone the retry passes the released pointer to realloc
    again. *)
Theorem MallocAllocator_Reallocate_outcome
        (code : Z -> M unit) (obj oldsize newsize : Z) (w : World) (old : Z * Z) :
  obj <> 0 ->
  List.find (is_base obj) (regions w) = Some old ->
  (0 < newsize -> keeps_block code obj old ->
   match WithHandler.Reallocate code obj oldsize newsize w with
   | Ok p w' =>
       (p <> 0
        /\ List.find (is_base p) (regions w') = Some (p, region_len newsize)
        /\ (p <> obj -> List.find (is_base obj) (regions w') = None)
        /\ forall off v,
             0 <= off -> off + 8 <= Z.min (snd old) (region_len newsize) ->
             mem w !! (obj + off) = Some v -> mem w' !! (p + off) = Some v)
       \/ (p = 0
           /\ List.find (is_base obj) (regions w') = Some old
           /\ forall a, obj <= a < obj + snd old -> mem w' !! a = mem w !! a)
   | Aborted w' =>
       List.find (is_base obj) (regions w') = Some old
       /\ forall a, obj <= a < obj + snd old -> mem w' !! a = mem w !! a
   | Undefined f => exists h u, code h u = Undefined f
   | OutOfFuel => exists h u, code h u = OutOfFuel
   end)
  /\ (CustomerOomHandler w = 0 ->
      exists wa,
        WithHandler.Reallocate code obj oldsize 0 w = Aborted wa
        /\ List.find (is_base obj) (regions wa) = None)
  /\ (CustomerOomHandler w <> 0 ->
      (forall u, exists u',
          code (CustomerOomHandler w) u = Ok tt u' /\ regions u' = regions u) ->
      WithHandler.Reallocate code obj oldsize 0 w = Undefined (BadFree obj)).
Proof.
  intros Hobj Hf. split; [|split].
  - intros Hsz Hk.
    assert (Hnz : newsize <> 0) by lia.
    unfold WithHandler.Reallocate. unfold bind at 1.
    destruct (realloc_kept obj newsize w old (mem w) Hobj Hnz Hf ltac:(reflexivity))
      as (p & w1 & Hr & _ & [Hgood | (-> & Hf1 & Hm1)]); rewrite Hr.
    + destruct Hgood as (Hp & Hrest).
      destruct (p =? 0) eqn:Ep; [apply Z.eqb_eq in Ep; contradiction|].
      left. split; [exact Hp | exact Hrest].
    + change (0 =? 0) with true. cbv iota.
      apply (ReallocInOom_loop_keeps code obj newsize old (mem w) Hobj Hnz Hk);
        assumption.
  - intros Hh. unfold WithHandler.Reallocate. unfold bind at 1.
    rewrite (realloc_zero obj w old Hobj Hf). change (0 =? 0) with true. cbv iota.
    unfold WithHandler.ReallocInOom, MallocAllocator.max_retries.
    cbn [WithHandler.ReallocInOom_loop]. unfold bind at 1. unfold get. simpl.
    rewrite Hh. simpl. eexists. split; [reflexivity|]. simpl.
    apply find_is_base_removed.
  - intros Hh Hcode. unfold WithHandler.Reallocate. unfold bind at 1.
    rewrite (realloc_zero obj w old Hobj Hf). change (0 =? 0) with true. cbv iota.
    unfold WithHandler.ReallocInOom, MallocAllocator.max_retries.
    cbn [WithHandler.ReallocInOom_loop]. unfold bind at 1. unfold get. simpl.
    destruct (CustomerOomHandler w =? 0) eqn:E; [apply Z.eqb_eq in E; contradiction|].
    unfold WithHandler.call. unfold bind at 1 2. unfold modify.
    match goal with
    | |- context [code _ ?u] => destruct (Hcode u) as (u' & Hc & Hru); rewrite Hc
    end.
    unfold bind. unfold realloc.
    destruct (obj =? 0) eqn:E0; [apply Z.eqb_eq in E0; contradiction|].
    rewrite Hru. simpl. rewrite find_is_base_removed. reflexivity.
Qed.

Lemma keeps_block_quiet obj old : keeps_block quiet_handler obj old.
Proof. intros h u Hf. simpl. split; [exact Hf | reflexivity]. Qed.

Lemma MallocAllocator_Reallocate_outcome_witness :
  (exists p w',
     WithHandler.Reallocate quiet_handler 4096 100 300
       (run_world (MallocAllocator.Allocate 100) (initial_world [4096; 8192]))
     = Ok p w'
     /\ p <> 0
     /\ List.find (is_base p) (regions w') = Some (p, region_len 300)
     /\ List.find (is_base 4096) (regions w') = None)
  /\ WithHandler.Reallocate quiet_handler 4096 100 0
       (set_handler 7
          (run_world (MallocAllocator.Allocate 100) (initial_world [4096; 8192])))
     = Undefined (BadFree 4096).
Proof.
  split.
  - destruct (MallocAllocator_Reallocate_outcome quiet_handler 4096 100 300
                (run_world (MallocAllocator.Allocate 100) (initial_world [4096; 8192]))
                (4096, 100) ltac:(discriminate) eq_refl) as [H _].
    specialize (H ltac:(lia) (keeps_block_quiet 4096 (4096, 100))).
    destruct (WithHandler.Reallocate quiet_handler 4096 100 300
                (run_world (MallocAllocator.Allocate 100) (initial_world [4096; 8192])))
      as [p w'| | |] eqn:E; vm_compute in E; try discriminate.
    exists p, w'. split; [reflexivity|].
    destruct H as [(Hp & Hlive & Hgone & _) | (Hp & _)].
    + split; [exact Hp|]. split; [exact Hlive|]. apply Hgone.
      injection E as <- _. discriminate.
    + injection E as <- _. discriminate.
  - destruct (MallocAllocator_Reallocate_outcome quiet_handler 4096 100 0
                (set_handler 7
                   (run_world (MallocAllocator.Allocate 100)
                              (initial_world [4096; 8192])))
                (4096, 100) ltac:(discriminate) eq_refl) as (_ & _ & H).
    apply H; [simpl; discriminate|].
    intros u. exists u. split; reflexivity.
Defined.

(** X8. Reallocating the null pointer is allocating: for every size and
    every state, MallocAllocator::Reallocate(nullptr, oldsize, newsize) does
    exactly what MallocAllocator::Allocate(newsize) does, the OOM protocol
    included. *)
Theorem Reallocate_null_is_Allocate (oldsize newsize : Z) (w : World) :
  MallocAllocator.Reallocate 0 oldsize newsize w
  = MallocAllocator.Allocate newsize w.
Proof.
  unfold MallocAllocator.Reallocate, MallocAllocator.Allocate, bind.
  rewrite realloc_null.
  destruct (malloc newsize w) as [r w1| | |]; [|reflexivity..].
  destruct (r =? 0); [|reflexivity].
  unfold MallocAllocator.ReallocInOom, MallocAllocator.MallocInOom.
  apply ReallocInOom_loop_null.
Qed.

(** * Checking ranges by computation *)

Lemma range_okb_spec w a n : range_okb w a n = true -> range_ok w a n.
Proof.
  unfold range_okb. intros H.
  apply andb_true_iff in H. destruct H as [H H3].
  apply andb_true_iff in H. destruct H as [H1 H2].
  apply Z.leb_le in H1. apply Z.ltb_lt in H2.
  split; [exact H1|]. split; [exact H2|].
  intros i Hi. rewrite forallb_forall in H3. apply H3.
  apply in_seq. lia.
Qed.

Lemma words_atb_spec m vs : forall a, words_atb m a vs = true -> words_at m a vs.
Proof.
  induction vs as [|v vs IH]; intros a H.
  - intros i x Hi. rewrite lookup_nil in Hi. discriminate.
  - simpl in H. destruct (m !! a) as [x|] eqn:E; [|discriminate].
    apply andb_true_iff in H. destruct H as [Hx H]. apply Z.eqb_eq in Hx. subst x.
    intros i y Hi. destruct i as [|i].
    + simpl in Hi. injection Hi as <-.
      replace (a + 8 * Z.of_nat 0) with a by lia. exact E.
    + replace (a + 8 * Z.of_nat (S i)) with (a + 8 + 8 * Z.of_nat i) by lia.
      apply (IH (a + 8) H). exact Hi.
Qed.

(** * Element ranges: constructor.h, algo.h, uninitialized.h *)

Lemma store64_ok a v w :
  accessible a w = true ->
  store64 a v w = Ok tt (set_mem (<[a := v]> (mem w)) w).
Proof. intros H. unfold store64. rewrite H. reflexivity. Qed.

Lemma load64_ok a v w :
  accessible a w = true -> mem w !! a = Some v -> load64 a w = Ok v w.
Proof. intros H Hm. unfold load64. rewrite H, Hm. reflexivity. Qed.

Lemma ptr_inc_small p : 0 <= p -> p + 8 < 2 ^ 64 -> ptr_inc p = p + 8.
Proof. intros. unfold ptr_inc. apply wrap_small. lia. Qed.

Lemma ptr_dec_small p : 8 <= p < 2 ^ 64 -> ptr_dec p = p - 8.
Proof. intros. unfold ptr_dec. apply wrap_small. lia. Qed.

Lemma same_but_mem_refl w : same_but_mem w w.
Proof. unfold same_but_mem. destruct w; reflexivity. Qed.

Lemma same_but_mem_store w w' a v :
  same_but_mem (set_mem (<[a := v]> (mem w)) w) w' -> same_but_mem w w'.
Proof. unfold same_but_mem. intros H. rewrite H at 1. reflexivity. Qed.

Lemma same_but_mem_trans w1 w2 w3 :
  same_but_mem w1 w2 -> same_but_mem w2 w3 -> same_but_mem w1 w3.
Proof.
  unfold same_but_mem. intros H1 H2. rewrite H2 at 1. rewrite H1 at 1. reflexivity.
Qed.

Lemma same_but_mem_regions w w' : same_but_mem w w' -> regions w' = regions w.
Proof. unfold same_but_mem. intros ->. reflexivity. Qed.

Lemma same_but_mem_accessible w w' a :
  same_but_mem w w' -> accessible a w' = accessible a w.
Proof. unfold same_but_mem. intros ->. reflexivity. Qed.

Lemma range_ok_same w w' a n :
  same_but_mem w w' -> range_ok w a n -> range_ok w' a n.
Proof.
  intros Hs (H0 & H1 & H2). split; [exact H0|]. split; [exact H1|].
  intros i Hi. rewrite (same_but_mem_accessible w w' _ Hs). apply H2. exact Hi.
Qed.

Lemma range_ok_tail w a n : range_ok w a (S n) -> range_ok w (a + 8) n.
Proof.
  intros (H0 & H1 & H2). split; [lia|]. split; [lia|].
  intros i Hi. replace (a + 8 + 8 * Z.of_nat i) with (a + 8 * Z.of_nat (S i)) by lia.
  apply H2. lia.
Qed.

Lemma range_ok_init w a n : range_ok w a (S n) -> range_ok w a n.
Proof.
  intros (H0 & H1 & H2). split; [lia|]. split; [lia|].
  intros i Hi. apply H2. lia.
Qed.

Lemma range_ok_head w a n : range_ok w a (S n) -> accessible a w = true.
Proof.
  intros (_ & _ & H2). specialize (H2 O ltac:(lia)).
  replace (a + 8 * Z.of_nat 0) with a in H2 by lia. exact H2.
Qed.

Lemma range_ok_sub w a n k m :
  range_ok w a n -> (k + m <= n)%nat -> range_ok w (a + 8 * Z.of_nat k) m.
Proof.
  intros (H0 & H1 & H2) Hk. split; [lia|]. split; [lia|].
  intros i Hi.
  replace (a + 8 * Z.of_nat k + 8 * Z.of_nat i) with (a + 8 * Z.of_nat (k + i)) by lia.
  apply H2. lia.
Qed.

Lemma words_at_nil m a : words_at m a [].
Proof. intros i v H. rewrite lookup_nil in H. discriminate. Qed.

Lemma words_at_cons m a v vs :
  words_at m a (v :: vs) <-> m !! a = Some v /\ words_at m (a + 8) vs.
Proof.
  split.
  - intros H. split.
    + specialize (H O v eq_refl). replace (a + 8 * Z.of_nat 0) with a in H by lia.
      exact H.
    + intros i x Hi. specialize (H (S i) x Hi).
      replace (a + 8 + 8 * Z.of_nat i) with (a + 8 * Z.of_nat (S i)) by lia. exact H.
  - intros [H0 H] i x Hi. destruct i as [|i].
    + simpl in Hi. injection Hi as <-.
      replace (a + 8 * Z.of_nat 0) with a by lia. exact H0.
    + replace (a + 8 * Z.of_nat (S i)) with (a + 8 + 8 * Z.of_nat i) by lia.
      apply H. exact Hi.
Qed.

Lemma words_at_app m a vs1 vs2 :
  words_at m a (vs1 ++ vs2)
  <-> words_at m a vs1 /\ words_at m (a + 8 * Z.of_nat (length vs1)) vs2.
Proof.
  revert a. induction vs1 as [|v vs1 IH]; intros a.
  - simpl. replace (a + 8 * Z.of_nat 0) with a by lia. split.
    + intros H. split; [apply words_at_nil | exact H].
    + intros [_ H]. exact H.
  - simpl app. rewrite !words_at_cons, IH.
    replace (a + 8 + 8 * Z.of_nat (length vs1))
      with (a + 8 * Z.of_nat (length (v :: vs1))) by (simpl length; lia).
    tauto.
Qed.

Lemma words_at_frame m m' a vs :
  words_at m a vs ->
  (forall x, a <= x < a + 8 * Z.of_nat (length vs) -> m' !! x = m !! x) ->
  words_at m' a vs.
Proof.
  intros H Hf i v Hi. rewrite Hf; [apply H; exact Hi|].
  apply lookup_lt_Some in Hi. lia.
Qed.

Lemma words_at_lookup m a vs i v :
  words_at m a vs -> vs !! i = Some v -> m !! (a + 8 * Z.of_nat i) = Some v.
Proof. intros H. apply H. Qed.

Lemma words_at_replicate m a n v :
  (forall i, (i < n)%nat -> m !! (a + 8 * Z.of_nat i) = Some v) ->
  words_at m a (replicate n v).
Proof.
  intros H i x Hi. apply lookup_replicate in Hi. destruct Hi as [-> Hi].
  apply H. exact Hi.
Qed.

(** ** Copy *)

Lemma Copy_run vs : forall fuel first result w,
  (length vs < fuel)%nat ->
  range_ok w first (length vs) -> range_ok w result (length vs) ->
  words_at (mem w) first vs ->
  result <= first \/ first + 8 * Z.of_nat (length vs) <= result ->
  exists w',
    Copy fuel first (first + 8 * Z.of_nat (length vs)) result w
    = Ok (result + 8 * Z.of_nat (length vs)) w'
    /\ same_but_mem w w'
    /\ words_at (mem w') result vs
    /\ forall a, a < result \/ result + 8 * Z.of_nat (length vs) <= a ->
                 mem w' !! a = mem w !! a.
Proof.
  induction vs as [|v vs IH]; intros fuel first result w Hfuel Hsrc Hdst Hw Hov.
  - destruct fuel as [|fuel]; [simpl in Hfuel; lia|].
    simpl length. cbn [Copy]. replace (first + 8 * Z.of_nat 0) with first by lia.
    rewrite Z.eqb_refl. simpl. exists w.
    replace (result + 8 * Z.of_nat 0) with result by lia.
    split; [reflexivity|]. split; [apply same_but_mem_refl|].
    split; [apply words_at_nil | reflexivity].
  - destruct fuel as [|fuel]; [simpl in Hfuel; lia|].
    simpl length in *. cbn [Copy].
    destruct (first =? first + 8 * Z.of_nat (S (length vs))) eqn:E;
      [apply Z.eqb_eq in E; lia|].
    cbn [negb]. cbv iota. apply words_at_cons in Hw. destruct Hw as [Hv Hw].
    unfold bind at 1. rewrite (load64_ok first v w (range_ok_head _ _ _ Hsrc) Hv).
    unfold bind at 1. rewrite (store64_ok result v w (range_ok_head _ _ _ Hdst)).
    set (w1 := set_mem _ w).
    assert (Hs1 : same_but_mem w w1) by reflexivity.
    destruct Hsrc as (Hs0 & Hs2 & Hs3) eqn:Hsrc'. clear Hsrc'.
    destruct Hdst as (Hd0 & Hd2 & Hd3) eqn:Hdst'. clear Hdst'.
    rewrite (ptr_inc_small first) by lia. rewrite (ptr_inc_small result) by lia.
    replace (first + 8 * Z.of_nat (S (length vs)))
      with (first + 8 + 8 * Z.of_nat (length vs)) by lia.
    destruct (IH fuel (first + 8) (result + 8) w1) as (w' & Hr & Hs & Hres & Hfr).
    + lia.
    + apply (range_ok_same w w1 _ _ Hs1). apply range_ok_tail.
      split; [exact Hs0|]. split; [exact Hs2 | exact Hs3].
    + apply (range_ok_same w w1 _ _ Hs1). apply range_ok_tail.
      split; [exact Hd0|]. split; [exact Hd2 | exact Hd3].
    + apply (words_at_frame (mem w)); [exact Hw|].
      intros x Hx. unfold w1. simpl. apply lookup_insert_ne. lia.
    + lia.
    + exists w'. split.
      { rewrite Hr. f_equal. lia. }
      split; [apply (same_but_mem_trans w w1 w' Hs1 Hs)|]. split.
      * apply words_at_cons. split; [|exact Hres].
        rewrite Hfr by lia. unfold w1. simpl. apply lookup_insert_eq.
      * intros a Ha. rewrite Hfr by lia. unfold w1. simpl.
        apply lookup_insert_ne. lia.
Qed.

Lemma Copy_smear n : forall fuel first w v,
  (n < fuel)%nat ->
  range_ok w first (S n) ->
  mem w !! first = Some v ->
  exists w',
    Copy fuel first (first + 8 * Z.of_nat n) (first + 8) w
    = Ok (first + 8 + 8 * Z.of_nat n) w'
    /\ same_but_mem w w'
    /\ words_at (mem w') first (replicate (S n) v)
    /\ forall a, a < first \/ first + 8 + 8 * Z.of_nat n <= a ->
                 mem w' !! a = mem w !! a.
Proof.
  induction n as [|n IH]; intros fuel first w v Hfuel Hr Hv.
  - destruct fuel as [|fuel]; [lia|]. cbn [Copy].
    replace (first + 8 * Z.of_nat 0) with first by lia. rewrite Z.eqb_refl. simpl.
    exists w. replace (first + 8 + 8 * Z.of_nat 0) with (first + 8) by lia.
    split; [reflexivity|]. split; [apply same_but_mem_refl|]. split; [|reflexivity].
    apply words_at_cons. split; [exact Hv | apply words_at_nil].
  - destruct fuel as [|fuel]; [lia|]. cbn [Copy].
    destruct (first =? first + 8 * Z.of_nat (S n)) eqn:E; [apply Z.eqb_eq in E; lia|].
    cbn [negb]. cbv iota.
    pose proof (range_ok_head _ _ _ Hr) as Ha0.
    pose proof (range_ok_head _ _ _ (range_ok_tail _ _ _ Hr)) as Ha1.
    unfold bind at 1. rewrite (load64_ok first v w Ha0 Hv).
    unfold bind at 1. rewrite (store64_ok (first + 8) v w Ha1).
    set (w1 := set_mem _ w).
    assert (Hs1 : same_but_mem w w1) by reflexivity.
    pose proof Hr as (H0 & H1 & _).
    rewrite (ptr_inc_small first) by lia. rewrite (ptr_inc_small (first + 8)) by lia.
    replace (first + 8 * Z.of_nat (S n)) with (first + 8 + 8 * Z.of_nat n) by lia.
    destruct (IH fuel (first + 8) w1 v) as (w' & Hrun & Hs & Hres & Hfr).
    + lia.
    + apply (range_ok_same w w1 _ _ Hs1). apply range_ok_tail. exact Hr.
    + unfold w1. simpl. apply lookup_insert_eq.
    + exists w'. split.
      { rewrite Hrun. f_equal. lia. }
      split; [apply (same_but_mem_trans w w1 w' Hs1 Hs)|]. split.
      * change (replicate (S (S n)) v) with (v :: replicate (S n) v).
        apply words_at_cons. split; [|exact Hres].
        rewrite Hfr by lia. unfold w1. simpl.
        rewrite lookup_insert_ne by lia. exact Hv.
      * intros a Ha. rewrite Hfr by lia. unfold w1. simpl.
        apply lookup_insert_ne. lia.
Qed.

(** ** CopyBackward *)

Lemma CopyBackward_run vs : forall fuel first d w,
  (length vs < fuel)%nat ->
  range_ok w first (length vs) -> range_ok w d (length vs) ->
  words_at (mem w) first vs ->
  first <= d \/ d + 8 * Z.of_nat (length vs) <= first ->
  exists w',
    CopyBackward fuel first (first + 8 * Z.of_nat (length vs))
                 (d + 8 * Z.of_nat (length vs)) w
    = Ok d w'
    /\ same_but_mem w w'
    /\ words_at (mem w') d vs
    /\ forall a, a < d \/ d + 8 * Z.of_nat (length vs) <= a ->
                 mem w' !! a = mem w !! a.
Proof.
  induction vs as [|v vs IH] using rev_ind; intros fuel first d w Hfuel Hsrc Hdst Hw Hov.
  - destruct fuel as [|fuel]; [simpl in Hfuel; lia|].
    simpl length. cbn [CopyBackward]. replace (first + 8 * Z.of_nat 0) with first by lia.
    rewrite Z.eqb_refl. simpl. exists w.
    replace (d + 8 * Z.of_nat 0) with d by lia.
    split; [reflexivity|]. split; [apply same_but_mem_refl|].
    split; [apply words_at_nil | reflexivity].
  - destruct fuel as [|fuel]; [simpl in Hfuel; lia|].
    rewrite length_app in *. simpl length in *.
    replace (length vs + 1)%nat with (S (length vs)) in * by lia.
    cbn [CopyBackward].
    destruct (first =? first + 8 * Z.of_nat (S (length vs))) eqn:E;
      [apply Z.eqb_eq in E; lia|].
    cbn [negb]. cbv iota zeta.
    apply words_at_app in Hw. destruct Hw as [Hw Hv].
    apply words_at_cons in Hv. destruct Hv as [Hv _].
    pose proof Hsrc as (Hs0 & Hs2 & Hs3). pose proof Hdst as (Hd0 & Hd2 & Hd3).
    rewrite (ptr_dec_small (first + 8 * Z.of_nat (S (length vs)))) by lia.
    rewrite (ptr_dec_small (d + 8 * Z.of_nat (S (length vs)))) by lia.
    replace (first + 8 * Z.of_nat (S (length vs)) - 8)
      with (first + 8 * Z.of_nat (length vs)) by lia.
    replace (d + 8 * Z.of_nat (S (length vs)) - 8)
      with (d + 8 * Z.of_nat (length vs)) by lia.
    unfold bind at 1.
    rewrite (load64_ok _ v w (Hs3 (length vs) ltac:(lia)) Hv).
    unfold bind at 1.
    rewrite (store64_ok _ v w (Hd3 (length vs) ltac:(lia))).
    set (w1 := set_mem _ w).
    assert (Hs1 : same_but_mem w w1) by reflexivity.
    destruct (IH fuel first d w1) as (w' & Hr & Hs & Hres & Hfr).
    + lia.
    + apply (range_ok_same w w1 _ _ Hs1). apply range_ok_init. exact Hsrc.
    + apply (range_ok_same w w1 _ _ Hs1). apply range_ok_init. exact Hdst.
    + apply (words_at_frame (mem w)); [exact Hw|].
      intros x Hx. unfold w1. simpl. apply lookup_insert_ne. lia.
    + lia.
    + exists w'. split; [exact Hr|].
      split; [apply (same_but_mem_trans w w1 w' Hs1 Hs)|]. split.
      * apply words_at_app. split; [exact Hres|].
        apply words_at_cons. split; [|apply words_at_nil].
        rewrite Hfr by lia. unfold w1. simpl. apply lookup_insert_eq.
      * intros a Ha. rewrite Hfr by lia. unfold w1. simpl.
        apply lookup_insert_ne. lia.
Qed.

(** ** Fill and the uninitialized_* functions *)

Lemma read_ref_ok w value v : ref_holds w value v -> read_ref value w = Ok v w.
Proof.
  destruct value as [x|a]; simpl.
  - intros ->. reflexivity.
  - intros [Ha Hm]. apply load64_ok; assumption.
Qed.

Lemma ref_holds_store w value v a :
  ref_holds w value v -> ref_holds (set_mem (<[a := v]> (mem w)) w) value v.
Proof.
  destruct value as [x|b]; simpl; [tauto|].
  intros [Hb Hm]. split; [exact Hb|].
  destruct (Z.eq_dec a b) as [->|Hne].
  - apply lookup_insert_eq.
  - rewrite lookup_insert_ne by exact Hne. exact Hm.
Qed.

Lemma Construct_ok w p value v :
  ref_holds w value v -> accessible p w = true ->
  Construct p value w = Ok tt (set_mem (<[p := v]> (mem w)) w).
Proof.
  intros Hv Hp. unfold Construct, bind. rewrite (read_ref_ok w value v Hv).
  apply store64_ok. exact Hp.
Qed.

Lemma Fill_run n : forall fuel first w value v,
  (n < fuel)%nat ->
  range_ok w first n ->
  ref_holds w value v ->
  exists w',
    Fill fuel first (first + 8 * Z.of_nat n) value w = Ok tt w'
    /\ same_but_mem w w'
    /\ words_at (mem w') first (replicate n v)
    /\ ref_holds w' value v
    /\ forall a, a < first \/ first + 8 * Z.of_nat n <= a ->
                 mem w' !! a = mem w !! a.
Proof.
  induction n as [|n IH]; intros fuel first w value v Hfuel Hr Hv.
  - destruct fuel as [|fuel]; [lia|]. cbn [Fill].
    replace (first + 8 * Z.of_nat 0) with first by lia. rewrite Z.eqb_refl. simpl.
    exists w. split; [reflexivity|]. split; [apply same_but_mem_refl|].
    split; [apply words_at_nil|]. split; [exact Hv | reflexivity].
  - destruct fuel as [|fuel]; [lia|]. cbn [Fill].
    destruct (first =? first + 8 * Z.of_nat (S n)) eqn:E; [apply Z.eqb_eq in E; lia|].
    cbn [negb]. cbv iota.
    unfold bind at 1. rewrite (read_ref_ok w value v Hv).
    unfold bind at 1. rewrite (store64_ok first v w (range_ok_head _ _ _ Hr)).
    set (w1 := set_mem _ w).
    assert (Hs1 : same_but_mem w w1) by reflexivity.
    pose proof Hr as (H0 & H1 & _).
    rewrite (ptr_inc_small first) by lia.
    replace (first + 8 * Z.of_nat (S n)) with (first + 8 + 8 * Z.of_nat n) by lia.
    destruct (IH fuel (first + 8) w1 value v) as (w' & Hrun & Hs & Hres & Hv' & Hfr).
    + lia.
    + apply (range_ok_same w w1 _ _ Hs1). apply range_ok_tail. exact Hr.
    + apply ref_holds_store. exact Hv.
    + exists w'. split; [exact Hrun|].
      split; [apply (same_but_mem_trans w w1 w' Hs1 Hs)|]. split.
      * change (replicate (S n) v) with (v :: replicate n v).
        apply words_at_cons. split; [|exact Hres].
        rewrite Hfr by lia. unfold w1. simpl. apply lookup_insert_eq.
      * split; [exact Hv'|].
        intros a Ha. rewrite Hfr by lia. unfold w1. simpl.
        apply lookup_insert_ne. lia.
Qed.

Lemma uninitialized_copy_Copy fuel : forall first last result w,
  uninitialized_copy fuel first last result w = Copy fuel first last result w.
Proof.
  induction fuel as [|fuel IH]; intros first last result w; [reflexivity|].
  cbn [uninitialized_copy Copy].
  destruct (negb (first =? last)); [|reflexivity].
  unfold Construct, read_ref, bind.
  destruct (load64 first w) as [v w1| | |]; try reflexivity.
  destruct (store64 result v w1) as [[] w2| | |]; try reflexivity.
  apply IH.
Qed.

Lemma uninitialized_fill_Fill fuel : forall first last value w,
  uninitialized_fill fuel first last value w = Fill fuel first last value w.
Proof.
  induction fuel as [|fuel IH]; intros first last value w; [reflexivity|].
  cbn [uninitialized_fill Fill].
  destruct (negb (first =? last)); [|reflexivity].
  unfold Construct, bind.
  destruct (read_ref value w) as [v w1| | |]; try reflexivity.
  destruct (store64 first v w1) as [[] w2| | |]; try reflexivity.
  apply IH.
Qed.

Lemma uninitialized_fill_n_loop_run n : forall first w value v,
  range_ok w first n ->
  ref_holds w value v ->
  exists w',
    uninitialized_fill_n_loop n first value w = Ok (first + 8 * Z.of_nat n) w'
    /\ same_but_mem w w'
    /\ words_at (mem w') first (replicate n v)
    /\ ref_holds w' value v
    /\ forall a, a < first \/ first + 8 * Z.of_nat n <= a ->
                 mem w' !! a = mem w !! a.
Proof.
  induction n as [|n IH]; intros first w value v Hr Hv.
  - cbn [uninitialized_fill_n_loop]. exists w.
    replace (first + 8 * Z.of_nat 0) with first by lia.
    split; [reflexivity|]. split; [apply same_but_mem_refl|].
    split; [apply words_at_nil|]. split; [exact Hv | reflexivity].
  - cbn [uninitialized_fill_n_loop].
    unfold bind at 1. rewrite (Construct_ok w first value v Hv (range_ok_head _ _ _ Hr)).
    set (w1 := set_mem _ w).
    assert (Hs1 : same_but_mem w w1) by reflexivity.
    pose proof Hr as (H0 & H1 & _).
    rewrite (ptr_inc_small first) by lia.
    destruct (IH (first + 8) w1 value v) as (w' & Hrun & Hs & Hres & Hv' & Hfr).
    + apply (range_ok_same w w1 _ _ Hs1). apply range_ok_tail. exact Hr.
    + apply ref_holds_store. exact Hv.
    + exists w'. split.
      { rewrite Hrun. f_equal. lia. }
      split; [apply (same_but_mem_trans w w1 w' Hs1 Hs)|]. split.
      * change (replicate (S n) v) with (v :: replicate n v).
        apply words_at_cons. split; [|exact Hres].
        rewrite Hfr by lia. unfold w1. simpl. apply lookup_insert_eq.
      * split; [exact Hv'|].
        intros a Ha. rewrite Hfr by lia. unfold w1. simpl.
        apply lookup_insert_ne. lia.
Qed.

Lemma Destroy_range_run n : forall fuel first w,
  (n < fuel)%nat -> 0 <= first -> first + 8 * Z.of_nat n < 2 ^ 64 ->
  Destroy_range fuel first (first + 8 * Z.of_nat n) w = Ok tt w.
Proof.
  induction n as [|n IH]; intros fuel first w Hfuel H0 H1.
  - destruct fuel as [|fuel]; [lia|]. cbn [Destroy_range].
    replace (first + 8 * Z.of_nat 0) with first by lia. rewrite Z.eqb_refl. reflexivity.
  - destruct fuel as [|fuel]; [lia|]. cbn [Destroy_range].
    destruct (first =? first + 8 * Z.of_nat (S n)) eqn:E; [apply Z.eqb_eq in E; lia|].
    cbn [negb]. cbv iota. unfold bind, Destroy, ret.
    rewrite (ptr_inc_small first) by lia.
    replace (first + 8 * Z.of_nat (S n)) with (first + 8 + 8 * Z.of_nat n) by lia.
    apply IH; lia.
Qed.

(** X9. Copy copies a range of elements forward.  When the destination
    starts at or before the source, or at or after its end, Copy(first,
    last, result) returns the end of the destination, the destination holds
    what the source held, and nothing outside the destination changes. *)
Theorem Copy_correct (vs : list Z) (fuel : nat) (first result : Z) (w : World) :
  (length vs < fuel)%nat ->
  range_ok w first (length vs) -> range_ok w result (length vs) ->
  words_at (mem w) first vs ->
  result <= first \/ first + 8 * Z.of_nat (length vs) <= result ->
  exists w',
    Copy fuel first (first + 8 * Z.of_nat (length vs)) result w
    = Ok (result + 8 * Z.of_nat (length vs)) w'
    /\ same_but_mem w w'
    /\ words_at (mem w') result vs
    /\ forall a, a < result \/ result + 8 * Z.of_nat (length vs) <= a ->
                 mem w' !! a = mem w !! a.
Proof. apply Copy_run. Qed.

Lemma Copy_correct_witness :
  exists w',
    Copy 5 4096 (4096 + 8 * Z.of_nat (length [1; 2; 3])) 4128 range_world
    = Ok (4128 + 8 * Z.of_nat (length [1; 2; 3])) w'
    /\ words_at (mem w') 4128 [1; 2; 3].
Proof.
  destruct (Copy_correct [1; 2; 3] 5 4096 4128 range_world)
    as (w' & Hr & _ & Hw & _).
  - simpl. lia.
  - apply range_okb_spec. vm_compute. reflexivity.
  - apply range_okb_spec. vm_compute. reflexivity.
  - apply words_atb_spec. vm_compute. reflexivity.
  - right. simpl. lia.
  - exists w'. split; [exact Hr | exact Hw].
Defined.


(** X10. CopyBackward copies a range of elements from its end.  When the
    destination starts at or after the start of the source, or ends at or
    before it, CopyBackward(first, last, result) returns the start of the
    destination, the destination (which ends at result) holds what the
    source held, and nothing outside the destination changes. *)
Theorem CopyBackward_correct (vs : list Z) (fuel : nat) (first d : Z) (w : World) :
  (length vs < fuel)%nat ->
  range_ok w first (length vs) -> range_ok w d (length vs) ->
  words_at (mem w) first vs ->
  first <= d \/ d + 8 * Z.of_nat (length vs) <= first ->
  exists w',
    CopyBackward fuel first (first + 8 * Z.of_nat (length vs))
                 (d + 8 * Z.of_nat (length vs)) w
    = Ok d w'
    /\ same_but_mem w w'
    /\ words_at (mem w') d vs
    /\ forall a, a < d \/ d + 8 * Z.of_nat (length vs) <= a ->
                 mem w' !! a = mem w !! a.
Proof. apply CopyBackward_run. Qed.

Lemma CopyBackward_correct_witness :
  exists w',
    CopyBackward 5 4096 (4096 + 8 * Z.of_nat (length [1; 2; 3]))
                 (4104 + 8 * Z.of_nat (length [1; 2; 3])) range_world
    = Ok 4104 w'
    /\ words_at (mem w') 4104 [1; 2; 3].
Proof.
  destruct (CopyBackward_correct [1; 2; 3] 5 4096 4104 range_world)
    as (w' & Hr & _ & Hw & _).
  - simpl. lia.
  - apply range_okb_spec. vm_compute. reflexivity.
  - apply range_okb_spec. vm_compute. reflexivity.
  - apply words_atb_spec. vm_compute. reflexivity.
  - left. lia.
  - exists w'. split; [exact Hr | exact Hw].
Defined.


(** X11. Copy is not a move to the right.  Copying a range of n elements
    one element up, Copy(first, last, first + 1), does not shift it: the
    first element is replicated over the whole destination, so afterwards
    all n + 1 words from first on hold what the first one held. *)
Theorem Copy_overlap_replicates_first (n fuel : nat) (first v : Z) (w : World) :
  (n < fuel)%nat ->
  range_ok w first (S n) ->
  mem w !! first = Some v ->
  exists w',
    Copy fuel first (first + 8 * Z.of_nat n) (ptr_inc first) w
    = Ok (first + 8 + 8 * Z.of_nat n) w'
    /\ words_at (mem w') first (replicate (S n) v).
Proof.
  intros Hfuel Hr Hv. pose proof Hr as (H0 & H1 & _).
  rewrite ptr_inc_small by lia.
  destruct (Copy_smear n fuel first w v Hfuel Hr Hv) as (w' & Hrun & _ & Hres & _).
  exists w'. split; assumption.
Qed.

Lemma Copy_overlap_replicates_first_witness :
  exists w',
    Copy 5 4096 (4096 + 8 * Z.of_nat 3) (ptr_inc 4096) range_world
    = Ok (4096 + 8 + 8 * Z.of_nat 3) w'
    /\ words_at (mem w') 4096 [1; 1; 1; 1].
Proof.
  apply (Copy_overlap_replicates_first 3 5 4096 1 range_world).
  - lia.
  - apply range_okb_spec. vm_compute. reflexivity.
  - vm_compute. reflexivity.
Defined.


(** X12. Fill is safe under aliasing.  Fill(first, last, value) stores the
    value that the reference denotes on entry into every element of the
    range, also when the reference points at an element of the range
    itself; nothing outside the range changes.  The same holds for
    uninitialized_fill, which for this element type is the same
    computation, and for uninitialized_fill_n, which returns the end of
    the range. *)
Theorem Fill_correct (n fuel : nat) (first : Z) (value : const_ref) (v : Z) (w : World) :
  (n < fuel)%nat ->
  range_ok w first n ->
  ref_holds w value v ->
  (exists w',
      Fill fuel first (first + 8 * Z.of_nat n) value w = Ok tt w'
      /\ uninitialized_fill fuel first (first + 8 * Z.of_nat n) value w = Ok tt w'
      /\ same_but_mem w w'
      /\ words_at (mem w') first (replicate n v)
      /\ forall a, a < first \/ first + 8 * Z.of_nat n <= a ->
                   mem w' !! a = mem w !! a)
  /\ (exists w',
      uninitialized_fill_n first (Z.of_nat n) value w
      = Ok (first + 8 * Z.of_nat n) w'
      /\ same_but_mem w w'
      /\ words_at (mem w') first (replicate n v)
      /\ forall a, a < first \/ first + 8 * Z.of_nat n <= a ->
                   mem w' !! a = mem w !! a).
Proof.
  intros Hfuel Hr Hv. split.
  - destruct (Fill_run n fuel first w value v Hfuel Hr Hv)
      as (w' & Hrun & Hs & Hres & _ & Hfr).
    exists w'. split; [exact Hrun|]. split.
    { rewrite uninitialized_fill_Fill. exact Hrun. }
    split; [exact Hs|]. split; assumption.
  - unfold uninitialized_fill_n. rewrite Nat2Z.id.
    destruct (uninitialized_fill_n_loop_run n first w value v Hr Hv)
      as (w' & Hrun & Hs & Hres & _ & Hfr).
    exists w'. split; [exact Hrun|]. split; [exact Hs|]. split; assumption.
Qed.

Lemma Fill_correct_witness :
  exists w',
    Fill 5 4096 (4096 + 8 * Z.of_nat 4) (Ref 4104) range_world = Ok tt w'
    /\ words_at (mem w') 4096 [2; 2; 2; 2].
Proof.
  destruct (Fill_correct 4 5 4096 (Ref 4104) 2 range_world) as [H _].
  - lia.
  - apply range_okb_spec. vm_compute. reflexivity.
  - split; vm_compute; reflexivity.
  - destruct H as (w' & Hr & _ & _ & Hw & _).
    exists w'. split; [exact Hr | exact Hw].
Defined.


(** X13. For this element type uninitialized_copy is Copy: on every input
    and in every state the two run the same loads and stores and return the
    same result, faults and exhausted fuel included. *)
Theorem uninitialized_copy_is_Copy (fuel : nat) (first last result : Z) (w : World) :
  uninitialized_copy fuel first last result w = Copy fuel first last result w.
Proof. apply uninitialized_copy_Copy. Qed.

(** * vector: the member functions that work inside the capacity *)

Lemma ptr_add_small p n : 0 <= p + 8 * n < 2 ^ 64 -> ptr_add p n = p + 8 * n.
Proof. intros. unfold ptr_add. apply wrap_small. lia. Qed.

Lemma ptr_sub_small p n : 0 <= p - 8 * n < 2 ^ 64 -> ptr_sub p n = p - 8 * n.
Proof. intros. unfold ptr_sub. apply wrap_small. lia. Qed.

Lemma ptr_diff_small a b k :
  a = b + 8 * k -> 0 <= 8 * k < 2 ^ 63 -> ptr_diff a b = k.
Proof.
  intros -> Hk. unfold ptr_diff, to_ptrdiff.
  replace (b + 8 * k - b) with (8 * k) by lia.
  rewrite wrap_small by lia.
  destruct (8 * k <? 2 ^ 63) eqn:E; [|apply Z.ltb_ge in E; lia].
  rewrite Z.mul_comm. apply Z.quot_mul. lia.
Qed.

Lemma ptr_diff_wrap a b k :
  a = b + 8 * k -> 0 <= 8 * k < 2 ^ 63 -> wrap (ptr_diff a b) = k.
Proof.
  intros Ha Hk. rewrite (ptr_diff_small a b k Ha Hk). apply wrap_small. lia.
Qed.

Lemma range_fuel_eq first n : range_fuel first (first + 8 * Z.of_nat n) = S n.
Proof.
  unfold range_fuel. f_equal.
  replace (first + 8 * Z.of_nat n - first) with (Z.of_nat n * 8) by lia.
  rewrite Z.div_mul by lia. apply Nat2Z.id.
Qed.

Lemma vec_repr_same w w' v xs cap :
  same_but_mem w w' ->
  vec_repr w v xs cap ->
  (forall a, begin_ v <= a < end_ v -> mem w' !! a = mem w !! a) ->
  vec_repr w' v xs cap.
Proof.
  intros Hs (Hr & Hc & He & Hcap & Hle & Hw) Hf.
  split; [apply (range_ok_same w w' _ _ Hs Hr)|].
  split; [exact Hc|]. split; [exact He|]. split; [exact Hcap|]. split; [exact Hle|].
  apply (words_at_frame (mem w)); [exact Hw|].
  intros x Hx. apply Hf. lia.
Qed.

Lemma words_at_take m a vs k : words_at m a vs -> words_at m a (take k vs).
Proof.
  intros H i v Hi. apply H. apply lookup_take_Some in Hi. tauto.
Qed.

Lemma words_at_drop m a vs k :
  words_at m a vs -> words_at m (a + 8 * Z.of_nat k) (drop k vs).
Proof.
  intros H i v Hi. rewrite lookup_drop in Hi.
  replace (a + 8 * Z.of_nat k + 8 * Z.of_nat i) with (a + 8 * Z.of_nat (k + i)) by lia.
  apply H. exact Hi.
Qed.

Lemma erase_run w v xs cap i :
  vec_repr w v xs cap -> (i < length xs)%nat ->
  let pos := begin_ v + 8 * Z.of_nat i in
  exists w',
    vector.erase pos v w = Ok (pos, set_end_ (end_ v - 8) v) w'
    /\ same_but_mem w w'
    /\ vec_repr w' (set_end_ (end_ v - 8) v) (delete i xs) cap
    /\ forall a, a < pos \/ end_ v - 8 <= a -> mem w' !! a = mem w !! a.
Proof.
  intros (Hr & Hc & He & Hcap & Hle & Hw) Hi pos.
  pose proof Hr as (Hb0 & Hb1 & _).
  unfold vector.erase.
  rewrite (ptr_add_small pos 1) by (unfold pos; lia).
  rewrite (ptr_dec_small (end_ v)) by lia.
  set (vs := drop (S i) xs).
  assert (Hlen : length vs = (length xs - S i)%nat) by (unfold vs; apply length_drop).
  assert (Hend : end_ v = pos + 8 * 1 + 8 * Z.of_nat (length vs))
    by (rewrite Hlen, He; unfold pos; lia).
  assert (Hfu : range_fuel (pos + 8 * 1) (end_ v) = S (length vs))
    by (rewrite Hend; apply range_fuel_eq).
  rewrite Hfu.
  destruct (Copy_run vs (S (length vs)) (pos + 8 * 1) pos w)
    as (w' & Hrun & Hs & Hres & Hfr).
  - lia.
  - replace (pos + 8 * 1) with (begin_ v + 8 * Z.of_nat (S i)) by (unfold pos; lia).
    apply (range_ok_sub w _ cap); [exact Hr | lia].
  - apply (range_ok_sub w _ cap); [exact Hr | lia].
  - replace (pos + 8 * 1) with (begin_ v + 8 * Z.of_nat (S i)) by (unfold pos; lia).
    apply words_at_drop. exact Hw.
  - left. lia.
  - rewrite <- Hend in Hrun.
    exists w'. unfold bind at 1. rewrite Hrun. unfold bind, Destroy, ret.
    split; [reflexivity|]. split; [exact Hs|]. split.
    + assert (Hld : length (delete i xs) = (length xs - 1)%nat)
        by (apply length_delete, lookup_lt_is_Some_2, Hi).
      split; [apply (range_ok_same w w' _ _ Hs Hr)|].
      split; [exact Hc|]. split; [unfold set_end_; cbn [begin_ end_]; rewrite Hld, He; lia|].
      split; [exact Hcap|]. split; [rewrite Hld; lia|].
      unfold set_end_. cbn [begin_]. rewrite delete_take_drop. apply words_at_app. split.
      * apply (words_at_frame (mem w)); [apply words_at_take; exact Hw|].
        intros x Hx. apply Hfr. rewrite length_take in Hx. unfold pos. lia.
      * rewrite length_take. replace (i `min` length xs)%nat with i by lia.
        exact Hres.
    + intros a Ha. apply Hfr. rewrite Hend in Ha. lia.
Qed.

Lemma set_end_same v : set_end_ (end_ v) v = v.
Proof. destruct v; reflexivity. Qed.

Lemma erase_range_run w v xs cap i j :
  vec_repr w v xs cap -> (i <= j)%nat -> (j <= length xs)%nat ->
  let first := begin_ v + 8 * Z.of_nat i in
  let last := begin_ v + 8 * Z.of_nat j in
  let v' := set_end_ (end_ v - 8 * Z.of_nat (j - i)) v in
  exists w',
    vector.erase_range first last v w = Ok (last, v') w'
    /\ same_but_mem w w'
    /\ vec_repr w' v' (take i xs ++ drop j xs) cap
    /\ forall a, a < first \/ end_ v - 8 * Z.of_nat (j - i) <= a ->
                 mem w' !! a = mem w !! a.
Proof.
  intros Hv Hij Hj first last v'.
  pose proof Hv as (Hr & Hc & He & Hcap & Hle & Hw).
  pose proof Hr as (Hb0 & Hb1 & _).
  unfold vector.erase_range.
  destruct (Nat.eq_dec i j) as [<- | Hne].
  - fold first. rewrite Z.eqb_refl. cbn [negb]. cbv iota.
    exists w. unfold ret, v'. replace (i - i)%nat with O by lia.
    replace (end_ v - 8 * Z.of_nat 0) with (end_ v) by lia. rewrite set_end_same.
    split; [reflexivity|]. split; [apply same_but_mem_refl|].
    split; [|reflexivity]. rewrite take_drop. exact Hv.
  - destruct (first =? last) eqn:E; [apply Z.eqb_eq in E; unfold first, last in E; lia|].
    cbn [negb]. cbv iota.
    set (vs := drop j xs).
    assert (Hlen : length vs = (length xs - j)%nat) by (unfold vs; apply length_drop).
    assert (Hend : end_ v = last + 8 * Z.of_nat (length vs))
      by (rewrite Hlen, He; unfold last; lia).
    assert (Hfu : range_fuel last (end_ v) = S (length vs))
      by (rewrite Hend; apply range_fuel_eq).
    rewrite Hfu.
    destruct (Copy_run vs (S (length vs)) last first w)
      as (w' & Hrun & Hs & Hres & Hfr).
    + lia.
    + apply (range_ok_sub w _ cap); [exact Hr | lia].
    + apply (range_ok_sub w _ cap); [exact Hr | lia].
    + apply words_at_drop. exact Hw.
    + left. unfold first, last. lia.
    + rewrite <- Hend in Hrun. unfold bind at 1. rewrite Hrun.
      assert (Hend2 : end_ v = first + 8 * Z.of_nat (length vs) + 8 * Z.of_nat (j - i))
        by (rewrite Hlen, He; unfold first; lia).
      assert (Hfu2 : range_fuel (first + 8 * Z.of_nat (length vs)) (end_ v)
                     = S (j - i)) by (rewrite Hend2; apply range_fuel_eq).
      rewrite Hfu2. unfold bind at 1.
      assert (HD : Destroy_range (S (j - i)) (first + 8 * Z.of_nat (length vs))
                                 (end_ v) w' = Ok tt w')
        by (rewrite Hend2; apply Destroy_range_run; lia).
      rewrite HD.
      rewrite (ptr_diff_small last first (Z.of_nat (j - i)))
        by (unfold first, last; lia).
      rewrite ptr_sub_small by lia.
      exists w'. split; [reflexivity|]. split; [exact Hs|]. subst vs. split.
      * assert (Hl2 : length (take i xs ++ drop j xs) = (length xs - (j - i))%nat)
          by (rewrite length_app, length_take, length_drop; lia).
        split; [apply (range_ok_same w w' _ _ Hs Hr)|].
        split; [exact Hc|].
        split; [unfold v', set_end_; cbn [begin_ end_]; rewrite Hl2, He; lia|].
        split; [exact Hcap|]. split; [rewrite Hl2; lia|].
        unfold v', set_end_. cbn [begin_]. apply words_at_app. split.
        -- apply (words_at_frame (mem w)); [apply words_at_take; exact Hw|].
           intros x Hx. apply Hfr. rewrite length_take in Hx. unfold first. lia.
        -- rewrite length_take. replace (i `min` length xs)%nat with i by lia.
           exact Hres.
      * intros a Ha. apply Hfr. rewrite Hlen. unfold first.
        rewrite He in Ha. lia.
Qed.

Lemma clear_run w v xs cap :
  vec_repr w v xs cap ->
  exists w',
    vector.clear v w = Ok (set_end_ (begin_ v) v) w'
    /\ same_but_mem w w'
    /\ vec_repr w' (set_end_ (begin_ v) v) [] cap
    /\ forall a, a < begin_ v \/ begin_ v <= a -> mem w' !! a = mem w !! a.
Proof.
  intros Hv. pose proof Hv as (Hr & Hc & He & Hcap & Hle & Hw).
  destruct (erase_range_run w v xs cap 0 (length xs) Hv ltac:(lia) ltac:(lia))
    as (w' & Hrun & Hs & Hv' & Hfr).
  replace (begin_ v + 8 * Z.of_nat 0) with (begin_ v) in * by lia.
  rewrite <- He in Hrun. rewrite Nat.sub_0_r in *.
  replace (end_ v - 8 * Z.of_nat (length xs)) with (begin_ v) in * by lia.
  rewrite drop_all in Hv'. simpl in Hv'.
  exists w'. unfold vector.clear, bind. rewrite Hrun. simpl.
  split; [reflexivity|]. split; [exact Hs|]. split; [exact Hv' | exact Hfr].
Qed.

Lemma ref_holds_frame w w' x xv :
  same_but_mem w w' ->
  ref_holds w x xv ->
  (forall a, x = Ref a -> mem w' !! a = mem w !! a) ->
  ref_holds w' x xv.
Proof.
  intros Hs Hx Hf. destruct x as [t|a]; simpl in *; [exact Hx|].
  destruct Hx as [Ha Hm]. split.
  - rewrite (same_but_mem_accessible w w' a Hs). exact Ha.
  - rewrite (Hf a eq_refl). exact Hm.
Qed.

(** insert(pos, n, x) with more than [n] elements after [pos]: the last
    [n] elements are copied past the end, the others are moved up from
    the back, and the gap is filled with what [x] denotes by then. *)
Lemma insert_shift w v xs cap i n x xv :
  vec_repr w v xs cap ->
  (n < length xs - i)%nat -> (length xs + n <= cap)%nat ->
  let pos := begin_ v + 8 * Z.of_nat i in
  (forall w2,
      same_but_mem w w2 ->
      (forall a, a < pos + 8 * Z.of_nat n \/ end_ v + 8 * Z.of_nat n <= a ->
                 mem w2 !! a = mem w !! a) ->
      words_at (mem w2) (pos + 8 * Z.of_nat n) (drop i xs) ->
      ref_holds w2 x xv) ->
  let v' := set_end_ (end_ v + 8 * Z.of_nat n) v in
  exists w',
    vector.insert pos (Z.of_nat n) x v w = Ok (pos, v') w'
    /\ same_but_mem w w'
    /\ vec_repr w' v' (take i xs ++ replicate n xv ++ drop i xs) cap
    /\ forall a, a < pos \/ end_ v + 8 * Z.of_nat n <= a ->
                 mem w' !! a = mem w !! a.
Proof.
  intros Hv Hn Hcapn pos Hx v'.
  pose proof Hv as (Hr & Hc & He & Hcap & Hle & Hw).
  pose proof Hr as (Hb0 & Hb1 & _).
  set (len := length xs) in *.
  set (ea := (len - i)%nat).
  unfold vector.insert.
  rewrite (ptr_diff_wrap (capacity_ v) (end_ v) (Z.of_nat (cap - len))) by lia.
  destruct (Z.of_nat n <=? Z.of_nat (cap - len)) eqn:E1; [|apply Z.leb_gt in E1; lia].
  rewrite (ptr_diff_wrap (end_ v) pos (Z.of_nat ea)) by (unfold pos, ea; lia).
  destruct (Z.of_nat n <? Z.of_nat ea) eqn:E2; [|apply Z.ltb_ge in E2; unfold ea in E2; lia].
  cbv zeta.
  rewrite (ptr_sub_small (end_ v) (Z.of_nat n)) by lia.
  rewrite (ptr_add_small pos (Z.of_nat n)) by (unfold pos; lia).
  (* the last n elements go past the end *)
  set (vs1 := drop (len - n) xs).
  assert (Hl1 : length vs1 = n) by (unfold vs1; rewrite length_drop; fold len; lia).
  assert (He1 : end_ v = end_ v - 8 * Z.of_nat n + 8 * Z.of_nat (length vs1))
    by (rewrite Hl1; lia).
  assert (Hfu1 : range_fuel (end_ v - 8 * Z.of_nat n) (end_ v) = S (length vs1))
    by (rewrite He1 at 2; apply range_fuel_eq).
  rewrite Hfu1.
  destruct (Copy_run vs1 (S (length vs1)) (end_ v - 8 * Z.of_nat n) (end_ v) w)
    as (w1 & Hrun1 & Hs1 & Hres1 & Hfr1).
  { lia. }
  { rewrite Hl1. replace (end_ v - 8 * Z.of_nat n)
      with (begin_ v + 8 * Z.of_nat (len - n)) by lia.
    apply (range_ok_sub w _ cap); [exact Hr | lia]. }
  { rewrite Hl1. rewrite He.
    apply (range_ok_sub w _ cap); [exact Hr | fold len; lia]. }
  { replace (end_ v - 8 * Z.of_nat n)
      with (begin_ v + 8 * Z.of_nat (len - n)) by lia.
    apply words_at_drop. exact Hw. }
  { right. lia. }
  rewrite <- He1 in Hrun1. unfold bind at 1. rewrite uninitialized_copy_Copy, Hrun1.
  (* the elements before them move up, last one first *)
  set (vs2 := take (ea - n) (drop i xs)).
  assert (Hl2 : length vs2 = (ea - n)%nat)
    by (unfold vs2; rewrite length_take, length_drop; fold len; unfold ea; lia).
  assert (He2 : end_ v - 8 * Z.of_nat n = pos + 8 * Z.of_nat (length vs2))
    by (rewrite Hl2; unfold pos, ea; lia).
  assert (He3 : end_ v = pos + 8 * Z.of_nat n + 8 * Z.of_nat (length vs2))
    by (rewrite Hl2; unfold pos, ea; lia).
  assert (Hfu2 : range_fuel pos (end_ v - 8 * Z.of_nat n) = S (length vs2))
    by (rewrite He2; apply range_fuel_eq).
  rewrite Hfu2.
  destruct (CopyBackward_run vs2 (S (length vs2)) pos (pos + 8 * Z.of_nat n) w1)
    as (w2 & Hrun2 & Hs2 & Hres2 & Hfr2).
  { lia. }
  { apply (range_ok_same w w1 _ _ Hs1). rewrite Hl2.
    apply (range_ok_sub w _ cap); [exact Hr | unfold ea; lia]. }
  { apply (range_ok_same w w1 _ _ Hs1). rewrite Hl2.
    replace (pos + 8 * Z.of_nat n) with (begin_ v + 8 * Z.of_nat (i + n))
      by (unfold pos; lia).
    apply (range_ok_sub w _ cap); [exact Hr | unfold ea; lia]. }
  { apply (words_at_frame (mem w)).
    - unfold vs2. apply words_at_take. apply words_at_drop. exact Hw.
    - intros a Ha. apply Hfr1. rewrite Hl2 in Ha. unfold pos, ea in Ha. lia. }
  { left. lia. }
  rewrite <- He2, <- He3 in Hrun2. unfold bind at 1. rewrite Hrun2.
  (* the gap is filled *)
  assert (Hs12 : same_but_mem w w2) by (apply (same_but_mem_trans w w1 w2); assumption).
  assert (Hfr12 : forall a, a < pos + 8 * Z.of_nat n \/ end_ v + 8 * Z.of_nat n <= a ->
                            mem w2 !! a = mem w !! a).
  { intros a Ha. rewrite Hfr2 by (rewrite Hl2; unfold pos, ea; lia).
    apply Hfr1. rewrite Hl1. unfold pos, ea in *. lia. }
  assert (Hshift : words_at (mem w2) (pos + 8 * Z.of_nat n) (drop i xs)).
  { replace (drop i xs) with (vs2 ++ vs1).
    - apply words_at_app. split; [exact Hres2|].
      rewrite <- He3. apply (words_at_frame (mem w1)); [exact Hres1|].
      intros a Ha. apply Hfr2. rewrite Hl2. unfold pos, ea. lia.
    - unfold vs2, vs1.
      transitivity (take (ea - n) (drop i xs) ++ drop (ea - n) (drop i xs));
        [|apply take_drop].
      f_equal. rewrite drop_drop. f_equal. unfold ea. lia. }
  specialize (Hx w2 Hs12 Hfr12 Hshift).
  assert (Hfu3 : range_fuel pos (pos + 8 * Z.of_nat n) = S n) by apply range_fuel_eq.
  rewrite Hfu3.
  destruct (Fill_run n (S n) pos w2 x xv) as (w3 & Hrun3 & Hs3 & Hres3 & _ & Hfr3).
  { lia. }
  { apply (range_ok_same w w2 _ _ Hs12).
    apply (range_ok_sub w _ cap); [exact Hr | unfold ea in *; lia]. }
  { exact Hx. }
  unfold bind at 1. rewrite Hrun3. unfold ret.
  rewrite (ptr_add_small (end_ v) (Z.of_nat n)) by lia.
  exists w3. split; [reflexivity|].
  assert (Hs13 : same_but_mem w w3) by (apply (same_but_mem_trans w w2 w3); assumption).
  split; [exact Hs13|]. split.
  - assert (Hl : length (take i xs ++ replicate n xv ++ drop i xs) = (len + n)%nat).
    { rewrite !length_app, length_take, length_replicate, length_drop. fold len.
      unfold ea in *. lia. }
    split; [apply (range_ok_same w w3 _ _ Hs13 Hr)|].
    split; [exact Hc|].
    split; [unfold v', set_end_; cbn [begin_ end_]; rewrite Hl, He; lia|].
    split; [exact Hcap|]. split; [rewrite Hl; lia|].
    unfold v', set_end_. cbn [begin_].
    apply words_at_app. split.
    + apply (words_at_frame (mem w)); [apply words_at_take; exact Hw|].
      intros a Ha. rewrite length_take in Ha. rewrite Hfr3 by (unfold pos; lia).
      apply Hfr12. unfold pos. lia.
    + rewrite length_take. fold len. replace (i `min` len)%nat with i by (unfold ea in *; lia).
      fold pos. apply words_at_app. split; [exact Hres3|].
      rewrite length_replicate.
      apply (words_at_frame (mem w2)); [exact Hshift|].
      intros a Ha. apply Hfr3. lia.
  - intros a Ha. rewrite Hfr3 by lia. apply Hfr12. lia.
Qed.

(** insert(pos, n, x) with at most [n] elements after [pos]: the result
    is filled up to where the tail will start, the tail is copied there,
    and its old place is filled. *)
Lemma insert_append w v xs cap i n x xv :
  vec_repr w v xs cap ->
  (i <= length xs)%nat -> (length xs - i <= n)%nat -> (length xs + n <= cap)%nat ->
  let pos := begin_ v + 8 * Z.of_nat i in
  ref_holds w x xv ->
  (forall a, x = Ref a -> a < pos + 8 * Z.of_nat n \/ end_ v + 8 * Z.of_nat n <= a) ->
  let v' := set_end_ (end_ v + 8 * Z.of_nat n) v in
  exists w',
    vector.insert pos (Z.of_nat n) x v w = Ok (pos, v') w'
    /\ same_but_mem w w'
    /\ vec_repr w' v' (take i xs ++ replicate n xv ++ drop i xs) cap
    /\ forall a, a < pos \/ end_ v + 8 * Z.of_nat n <= a ->
                 mem w' !! a = mem w !! a.
Proof.
  intros Hv Hi Hn Hcapn pos Hx Hxa v'.
  pose proof Hv as (Hr & Hc & He & Hcap & Hle & Hw).
  pose proof Hr as (Hb0 & Hb1 & _).
  set (len := length xs) in *.
  set (ea := (len - i)%nat) in *.
  unfold vector.insert.
  rewrite (ptr_diff_wrap (capacity_ v) (end_ v) (Z.of_nat (cap - len))) by lia.
  destruct (Z.of_nat n <=? Z.of_nat (cap - len)) eqn:E1; [|apply Z.leb_gt in E1; lia].
  rewrite (ptr_diff_wrap (end_ v) pos (Z.of_nat ea)) by (unfold pos, ea; lia).
  destruct (Z.of_nat n <? Z.of_nat ea) eqn:E2; [apply Z.ltb_lt in E2; lia|].
  cbv zeta. unfold set_end_ at 1 2 3. cbn [begin_ end_ capacity_].
  rewrite (wrap_small (Z.of_nat n - Z.of_nat ea)) by lia.
  replace (Z.of_nat n - Z.of_nat ea) with (Z.of_nat (n - ea)) by lia.
  rewrite (ptr_add_small (end_ v) (Z.of_nat (n - ea))) by lia.
  rewrite (ptr_add_small (end_ v + 8 * Z.of_nat (n - ea)) (Z.of_nat ea)) by lia.
  (* the part of the result past the old end that is not the tail *)
  unfold uninitialized_fill_n. rewrite Nat2Z.id.
  destruct (uninitialized_fill_n_loop_run (n - ea) (end_ v) w x xv)
    as (w1 & Hrun1 & Hs1 & Hres1 & Hx1 & Hfr1).
  { rewrite He. apply (range_ok_sub w _ cap); [exact Hr | fold len; lia]. }
  { exact Hx. }
  unfold bind at 1. rewrite Hrun1.
  (* the tail *)
  set (vs := drop i xs).
  assert (Hl : length vs = ea) by (unfold vs; rewrite length_drop; reflexivity).
  assert (Hee : end_ v = pos + 8 * Z.of_nat (length vs))
    by (rewrite Hl; unfold pos, ea; lia).
  assert (Hfu : range_fuel pos (end_ v) = S (length vs))
    by (rewrite Hee; apply range_fuel_eq).
  rewrite Hfu.
  destruct (Copy_run vs (S (length vs)) pos (end_ v + 8 * Z.of_nat (n - ea)) w1)
    as (w2 & Hrun2 & Hs2 & Hres2 & Hfr2).
  { lia. }
  { apply (range_ok_same w w1 _ _ Hs1). rewrite Hl.
    apply (range_ok_sub w _ cap); [exact Hr | unfold ea; lia]. }
  { apply (range_ok_same w w1 _ _ Hs1). rewrite Hl.
    replace (end_ v + 8 * Z.of_nat (n - ea))
      with (begin_ v + 8 * Z.of_nat (len + (n - ea))) by lia.
    apply (range_ok_sub w _ cap); [exact Hr | unfold ea in *; lia]. }
  { apply (words_at_frame (mem w)); [apply words_at_drop; exact Hw|].
    intros a Ha. apply Hfr1. rewrite Hl in Ha. unfold pos, ea in Ha. lia. }
  { right. rewrite Hl. unfold pos, ea. lia. }
  rewrite <- Hee in Hrun2. unfold bind at 1. rewrite uninitialized_copy_Copy, Hrun2.
  assert (Hs12 : same_but_mem w w2) by (apply (same_but_mem_trans w w1 w2); assumption).
  (* the old place of the tail *)
  assert (Hx2 : ref_holds w2 x xv).
  { apply (ref_holds_frame w1 w2 x xv Hs2 Hx1).
    intros a Hxa'. apply Hfr2. rewrite Hl.
    destruct (Hxa a Hxa') as [H|H]; unfold pos, ea in *; lia. }
  rewrite Hl.
  assert (Hfill : exists w3,
             Fill (S ea) pos (end_ v) x w2 = Ok tt w3 /\ same_but_mem w2 w3
             /\ words_at (mem w3) pos (replicate ea xv)
             /\ forall a, a < pos \/ end_ v <= a -> mem w3 !! a = mem w2 !! a).
  { destruct (Fill_run ea (S ea) pos w2 x xv) as (w3 & Hrun3 & Hs3 & Hres3 & _ & Hfr3).
    - lia.
    - apply (range_ok_same w w2 _ _ Hs12).
      apply (range_ok_sub w _ cap); [exact Hr | unfold ea; lia].
    - exact Hx2.
    - exists w3. rewrite Hee, Hl. split; [exact Hrun3|]. split; [exact Hs3|].
      split; [exact Hres3 | exact Hfr3]. }
  destruct Hfill as (w3 & Hrun3 & Hs3 & Hres3 & Hfr3).
  unfold bind at 1. rewrite Hrun3. unfold ret.
  replace (end_ v + 8 * Z.of_nat (n - ea) + 8 * Z.of_nat ea)
    with (end_ v + 8 * Z.of_nat n) by lia.
  exists w3. split; [reflexivity|]. subst vs.
  assert (Hs13 : same_but_mem w w3) by (apply (same_but_mem_trans w w2 w3); assumption).
  split; [exact Hs13|]. split.
  - assert (Hlen : length (take i xs ++ replicate n xv ++ drop i xs) = (len + n)%nat).
    { rewrite !length_app, length_take, length_replicate, length_drop. fold len.
      unfold ea in *. lia. }
    split; [apply (range_ok_same w w3 _ _ Hs13 Hr)|].
    split; [exact Hc|].
    split; [unfold v', set_end_; cbn [begin_ end_]; rewrite Hlen, He; lia|].
    split; [exact Hcap|]. split; [rewrite Hlen; lia|].
    unfold v', set_end_. cbn [begin_].
    apply words_at_app. split.
    + apply (words_at_frame (mem w)); [apply words_at_take; exact Hw|].
      intros a Ha. rewrite length_take in Ha. rewrite Hfr3 by (unfold pos; lia).
      rewrite Hfr2 by (unfold pos; lia). apply Hfr1. unfold pos, ea in *. lia.
    + rewrite length_take. fold len. replace (i `min` len)%nat with i by lia.
      fold pos.
      replace n with (ea + (n - ea))%nat at 1 by lia.
      rewrite replicate_add, <- app_assoc.
      apply words_at_app. split; [exact Hres3|].
      rewrite length_replicate. replace (pos + 8 * Z.of_nat ea) with (end_ v)
        by (unfold pos, ea; lia).
      apply words_at_app. split.
      * apply (words_at_frame (mem w1)); [exact Hres1|].
        intros a Ha. rewrite length_replicate in Ha.
        rewrite Hfr3 by lia. apply Hfr2. lia.
      * rewrite length_replicate.
        apply (words_at_frame (mem w2)); [exact Hres2|].
        intros a Ha. apply Hfr3. lia.
  - intros a Ha. rewrite Hfr3 by (unfold pos, ea in *; lia).
    rewrite Hfr2 by (rewrite Hl; unfold pos, ea in *; lia).
    apply Hfr1. unfold pos, ea in *. lia.
Qed.

Lemma vec_reprb_spec w v xs cap : vec_reprb w v xs cap = true -> vec_repr w v xs cap.
Proof.
  unfold vec_reprb. intros H.
  apply andb_true_iff in H. destruct H as [H H6].
  apply andb_true_iff in H. destruct H as [H H5].
  apply andb_true_iff in H. destruct H as [H H4].
  apply andb_true_iff in H. destruct H as [H H3].
  apply andb_true_iff in H. destruct H as [H1 H2].
  split; [apply range_okb_spec; exact H1|].
  split; [apply Z.ltb_lt; exact H2|].
  split; [apply Z.eqb_eq; exact H3|].
  split; [apply Z.eqb_eq; exact H4|].
  split; [apply Nat.leb_le; exact H5|].
  apply words_atb_spec. exact H6.
Qed.

Lemma subscript_eq w v xs cap i :
  vec_repr w v xs cap -> (i <= cap)%nat ->
  vector.subscript v (Z.of_nat i) = begin_ v + 8 * Z.of_nat i.
Proof.
  intros ((H0 & H1 & _) & _) Hi. unfold vector.subscript. apply ptr_add_small. lia.
Qed.

(** X14. erase(pos) removes the element at pos: the elements after it move
    down by one, the capacity and the storage stay, and nothing before pos
    or from the old last element on is written. *)
Theorem vector_erase (w : World) (v : vector) (xs : list Z) (cap i : nat) :
  vec_repr w v xs cap -> (i < length xs)%nat ->
  let pos := vector.subscript v (Z.of_nat i) in
  exists v' w',
    vector.erase pos v w = Ok (pos, v') w'
    /\ vec_repr w' v' (delete i xs) cap
    /\ vector.size v' = vector.size v - 1
    /\ same_but_mem w w'
    /\ forall a, a < pos \/ end_ v - 8 <= a -> mem w' !! a = mem w !! a.
Proof.
  intros Hv Hi pos. pose proof Hv as (Hr & Hc & He & Hcp & Hle & Hw).
  pose proof Hr as (Hb0 & Hb1 & _).
  unfold pos. rewrite (subscript_eq w v xs cap i Hv ltac:(lia)).
  destruct (erase_run w v xs cap i Hv Hi) as (w' & Hrun & Hs & Hv' & Hfr).
  exists (set_end_ (end_ v - 8) v), w'.
  split; [exact Hrun|]. split; [exact Hv'|]. split; [|split; assumption].
  unfold vector.size, set_end_. cbn [begin_ end_].
  rewrite (ptr_diff_wrap (end_ v - 8) (begin_ v) (Z.of_nat (length xs) - 1)) by lia.
  rewrite (ptr_diff_wrap (end_ v) (begin_ v) (Z.of_nat (length xs))) by lia.
  reflexivity.
Qed.

Lemma vector_erase_witness :
  exists v' w',
    vector.erase (vector.subscript range_vec (Z.of_nat 1)) range_vec range_world
    = Ok (vector.subscript range_vec (Z.of_nat 1), v') w'
    /\ vec_repr w' v' [1; 3; 4] 8.
Proof.
  destruct (vector_erase range_world range_vec [1; 2; 3; 4] 8 1)
    as (v' & w' & Hrun & Hv' & _).
  - apply vec_reprb_spec. vm_compute. reflexivity.
  - simpl. lia.
  - exists v', w'. split; [exact Hrun | exact Hv'].
Defined.

(** X15. erase(first, last) removes the elements from first up to last
    and returns last; clear() removes all elements.  Both keep the block
    and its capacity: no storage is given back. *)
Theorem vector_erase_range (w : World) (v : vector) (xs : list Z) (cap i j : nat) :
  vec_repr w v xs cap -> (i <= j)%nat -> (j <= length xs)%nat ->
  let first := vector.subscript v (Z.of_nat i) in
  let last := vector.subscript v (Z.of_nat j) in
  (exists v' w',
      vector.erase_range first last v w = Ok (last, v') w'
      /\ vec_repr w' v' (take i xs ++ drop j xs) cap
      /\ same_but_mem w w')
  /\ (exists v' w',
      vector.clear v w = Ok v' w'
      /\ vec_repr w' v' [] cap
      /\ vector.capacity v' = vector.capacity v
      /\ same_but_mem w w').
Proof.
  intros Hv Hij Hj first last. pose proof Hv as (Hr & Hc & He & Hcp & Hle & Hw).
  pose proof Hr as (Hb0 & Hb1 & _). split.
  - unfold first, last.
    rewrite (subscript_eq w v xs cap i Hv ltac:(lia)).
    rewrite (subscript_eq w v xs cap j Hv ltac:(lia)).
    destruct (erase_range_run w v xs cap i j Hv Hij Hj) as (w' & Hrun & Hs & Hv' & _).
    eexists. exists w'. split; [exact Hrun|]. split; assumption.
  - destruct (clear_run w v xs cap Hv) as (w' & Hrun & Hs & Hv' & _).
    eexists. exists w'. split; [exact Hrun|]. split; [exact Hv'|].
    split; [reflexivity | exact Hs].
Qed.

Lemma vector_erase_range_witness :
  exists v' w',
    vector.erase_range (vector.subscript range_vec (Z.of_nat 1))
                       (vector.subscript range_vec (Z.of_nat 3)) range_vec range_world
    = Ok (vector.subscript range_vec (Z.of_nat 3), v') w'
    /\ vec_repr w' v' [1; 4] 8.
Proof.
  destruct (vector_erase_range range_world range_vec [1; 2; 3; 4] 8 1 3) as [H _].
  - apply vec_reprb_spec. vm_compute. reflexivity.
  - lia.
  - simpl. lia.
  - destruct H as (v' & w' & Hrun & Hv' & _).
    exists v', w'. split; [exact Hrun | exact Hv'].
Defined.

(** X16. insert(pos, n, x) within the capacity inserts n copies of what x
    denotes before the element at pos, keeping block and capacity.  The
    value may be a temporary or any word of memory outside the stretch from
    n elements after pos to n elements after the old end. *)
Theorem vector_insert_within_capacity
        (w : World) (v : vector) (xs : list Z) (cap i n : nat) (x : const_ref) (xv : Z) :
  vec_repr w v xs cap ->
  (i <= length xs)%nat -> (length xs + n <= cap)%nat ->
  let pos := vector.subscript v (Z.of_nat i) in
  ref_holds w x xv ->
  (forall a, x = Ref a -> a < pos + 8 * Z.of_nat n \/ end_ v + 8 * Z.of_nat n <= a) ->
  exists v' w',
    vector.insert pos (Z.of_nat n) x v w = Ok (pos, v') w'
    /\ vec_repr w' v' (take i xs ++ replicate n xv ++ drop i xs) cap
    /\ same_but_mem w w'
    /\ forall a, a < pos \/ end_ v + 8 * Z.of_nat n <= a -> mem w' !! a = mem w !! a.
Proof.
  intros Hv Hi Hcap pos Hx Hxa.
  unfold pos in *. rewrite (subscript_eq w v xs cap i Hv ltac:(lia)) in *.
  destruct (Nat.lt_ge_cases n (length xs - i)) as [Hlt | Hge].
  - destruct (insert_shift w v xs cap i n x xv Hv Hlt Hcap) as (w' & Hrun & Hs & Hv' & Hfr).
    + intros w2 Hs2 Hfr2 _. apply (ref_holds_frame w w2 x xv Hs2 Hx).
      intros a Ha. apply Hfr2. apply Hxa. exact Ha.
    + eexists. exists w'. split; [exact Hrun|]. split; [exact Hv'|]. split; assumption.
  - destruct (insert_append w v xs cap i n x xv Hv Hi Hge Hcap Hx Hxa)
      as (w' & Hrun & Hs & Hv' & Hfr).
    eexists. exists w'. split; [exact Hrun|]. split; [exact Hv'|]. split; assumption.
Qed.

Lemma vector_insert_within_capacity_witness :
  exists v' w',
    vector.insert (vector.subscript range_vec (Z.of_nat 1)) (Z.of_nat 2) (Temp 9)
                  range_vec range_world
    = Ok (vector.subscript range_vec (Z.of_nat 1), v') w'
    /\ vec_repr w' v' [1; 9; 9; 2; 3; 4] 8.
Proof.
  destruct (vector_insert_within_capacity range_world range_vec [1; 2; 3; 4] 8 1 2
              (Temp 9) 9)
    as (v' & w' & Hrun & Hv' & _).
  - apply vec_reprb_spec. vm_compute. reflexivity.
  - simpl. lia.
  - simpl. lia.
  - reflexivity.
  - intros a Ha. discriminate.
  - exists v', w'. split; [exact Hrun | exact Hv'].
Defined.

(** X17. insert with a reference into the vector itself.  When x refers
    to the element at index j, at least n places after pos, the elements
    are moved before x is read: what is inserted is n copies of the old
    element j - n, not of element j. *)
Theorem vector_insert_aliased
        (w : World) (v : vector) (xs : list Z) (cap i n j : nat) (y : Z) :
  vec_repr w v xs cap ->
  (i + n <= j)%nat -> (j < length xs)%nat -> (length xs + n <= cap)%nat ->
  xs !! (j - n)%nat = Some y ->
  let pos := vector.subscript v (Z.of_nat i) in
  exists v' w',
    vector.insert pos (Z.of_nat n) (Ref (vector.subscript v (Z.of_nat j))) v w
    = Ok (pos, v') w'
    /\ vec_repr w' v' (take i xs ++ replicate n y ++ drop i xs) cap.
Proof.
  intros Hv Hij Hj Hcap Hy pos.
  unfold pos. rewrite (subscript_eq w v xs cap i Hv ltac:(lia)).
  rewrite (subscript_eq w v xs cap j Hv ltac:(lia)).
  pose proof Hv as (Hr & _).
  destruct (insert_shift w v xs cap i n (Ref (begin_ v + 8 * Z.of_nat j)) y Hv
              ltac:(lia) Hcap) as (w' & Hrun & _ & Hv' & _).
  - intros w2 Hs2 _ Hsh. split.
    + rewrite (same_but_mem_accessible w w2 _ Hs2).
      destruct Hr as (_ & _ & Hacc). apply Hacc. lia.
    + replace (begin_ v + 8 * Z.of_nat j)
        with (begin_ v + 8 * Z.of_nat i + 8 * Z.of_nat n + 8 * Z.of_nat (j - i - n))
        by lia.
      apply Hsh. rewrite lookup_drop.
      replace (i + (j - i - n))%nat with (j - n)%nat by lia. exact Hy.
  - eexists. exists w'. split; [exact Hrun | exact Hv'].
Qed.

Lemma vector_insert_aliased_witness :
  exists v' w',
    vector.insert (vector.subscript range_vec (Z.of_nat 0)) (Z.of_nat 1)
                  (Ref (vector.subscript range_vec (Z.of_nat 2))) range_vec range_world
    = Ok (vector.subscript range_vec (Z.of_nat 0), v') w'
    /\ vec_repr w' v' [2; 1; 2; 3; 4] 8.
Proof.
  apply (vector_insert_aliased range_world range_vec [1; 2; 3; 4] 8 0 1 2 2).
  - apply vec_reprb_spec. vm_compute. reflexivity.
  - lia.
  - simpl. lia.
  - simpl. lia.
  - reflexivity.
Defined.

(** * The client's side of the invariant *)

Lemma grows_refl rs : grows rs rs.
Proof. left. reflexivity. Qed.

Lemma grows_incl rs rs' r : grows rs rs' -> r ∈ rs -> r ∈ rs'.
Proof.
  intros [-> | (q & n & _ & ->)] Hr; [exact Hr | apply elem_of_cons; right; exact Hr].
Qed.

Lemma grows_disjoint rs rs' :
  grows rs rs' -> pairwise_disjoint rs -> pairwise_disjoint rs'.
Proof.
  intros [-> | (q & n & Hok & ->)] Hd; [exact Hd|].
  split; [|exact Hd].
  destruct (placement_ok_fresh q n rs Hok) as (_ & _ & _ & Hf).
  eapply Forall_impl; [exact Hf|]. intros r Hr. unfold disj. simpl. exact Hr.
Qed.

Lemma grows_aligned rs rs' :
  grows rs rs' ->
  Forall (fun r => fst r mod malloc_align = 0) rs ->
  Forall (fun r => fst r mod malloc_align = 0) rs'.
Proof.
  intros [-> | (q & n & Hok & ->)] Hd; [exact Hd|].
  constructor; [|exact Hd].
  destruct (placement_ok_fresh q n rs Hok) as (_ & Ha & _). exact Ha.
Qed.

Lemma ChunkAlloc_regions size w r w' :
  8 <= size <= kMaxBytes -> 0 <= mallocoffset_ w < 2 ^ 64 ->
  MemoryPoolAllocator.ChunkAlloc MemoryPoolAllocator.chunk_fuel size 20 w = Ok r w' ->
  grows (regions w) (regions w').
Proof.
  intros Hs Hoff H. unfold MemoryPoolAllocator.chunk_fuel in H.
  destruct (bytesget_eq size 20 (mallocoffset_ w) ltac:(lia) ltac:(lia) Hoff)
    as (_ & _ & Hbg).
  set (bg := bytesget size 20 (mallocoffset_ w)) in *.
  unfold kMaxBytes in Hs.
  destruct (Z_le_gt_dec (wrap (size * 20)) (wrap (freespaceend_ w - freespacestart_ w)))
    as [Hen | Hen].
  { rewrite ChunkAlloc_enough in H by exact Hen. inversion H. left. reflexivity. }
  destruct (Z_le_gt_dec size (wrap (freespaceend_ w - freespacestart_ w)))
    as [Hone | Hone].
  { rewrite ChunkAlloc_partial in H by lia. inversion H. left. reflexivity. }
  rewrite ChunkAlloc_grow in H by lia. fold bg in H.
  unfold bind at 1 in H.
  destruct (salvage w w) as [[] ws| | |] eqn:Hsalv; try discriminate.
  assert (Hrs : regions ws = regions w).
  { unfold salvage in Hsalv.
    destruct (kAlign <=? wrap (freespaceend_ w - freespacestart_ w)) eqn:E.
    - destruct (Push_footprint _ _ _ _ Hsalv) as [_ Hm]. exact Hm.
    - inversion Hsalv. reflexivity. }
  rewrite <- Hrs. clear Hrs Hsalv.
  unfold bind at 1 in H.
  destruct (malloc_cases bg ws) as [(p & Hp & Hok & Hm) | Hm]; rewrite Hm in H.
  - unfold bind at 1 in H. unfold modify at 1 in H.
    destruct (p =? 0) eqn:E; [apply Z.eqb_eq in E; contradiction|].
    unfold bind, modify in H.
    rewrite (ChunkAlloc_fresh_arena 1 size p bg) in H;
      [| unfold kMaxBytes; lia | lia | reflexivity | reflexivity].
    inversion H. right. exists p, bg. split; [exact Hok | reflexivity].
  - unfold bind at 1 in H. unfold modify at 1 in H.
    change (0 =? 0) with true in H. cbv iota in H.
    set (wm := set_start 0 _) in H.
    unfold bind at 1 in H.
    pose proof (scan_freelists_cases MemoryPoolAllocator.scan_fuel size wm
                  ltac:(lia) ltac:(unfold MemoryPoolAllocator.scan_fuel; lia)) as Hscan.
    destruct (MemoryPoolAllocator.scan_freelists _ size wm) as [[|] w2| | |] eqn:ES;
      try discriminate.
    + destruct (scan_freelists_unchanged _ _ _ _ _ ES) as [_ Hr2].
      destruct Hscan as (i' & Hi' & Hen2).
      rewrite (ChunkAlloc_mini_arena 1 size (freespacestart_ w2) i' w2) in H;
        [| lia | lia | reflexivity | exact Hen2].
      inversion H. left. simpl. rewrite Hr2. reflexivity.
    + destruct (scan_freelists_unchanged _ _ _ _ _ ES) as [_ Hr2].
      unfold bind at 1 in H. unfold modify at 1 in H. unfold bind at 1 in H.
      pose proof (MallocAllocator_Allocate_frame bg (set_end 0 w2)) as Hfr.
      destruct (MallocAllocator.Allocate bg (set_end 0 w2)) as [p wa|wa| |];
        try discriminate.
      destruct Hfr as (_ & _ & Hreg).
      unfold bind, modify in H.
      rewrite (ChunkAlloc_fresh_arena 1 size p bg) in H;
        [| unfold kMaxBytes; lia | lia | reflexivity | reflexivity].
      inversion H. simpl.
      assert (Hr3 : regions (set_end 0 w2) = regions ws) by (simpl; rewrite Hr2; reflexivity).
      destruct Hreg as [(Hp & Hra & Hok) | (Hp & Hra)]; rewrite Hra, Hr3 in *.
      * right. exists p, bg. split; [exact Hok | reflexivity].
      * left. reflexivity.
Qed.

Lemma ReFill_loop_regions size k :
  forall next w w',
    MemoryPoolAllocator.ReFill_loop k size next w = Ok tt w' ->
    regions w' = regions w.
Proof.
  induction k as [|k IH]; intros next w w' H.
  - inversion H. reflexivity.
  - cbn [MemoryPoolAllocator.ReFill_loop] in H. unfold bind at 1 in H.
    destruct (MemoryPoolList.Push _ next w) as [[] w1| | |] eqn:EP; try discriminate.
    destruct (Push_footprint _ _ _ _ EP) as [_ Hr1].
    rewrite (IH _ _ _ H). exact Hr1.
Qed.

Lemma Allocate_regions w out s p w' :
  Inv w out -> 0 <= s < 2 ^ 64 ->
  MemoryPoolAllocator.Allocate s w = Ok p w' ->
  grows (regions w) (regions w').
Proof.
  intros (fl & pool & [HI Hoff]) Hs H.
  destruct (Z.eq_dec s 0) as [-> | Hnz]; [rewrite Allocate_zero in H; discriminate|].
  destruct (Z_le_gt_dec s kMaxBytes) as [Hsmall | Hlarge].
  - destruct (class_of_request s ltac:(lia)) as (i & Hi & Hidx & Hru).
    rewrite Allocate_small in H by exact Hsmall. rewrite Hidx, Hru in H.
    unfold bind in H.
    pose proof (Empty_cases (Z.of_nat i) w) as HE.
    destruct (MemoryPoolList.Empty _ w) as [e w1| | |]; try discriminate. subst w1.
    destruct e.
    + unfold MemoryPoolAllocator.ReFill in H. unfold bind at 1 in H.
      destruct (MemoryPoolAllocator.ChunkAlloc _ _ _ w) as [[chunk k] w1| | |] eqn:EC;
        try discriminate.
      cbn [fst snd] in H.
      pose proof (ChunkAlloc_regions _ w _ w1 (class_size_range i Hi) Hoff EC) as Hg.
      destruct (k =? 1).
      * inversion H; subst. exact Hg.
      * unfold bind in H.
        destruct (MemoryPoolAllocator.ReFill_loop _ _ _ w1) as [[] w2| | |] eqn:EL;
          try discriminate.
        inversion H; subst. rewrite (ReFill_loop_regions _ _ _ _ _ EL). exact Hg.
    + destruct (Pop_unchanged _ _ _ _ H) as [_ Hr]. rewrite Hr. left. reflexivity.
  - unfold MemoryPoolAllocator.Allocate in H.
    destruct (kMaxBytes <? s) eqn:E; [|apply Z.ltb_ge in E; lia].
    pose proof (MallocAllocator_Allocate_frame s w) as Hfr. rewrite H in Hfr.
    destruct Hfr as (_ & _ & [(Hp & Hra & Hok) | (Hp & Hra)]); rewrite Hra.
    + right. exists p, s. split; [exact Hok | reflexivity].
    + left. reflexivity.
Qed.

Lemma large_live_cons_small rs out p s :
  s <= kMaxBytes -> large_live rs out -> large_live rs ((p, s) :: out).
Proof.
  intros Hs Hl q t Hin Ht Hq. apply elem_of_cons in Hin.
  destruct Hin as [Heq | Hin]; [injection Heq as -> ->; lia | apply Hl; assumption].
Qed.

Lemma large_live_incl rs rs' out :
  (forall r, r ∈ rs -> r ∈ rs') -> large_live rs out -> large_live rs' out.
Proof. intros Hi Hl q t Hin Ht Hq. apply Hi, Hl; assumption. Qed.

Lemma Allocate_ClientInv w out s p w' :
  ClientInv w out -> 0 <= s < 2 ^ 64 ->
  MemoryPoolAllocator.Allocate s w = Ok p w' ->
  ClientInv w' ((p, s) :: out).
Proof.
  intros (HI & Hd & Ha & Hl) Hs H.
  pose proof (Allocate_regions w out s p w' HI Hs H) as Hg.
  split; [eapply Allocate_Inv; eassumption|].
  split; [eapply grows_disjoint; eassumption|].
  split; [eapply grows_aligned; eassumption|].
  intros q t Hin Ht Hq. apply elem_of_cons in Hin. destruct Hin as [Heq | Hin].
  - injection Heq as -> ->.
    unfold MemoryPoolAllocator.Allocate in H.
    destruct (kMaxBytes <? s) eqn:E; [|apply Z.ltb_ge in E; lia].
    pose proof (MallocAllocator_Allocate_frame s w) as Hfr. rewrite H in Hfr.
    destruct Hfr as (_ & _ & [(Hp & Hra & Hok) | (Hp & Hra)]); [|contradiction].
    rewrite Hra. apply list_elem_of_here.
  - apply (grows_incl _ _ _ Hg). apply Hl; assumption.
Qed.

Lemma pairwise_disjoint_filter (P : Z * Z -> Prop) `{forall x, Decision (P x)} l :
  pairwise_disjoint l -> pairwise_disjoint (filter P l).
Proof.
  induction l as [|x l IH]; intros Hd; [exact I|].
  destruct Hd as [Hx Hd]. rewrite filter_cons. destruct (decide (P x)).
  - split; [|apply IH; exact Hd].
    apply Forall_forall. intros y Hy. apply list_elem_of_filter in Hy.
    rewrite Forall_forall in Hx. apply Hx. tauto.
  - apply IH. exact Hd.
Qed.

Lemma Deallocate_ClientInv w out obj sz :
  ClientInv w ((obj, sz) :: out) ->
  exists w', MemoryPoolAllocator.Deallocate obj sz w = Ok tt w' /\ ClientInv w' out.
Proof.
  intros (HI & Hd & Ha & Hl).
  destruct (Deallocate_Inv w out obj sz HI) as (w' & HD & HI').
  exists w'. split; [exact HD|]. split; [exact HI'|].
  destruct (Z_le_gt_dec sz kMaxBytes) as [Hsmall | Hlarge].
  - rewrite Deallocate_small in HD by exact Hsmall.
    destruct (Push_footprint _ _ _ _ HD) as [_ Hr]. rewrite Hr.
    split; [exact Hd|]. split; [exact Ha|].
    intros q t Hin. apply Hl. apply elem_of_cons. right. exact Hin.
  - unfold MemoryPoolAllocator.Deallocate in HD.
    destruct (kMaxBytes <? sz) eqn:E; [|apply Z.ltb_ge in E; lia].
    unfold MallocAllocator.Deallocate, free in HD.
    destruct (obj =? 0) eqn:E0.
    + inversion HD. simpl. split; [exact Hd|]. split; [exact Ha|].
      intros q t Hin. apply Hl. apply elem_of_cons. right. exact Hin.
    + apply Z.eqb_neq in E0.
      destruct (existsb (is_base obj) (regions w)); [|discriminate].
      inversion HD. simpl.
      split; [apply pairwise_disjoint_filter; exact Hd|].
      split.
      { apply Forall_forall. intros r Hr. apply list_elem_of_filter in Hr.
        rewrite Forall_forall in Ha. apply Ha. tauto. }
      intros q t Hin Ht Hq. apply list_elem_of_filter. split.
      * unfold is_base. simpl.
        destruct (q =? obj) eqn:Eq; [|exact I].
        apply Z.eqb_eq in Eq. subst q. exfalso.
        destruct HI as (fl & pool & [HP _]).
        pose proof (pi_large _ _ _ _ _ _ _ _ _ HP) as [Hnd _].
        unfold larges in Hnd. rewrite filter_cons_True in Hnd by (simpl; lia).
        simpl in Hnd. apply NoDup_cons in Hnd. destruct Hnd as [Hnin _].
        apply Hnin. unfold larges.
        apply (list_elem_of_fmap_2 fst _ (obj, t)).
        apply list_elem_of_filter. split; [simpl; lia | exact Hin].
      * apply Hl; [apply elem_of_cons; right; exact Hin | exact Ht | exact Hq].
Qed.

Lemma initial_ClientInv o : ClientInv (initial_world o) [].
Proof.
  split; [apply initial_Inv|]. split; [exact I|]. split; [constructor|].
  intros p s Hin. apply elem_of_nil in Hin. contradiction.
Qed.

Lemma ClientInv_perm w out out' :
  out ≡ₚ out' -> ClientInv w out -> ClientInv w out'.
Proof.
  intros Hp (HI & Hd & Ha & Hl). split.
  - destruct HI as (fl & pool & [HP Hoff]). exists fl, pool.
    split; [|exact Hoff]. eapply PInv_out_perm; eassumption.
  - split; [exact Hd|]. split; [exact Ha|].
    intros q t Hin. apply Hl. rewrite Hp. exact Hin.
Qed.

Lemma reach_ClientInv w out : reach w out -> ClientInv w out.
Proof.
  induction 1 as [o | w out size p w' _ IH Hs HA | w out obj size out' w' _ IH Hp HD
                 | w out func old w' _ IH HS].
  - apply initial_ClientInv.
  - eapply Allocate_ClientInv; eassumption.
  - apply (ClientInv_perm w out ((obj, size) :: out') Hp) in IH.
    destruct (Deallocate_ClientInv w out' obj size IH) as (w2 & HD2 & HC).
    rewrite HD in HD2. injection HD2 as <-. exact HC.
  - unfold MallocAllocator.SetMallocHandler, bind, get, modify, ret in HS.
    inversion HS; subst. exact IH.
Qed.

Lemma pairwise_disjoint_app_disj l1 l2 x y :
  pairwise_disjoint (l1 ++ l2) -> x ∈ l1 -> y ∈ l2 -> disj x y.
Proof.
  induction l1 as [|a l1 IH]; intros Hd Hx Hy.
  - apply elem_of_nil in Hx. contradiction.
  - destruct Hd as [Ha Hd]. apply elem_of_cons in Hx. destruct Hx as [-> | Hx].
    + rewrite Forall_forall in Ha. apply Ha. apply elem_of_app. right. exact Hy.
    + apply IH; assumption.
Qed.

Lemma pairwise_disjoint_elem l x y :
  pairwise_disjoint l -> x ∈ l -> y ∈ l -> x <> y -> disj x y.
Proof.
  induction l as [|a l IH]; intros Hd Hx Hy Hne.
  - apply elem_of_nil in Hx. contradiction.
  - destruct Hd as [Ha Hd]. rewrite Forall_forall in Ha.
    apply elem_of_cons in Hx. apply elem_of_cons in Hy.
    destruct Hx as [-> | Hx], Hy as [-> | Hy].
    + contradiction.
    + apply Ha. exact Hy.
    + apply disj_sym. apply Ha. exact Hx.
    + apply IH; assumption.
Qed.

Lemma chain_agree m m' l : forall h,
  (forall p, p ∈ l -> m' !! p = m !! p) -> chain m h l -> chain m' h l.
Proof.
  induction l as [|p l IH]; intros h Hag Hc; [exact Hc|].
  destruct Hc as (-> & Hnz & next & Hm & Hc).
  split; [reflexivity|]. split; [exact Hnz|]. exists next. split.
  - rewrite Hag by apply list_elem_of_here. exact Hm.
  - apply IH; [|exact Hc]. intros x Hx. apply Hag. apply elem_of_cons. right. exact Hx.
Qed.

Lemma block_len_small t : t <= kMaxBytes -> block_len t = MemoryPoolAllocator.RoundUp t.
Proof.
  intros H. unfold block_len.
  destruct (kMaxBytes <? t) eqn:E; [apply Z.ltb_lt in E; lia | reflexivity].
Qed.

Lemma block_len_large t : kMaxBytes < t -> block_len t = t.
Proof.
  intros H. unfold block_len.
  destruct (kMaxBytes <? t) eqn:E; [reflexivity | apply Z.ltb_ge in E; lia].
Qed.

(** A free block does not reach into a block the client holds. *)
Lemma free_block_outside w out fl pool q t i p :
  PoolInv w out [] fl pool ->
  pairwise_disjoint (regions w) -> large_live (regions w) out ->
  (q, t) ∈ out -> q <> 0 ->
  (i < 16)%nat -> p ∈ fl i ->
  p < q \/ q + block_len t <= p.
Proof.
  intros [HP _] Hd Hl Hin Hq Hi Hp.
  pose proof (elem_of_free_exts fl i p Hi Hp) as Hfe.
  pose proof (class_size_range i Hi) as Hcs.
  destruct (Z_le_gt_dec t kMaxBytes) as [Hsmall | Hlarge]; [|apply Z.gt_lt in Hlarge].
  - rewrite block_len_small by exact Hsmall.
    pose proof (held_ext_elem out q t Hin Hsmall) as Hoe.
    pose proof (pi_disj _ _ _ _ _ _ _ _ _ HP) as Hpd.
    apply pairwise_disjoint_tail in Hpd. simpl in Hpd.
    pose proof (pairwise_disjoint_app_disj _ _ _ _ Hpd Hfe Hoe) as Hdj.
    unfold disj in Hdj. simpl in Hdj. lia.
  - rewrite block_len_large by exact Hlarge.
    pose proof (Hl q t Hin Hlarge Hq) as Hreg.
    assert (Hrl : region_len t = t) by (unfold region_len, kMaxBytes in *; lia).
    rewrite Hrl in Hreg.
    pose proof (pi_exts _ _ _ _ _ _ _ _ _ HP) as Hex. simpl in Hex.
    rewrite Forall_forall in Hex.
    destruct (Hex (p, class_size i)) as (_ & _ & (r & Hr & Hlo & Hhi)).
    { apply elem_of_app. left. exact Hfe. }
    simpl in Hlo, Hhi.
    pose proof (pi_pool _ _ _ _ _ _ _ _ _ HP r Hr) as Hrs.
    pose proof (pi_large _ _ _ _ _ _ _ _ _ HP) as [_ Hlg].
    destruct (Hlg q) as [_ Hnp].
    { unfold larges. apply (list_elem_of_fmap_2 fst _ (q, t)).
      apply list_elem_of_filter. split; [simpl; lia | exact Hin]. }
    assert (Hne : r <> (q, t)).
    { intros ->. apply Hnp. apply (list_elem_of_fmap_2 fst _ (q, t)). exact Hr. }
    pose proof (pairwise_disjoint_elem _ _ _ Hd Hrs Hreg Hne) as Hdj.
    unfold disj in Hdj. simpl in Hdj. lia.
Qed.

(** Whatever the client writes into a block it holds, the invariant stays. *)
Lemma ClientInv_frame w w' out q t :
  ClientInv w out -> same_but_mem w w' ->
  (q, t) ∈ out -> q <> 0 ->
  (forall a, a < q \/ q + block_len t <= a -> mem w' !! a = mem w !! a) ->
  ClientInv w' out.
Proof.
  intros (HI & Hd & Ha & Hl) Hs Hin Hq Hfr.
  unfold same_but_mem in Hs. rewrite Hs.
  split; [|split; [exact Hd | split; [exact Ha | exact Hl]]].
  destruct HI as (fl & pool & HPI). exists fl, pool.
  pose proof HPI as [HP Hoff]. split; [|exact Hoff].
  destruct HP as [H1 H2 H3 H4 H5 H6 H7 H8 H9].
  constructor; try assumption.
  intros i h Hh. simpl.
  assert (Hi : (i < 16)%nat) by (apply lookup_lt_Some in Hh; simpl in Hh; lia).
  apply (chain_agree (mem w)); [|apply H2; exact Hh].
  intros p Hp. apply Hfr.
  eapply free_block_outside; eassumption.
Qed.

Lemma aligned_offset q i : q mod 8 = 0 -> (q + 8 * i) mod 8 = 0.
Proof.
  intros H. replace (q + 8 * i) with (q + i * 8) by lia.
  rewrite Z_mod_plus_full. exact H.
Qed.

(** A block the client holds is live storage, aligned for its elements. *)
Lemma held_block_range w out q t :
  ClientInv w out -> (q, t) ∈ out -> q <> 0 ->
  forall n, 8 * Z.of_nat n <= block_len t -> range_ok w q n.
Proof.
  intros (HI & Hd & Ha & Hl) Hin Hq n Hn.
  destruct HI as (fl & pool & [HP _]).
  pose proof (pi_heap _ _ _ _ _ _ _ _ _ HP) as Hheap.
  destruct (Z_le_gt_dec t kMaxBytes) as [Hsmall | Hlarge]; [|apply Z.gt_lt in Hlarge].
  - rewrite block_len_small in Hn by exact Hsmall.
    pose proof (held_ext_elem out q t Hin Hsmall) as Hoe.
    pose proof (pi_exts _ _ _ _ _ _ _ _ _ HP) as Hex. simpl in Hex.
    rewrite Forall_forall in Hex.
    destruct (Hex (q, MemoryPoolAllocator.RoundUp t)) as (Hal & Hpos & Hw).
    { apply elem_of_app. right. exact Hoe. }
    simpl in Hal, Hpos.
    destruct (within_bounds _ _ _ Hheap (pi_pool _ _ _ _ _ _ _ _ _ HP) Hw Hpos)
      as [Hlo Hhi].
    simpl in Hlo, Hhi. unfold page_size in Hlo.
    split; [lia|]. split; [lia|].
    intros i Hi.
    apply (ext_accessible w pool (q + 8 * Z.of_nat i) 8 Hheap
             (pi_pool _ _ _ _ _ _ _ _ _ HP)); [|lia].
    split; [|split; [simpl; lia|]].
    + simpl. apply aligned_offset. exact Hal.
    + destruct Hw as (r & Hr & Hl1 & Hl2). exists r. simpl in *.
      split; [exact Hr|]. lia.
  - rewrite block_len_large in Hn by exact Hlarge.
    pose proof (Hl q t Hin Hlarge Hq) as Hreg.
    assert (Hrl : region_len t = t) by (unfold region_len, kMaxBytes in *; lia).
    rewrite Hrl in Hreg.
    destruct Hheap as [Hb _]. rewrite Forall_forall in Hb.
    destruct (Hb _ Hreg) as (Hlo & _ & Hhi). simpl in Hlo, Hhi.
    unfold page_size in Hlo.
    rewrite Forall_forall in Ha. pose proof (Ha _ Hreg) as Hal. simpl in Hal.
    unfold malloc_align in Hal.
    split; [lia|]. split; [lia|].
    intros i Hi. unfold accessible.
    apply andb_true_iff. split; [apply andb_true_iff; split|].
    + apply negb_true_iff. apply Z.eqb_neq. lia.
    + apply Z.eqb_eq.
      assert (Hq8 : q mod 8 = 0).
      { apply Z.mod_divide; [lia|]. apply Z.mod_divide in Hal; [|lia].
        destruct Hal as [k Hk]. exists (2 * k). lia. }
      apply aligned_offset. exact Hq8.
    + apply existsb_exists. exists (q, t). split; [apply list_elem_of_In; exact Hreg|].
      unfold inside. simpl. apply andb_true_iff. split; [apply Z.leb_le | apply Z.leb_le]; lia.
Qed.

(** * Blocks from the system heap while the pool refills *)

Lemma region_apart_from_pool rs pool q t x :
  pairwise_disjoint rs -> (forall r, r ∈ pool -> r ∈ rs) ->
  (q, t) ∈ rs -> q ∉ map fst pool ->
  within pool x -> 0 < snd x ->
  fst x + snd x <= q \/ q + t <= fst x.
Proof.
  intros Hd Hpool Hreg Hnp (r & Hr & H1 & H2) Hpos.
  assert (Hne : r <> (q, t)).
  { intros ->. apply Hnp. apply (list_elem_of_fmap_2 fst _ (q, t)). exact Hr. }
  pose proof (pairwise_disjoint_elem _ _ _ Hd (Hpool r Hr) Hreg Hne) as Hdj.
  unfold disj in Hdj. simpl in Hdj. lia.
Qed.

Lemma ReFill_mem_frame_large w out fl pool i p w' q t :
  (i < 16)%nat ->
  PoolInv w out [] fl pool ->
  pairwise_disjoint (regions w) -> large_live (regions w) out ->
  MemoryPoolAllocator.ReFill (class_size i) w = Ok p w' ->
  (q, t) ∈ out -> kMaxBytes < t -> q <> 0 ->
  forall a, q <= a < q + t -> mem w' !! a = mem w !! a.
Proof.
  intros Hi HI Hd Hl H Hin Ht Hq a Ha.
  pose proof (class_size_range i Hi) as Hcs.
  assert (Hreg : (q, t) ∈ regions w).
  { pose proof (Hl q t Hin Ht Hq) as Hr. unfold region_len in Hr.
    replace (Z.max t 1) with t in Hr by (unfold kMaxBytes in *; lia). exact Hr. }
  assert (Hlg : q ∈ larges out).
  { unfold larges. apply (list_elem_of_fmap_2 fst _ (q, t)).
    apply list_elem_of_filter. split; [simpl; lia | exact Hin]. }
  unfold MemoryPoolAllocator.ReFill in H. unfold bind at 1 in H.
  destruct (MemoryPoolAllocator.ChunkAlloc _ _ _ w) as [[chunk k] w1| | |] eqn:EC;
    try discriminate.
  cbn [fst snd] in H.
  pose proof HI as [HP Hoff].
  pose proof (ChunkAlloc_regions _ w _ w1 Hcs Hoff EC) as Hg.
  assert (Hm1 : mem w1 !! a = mem w !! a).
  { apply (ChunkAlloc_footprint (class_size i) w (chunk, k) w1 Hcs Hoff EC).
    intros Hleft.
    pose proof (pi_arena _ _ _ _ _ _ _ _ _ HP) as (Hse & He & _ & _ & Hw).
    rewrite wrap_small in Hleft by lia. unfold kAlign in Hleft.
    pose proof (pi_large _ _ _ _ _ _ _ _ _ HP) as [_ Hlgp].
    destruct (Hlgp q Hlg) as [_ Hnp].
    pose proof (region_apart_from_pool _ _ q t _ Hd (pi_pool _ _ _ _ _ _ _ _ _ HP)
                  Hreg Hnp (Hw ltac:(lia)) ltac:(simpl; lia)) as Hap.
    simpl in Hap. lia. }
  unfold kMaxBytes in Hcs.
  destruct (ChunkAlloc_PoolInv w out fl pool i chunk k w1 Hi HI EC)
    as [(-> & -> & Hheap & Hlen) | (Hk & fl1 & pool1 & [HI1 Hoff1])].
  - change (20 =? 1) with false in H. cbv iota in H.
    change (Z.to_nat (to_int 20 - 1)) with 19%nat in H.
    cbn [MemoryPoolAllocator.ReFill_loop] in H.
    rewrite class_size_index in H by exact Hi.
    unfold bind at 1 2 in H.
    rewrite (Push_low_address w1 i) in H; try assumption; [discriminate|].
    rewrite wrap_small by lia. unfold page_size. lia.
  - destruct (k =? 1) eqn:Ek.
    + inversion H; subst. exact Hm1.
    + apply Z.eqb_neq in Ek.
      assert (Hti : to_int k = k).
      { unfold to_int. rewrite Z.mod_small by lia.
        destruct (k <? 2 ^ 31) eqn:E; [reflexivity | apply Z.ltb_ge in E; lia]. }
      rewrite Hti in H.
      pose proof (pi_exts _ _ _ _ _ _ _ _ _ HI1) as Hex.
      inversion Hex as [|? ? Hx _]; subst. destruct Hx as (_ & Hn & Hw).
      destruct (within_bounds _ _ _ (pi_heap _ _ _ _ _ _ _ _ _ HI1)
                  (pi_pool _ _ _ _ _ _ _ _ _ HI1) Hw Hn) as [Hlo Hhi].
      simpl in Hlo, Hhi. unfold page_size in Hlo.
      rewrite (wrap_small (chunk + class_size i)) in H by nia.
      unfold bind in H.
      destruct (MemoryPoolAllocator.ReFill_loop _ _ _ w1) as [[] w2| | |] eqn:EL;
        try discriminate.
      inversion H; subst p w'. clear H.
      rewrite <- Hm1.
      apply (ReFill_loop_footprint (class_size i) (Z.to_nat (k - 1)) ltac:(lia)
               (chunk + class_size i) w1 w2 EL); [lia | nia |].
      pose proof (pi_large _ _ _ _ _ _ _ _ _ HI1) as [_ Hlgp].
      destruct (Hlgp q Hlg) as [_ Hnp].
      pose proof (region_apart_from_pool _ _ q t _ (grows_disjoint _ _ Hg Hd)
                    (pi_pool _ _ _ _ _ _ _ _ _ HI1)
                    (grows_incl _ _ _ Hg Hreg) Hnp Hw ltac:(simpl; nia)) as Hap.
      simpl in Hap. nia.
Qed.

(** Allocate leaves every block the client holds as it is. *)
Lemma Allocate_preserves_held w out s p w' q t :
  ClientInv w out -> 0 <= s < 2 ^ 64 ->
  MemoryPoolAllocator.Allocate s w = Ok p w' ->
  (q, t) ∈ out -> q <> 0 ->
  forall a, q <= a < q + block_len t -> mem w' !! a = mem w !! a.
Proof.
  intros (HI & Hd & Hal & Hl) Hs H Hin Hq a Ha.
  destruct (Z_le_gt_dec t kMaxBytes) as [Hsmall | Hlarge]; [|apply Z.gt_lt in Hlarge].
  - rewrite block_len_small in Ha by exact Hsmall.
    apply (Allocate_mem_frame w out s p w' q t HI Hs H Hin Hsmall a Ha).
  - rewrite block_len_large in Ha by exact Hlarge.
    destruct HI as (fl & pool & HPI).
    destruct (Z.eq_dec s 0) as [-> | Hnz]; [rewrite Allocate_zero in H; discriminate|].
    destruct (Z_le_gt_dec s kMaxBytes) as [Hss | Hsl].
    + destruct (class_of_request s ltac:(lia)) as (i & Hi & Hidx & Hru).
      rewrite Allocate_small in H by exact Hss. rewrite Hidx, Hru in H.
      unfold bind in H.
      pose proof (Empty_cases (Z.of_nat i) w) as HE.
      destruct (MemoryPoolList.Empty _ w) as [e w1| | |]; try discriminate. subst w1.
      destruct e.
      * eapply ReFill_mem_frame_large; eassumption.
      * destruct (Pop_unchanged _ _ _ _ H) as [Hm _]. rewrite Hm. reflexivity.
    + unfold MemoryPoolAllocator.Allocate in H.
      destruct (kMaxBytes <? s) eqn:E; [|apply Z.ltb_ge in E; lia].
      pose proof (MallocAllocator_Allocate_frame s w) as Hfr. rewrite H in Hfr.
      destruct Hfr as (Hps & _). unfold pool_state in Hps.
      injection Hps as _ _ _ _ Hmem. rewrite Hmem. reflexivity.
Qed.

(** * vector and the allocator *)

Lemma Max_eq a b : Max a b = Z.max a b.
Proof. unfold Max. destruct (b <? a) eqn:E; [apply Z.ltb_lt in E | apply Z.ltb_ge in E]; lia. Qed.

Lemma block_len_ge t : 0 < t -> t <= block_len t.
Proof.
  intros Ht. destruct (Z_le_gt_dec t kMaxBytes) as [Hsmall | Hlarge].
  - rewrite block_len_small by exact Hsmall.
    destruct (RoundUp_small t ltac:(lia)) as (_ & _ & H). exact H.
  - rewrite block_len_large by lia. lia.
Qed.

Lemma DataAllocator_Allocate_eq n w :
  0 < n -> 8 * n < 2 ^ 64 ->
  vector.DataAllocator_Allocate n w = MemoryPoolAllocator.Allocate (8 * n) w.
Proof.
  intros Hn Hb. unfold vector.DataAllocator_Allocate, AllocatorWrapper.Allocate.
  destruct (n =? 0) eqn:E; [apply Z.eqb_eq in E; lia|].
  simpl. rewrite wrap_small by lia. f_equal. lia.
Qed.

Lemma DataAllocator_Deallocate_eq p n w :
  0 < n -> 8 * n < 2 ^ 64 ->
  vector.DataAllocator_Deallocate p n w = MemoryPoolAllocator.Deallocate p (8 * n) w.
Proof.
  intros Hn Hb. unfold vector.DataAllocator_Deallocate, AllocatorWrapper.Deallocate.
  destruct (n =? 0) eqn:E; [apply Z.eqb_eq in E; lia|].
  simpl. rewrite wrap_small by lia. f_equal. lia.
Qed.

Lemma Deallocate_footprint obj sz w w' :
  MemoryPoolAllocator.Deallocate obj sz w = Ok tt w' ->
  forall a, a <> obj -> mem w' !! a = mem w !! a.
Proof.
  intros H a Ha. unfold MemoryPoolAllocator.Deallocate in H.
  destruct (kMaxBytes <? sz).
  - unfold MallocAllocator.Deallocate, free in H.
    destruct (obj =? 0); [inversion H; reflexivity|].
    destruct (existsb (is_base obj) (regions w)); [|discriminate].
    inversion H. reflexivity.
  - destruct (Push_footprint _ _ _ _ H) as [Hm _]. apply Hm. exact Ha.
Qed.

(** A block the client holds lies inside one live region. *)
Lemma held_block_in_region w out q t :
  ClientInv w out -> (q, t) ∈ out -> q <> 0 ->
  exists r, r ∈ regions w /\ fst r <= q /\ q + block_len t <= fst r + snd r.
Proof.
  intros (HI & Hd & Ha & Hl) Hin Hq.
  destruct HI as (fl & pool & [HP _]).
  destruct (Z_le_gt_dec t kMaxBytes) as [Hsmall | Hlarge]; [|apply Z.gt_lt in Hlarge].
  - rewrite block_len_small by exact Hsmall.
    pose proof (held_ext_elem out q t Hin Hsmall) as Hoe.
    pose proof (pi_exts _ _ _ _ _ _ _ _ _ HP) as Hex. simpl in Hex.
    rewrite Forall_forall in Hex.
    destruct (Hex (q, MemoryPoolAllocator.RoundUp t)) as (_ & _ & (r & Hr & H1 & H2)).
    { apply elem_of_app. right. exact Hoe. }
    exists r. split; [apply (pi_pool _ _ _ _ _ _ _ _ _ HP); exact Hr|].
    simpl in H1, H2. split; assumption.
  - rewrite block_len_large by exact Hlarge.
    pose proof (Hl q t Hin Hlarge Hq) as Hreg.
    assert (Hrl : region_len t = t) by (unfold region_len, kMaxBytes in *; lia).
    rewrite Hrl in Hreg. exists (q, t). split; [exact Hreg|]. simpl. lia.
Qed.

(** Storage that malloc has just returned is apart from every block that
    was held before. *)
Lemma fresh_region_apart w out p n q t :
  ClientInv w out -> placement_ok p n (regions w) = true ->
  (q, t) ∈ out -> q <> 0 ->
  p + region_len n <= q \/ q + block_len t <= p.
Proof.
  intros HC Hok Hin Hq.
  destruct (held_block_in_region w out q t HC Hin Hq) as (r & Hr & H1 & H2).
  destruct (placement_ok_fresh p n (regions w) Hok) as (_ & _ & _ & Hf).
  rewrite Forall_forall in Hf. specialize (Hf r Hr). cbv beta in Hf.
  destruct HC as ((fl & pool & [HP _]) & _).
  pose proof (pi_out _ _ _ _ _ _ _ _ _ HP) as Ho. rewrite Forall_forall in Ho.
  specialize (Ho _ Hin). simpl in Ho.
  pose proof (block_len_ge t Ho). lia.
Qed.

Lemma fresh_region_apart_word w p n a :
  placement_ok p n (regions w) = true -> accessible a w = true ->
  a < p \/ p + region_len n <= a.
Proof.
  intros Hok Ha.
  destruct (placement_ok_fresh p n (regions w) Hok) as (_ & _ & _ & Hf).
  unfold accessible in Ha. apply andb_true_iff in Ha. destruct Ha as [_ Ha].
  apply existsb_exists in Ha. destruct Ha as (r & Hr & Hi).
  rewrite Forall_forall in Hf. specialize (Hf r (proj2 (list_elem_of_In _ _) Hr)).
  cbv beta in Hf.
  unfold inside in Hi. apply andb_true_iff in Hi. destruct Hi as [H1 H2].
  apply Z.leb_le in H1. apply Z.leb_le in H2. lia.
Qed.

Lemma accessible_incl w w' a :
  (forall r, r ∈ regions w -> r ∈ regions w') ->
  accessible a w = true -> accessible a w' = true.
Proof.
  intros Hi Ha. unfold accessible in *.
  apply andb_true_iff in Ha. destruct Ha as [Ha Hex].
  apply andb_true_iff. split; [exact Ha|].
  apply existsb_exists in Hex. destruct Hex as (r & Hr & Hin).
  apply existsb_exists. exists r. split; [|exact Hin].
  apply list_elem_of_In. apply Hi. apply list_elem_of_In. exact Hr.
Qed.

Lemma range_ok_incl w w' a n :
  (forall r, r ∈ regions w -> r ∈ regions w') ->
  range_ok w a n -> range_ok w' a n.
Proof.
  intros Hi (H0 & H1 & H2). split; [exact H0|]. split; [exact H1|].
  intros i Hlt. apply (accessible_incl w w'); [exact Hi | apply H2; exact Hlt].
Qed.

(** After Deallocate the block is back with the allocator. *)
Lemma Deallocate_given_back obj sz w w' :
  obj <> 0 ->
  MemoryPoolAllocator.Deallocate obj sz w = Ok tt w' ->
  given_back w' obj sz.
Proof.
  intros Hobj H. unfold given_back.
  unfold MemoryPoolAllocator.Deallocate in H.
  destruct (kMaxBytes <? sz) eqn:E.
  - unfold MallocAllocator.Deallocate, free in H.
    destruct (obj =? 0) eqn:E0; [apply Z.eqb_eq in E0; contradiction|].
    destruct (existsb (is_base obj) (regions w)); [|discriminate].
    inversion H. simpl. intros Hin.
    apply list_elem_of_fmap in Hin. destruct Hin as (r & Hr & Hin).
    apply list_elem_of_filter in Hin. destruct Hin as [Hnb _].
    unfold is_base in Hnb. rewrite <- Hr, Z.eqb_refl in Hnb. exact Hnb.
  - apply Push_Ok in H. destruct H as (h & Hn & _ & ->).
    destruct (node_at_Ok _ _ _ _ Hn) as (_ & _ & Hl).
    unfold head_of. simpl. apply list_lookup_insert_eq.
    apply lookup_lt_Some in Hl. exact Hl.
Qed.

(** Allocate leaves the value behind a reference into a held block. *)
Lemma Allocate_keeps_ref w out s p w1 x xv :
  ClientInv w out -> 0 <= s < 2 ^ 64 ->
  MemoryPoolAllocator.Allocate s w = Ok p w1 ->
  ref_holds w x xv -> held_ref out x -> ref_holds w1 x xv.
Proof.
  intros HC Hs HA Hx Hh. destruct x as [tv | a]; [exact Hx|].
  destruct Hx as [Hacc Hm]. destruct Hh as (q & t & Hin & Hq & Ha).
  pose proof HC as (HI & _).
  pose proof (Allocate_regions w out s p w1 HI Hs HA) as Hg.
  split.
  - apply (accessible_incl w w1); [|exact Hacc].
    intros r Hr. apply (grows_incl _ _ _ Hg). exact Hr.
  - rewrite (Allocate_preserves_held w out s p w1 q t HC Hs HA Hin Hq a Ha).
    exact Hm.
Qed.

Lemma vec_repr_end w v xs cap :
  vec_repr w v xs cap ->
  0 <= begin_ v /\ begin_ v + 8 * Z.of_nat cap < 2 ^ 64
  /\ end_ v = begin_ v + 8 * Z.of_nat (length xs).
Proof. intros ((H0 & H1 & _) & _ & He & _). repeat split; assumption. Qed.

Lemma ctor_fill_run w w1 out n x xv p :
  ClientInv w out ->
  ref_holds w x xv -> held_ref out x ->
  8 * Z.of_nat (Nat.max n 16) < 2 ^ 63 ->
  vector.DataAllocator_Allocate (Max (Z.of_nat n) 16) w = Ok p w1 -> p <> 0 ->
  let cap := Nat.max n 16 in
  let v := mkVector p (p + 8 * Z.of_nat n) (p + 8 * Z.of_nat cap) in
  exists w2,
    vector.ctor_fill (Z.of_nat n) x w = Ok v w2
    /\ vec_repr w2 v (replicate n xv) cap
    /\ ClientInv w2 ((p, 8 * Z.of_nat cap) :: out)
    /\ forall a, a < p \/ p + 8 * Z.of_nat n <= a -> mem w2 !! a = mem w1 !! a.
Proof.
  intros HC Hx Hheld Hb HA Hp cap v.
  assert (Hmax : Max (Z.of_nat n) 16 = Z.of_nat cap) by (rewrite Max_eq; unfold cap; lia).
  unfold vector.ctor_fill, vector.NumsInit. unfold bind at 1. rewrite HA.
  rewrite Hmax in *.
  rewrite DataAllocator_Allocate_eq in HA by (unfold cap in *; lia).
  pose proof (Allocate_ClientInv w out (8 * Z.of_nat cap) p w1 HC
                ltac:(unfold cap in *; lia) HA) as HC1.
  assert (Hbl : 8 * Z.of_nat cap <= block_len (8 * Z.of_nat cap))
    by (apply block_len_ge; unfold cap; lia).
  pose proof (held_block_range w1 _ p (8 * Z.of_nat cap) HC1
                ltac:(apply list_elem_of_here) Hp) as Hrange.
  pose proof (Hrange cap Hbl) as Hr.
  unfold uninitialized_fill_n. rewrite Nat2Z.id.
  destruct (uninitialized_fill_n_loop_run n p w1 x xv)
    as (w2 & Hrun & Hs & Hres & _ & Hfr).
  { apply Hrange. unfold cap in *. lia. }
  { apply (Allocate_keeps_ref w out (8 * Z.of_nat cap) p w1 x xv HC
             ltac:(unfold cap in *; lia) HA Hx Hheld). }
  unfold bind at 1. rewrite Hrun. unfold ret.
  pose proof Hr as (Hr0 & Hr1 & _).
  rewrite ptr_add_small by lia.
  exists w2. split; [reflexivity|]. split; [|split].
  - split; [apply (range_ok_same w1 w2 _ _ Hs Hr)|].
    split; [exact Hb|]. rewrite length_replicate.
    split; [reflexivity|]. split; [reflexivity|]. split; [unfold cap; lia | exact Hres].
  - apply (ClientInv_frame w1 w2 _ p (8 * Z.of_nat cap) HC1 Hs
             ltac:(apply list_elem_of_here) Hp).
    intros a Ha. apply Hfr. unfold cap in *. lia.
  - exact Hfr.
Qed.

Lemma dtor_run w out v xs cap :
  ClientInv w ((begin_ v, 8 * Z.of_nat cap) :: out) ->
  vec_repr w v xs cap -> (0 < cap)%nat ->
  exists w',
    vector.dtor v w = Ok tt w'
    /\ ClientInv w' out
    /\ (forall a, a <> begin_ v -> mem w' !! a = mem w !! a)
    /\ vector.dtor v w
       = MemoryPoolAllocator.Deallocate (begin_ v) (8 * Z.of_nat cap) w
    /\ given_back w' (begin_ v) (8 * Z.of_nat cap).
Proof.
  intros HC Hv Hcap.
  pose proof Hv as (Hr & Hc & He & Hcp & Hle & Hw).
  pose proof Hr as (Hb0 & Hb1 & _).
  pose proof (accessible_nonnull _ _ (range_ok_head w (begin_ v) (Nat.pred cap)
                ltac:(replace (S (Nat.pred cap)) with cap by lia; exact Hr))) as Hnz.
  unfold vector.dtor, vector.DestroyDeallocate.
  destruct (begin_ v =? 0) eqn:E; [apply Z.eqb_eq in E; contradiction|].
  cbn [negb]. cbv iota.
  rewrite (ptr_diff_wrap (capacity_ v) (begin_ v) (Z.of_nat cap)) by lia.
  rewrite He, range_fuel_eq. unfold bind.
  rewrite Destroy_range_run by lia.
  rewrite DataAllocator_Deallocate_eq by lia.
  destruct (Deallocate_ClientInv w out (begin_ v) (8 * Z.of_nat cap) HC)
    as (w' & HD & HC').
  exists w'. split; [exact HD|]. split; [exact HC'|].
  split; [apply (Deallocate_footprint _ _ _ _ HD)|].
  split; [reflexivity|].
  apply (Deallocate_given_back _ _ w w' Hnz HD).
Qed.

Lemma large_Allocate_facts w s p w1 :
  kMaxBytes < s -> MemoryPoolAllocator.Allocate s w = Ok p w1 -> p <> 0 ->
  mem w1 = mem w
  /\ regions w1 = (p, s) :: regions w
  /\ placement_ok p s (regions w) = true.
Proof.
  intros Hs H Hp. unfold MemoryPoolAllocator.Allocate in H.
  destruct (kMaxBytes <? s) eqn:E; [|apply Z.ltb_ge in E; lia].
  pose proof (MallocAllocator_Allocate_frame s w) as Hfr. rewrite H in Hfr.
  destruct Hfr as (Hps & _ & [(_ & Hra & Hok) | (Hp0 & _)]); [|contradiction].
  unfold pool_state in Hps. injection Hps as _ _ _ _ Hmem.
  assert (Hrl : region_len s = s) by (unfold region_len, kMaxBytes in *; lia).
  rewrite Hrl in Hra. repeat split; assumption.
Qed.

(** InsertAux into a vector of more than eight elements, when the new
    block of twice the old size can take the result. *)
Lemma InsertAux_run w w1 out v xs cap i nums x xv p :
  ClientInv w out ->
  vec_repr w v xs cap ->
  (begin_ v, 8 * Z.of_nat cap) ∈ out ->
  (i <= length xs)%nat -> (8 < length xs)%nat ->
  (length xs + nums <= 2 * length xs)%nat ->
  16 * Z.of_nat (length xs) < 2 ^ 63 ->
  ref_holds w x xv ->
  MemoryPoolAllocator.Allocate (16 * Z.of_nat (length xs)) w = Ok p w1 -> p <> 0 ->
  let pos := begin_ v + 8 * Z.of_nat i in
  let v' := mkVector p (p + 8 * Z.of_nat (length xs + nums))
                     (p + 16 * Z.of_nat (length xs)) in
  exists w',
    vector.InsertAux pos (Z.of_nat nums) x v w = Ok v' w'
    /\ vec_repr w' v' (take i xs ++ replicate nums xv ++ drop i xs) (2 * length xs)
    /\ given_back w' (begin_ v) (8 * Z.of_nat cap)
    /\ exists out', out ≡ₚ (begin_ v, 8 * Z.of_nat cap) :: out'
                    /\ ClientInv w' ((p, 16 * Z.of_nat (length xs)) :: out').
Proof.
  intros HC Hv Hin Hi Hlen Hfit Hb Hx HA Hp pos v'.
  pose proof Hv as (Hr & Hc & He & Hcp & Hle & Hw).
  pose proof Hr as (Hb0 & Hb1 & Hacc).
  set (len := length xs) in *. set (b := begin_ v) in *.
  assert (Hbnz : b <> 0).
  { apply (accessible_nonnull b w). specialize (Hacc O ltac:(lia)).
    replace (b + 8 * Z.of_nat 0) with b in Hacc by lia. exact Hacc. }
  destruct (large_Allocate_facts w (16 * Z.of_nat len) p w1
              ltac:(unfold kMaxBytes; lia) HA Hp)
    as (Hm1 & Hr1 & Hok).
  assert (Hincl : forall r, r ∈ regions w -> r ∈ regions w1)
    by (intros r Hr'; rewrite Hr1; apply elem_of_cons; right; exact Hr').
  pose proof (Allocate_ClientInv w out (16 * Z.of_nat len) p w1 HC ltac:(lia) HA) as HC1.
  assert (Hblk : block_len (16 * Z.of_nat len) = 16 * Z.of_nat len)
    by (apply block_len_large; unfold kMaxBytes; lia).
  pose proof (held_block_range w1 _ p _ HC1 ltac:(apply list_elem_of_here) Hp) as Hrange.
  rewrite Hblk in Hrange.
  pose proof (Hrange (2 * len)%nat ltac:(lia)) as Hrn.
  pose proof Hrn as (Hp0 & Hp1 & _).
  destruct HC as (HI0 & HC0) eqn:HCeq. clear HCeq.
  assert (Hcappos : 0 < 8 * Z.of_nat cap) by lia.
  pose proof (block_len_ge _ Hcappos) as Hbl.
  assert (HCw : ClientInv w out) by (split; assumption).
  pose proof (fresh_region_apart w out p _ b _ HCw Hok Hin Hbnz) as Hapart.
  assert (Hrl : region_len (16 * Z.of_nat len) = 16 * Z.of_nat len)
    by (unfold region_len; lia).
  rewrite Hrl in Hapart.
  assert (Hr_old : range_ok w1 b cap) by (apply (range_ok_incl w w1); assumption).
  (* the request *)
  unfold vector.InsertAux.
  assert (Hsize : vector.size v = Z.of_nat len).
  { unfold vector.size. apply ptr_diff_wrap; [fold b; lia | lia]. }
  rewrite Hsize. rewrite (wrap_small (Z.of_nat len * 2)) by lia.
  rewrite Max_eq. replace (Z.max (Z.of_nat len * 2) 16) with (Z.of_nat (2 * len)) by lia.
  unfold bind at 1. rewrite DataAllocator_Allocate_eq by lia.
  replace (8 * Z.of_nat (2 * len)) with (16 * Z.of_nat len) by lia.
  rewrite HA. fold b.
  (* the elements before pos *)
  set (vs1 := take i xs).
  assert (Hl1 : length vs1 = i) by (unfold vs1; rewrite length_take; fold len; lia).
  assert (Hfu1 : range_fuel b pos = S (length vs1))
    by (rewrite Hl1; apply range_fuel_eq).
  rewrite Hfu1.
  destruct (Copy_run vs1 (S (length vs1)) b p w1)
    as (w2 & Hrun2 & Hs2 & Hres2 & Hfr2).
  { lia. }
  { rewrite Hl1. apply (range_ok_sub w1 b cap 0 i) in Hr_old; [|lia].
    replace (b + 8 * Z.of_nat 0) with b in Hr_old by lia. exact Hr_old. }
  { rewrite Hl1. apply (range_ok_sub w1 p (2 * len) 0 i) in Hrn; [|lia].
    replace (p + 8 * Z.of_nat 0) with p in Hrn by lia. exact Hrn. }
  { rewrite Hm1. unfold vs1. apply words_at_take. exact Hw. }
  { rewrite Hl1. lia. }
  rewrite Hl1 in Hrun2. fold pos in Hrun2.
  unfold bind at 1. rewrite uninitialized_copy_Copy.
  rewrite Hl1. rewrite Hrun2.
  (* the new elements *)
  assert (Hx2 : ref_holds w2 x xv).
  { destruct x as [tv|a]; [exact Hx|]. destruct Hx as [Ha Hma]. split.
    - rewrite (same_but_mem_accessible w1 w2 a Hs2).
      apply (accessible_incl w w1); assumption.
    - pose proof (fresh_region_apart_word w p _ a Hok Ha) as Hout.
      rewrite Hrl in Hout. rewrite Hfr2 by (rewrite Hl1; lia).
      rewrite Hm1. exact Hma. }
  unfold uninitialized_fill_n. rewrite Nat2Z.id.
  destruct (uninitialized_fill_n_loop_run nums (p + 8 * Z.of_nat i) w2 x xv)
    as (w3 & Hrun3 & Hs3 & Hres3 & _ & Hfr3).
  { apply (range_ok_same w1 w2 _ _ Hs2).
    apply (range_ok_sub w1 p (2 * len)); [exact Hrn | lia]. }
  { exact Hx2. }
  unfold bind at 1. rewrite Hrun3.
  (* the elements from pos on *)
  set (vs2 := drop i xs).
  assert (Hl2 : length vs2 = (len - i)%nat) by (unfold vs2; apply length_drop).
  assert (Hee : end_ v = pos + 8 * Z.of_nat (length vs2))
    by (rewrite Hl2; unfold pos; lia).
  assert (Hfu2 : range_fuel pos (end_ v) = S (length vs2))
    by (rewrite Hee; apply range_fuel_eq).
  rewrite Hfu2.
  assert (Hs13 : same_but_mem w1 w3) by (apply (same_but_mem_trans w1 w2 w3); assumption).
  destruct (Copy_run vs2 (S (length vs2)) pos
              (p + 8 * Z.of_nat i + 8 * Z.of_nat nums) w3)
    as (w4 & Hrun4 & Hs4 & Hres4 & Hfr4).
  { lia. }
  { rewrite Hl2. apply (range_ok_same w1 w3 _ _ Hs13).
    apply (range_ok_sub w1 b cap); [exact Hr_old | lia]. }
  { rewrite Hl2. apply (range_ok_same w1 w3 _ _ Hs13).
    replace (p + 8 * Z.of_nat i + 8 * Z.of_nat nums)
      with (p + 8 * Z.of_nat (i + nums)) by lia.
    apply (range_ok_sub w1 p (2 * len)); [exact Hrn | lia]. }
  { apply (words_at_frame (mem w)); [unfold vs2; apply words_at_drop; exact Hw|].
    intros a Ha. rewrite Hl2 in Ha.
    rewrite Hfr3 by (unfold pos in Ha; lia). rewrite Hfr2 by (rewrite Hl1; unfold pos in Ha; lia).
    rewrite Hm1. reflexivity. }
  { rewrite Hl2. unfold pos. lia. }
  rewrite <- Hee in Hrun4.
  unfold bind at 1. rewrite uninitialized_copy_Copy, Hrun4.
  (* the old block goes back *)
  assert (Hs14 : same_but_mem w1 w4) by (apply (same_but_mem_trans w1 w3 w4); assumption).
  assert (Hfr14 : forall a, a < p \/ p + 16 * Z.of_nat len <= a ->
                            mem w4 !! a = mem w1 !! a).
  { intros a Ha. rewrite Hfr4 by (rewrite Hl2; lia). rewrite Hfr3 by lia.
    apply Hfr2. rewrite Hl1. lia. }
  assert (HC4 : ClientInv w4 ((p, 16 * Z.of_nat len) :: out)).
  { apply (ClientInv_frame w1 w4 _ p (16 * Z.of_nat len) HC1 Hs14
             ltac:(apply list_elem_of_here) Hp).
    rewrite Hblk. exact Hfr14. }
  apply elem_of_Permutation in Hin. destruct Hin as (out' & Hperm).
  assert (HC4' : ClientInv w4 ((b, 8 * Z.of_nat cap) :: (p, 16 * Z.of_nat len) :: out')).
  { apply (ClientInv_perm w4 ((p, 16 * Z.of_nat len) :: out)); [|exact HC4].
    rewrite Hperm. apply perm_swap. }
  destruct (Deallocate_ClientInv w4 _ b (8 * Z.of_nat cap) HC4') as (w5 & HD & HC5).
  unfold vector.DestroyDeallocate.
  destruct (b =? 0) eqn:E; [apply Z.eqb_eq in E; contradiction|].
  cbn [negb]. cbv iota.
  rewrite (ptr_diff_wrap (capacity_ v) b (Z.of_nat cap)) by lia.
  rewrite He, range_fuel_eq. unfold bind at 1. unfold bind at 1.
  rewrite Destroy_range_run by lia.
  rewrite DataAllocator_Deallocate_eq by lia. rewrite HD. unfold ret.
  rewrite ptr_add_small by lia.
  subst vs1 vs2. exists w5. split.
  { unfold v'. f_equal. f_equal; lia. }
  split.
  - assert (Hlr : length (take i xs ++ replicate nums xv ++ drop i xs)
                  = (len + nums)%nat).
    { rewrite !length_app, length_take, length_replicate, length_drop. fold len. lia. }
    split.
    { apply (held_block_range w5 _ p (16 * Z.of_nat len) HC5
               ltac:(apply list_elem_of_here) Hp). rewrite Hblk. lia. }
    split; [lia|]. split; [unfold v'; cbn [begin_ end_]; rewrite Hlr; reflexivity|].
    split; [unfold v'; cbn [begin_ capacity_]; lia|]. split; [rewrite Hlr; lia|].
    unfold v'. cbn [begin_].
    apply (words_at_frame (mem w4)).
    + apply words_at_app. split.
      * apply (words_at_frame (mem w2)); [exact Hres2|].
        intros a Ha. rewrite Hl1 in Ha.
        rewrite Hfr4 by (rewrite Hl2; lia). apply Hfr3. lia.
      * rewrite Hl1. apply words_at_app. split.
        -- apply (words_at_frame (mem w3)); [exact Hres3|].
           intros a Ha. rewrite length_replicate in Ha. apply Hfr4. rewrite Hl2. lia.
        -- rewrite length_replicate. exact Hres4.
    + intros a Ha. rewrite Hlr in Ha.
      apply (Deallocate_footprint _ _ _ _ HD). lia.
  - split; [apply (Deallocate_given_back _ _ w4 w5 Hbnz HD)|].
    exists out'. split; [exact Hperm | exact HC5].
Qed.

Lemma ClientInv_held_disjoint
      (w : World) (out rest : list (Z * Z)) (p s q t : Z) :
  ClientInv w out ->
  out ≡ₚ (p, s) :: (q, t) :: rest ->
  p <> 0 -> q <> 0 ->
  p + block_len s <= q \/ q + block_len t <= p.
Proof.
  intros HC Hperm Hp Hq.
  pose proof HC as (HI & Hd & Ha & Hl).
  assert (Hinp : (p, s) ∈ out) by (rewrite Hperm; apply list_elem_of_here).
  assert (Hinq : (q, t) ∈ out)
    by (rewrite Hperm; apply elem_of_cons; right; apply list_elem_of_here).
  assert (Hpos : 0 < s /\ 0 < t).
  { destruct HI as (fl & pool & [HP _]).
    pose proof (pi_out _ _ _ _ _ _ _ _ _ HP) as Ho. rewrite Forall_forall in Ho.
    split; [apply (Ho _ Hinp) | apply (Ho _ Hinq)]. }
  destruct (Z_le_gt_dec s kMaxBytes) as [Hs | Hs], (Z_le_gt_dec t kMaxBytes) as [Ht | Ht].
  - rewrite !block_len_small by assumption.
    apply (Inv_held_disjoint w out rest p s q t HI Hperm Hs Ht).
  - destruct (held_block_in_region w out p s HC Hinp Hp) as (r & Hr & H1 & H2).
    rewrite (block_len_large t) by lia.
    assert (Hreg : (q, t) ∈ regions w).
    { pose proof (Hl q t Hinq ltac:(lia) Hq) as H.
      unfold region_len in H. replace (Z.max t 1) with t in H by lia. exact H. }
    assert (Hne : r <> (q, t)).
    { intros ->. simpl in H1, H2.
      destruct HI as (fl & pool & [HP _]).
      pose proof (held_ext_elem out p s Hinp Hs) as Hoe.
      pose proof (pi_exts _ _ _ _ _ _ _ _ _ HP) as Hex. simpl in Hex.
      rewrite Forall_forall in Hex.
      destruct (Hex (p, MemoryPoolAllocator.RoundUp s)) as (_ & _ & (r' & Hr' & G1 & G2)).
      { apply elem_of_app. right. exact Hoe. }
      simpl in G1, G2.
      pose proof (pi_large _ _ _ _ _ _ _ _ _ HP) as [_ Hlg].
      destruct (Hlg q) as [_ Hnp].
      { unfold larges. apply (list_elem_of_fmap_2 fst _ (q, t)).
        apply list_elem_of_filter. split; [simpl; lia | exact Hinq]. }
      pose proof (pi_pool _ _ _ _ _ _ _ _ _ HP r' Hr') as Hrs'.
      destruct (decide (r' = (q, t))) as [-> | Hne'].
      - apply Hnp. apply (list_elem_of_fmap_2 fst _ (q, t)). exact Hr'.
      - pose proof (pairwise_disjoint_elem _ _ _ Hd Hrs' Hreg Hne') as Hdj.
        unfold disj in Hdj. simpl in Hdj.
        destruct (RoundUp_small s ltac:(lia)) as (_ & Hru & _).
        rewrite block_len_small in H2 by exact Hs. lia. }
    pose proof (pairwise_disjoint_elem _ _ _ Hd Hr Hreg Hne) as Hdj.
    unfold disj in Hdj. simpl in Hdj. lia.
  - destruct (held_block_in_region w out q t HC Hinq Hq) as (r & Hr & H1 & H2).
    rewrite (block_len_large s) by lia.
    assert (Hreg : (p, s) ∈ regions w).
    { pose proof (Hl p s Hinp ltac:(lia) Hp) as H.
      unfold region_len in H. replace (Z.max s 1) with s in H by lia. exact H. }
    assert (Hne : r <> (p, s)).
    { intros ->. simpl in H1, H2.
      destruct HI as (fl & pool & [HP _]).
      pose proof (held_ext_elem out q t Hinq Ht) as Hoe.
      pose proof (pi_exts _ _ _ _ _ _ _ _ _ HP) as Hex. simpl in Hex.
      rewrite Forall_forall in Hex.
      destruct (Hex (q, MemoryPoolAllocator.RoundUp t)) as (_ & _ & (r' & Hr' & G1 & G2)).
      { apply elem_of_app. right. exact Hoe. }
      simpl in G1, G2.
      pose proof (pi_large _ _ _ _ _ _ _ _ _ HP) as [_ Hlg].
      destruct (Hlg p) as [_ Hnp].
      { unfold larges. apply (list_elem_of_fmap_2 fst _ (p, s)).
        apply list_elem_of_filter. split; [simpl; lia | exact Hinp]. }
      pose proof (pi_pool _ _ _ _ _ _ _ _ _ HP r' Hr') as Hrs'.
      destruct (decide (r' = (p, s))) as [-> | Hne'].
      - apply Hnp. apply (list_elem_of_fmap_2 fst _ (p, s)). exact Hr'.
      - pose proof (pairwise_disjoint_elem _ _ _ Hd Hrs' Hreg Hne') as Hdj.
        unfold disj in Hdj. simpl in Hdj.
        destruct (RoundUp_small t ltac:(lia)) as (_ & Hru & _).
        rewrite block_len_small in H2 by exact Ht. lia. }
    pose proof (pairwise_disjoint_elem _ _ _ Hd Hr Hreg Hne) as Hdj.
    unfold disj in Hdj. simpl in Hdj. lia.
  - rewrite !block_len_large by lia.
    assert (Hregp : (p, s) ∈ regions w).
    { pose proof (Hl p s Hinp ltac:(lia) Hp) as H.
      unfold region_len in H. replace (Z.max s 1) with s in H by lia. exact H. }
    assert (Hregq : (q, t) ∈ regions w).
    { pose proof (Hl q t Hinq ltac:(lia) Hq) as H.
      unfold region_len in H. replace (Z.max t 1) with t in H by lia. exact H. }
    assert (Hne : (p, s) <> (q, t)).
    { intros Heq. injection Heq as -> ->.
      destruct HI as (fl & pool & [HP _]).
      pose proof (pi_large _ _ _ _ _ _ _ _ _ HP) as [Hnd _].
      apply (PInv_out_perm _ _ _ _ _ _ _ _ _ _ Hperm) in HP.
      pose proof (pi_large _ _ _ _ _ _ _ _ _ HP) as [Hnd' _].
      unfold larges in Hnd'.
      rewrite filter_cons_True in Hnd' by (simpl; lia).
      rewrite filter_cons_True in Hnd' by (simpl; lia).
      simpl in Hnd'. apply NoDup_cons in Hnd'. destruct Hnd' as [Hnin _].
      apply Hnin. apply list_elem_of_here. }
    pose proof (pairwise_disjoint_elem _ _ _ Hd Hregp Hregq Hne) as Hdj.
    unfold disj in Hdj. simpl in Hdj. lia.
Qed.

(** X18. Blocks the client holds at the same time never overlap, whatever
    their sizes: two pooled blocks, two blocks from the system heap, or one
    of each.  A block handed out for s bytes extends over RoundUp(s) bytes
    when it is pooled and over s bytes otherwise. *)
Theorem any_held_blocks_disjoint
        (w : World) (out rest : list (Z * Z)) (p s q t : Z) :
  reach w out ->
  out ≡ₚ (p, s) :: (q, t) :: rest ->
  p <> 0 -> q <> 0 ->
  p + block_len s <= q \/ q + block_len t <= p.
Proof.
  intros Hreach. apply (ClientInv_held_disjoint w). apply reach_ClientInv. exact Hreach.
Qed.

Lemma mix_reach : reach mix_w2 [(mix_p2, 200); (mix_p1, 8)].
Proof.
  apply (reach_Allocate mix_w1 [(mix_p1, 8)] 200 mix_p2 mix_w2).
  - apply (reach_Allocate vec_w0 [] 8 mix_p1 mix_w1).
    + apply reach_init.
    + vm_compute. split; [discriminate | reflexivity].
    + vm_compute. reflexivity.
  - vm_compute. split; [discriminate | reflexivity].
  - vm_compute. reflexivity.
Qed.

Lemma mix_w3_ClientInv : ClientInv mix_w3 [(mix_p2, 200); (mix_p1, 8)].
Proof.
  pose proof (reach_ClientInv _ _ mix_reach) as HC.
  assert (HC1 : ClientInv (run_world (store64 mix_p1 5) mix_w2)
                          [(mix_p2, 200); (mix_p1, 8)]).
  { apply (ClientInv_frame mix_w2 _ _ mix_p1 8 HC).
    - vm_compute. reflexivity.
    - apply elem_of_cons. right. apply list_elem_of_here.
    - vm_compute. discriminate.
    - intros a Ha.
      change (mem (run_world (store64 mix_p1 5) mix_w2))
        with (<[mix_p1 := 5]> (mem mix_w2)).
      apply lookup_insert_ne.
      change (block_len 8) with 8 in Ha. lia. }
  apply (ClientInv_frame _ mix_w3 _ mix_p2 200 HC1).
  - vm_compute. reflexivity.
  - apply list_elem_of_here.
  - vm_compute. discriminate.
  - intros a Ha.
    change (mem mix_w3)
      with (<[mix_p2 + 16 := 9]> (mem (run_world (store64 mix_p1 5) mix_w2))).
    apply lookup_insert_ne.
    change (block_len 200) with 200 in Ha. lia.
Qed.

Lemma any_held_blocks_disjoint_witness :
  mix_p2 + block_len 200 <= mix_p1 \/ mix_p1 + block_len 8 <= mix_p2.
Proof.
  apply (any_held_blocks_disjoint mix_w2 [(mix_p2, 200); (mix_p1, 8)] []
           mix_p2 200 mix_p1 8).
  - exact mix_reach.
  - reflexivity.
  - vm_compute. discriminate.
  - vm_compute. discriminate.
Defined.

(** X19. A block the client holds is its own.  Storing a word anywhere
    inside a held block succeeds (the block is live storage, aligned for
    words), the word can be read back, and the store leaves the allocator's
    invariant intact: no free-list link lies inside a held block. *)
Theorem client_store_keeps_invariant
        (w : World) (out : list (Z * Z)) (q t a x : Z) :
  ClientInv w out ->
  (q, t) ∈ out -> q <> 0 ->
  q <= a -> a + 8 <= q + block_len t -> (a - q) mod 8 = 0 ->
  exists w',
    store64 a x w = Ok tt w'
    /\ load64 a w' = Ok x w'
    /\ ClientInv w' out.
Proof.
  intros HC Hin Hq Hlo Hhi Hal.
  assert (Hk : exists k : nat, a = q + 8 * Z.of_nat k).
  { exists (Z.to_nat ((a - q) / 8)).
    rewrite Z2Nat.id by (apply Z.div_pos; lia).
    pose proof (Z.div_mod (a - q) 8 ltac:(lia)). lia. }
  destruct Hk as (k & ->).
  pose proof (held_block_range w out q t HC Hin Hq (S k) ltac:(lia)) as Hr.
  destruct Hr as (_ & _ & Hacc). specialize (Hacc k ltac:(lia)).
  rewrite (store64_ok _ x w Hacc).
  eexists. split; [reflexivity|]. split.
  - apply load64_ok; [exact Hacc|]. simpl. apply lookup_insert_eq.
  - apply (ClientInv_frame w _ out q t HC); [reflexivity | exact Hin | exact Hq |].
    intros b Hb. simpl. apply lookup_insert_ne. lia.
Qed.

Lemma client_store_keeps_invariant_witness :
  exists w',
    store64 (mix_p2 + 16) 5 mix_w2 = Ok tt w'
    /\ load64 (mix_p2 + 16) w' = Ok 5 w'
    /\ ClientInv w' [(mix_p2, 200); (mix_p1, 8)].
Proof.
  apply (client_store_keeps_invariant mix_w2 [(mix_p2, 200); (mix_p1, 8)] mix_p2 200).
  - apply reach_ClientInv. exact mix_reach.
  - apply list_elem_of_here.
  - vm_compute. discriminate.
  - lia.
  - vm_compute. discriminate.
  - vm_compute. reflexivity.
Defined.

(** X20. A vector is a well-behaved client of the allocator.  When the
    allocation succeeds, vector(n, value) holds n copies of the value in a
    block of max(n, 16) elements that it now holds from the allocator; the
    value may be a temporary or refer to an object in a block the client
    holds.  Its destructor is exactly the deallocation of that block with
    the size it was requested with: afterwards the block is back with the
    allocator (at the head of its free list when it is pooled, released to
    the system heap otherwise), and the invariant holds for the blocks held
    before. *)
Theorem vector_ctor_dtor
        (w w1 : World) (out : list (Z * Z)) (n : nat) (x : const_ref) (xv p : Z) :
  ClientInv w out ->
  ref_holds w x xv -> held_ref out x ->
  8 * Z.of_nat (Nat.max n 16) < 2 ^ 63 ->
  vector.DataAllocator_Allocate (Max (Z.of_nat n) 16) w = Ok p w1 -> p <> 0 ->
  exists v w2,
    vector.ctor_fill (Z.of_nat n) x w = Ok v w2
    /\ begin_ v = p
    /\ vec_repr w2 v (replicate n xv) (Nat.max n 16)
    /\ vector.capacity v = Z.of_nat (Nat.max n 16)
    /\ ClientInv w2 ((p, 8 * Z.of_nat (Nat.max n 16)) :: out)
    /\ exists w3,
         vector.dtor v w2 = Ok tt w3
         /\ vector.dtor v w2
            = MemoryPoolAllocator.Deallocate p (8 * Z.of_nat (Nat.max n 16)) w2
         /\ given_back w3 p (8 * Z.of_nat (Nat.max n 16))
         /\ ClientInv w3 out.
Proof.
  intros HC Hx Hheld Hb HA Hp.
  destruct (ctor_fill_run w w1 out n x xv p HC Hx Hheld Hb HA Hp)
    as (w2 & Hrun & Hv & HC2 & _).
  eexists. exists w2. split; [exact Hrun|]. split; [reflexivity|].
  split; [exact Hv|]. split.
  { pose proof Hv as ((H0 & H1 & _) & _). cbn [begin_] in H0, H1.
    unfold vector.capacity. cbn [begin_ capacity_].
    apply ptr_diff_wrap; lia. }
  split; [exact HC2|].
  destruct (dtor_run w2 out (mkVector p (p + 8 * Z.of_nat n)
                                       (p + 8 * Z.of_nat (Nat.max n 16)))
              _ _ HC2 Hv ltac:(lia)) as (w3 & HD & HC3 & _ & Heq & Hback).
  exists w3. split; [exact HD|]. split; [exact Heq|]. split; [exact Hback | exact HC3].
Qed.

Lemma vector_ctor_dtor_witness :
  exists v w2,
    vector.ctor_fill (Z.of_nat 3) (Ref mix_p1) mix_w3 = Ok v w2
    /\ vec_repr w2 v (replicate 3 5) (Nat.max 3 16)
    /\ exists w3,
         vector.dtor v w2 = Ok tt w3
         /\ given_back w3 (begin_ v) (8 * Z.of_nat (Nat.max 3 16))
         /\ ClientInv w3 [(mix_p2, 200); (mix_p1, 8)].
Proof.
  destruct (vector_ctor_dtor mix_w3
              (run_world (vector.DataAllocator_Allocate 16) mix_w3)
              [(mix_p2, 200); (mix_p1, 8)] 3 (Ref mix_p1) 5
              (run_value (vector.DataAllocator_Allocate 16) mix_w3))
    as (v & w2 & Hrun & Hbv & Hv & _ & _ & w3 & Hd & _ & Hback & HC3).
  - exact mix_w3_ClientInv.
  - split; vm_compute; reflexivity.
  - exists mix_p1, 8. split; [apply elem_of_cons; right; apply list_elem_of_here|].
    split; [vm_compute; discriminate | vm_compute; split; [discriminate | reflexivity]].
  - vm_compute. reflexivity.
  - vm_compute. reflexivity.
  - vm_compute. discriminate.
  - exists v, w2. split; [exact Hrun|]. split; [exact Hv|].
    exists w3. split; [exact Hd|]. split; [rewrite Hbv; exact Hback | exact HC3].
Defined.

Lemma vec_nonnull w v xs cap :
  vec_repr w v xs cap -> (0 < cap)%nat -> begin_ v <> 0.
Proof.
  intros ((_ & _ & Hacc) & _) Hc. apply (accessible_nonnull _ w).
  specialize (Hacc O Hc). replace (begin_ v + 8 * Z.of_nat 0) with (begin_ v) in Hacc by lia.
  exact Hacc.
Qed.

Lemma push_back_room w out v xs cap x xv :
  ClientInv w out -> vec_repr w v xs cap ->
  (begin_ v, 8 * Z.of_nat cap) ∈ out ->
  ref_holds w x xv -> (length xs < cap)%nat ->
  exists w',
    vector.push_back x v w = Ok (set_end_ (end_ v + 8) v) w'
    /\ vec_repr w' (set_end_ (end_ v + 8) v) (xs ++ [xv]) cap
    /\ ClientInv w' out.
Proof.
  intros HC Hv Hin Hx Hlt.
  pose proof Hv as (Hr & Hc & He & Hcp & Hle & Hw).
  pose proof Hr as (Hb0 & Hb1 & Hacc).
  pose proof (vec_nonnull w v xs cap Hv ltac:(lia)) as Hnz.
  unfold vector.push_back.
  destruct (end_ v =? capacity_ v) eqn:E; [apply Z.eqb_eq in E; lia|].
  cbn [negb]. cbv iota.
  assert (Hae : accessible (end_ v) w = true) by (rewrite He; apply Hacc; exact Hlt).
  unfold bind. rewrite (Construct_ok w (end_ v) x xv Hx Hae).
  rewrite ptr_inc_small by lia. unfold ret.
  set (w' := set_mem _ w).
  assert (Hs : same_but_mem w w') by reflexivity.
  exists w'. split; [reflexivity|]. split.
  - split; [apply (range_ok_same w w' _ _ Hs Hr)|]. split; [exact Hc|].
    rewrite length_app. simpl length.
    split; [unfold set_end_; cbn [begin_ end_]; lia|].
    split; [exact Hcp|]. split; [lia|].
    unfold set_end_. cbn [begin_]. apply words_at_app. split.
    + apply (words_at_frame (mem w)); [exact Hw|].
      intros a Ha. unfold w'. simpl. apply lookup_insert_ne. lia.
    + apply words_at_cons. split; [|apply words_at_nil].
      unfold w'. simpl. rewrite <- He. apply lookup_insert_eq.
  - apply (ClientInv_frame w w' out (begin_ v) (8 * Z.of_nat cap) HC Hs Hin Hnz).
    intros a Ha. unfold w'. simpl. apply lookup_insert_ne.
    pose proof (block_len_ge (8 * Z.of_nat cap) ltac:(lia)). lia.
Qed.

(** X21. push_back appends.  With room left it constructs the element in
    place.  With the block full it moves to a block of twice the capacity,
    copies the elements, appends, and gives the old block back with the
    size it was requested with: afterwards the old block is at the head of
    its free list when it is pooled, and released to the system heap
    otherwise.  The value may even be a reference to an element of the
    vector itself. *)
Theorem vector_push_back
        (w : World) (out : list (Z * Z)) (v : vector) (xs : list Z) (cap : nat)
        (x : const_ref) (xv : Z) :
  ClientInv w out -> vec_repr w v xs cap ->
  (begin_ v, 8 * Z.of_nat cap) ∈ out -> (16 <= cap)%nat ->
  ref_holds w x xv ->
  ((length xs < cap)%nat ->
   exists v' w',
     vector.push_back x v w = Ok v' w'
     /\ vec_repr w' v' (xs ++ [xv]) cap
     /\ ClientInv w' out)
  /\ (length xs = cap -> 16 * Z.of_nat cap < 2 ^ 63 ->
      forall p w1,
        MemoryPoolAllocator.Allocate (16 * Z.of_nat cap) w = Ok p w1 -> p <> 0 ->
        exists v' w',
          vector.push_back x v w = Ok v' w'
          /\ begin_ v' = p
          /\ vec_repr w' v' (xs ++ [xv]) (2 * cap)
          /\ given_back w' (begin_ v) (8 * Z.of_nat cap)
          /\ exists out', out ≡ₚ (begin_ v, 8 * Z.of_nat cap) :: out'
                          /\ ClientInv w' ((p, 16 * Z.of_nat cap) :: out')).
Proof.
  intros HC Hv Hin Hcap Hx. split.
  - intros Hlt.
    destruct (push_back_room w out v xs cap x xv HC Hv Hin Hx Hlt) as (w' & Hrun & Hv' & HC').
    eexists. exists w'. split; [exact Hrun|]. split; assumption.
  - intros Hfull Hb p w1 HA Hp.
    pose proof Hv as (Hr & Hc & He & Hcp & Hle & Hw).
    unfold vector.push_back.
    destruct (end_ v =? capacity_ v) eqn:E; [|apply Z.eqb_neq in E; lia].
    cbn [negb]. cbv iota. subst cap.
    destruct (InsertAux_run w w1 out v xs (length xs) (length xs) 1 x xv p
                HC Hv Hin ltac:(lia) ltac:(lia) ltac:(lia) Hb Hx HA Hp)
      as (w' & Hrun & Hv' & Hback & out' & Hperm & HC').
    replace (begin_ v + 8 * Z.of_nat (length xs)) with (end_ v) in Hrun by lia.
    change (Z.of_nat 1) with 1 in Hrun.
    rewrite firstn_all, drop_all, app_nil_r in Hv'.
    eexists. exists w'. split; [exact Hrun|]. split; [reflexivity|].
    split; [exact Hv'|]. split; [exact Hback|]. exists out'. split; assumption.
Qed.

Lemma vec16_state :
  ClientInv vec_w16 [(4096, 128)] /\ vec_repr vec_w16 vec16 (replicate 16 7) 16.
Proof.
  destruct (ctor_fill_run vec_w0 (run_world (vector.DataAllocator_Allocate 16) vec_w0)
              [] 16 (Temp 7) 7 4096 (initial_ClientInv _) eq_refl I)
    as (w2 & Hrun & Hv & HC & _).
  - vm_compute. reflexivity.
  - vm_compute. reflexivity.
  - discriminate.
  - change (Z.of_nat 16) with 16 in Hrun.
    assert (Hw : vec_w16 = w2) by (unfold vec_w16, run_world; rewrite Hrun; reflexivity).
    assert (Hvv : vec16 = mkVector 4096 (4096 + 8 * Z.of_nat 16)
                                   (4096 + 8 * Z.of_nat (Nat.max 16 16)))
      by (vm_compute; reflexivity).
    rewrite Hw, Hvv. split; [exact HC | exact Hv].
Qed.

Lemma vector_push_back_witness :
  exists v' w',
    vector.push_back (Ref (vector.front vec16)) vec16 vec_w16 = Ok v' w'
    /\ vec_repr w' v' (replicate 16 7 ++ [7]) (2 * 16)
    /\ given_back w' (begin_ vec16) (8 * Z.of_nat 16).
Proof.
  destruct vec16_state as [HC Hv].
  destruct (vector_push_back vec_w16 [(4096, 128)] vec16 (replicate 16 7) 16
              (Ref (vector.front vec16)) 7 HC Hv) as [_ H].
  - vm_compute. apply list_elem_of_here.
  - lia.
  - split; vm_compute; reflexivity.
  - destruct (H eq_refl ltac:(vm_compute; reflexivity) 1048576
                (run_world (MemoryPoolAllocator.Allocate 256) vec_w16))
      as (v' & w' & Hrun & _ & Hv' & Hback & _).
    + vm_compute. reflexivity.
    + discriminate.
    + exists v', w'. split; [exact Hrun|]. split; [exact Hv' | exact Hback].
Defined.

(** X22. insert(pos, n, x) beyond the capacity.  For a vector of more than
    eight elements whose doubled size takes the result, the elements are
    rebuilt in a new block of twice the old size with n copies of the value
    before the element at pos, and the old block goes back to the
    allocator with the size it was requested with: afterwards it is at the
    head of its free list when it is pooled, and released to the system
    heap otherwise.  The iterator returned is the old pos: when it pointed
    at an element, it points into the block that was given back, outside
    the new one. *)
Theorem vector_insert_grows
        (w w1 : World) (out : list (Z * Z)) (v : vector) (xs : list Z)
        (cap i n : nat) (x : const_ref) (xv p : Z) :
  ClientInv w out -> vec_repr w v xs cap ->
  (begin_ v, 8 * Z.of_nat cap) ∈ out ->
  (i <= length xs)%nat -> (8 < length xs)%nat ->
  (cap < length xs + n)%nat -> (length xs + n <= 2 * length xs)%nat ->
  16 * Z.of_nat (length xs) < 2 ^ 63 ->
  ref_holds w x xv ->
  MemoryPoolAllocator.Allocate (16 * Z.of_nat (length xs)) w = Ok p w1 -> p <> 0 ->
  let pos := vector.subscript v (Z.of_nat i) in
  exists v' w',
    vector.insert pos (Z.of_nat n) x v w = Ok (pos, v') w'
    /\ vec_repr w' v' (take i xs ++ replicate n xv ++ drop i xs) (2 * length xs)
    /\ given_back w' (begin_ v) (8 * Z.of_nat cap)
    /\ ((i < length xs)%nat ->
        begin_ v <= pos < begin_ v + 8 * Z.of_nat cap
        /\ (pos < begin_ v' \/ capacity_ v' <= pos))
    /\ exists out', out ≡ₚ (begin_ v, 8 * Z.of_nat cap) :: out'
                    /\ ClientInv w' ((begin_ v', 16 * Z.of_nat (length xs)) :: out').
Proof.
  intros HC Hv Hin Hi Hlen Hover Hfit Hb Hx HA Hp pos.
  pose proof Hv as (Hr & Hc & He & Hcp & Hle & Hw).
  pose proof Hr as (Hb0 & Hb1 & _).
  unfold pos. rewrite (subscript_eq w v xs cap i Hv ltac:(lia)).
  unfold vector.insert.
  rewrite (ptr_diff_wrap (capacity_ v) (end_ v) (Z.of_nat (cap - length xs))) by lia.
  destruct (Z.of_nat n <=? Z.of_nat (cap - length xs)) eqn:E;
    [apply Z.leb_le in E; lia|].
  destruct (InsertAux_run w w1 out v xs cap i n x xv p
              HC Hv Hin Hi Hlen Hfit Hb Hx HA Hp)
    as (w' & Hrun & Hv' & Hback & out' & Hperm & HC').
  unfold bind. rewrite Hrun. unfold ret.
  eexists. exists w'. split; [reflexivity|]. split; [exact Hv'|].
  split; [exact Hback|]. split.
  - intros Hilt. split; [lia|]. cbn [begin_ capacity_].
    assert (Hnz : begin_ v <> 0) by (apply (vec_nonnull w v xs cap Hv); lia).
    destruct (large_Allocate_facts w (16 * Z.of_nat (length xs)) p w1
                ltac:(unfold kMaxBytes; lia) HA Hp) as (_ & _ & Hok).
    pose proof (fresh_region_apart w out p _ (begin_ v) _ HC Hok Hin Hnz) as Hap.
    unfold region_len in Hap.
    pose proof (block_len_ge (8 * Z.of_nat cap) ltac:(lia)). lia.
  - exists out'. split; [exact Hperm | exact HC'].
Qed.

Lemma vector_insert_grows_witness :
  exists v' w',
    vector.insert (vector.subscript vec16 (Z.of_nat 2)) (Z.of_nat 3) (Temp 9)
                  vec16 vec_w16
    = Ok (vector.subscript vec16 (Z.of_nat 2), v') w'
    /\ vec_repr w' v' (take 2 (replicate 16 7) ++ replicate 3 9
                         ++ drop 2 (replicate 16 7)) (2 * 16)
    /\ given_back w' (begin_ vec16) (8 * Z.of_nat 16).
Proof.
  destruct vec16_state as [HC Hv].
  destruct (vector_insert_grows vec_w16
              (run_world (MemoryPoolAllocator.Allocate 256) vec_w16)
              [(4096, 128)] vec16 (replicate 16 7) 16 2 3 (Temp 9) 9 1048576 HC Hv)
    as (v' & w' & Hrun & Hv' & Hback & _).
  - vm_compute. apply list_elem_of_here.
  - simpl. lia.
  - simpl. lia.
  - simpl. lia.
  - simpl. lia.
  - vm_compute. reflexivity.
  - reflexivity.
  - vm_compute. reflexivity.
  - discriminate.
  - exists v', w'. split; [exact Hrun|]. split; [exact Hv' | exact Hback].
Defined.

(** X23. The first push_back on a default-constructed vector allocates a
    block of sixteen elements, which for this element type is a pooled
    block of 128 bytes, and stores the element at its start. *)
Theorem vector_push_back_first
        (w w1 : World) (out : list (Z * Z)) (xv p : Z) :
  ClientInv w out ->
  MemoryPoolAllocator.Allocate 128 w = Ok p w1 -> p <> 0 ->
  exists v' w',
    vector.push_back (Temp xv) vector.default w = Ok v' w'
    /\ begin_ v' = p
    /\ vec_repr w' v' [xv] 16
    /\ ClientInv w' ((p, 128) :: out).
Proof.
  intros HC HA Hp.
  pose proof (Allocate_ClientInv w out 128 p w1 HC ltac:(lia) HA) as HC1.
  pose proof (held_block_range w1 _ p 128 HC1 ltac:(apply list_elem_of_here) Hp) as Hrange.
  assert (Hbl : block_len 128 = 128) by reflexivity.
  rewrite Hbl in Hrange.
  pose proof (Hrange 16%nat ltac:(lia)) as Hr16.
  pose proof Hr16 as (Hp0 & Hp1 & Hacc).
  unfold vector.push_back, vector.default. cbn [end_ capacity_].
  change (0 =? 0) with true. cbn [negb]. cbv iota.
  unfold vector.InsertAux. cbn [begin_ end_ capacity_].
  change (vector.size (mkVector 0 0 0)) with 0.
  change (Max (wrap (0 * 2)) 16) with 16.
  unfold bind at 1. rewrite (DataAllocator_Allocate_eq 16 w) by lia.
  change (8 * 16) with 128. rewrite HA.
  change (range_fuel 0 0) with 1%nat. cbn [uninitialized_copy].
  change (negb (0 =? 0)) with false. cbv iota.
  unfold bind at 1. unfold ret at 1.
  unfold uninitialized_fill_n. change (Z.to_nat 1) with 1%nat.
  cbn [uninitialized_fill_n_loop].
  assert (Ha0 : accessible p w1 = true).
  { specialize (Hacc O ltac:(lia)). replace (p + 8 * Z.of_nat 0) with p in Hacc by lia.
    exact Hacc. }
  unfold bind at 1. unfold bind at 1.
  rewrite (Construct_ok w1 p (Temp xv) xv eq_refl Ha0).
  set (w2 := set_mem _ w1). unfold ret at 1.
  rewrite ptr_inc_small by lia.
  unfold bind at 1. unfold ret at 1.
  unfold vector.DestroyDeallocate. change (negb (0 =? 0)) with false. cbv iota.
  unfold bind, ret. rewrite ptr_add_small by lia.
  assert (Hs : same_but_mem w1 w2) by reflexivity.
  eexists. exists w2. split; [reflexivity|]. split; [reflexivity|]. split.
  - split; [apply (range_ok_same w1 w2 _ _ Hs Hr16)|].
    split; [lia|]. cbn [begin_ end_ capacity_ length].
    split; [lia|]. split; [lia|]. split; [lia|].
    apply words_at_cons. split; [|apply words_at_nil].
    unfold w2. simpl. apply lookup_insert_eq.
  - apply (ClientInv_frame w1 w2 _ p 128 HC1 Hs ltac:(apply list_elem_of_here) Hp).
    intros a Ha. rewrite Hbl in Ha. unfold w2. simpl. apply lookup_insert_ne. lia.
Qed.

Lemma vector_push_back_first_witness :
  exists v' w',
    vector.push_back (Temp 5) vector.default vec_w0 = Ok v' w'
    /\ vec_repr w' v' [5] 16.
Proof.
  destruct (vector_push_back_first vec_w0
              (run_world (MemoryPoolAllocator.Allocate 128) vec_w0) [] 5 4096)
    as (v' & w' & Hrun & _ & Hv' & _).
  - apply initial_ClientInv.
  - vm_compute. reflexivity.
  - discriminate.
  - exists v', w'. split; [exact Hrun | exact Hv'].
Defined.

(** * InsertAux and the size of the new block *)

Lemma accessible_bounds w a :
  heap_ok (regions w) -> accessible a w = true -> 0 <= a /\ a + 8 < 2 ^ 64.
Proof.
  intros [Hb _] Ha. unfold accessible in Ha.
  apply andb_true_iff in Ha. destruct Ha as [_ Ha].
  apply existsb_exists in Ha. destruct Ha as (r & Hr & Hi).
  rewrite Forall_forall in Hb. specialize (Hb r (proj2 (list_elem_of_In _ _) Hr)).
  cbv beta in Hb. unfold page_size in Hb.
  unfold inside in Hi. apply andb_true_iff in Hi. destruct Hi as [H1 H2].
  apply Z.leb_le in H1. apply Z.leb_le in H2. lia.
Qed.

Lemma store64_inv a v w w' :
  store64 a v w = Ok tt w' ->
  accessible a w = true /\ w' = set_mem (<[a := v]> (mem w)) w.
Proof.
  unfold store64. destruct (accessible a w); [|discriminate].
  intros H. inversion H. split; reflexivity.
Qed.

Lemma load64_inv a v w w' : load64 a w = Ok v w' -> w' = w.
Proof.
  unfold load64. destruct (accessible a w); [|discriminate].
  destruct (mem w !! a); [|discriminate]. intros H. inversion H. reflexivity.
Qed.

Lemma read_ref_inv x v w w' : read_ref x w = Ok v w' -> w' = w.
Proof.
  destruct x as [t|a]; simpl.
  - unfold ret. intros H. inversion H. reflexivity.
  - apply load64_inv.
Qed.

(** Where Copy ends when it returns: every store hit live storage. *)
Lemma Copy_returns n : forall fuel first result w r w',
  heap_ok (regions w) ->
  0 <= first -> first + 8 * Z.of_nat n < 2 ^ 64 ->
  Copy fuel first (first + 8 * Z.of_nat n) result w = Ok r w' ->
  r = result + 8 * Z.of_nat n
  /\ same_but_mem w w'
  /\ ((0 < n)%nat -> 0 <= result /\ result + 8 * Z.of_nat n < 2 ^ 64).
Proof.
  induction n as [|n IH]; intros fuel first result w r w' Hh H0 H1 H.
  - destruct fuel as [|fuel]; [discriminate|]. cbn [Copy] in H.
    replace (first + 8 * Z.of_nat 0) with first in H by lia.
    rewrite Z.eqb_refl in H. inversion H. subst.
    split; [lia|]. split; [apply same_but_mem_refl | lia].
  - destruct fuel as [|fuel]; [discriminate|]. cbn [Copy] in H.
    destruct (first =? first + 8 * Z.of_nat (S n)) eqn:E; [apply Z.eqb_eq in E; lia|].
    cbn [negb] in H. cbv iota in H. unfold bind at 1 in H.
    destruct (load64 first w) as [v wl| | |] eqn:EL; try discriminate.
    apply load64_inv in EL. subst wl.
    unfold bind at 1 in H.
    destruct (store64 result v w) as [[] w1| | |] eqn:ES; try discriminate.
    apply store64_inv in ES. destruct ES as [Hacc ->].
    destruct (accessible_bounds w result Hh Hacc) as [Hr0 Hr1].
    rewrite (ptr_inc_small first) in H by lia.
    rewrite (ptr_inc_small result) in H by lia.
    replace (first + 8 * Z.of_nat (S n)) with (first + 8 + 8 * Z.of_nat n) in H by lia.
    destruct (IH fuel (first + 8) (result + 8) (set_mem (<[result := v]> (mem w)) w)
                r w' Hh ltac:(lia) ltac:(lia) H)
      as (Hr & Hs & Hb).
    split; [lia|]. split; [apply (same_but_mem_store w w' result v Hs)|].
    intros _. destruct n as [|n]; [lia|]. specialize (Hb ltac:(lia)). lia.
Qed.

Lemma fill_n_returns n : forall current value w r w',
  heap_ok (regions w) ->
  uninitialized_fill_n_loop n current value w = Ok r w' ->
  r = current + 8 * Z.of_nat n
  /\ same_but_mem w w'
  /\ ((0 < n)%nat -> 0 <= current /\ current + 8 * Z.of_nat n < 2 ^ 64).
Proof.
  induction n as [|n IH]; intros current value w r w' Hh H.
  - cbn [uninitialized_fill_n_loop] in H. inversion H. subst.
    split; [lia|]. split; [apply same_but_mem_refl | lia].
  - cbn [uninitialized_fill_n_loop] in H. unfold bind at 1 in H.
    unfold Construct, bind in H.
    destruct (read_ref value w) as [v wl| | |] eqn:EL; try discriminate.
    apply read_ref_inv in EL. subst wl.
    destruct (store64 current v w) as [[] w1| | |] eqn:ES; try discriminate.
    apply store64_inv in ES. destruct ES as [Hacc ->].
    destruct (accessible_bounds w current Hh Hacc) as [Hr0 Hr1].
    rewrite (ptr_inc_small current) in H by lia.
    destruct (IH (current + 8) value (set_mem (<[current := v]> (mem w)) w) r w' Hh H)
      as (Hr & Hs & Hb).
    split; [lia|]. split; [apply (same_but_mem_store w w' current v Hs)|].
    intros _. destruct n as [|n]; [lia|]. specialize (Hb ltac:(lia)). lia.
Qed.

(** X24. InsertAux sizes the new block by the old size alone.  The block
    it allocates has max(2 * size, 16) elements whatever the number of
    elements to insert.  Whenever the result is larger than that and the
    call returns, the vector it leaves has all the elements but its end
    lies beyond its capacity: size() exceeds capacity(). *)
Theorem InsertAux_ignores_count
        (w w' : World) (out : list (Z * Z)) (v v' : vector) (xs : list Z)
        (cap i nums : nat) (x : const_ref) :
  ClientInv w out -> vec_repr w v xs cap ->
  (i <= length xs)%nat ->
  Z.max (2 * Z.of_nat (length xs)) 16 < Z.of_nat (length xs + nums) ->
  8 * Z.of_nat (length xs + nums) < 2 ^ 63 ->
  vector.InsertAux (vector.subscript v (Z.of_nat i)) (Z.of_nat nums) x v w = Ok v' w' ->
  vector.size v' = Z.of_nat (length xs + nums)
  /\ vector.capacity v' = Z.max (2 * Z.of_nat (length xs)) 16
  /\ capacity_ v' < end_ v'.
Proof.
  intros HC Hv Hi Hover Hb H.
  pose proof Hv as (Hr & Hc & He & Hcp & Hle & Hw).
  pose proof Hr as (Hb0 & Hb1 & _).
  rewrite (subscript_eq w v xs cap i Hv ltac:(lia)) in H.
  set (len := length xs) in *.
  set (ns := Z.max (2 * Z.of_nat len) 16) in *.
  unfold vector.InsertAux in H.
  assert (Hsize : vector.size v = Z.of_nat len)
    by (unfold vector.size; apply ptr_diff_wrap; lia).
  rewrite Hsize in H. rewrite (wrap_small (Z.of_nat len * 2)) in H by lia.
  rewrite Max_eq in H. replace (Z.max (Z.of_nat len * 2) 16) with ns in H by (unfold ns; lia).
  unfold bind at 1 in H. rewrite DataAllocator_Allocate_eq in H by (unfold ns in *; lia).
  destruct (MemoryPoolAllocator.Allocate (8 * ns) w) as [p w1| | |] eqn:EA;
    try discriminate.
  destruct HC as (HI & _).
  pose proof (Allocate_Inv w out (8 * ns) p w1 HI ltac:(unfold ns in *; lia) EA) as HI1.
  assert (Hh1 : heap_ok (regions w1)).
  { destruct HI1 as (fl & pool & [HP _]). exact (pi_heap _ _ _ _ _ _ _ _ _ HP). }
  unfold bind at 1 in H. rewrite uninitialized_copy_Copy in H.
  destruct (Copy _ (begin_ v) _ p w1) as [r1 w2| | |] eqn:E1; try discriminate.
  destruct (Copy_returns i _ _ _ _ _ _ Hh1 Hb0 ltac:(lia) E1) as (-> & Hs2 & Hbd1).
  assert (Hh2 : heap_ok (regions w2))
    by (rewrite (same_but_mem_regions w1 w2 Hs2); exact Hh1).
  unfold bind at 1 in H. unfold uninitialized_fill_n in H. rewrite Nat2Z.id in H.
  destruct (uninitialized_fill_n_loop nums _ x w2) as [r2 w3| | |] eqn:E2;
    try discriminate.
  destruct (fill_n_returns nums _ _ _ _ _ Hh2 E2) as (-> & Hs3 & Hbd2).
  assert (Hh3 : heap_ok (regions w3))
    by (rewrite (same_but_mem_regions w2 w3 Hs3); exact Hh2).
  unfold bind at 1 in H. rewrite uninitialized_copy_Copy in H.
  assert (Hee : end_ v = begin_ v + 8 * Z.of_nat i + 8 * Z.of_nat (len - i)) by lia.
  rewrite Hee in H.
  destruct (Copy _ (begin_ v + 8 * Z.of_nat i) _ _ w3) as [r3 w4| | |] eqn:E3;
    try discriminate.
  destruct (Copy_returns (len - i) _ (begin_ v + 8 * Z.of_nat i) _ _ _ _ Hh3
              ltac:(lia) ltac:(lia) E3)
    as (-> & Hs4 & Hbd3).
  unfold bind at 1 in H.
  destruct (vector.DestroyDeallocate _ _ _ w4) as [[] w5| | |]; try discriminate.
  unfold ret in H. injection H as <- <-.
  assert (Hpb : 0 <= p /\ p + 8 * Z.of_nat (len + nums) < 2 ^ 64).
  { destruct (Nat.eq_dec (len - i)%nat 0%nat) as [Hz3 | Hnz3].
    - destruct (Nat.eq_dec nums 0%nat) as [Hz2 | Hnz2].
      + specialize (Hbd1 ltac:(unfold ns in *; lia)). lia.
      + specialize (Hbd2 ltac:(lia)).
        destruct (Nat.eq_dec i 0%nat) as [Hz1 | Hnz1]; [lia|].
        specialize (Hbd1 ltac:(lia)). lia.
    - specialize (Hbd3 ltac:(lia)).
      destruct (Nat.eq_dec i 0%nat) as [Hz1 | Hnz1].
      + destruct (Nat.eq_dec nums 0%nat) as [Hz2 | Hnz2]; [lia|].
        specialize (Hbd2 ltac:(lia)). lia.
      + specialize (Hbd1 ltac:(lia)). lia. }
  unfold vector.size, vector.capacity. cbn [begin_ end_ capacity_].
  rewrite (ptr_add_small p ns) by (unfold ns in *; lia).
  split; [apply ptr_diff_wrap; lia|].
  split; [apply ptr_diff_wrap; unfold ns in *; lia|]. lia.
Qed.

Lemma vec_empty_state :
  ClientInv vec_w_empty [(4096, 128)] /\ vec_repr vec_w_empty vec_empty [] 16.
Proof.
  destruct (ctor_fill_run vec_w0 (run_world (vector.DataAllocator_Allocate 16) vec_w0)
              [] 0 (Temp 7) 7 4096 (initial_ClientInv _) eq_refl I)
    as (w2 & Hrun & Hv & HC & _).
  - vm_compute. reflexivity.
  - vm_compute. reflexivity.
  - discriminate.
  - change (Z.of_nat 0) with 0 in Hrun.
    assert (Hw : vec_w_empty = w2)
      by (unfold vec_w_empty, run_world; rewrite Hrun; reflexivity).
    assert (Hvv : vec_empty = mkVector 4096 (4096 + 8 * Z.of_nat 0)
                                       (4096 + 8 * Z.of_nat (Nat.max 0 16)))
      by (vm_compute; reflexivity).
    rewrite Hw, Hvv. split; [exact HC | exact Hv].
Qed.

Lemma InsertAux_ignores_count_witness :
  vector.size (run_result vector.default
                 (vector.InsertAux (vector.subscript vec_empty (Z.of_nat 0))
                                   (Z.of_nat 17) (Temp 7) vec_empty) vec_w_empty)
  = Z.of_nat (length (@nil Z) + 17)
  /\ vector.capacity (run_result vector.default
                 (vector.InsertAux (vector.subscript vec_empty (Z.of_nat 0))
                                   (Z.of_nat 17) (Temp 7) vec_empty) vec_w_empty)
     = Z.max (2 * Z.of_nat (length (@nil Z))) 16.
Proof.
  destruct vec_empty_state as [HC Hv].
  destruct (InsertAux_ignores_count vec_w_empty
              (run_world (vector.InsertAux (vector.subscript vec_empty (Z.of_nat 0))
                                           (Z.of_nat 17) (Temp 7) vec_empty) vec_w_empty)
              [(4096, 128)] vec_empty
              (run_result vector.default
                 (vector.InsertAux (vector.subscript vec_empty (Z.of_nat 0))
                                   (Z.of_nat 17) (Temp 7) vec_empty) vec_w_empty)
              [] 16 0 17 (Temp 7) HC Hv)
    as (H1 & H2 & _).
  - simpl. lia.
  - vm_compute. reflexivity.
  - vm_compute. reflexivity.
  - vm_compute. reflexivity.
  - split; [exact H1 | exact H2].
Defined.

(** * MemoryPoolAllocator::Reallocate and the client *)

Lemma RoundUp_ge s : 0 <= s -> s + 7 < 2 ^ 64 -> s <= MemoryPoolAllocator.RoundUp s
                                                 /\ MemoryPoolAllocator.RoundUp s < s + 8.
Proof.
  intros H0 H1. rewrite RoundUp_eq. rewrite wrap_small by lia.
  pose proof (Z.div_mod (s + 7) 8 ltac:(lia)).
  pose proof (Z.mod_pos_bound (s + 7) 8 ltac:(lia)). lia.
Qed.

Lemma RoundUp_top s : 2 ^ 64 - 7 <= s < 2 ^ 64 -> MemoryPoolAllocator.RoundUp s = 0.
Proof.
  intros H. rewrite RoundUp_eq. unfold wrap.
  replace (s + 7) with (s + 7 - 2 ^ 64 + 1 * 2 ^ 64) by lia.
  rewrite Z_mod_plus_full. rewrite Z.mod_small by lia.
  rewrite Z.div_small by lia. reflexivity.
Qed.

Lemma PInv_resize heads s e m rs out extra fl pool obj old new :
  old <= kMaxBytes -> 0 < new <= kMaxBytes ->
  MemoryPoolAllocator.RoundUp new = MemoryPoolAllocator.RoundUp old ->
  PInv heads s e m rs ((obj, old) :: out) extra fl pool ->
  PInv heads s e m rs ((obj, new) :: out) extra fl pool.
Proof.
  intros Hold Hnew Hru [H1 H2 H3 H4 H5 H6 H7 H8 H9].
  assert (Hoe : out_exts ((obj, new) :: out) = out_exts ((obj, old) :: out)).
  { unfold out_exts. rewrite !filter_cons_True by (simpl; lia).
    simpl. rewrite Hru. reflexivity. }
  assert (Hlg : larges ((obj, new) :: out) = larges ((obj, old) :: out)).
  { unfold larges. rewrite !filter_cons_False by (simpl; lia). reflexivity. }
  constructor; try assumption.
  - rewrite Hoe. exact H6.
  - rewrite Hoe. exact H7.
  - apply Forall_cons in H8. destruct H8 as [_ H8].
    constructor; [simpl; lia | exact H8].
  - rewrite Hlg. exact H9.
Qed.

(** X25. Reallocate keeps the client's books right.  Called on a block
    the client holds, with its size, it leaves the client holding the
    result as a block of the new size: either the same block, when both
    sizes are pooled sizes of one class, whose blocks have RoundUp(size)
    bytes, or a block from Allocate after the old one went back. *)
Theorem Reallocate_keeps_invariant
        (w w' : World) (out : list (Z * Z)) (obj old new p : Z) :
  ClientInv w ((obj, old) :: out) ->
  0 < new < 2 ^ 64 ->
  old <= kMaxBytes
  \/ MemoryPoolAllocator.RoundUp new <> MemoryPoolAllocator.RoundUp old ->
  MemoryPoolAllocator.Reallocate obj old new w = Ok p w' ->
  ClientInv w' ((p, new) :: out)
  /\ (MemoryPoolAllocator.RoundUp new = MemoryPoolAllocator.RoundUp old ->
      p = obj /\ w' = w /\ block_len new = block_len old).
Proof.
  intros HC Hnew Hcase H. unfold MemoryPoolAllocator.Reallocate in H.
  destruct (MemoryPoolAllocator.RoundUp new =? MemoryPoolAllocator.RoundUp old) eqn:E.
  - apply Z.eqb_eq in E. destruct Hcase as [Hold | Hne]; [|contradiction].
    unfold ret in H. injection H as <- <-.
    pose proof HC as (HI & Hd & Ha & Hl).
    assert (Hopos : 0 < old).
    { destruct HI as (fl & pool & [HP _]).
      pose proof (pi_out _ _ _ _ _ _ _ _ _ HP) as Ho.
      apply Forall_cons in Ho. destruct Ho as [Ho _]. exact Ho. }
    destruct (RoundUp_small old ltac:(lia)) as (_ & Hro & _).
    assert (Hns : new <= kMaxBytes).
    { destruct (Z_lt_ge_dec (new + 7) (2 ^ 64)) as [Hlt | Hge].
      - destruct (RoundUp_ge new ltac:(lia) Hlt) as [Hg _]. lia.
      - rewrite RoundUp_top in E by lia. lia. }
    split.
    + split.
      * destruct HI as (fl & pool & [HP Hoff]). exists fl, pool.
        split; [|exact Hoff]. apply (PInv_resize _ _ _ _ _ _ _ _ _ obj old new); try assumption.
        lia.
      * split; [exact Hd|]. split; [exact Ha|].
        intros q t Hin Ht Hq. apply elem_of_cons in Hin.
        destruct Hin as [Heq | Hin]; [injection Heq as -> ->; lia|].
        apply Hl; [apply elem_of_cons; right; exact Hin | exact Ht | exact Hq].
    + intros _. split; [reflexivity|]. split; [reflexivity|].
      rewrite !block_len_small by assumption. exact E.
  - apply Z.eqb_neq in E. unfold bind in H.
    destruct (Deallocate_ClientInv w out obj old HC) as (w1 & HD & HC1).
    rewrite HD in H.
    split; [|intros Heq; contradiction].
    apply (Allocate_ClientInv w1 out new p w' HC1 ltac:(lia) H).
Qed.

Lemma Reallocate_keeps_invariant_witness :
  ClientInv mix_w2 [(mix_p1, 5); (mix_p2, 200)].
Proof.
  destruct (Reallocate_keeps_invariant mix_w2 mix_w2 [(mix_p2, 200)] mix_p1 8 5 mix_p1)
    as [H _].
  - apply (ClientInv_perm mix_w2 [(mix_p2, 200); (mix_p1, 8)]); [apply perm_swap|].
    apply reach_ClientInv. exact mix_reach.
  - lia.
  - left. vm_compute. discriminate.
  - vm_compute. reflexivity.
  - exact H.
Defined.

(** X26. For sizes above the ceiling, Reallocate to a larger size of the
    same rounded size does not grow the block.  The call returns the same
    pointer and changes nothing, but the block is a region of the system
    heap of exactly the old size: the word that holds the last bytes of the
    new size is not live storage, and a store to it faults. *)
Theorem Reallocate_large_does_not_grow
        (w : World) (out : list (Z * Z)) (obj old new x : Z) :
  ClientInv w ((obj, old) :: out) -> obj <> 0 ->
  kMaxBytes < old -> old < new < 2 ^ 64 ->
  MemoryPoolAllocator.RoundUp new = MemoryPoolAllocator.RoundUp old ->
  let last := obj + MemoryPoolAllocator.RoundUp new - 8 in
  MemoryPoolAllocator.Reallocate obj old new w = Ok obj w
  /\ (obj, old) ∈ regions w
  /\ last < obj + new <= last + 8
  /\ store64 last x w = Undefined (BadAccess last).
Proof.
  intros HC Hobj Hold Hnew Hru last.
  pose proof HC as (HI & Hd & Ha & Hl).
  assert (Hreg : (obj, old) ∈ regions w).
  { pose proof (Hl obj old ltac:(apply list_elem_of_here) Hold Hobj) as H.
    unfold region_len in H. replace (Z.max old 1) with old in H by (unfold kMaxBytes in *; lia).
    exact H. }
  assert (Hheap : heap_ok (regions w)).
  { destruct HI as (fl & pool & [HP _]). exact (pi_heap _ _ _ _ _ _ _ _ _ HP). }
  pose proof Hheap as [Hb _]. rewrite Forall_forall in Hb.
  destruct (Hb _ Hreg) as (Hlo & _ & Hhi). simpl in Hlo, Hhi. unfold page_size in Hlo.
  unfold kMaxBytes in Hold.
  destruct (RoundUp_ge old ltac:(lia) ltac:(lia)) as [Hg1 Hg2].
  assert (Hnew7 : new + 7 < 2 ^ 64).
  { destruct (Z_lt_ge_dec (new + 7) (2 ^ 64)) as [Hlt | Hge]; [exact Hlt|].
    rewrite RoundUp_top in Hru by lia. lia. }
  destruct (RoundUp_ge new ltac:(lia) Hnew7) as [Hn1 Hn2].
  split.
  { unfold MemoryPoolAllocator.Reallocate. rewrite Hru, Z.eqb_refl. reflexivity. }
  split; [exact Hreg|]. split; [unfold last; lia|].
  unfold store64.
  destruct (accessible last w) eqn:Eacc; [|reflexivity].
  exfalso. unfold accessible in Eacc.
  apply andb_true_iff in Eacc. destruct Eacc as [_ Hex].
  apply existsb_exists in Hex. destruct Hex as (r & Hr & Hin).
  apply list_elem_of_In in Hr.
  unfold inside in Hin. apply andb_true_iff in Hin. destruct Hin as [H1 H2].
  apply Z.leb_le in H1. apply Z.leb_le in H2.
  destruct (decide (r = (obj, old))) as [-> | Hne].
  - simpl in H1, H2. unfold last in *. lia.
  - pose proof (pairwise_disjoint_elem _ _ _ Hd Hr Hreg Hne) as Hdj.
    unfold disj in Hdj. simpl in Hdj. unfold last in *. lia.
Qed.

Lemma Reallocate_large_does_not_grow_witness :
  MemoryPoolAllocator.Reallocate big_p 193 200 big_w = Ok big_p big_w
  /\ store64 (big_p + MemoryPoolAllocator.RoundUp 200 - 8) 0 big_w
     = Undefined (BadAccess (big_p + MemoryPoolAllocator.RoundUp 200 - 8)).
Proof.
  destruct (Reallocate_large_does_not_grow big_w [] big_p 193 200 0)
    as (H1 & _ & _ & H2).
  - apply reach_ClientInv.
    apply (reach_Allocate vec_w0 [] 193 big_p big_w).
    + apply reach_init.
    + vm_compute. split; [discriminate | reflexivity].
    + vm_compute. reflexivity.
  - vm_compute. discriminate.
  - vm_compute. reflexivity.
  - vm_compute. split; reflexivity.
  - vm_compute. reflexivity.
  - split; [exact H1 | exact H2].
Defined.

(** * What the allocator leaves alone *)

(** X6. The allocator never writes into memory the client holds, whatever
    the client has stored there.  In every state that satisfies the client
    invariant (the states a client reaches by Allocate, Deallocate and
    stores into the blocks it holds), an Allocate of any size, and a
    Deallocate of any other block the client holds, leave every word of a
    block the client keeps holding exactly as it was, be the block pooled
    or from the system heap.  What Deallocate writes at all is the first
    word of the block it is given. *)
Theorem held_memory_untouched (w : World) (out : list (Z * Z)) (q t : Z) :
  ClientInv w out ->
  (q, t) ∈ out -> q <> 0 ->
  (forall s p w' a,
      0 <= s < 2 ^ 64 ->
      MemoryPoolAllocator.Allocate s w = Ok p w' ->
      q <= a < q + block_len t ->
      mem w' !! a = mem w !! a)
  /\ (forall obj sz rest w' a,
        out ≡ₚ (obj, sz) :: (q, t) :: rest ->
        MemoryPoolAllocator.Deallocate obj sz w = Ok tt w' ->
        q <= a < q + block_len t ->
        mem w' !! a = mem w !! a)
  /\ (forall obj sz w' a,
        MemoryPoolAllocator.Deallocate obj sz w = Ok tt w' ->
        a <> obj ->
        mem w' !! a = mem w !! a).
Proof.
  intros HC Hin Hq. split; [|split].
  - intros s p w' a Hs HA Ha.
    apply (Allocate_preserves_held w out s p w' q t HC Hs HA Hin Hq a Ha).
  - intros obj sz rest w' a Hp HD Ha.
    apply (Deallocate_footprint obj sz w w' HD).
    assert (Hout : forall x, x ∈ out -> 0 < snd x).
    { destruct HC as ((fl & pool & [HP _]) & _).
      pose proof (pi_out _ _ _ _ _ _ _ _ _ HP) as Ho. rewrite Forall_forall in Ho.
      exact Ho. }
    pose proof (block_len_ge t (Hout (q, t) Hin)) as Hbt. cbn [snd] in Hbt.
    pose proof (held_block_range w out q t HC Hin Hq O ltac:(simpl; lia))
      as (Hq0 & _).
    destruct (Z.eq_dec obj 0) as [-> | Hobj]; [lia|].
    pose proof (ClientInv_held_disjoint w out rest obj sz q t HC Hp Hobj Hq) as Hdj.
    assert (Hpos : 0 < sz).
    { apply (Hout (obj, sz)). rewrite Hp. apply list_elem_of_here. }
    pose proof (block_len_ge sz Hpos). lia.
  - intros obj sz w' a HD Ha. apply (Deallocate_footprint obj sz w w' HD a Ha).
Qed.

Lemma held_memory_untouched_witness :
  mem (run_world (MemoryPoolAllocator.Allocate 16) mix_w3) !! mix_p1 = Some 5
  /\ mem (run_world (MemoryPoolAllocator.Allocate 16) mix_w3) !! (mix_p2 + 16)
     = Some 9.
Proof.
  split.
  - destruct (held_memory_untouched mix_w3 [(mix_p2, 200); (mix_p1, 8)] mix_p1 8)
      as [H _].
    + exact mix_w3_ClientInv.
    + apply elem_of_cons. right. apply list_elem_of_here.
    + vm_compute. discriminate.
    + rewrite (H 16 (run_value (MemoryPoolAllocator.Allocate 16) mix_w3)
                 (run_world (MemoryPoolAllocator.Allocate 16) mix_w3) mix_p1).
      * vm_compute. reflexivity.
      * lia.
      * vm_compute. reflexivity.
      * vm_compute. split; [discriminate | reflexivity].
  - destruct (held_memory_untouched mix_w3 [(mix_p2, 200); (mix_p1, 8)] mix_p2 200)
      as [H _].
    + exact mix_w3_ClientInv.
    + apply list_elem_of_here.
    + vm_compute. discriminate.
    + rewrite (H 16 (run_value (MemoryPoolAllocator.Allocate 16) mix_w3)
                 (run_world (MemoryPoolAllocator.Allocate 16) mix_w3) (mix_p2 + 16)).
      * vm_compute. reflexivity.
      * lia.
      * vm_compute. reflexivity.
      * vm_compute. split; [discriminate | reflexivity].
Defined.

(** * vector: copy construction, resize, assign *)

(** X27. The copy constructor builds an equal vector in a block of its
    own.  When the allocation succeeds, vector(other) holds the elements of
    other in a new block of max(size, 16) elements, other is unchanged, and
    both blocks are held. *)
Theorem vector_copy_ctor
        (w w1 : World) (out : list (Z * Z)) (other : vector) (xs : list Z)
        (cap : nat) (p : Z) :
  ClientInv w out -> vec_repr w other xs cap ->
  (begin_ other, 8 * Z.of_nat cap) ∈ out -> (0 < cap)%nat ->
  vector.DataAllocator_Allocate (Max (Z.of_nat (length xs)) 16) w = Ok p w1 ->
  p <> 0 ->
  exists v w',
    vector.ctor_copy other w = Ok v w'
    /\ begin_ v = p
    /\ vec_repr w' v xs (Nat.max (length xs) 16)
    /\ vec_repr w' other xs cap
    /\ ClientInv w' ((p, 8 * Z.of_nat (Nat.max (length xs) 16)) :: out).
Proof.
  intros HC Hv Hin Hcap HA Hp.
  pose proof Hv as (Hr & Hc & He & Hcp & Hle & Hw).
  pose proof Hr as (Hb0 & Hb1 & _).
  set (len := length xs) in *. set (c := Nat.max len 16).
  set (b := begin_ other) in *.
  assert (Hbnz : b <> 0) by (apply (vec_nonnull w other xs cap Hv Hcap)).
  assert (Hmax : Max (Z.of_nat len) 16 = Z.of_nat c) by (rewrite Max_eq; unfold c; lia).
  unfold vector.ctor_copy, vector.RangeInit. fold b.
  rewrite (ptr_diff_wrap (end_ other) b (Z.of_nat len)) by lia.
  rewrite Hmax in *. unfold bind at 1. rewrite HA.
  rewrite DataAllocator_Allocate_eq in HA by (unfold c in *; lia).
  pose proof (Allocate_ClientInv w out (8 * Z.of_nat c) p w1 HC
                ltac:(unfold c in *; lia) HA) as HC1.
  assert (Hbl : 8 * Z.of_nat c <= block_len (8 * Z.of_nat c))
    by (apply block_len_ge; unfold c; lia).
  assert (Hblo : 8 * Z.of_nat cap <= block_len (8 * Z.of_nat cap))
    by (apply block_len_ge; lia).
  pose proof (held_block_range w1 _ p (8 * Z.of_nat c) HC1
                ltac:(apply list_elem_of_here) Hp c Hbl) as Hrn.
  pose proof Hrn as (Hp0 & Hp1 & _).
  assert (Hin1 : (b, 8 * Z.of_nat cap) ∈ (p, 8 * Z.of_nat c) :: out)
    by (apply elem_of_cons; right; exact Hin).
  pose proof (held_block_range w1 _ b (8 * Z.of_nat cap) HC1 Hin1 Hbnz cap Hblo) as Hro.
  assert (Hm1 : forall a, b <= a < b + 8 * Z.of_nat cap -> mem w1 !! a = mem w !! a).
  { intros a Ha. destruct HC as (HI0 & HC0) eqn:HCe. clear HCe.
    apply (Allocate_preserves_held w out (8 * Z.of_nat c) p w1 b (8 * Z.of_nat cap)
             (conj HI0 HC0) ltac:(unfold c in *; lia) HA Hin Hbnz). lia. }
  pose proof Hin as Hin'. apply elem_of_Permutation in Hin'. destruct Hin' as (out' & Hperm).
  assert (Hap : p + block_len (8 * Z.of_nat c) <= b
                \/ b + block_len (8 * Z.of_nat cap) <= p).
  { apply (ClientInv_held_disjoint w1 ((p, 8 * Z.of_nat c) :: out) out'
             p (8 * Z.of_nat c) b (8 * Z.of_nat cap) HC1); [|exact Hp | exact Hbnz].
    rewrite Hperm. reflexivity. }
  assert (Hfu : range_fuel b (end_ other) = S len)
    by (rewrite He; apply range_fuel_eq).
  rewrite Hfu.
  destruct (Copy_run xs (S len) b p w1) as (w2 & Hrun & Hs & Hres & Hfr).
  { lia. }
  { apply (range_ok_sub w1 b cap 0 len) in Hro; [|lia].
    replace (b + 8 * Z.of_nat 0) with b in Hro by lia. exact Hro. }
  { apply (range_ok_sub w1 p c 0 len) in Hrn; [|unfold c; lia].
    replace (p + 8 * Z.of_nat 0) with p in Hrn by lia. exact Hrn. }
  { apply (words_at_frame (mem w)); [exact Hw|]. intros a Ha. apply Hm1. fold len in Ha. lia. }
  { fold len. lia. }
  fold len in Hrun. rewrite <- He in Hrun.
  unfold bind at 1. rewrite uninitialized_copy_Copy, Hrun. unfold ret.
  rewrite ptr_add_small by lia.
  eexists. exists w2. split; [reflexivity|]. split; [reflexivity|]. split.
  { split; [apply (range_ok_same w1 w2 _ _ Hs Hrn)|].
    split; [unfold c in *; lia|]. cbn [begin_ end_ capacity_].
    split; [reflexivity|]. split; [reflexivity|]. split; [unfold c; lia | exact Hres]. }
  split.
  { split; [apply (range_ok_same w1 w2 _ _ Hs Hro)|].
    split; [exact Hc|]. split; [exact He|]. split; [exact Hcp|]. split; [exact Hle|].
    apply (words_at_frame (mem w)); [exact Hw|].
    intros a Ha. fold len in Ha. fold b in Ha. rewrite Hfr by (fold len; lia).
    apply Hm1. lia. }
  apply (ClientInv_frame w1 w2 _ p (8 * Z.of_nat c) HC1 Hs
           ltac:(apply list_elem_of_here) Hp).
  intros a Ha. apply Hfr. fold len. unfold c in *. lia.
Qed.

Lemma vector_copy_ctor_witness :
  exists v w',
    vector.ctor_copy vec16 vec_w16 = Ok v w'
    /\ vec_repr w' v (replicate 16 7) (Nat.max (length (replicate 16 7)) 16)
    /\ vec_repr w' vec16 (replicate 16 7) 16.
Proof.
  destruct vec16_state as [HC Hv].
  destruct (vector_copy_ctor vec_w16
              (run_world (vector.DataAllocator_Allocate 16) vec_w16)
              [(4096, 128)] vec16 (replicate 16 7) 16 6528 HC Hv)
    as (v & w' & Hrun & _ & Hv1 & Hv2 & _).
  - vm_compute. apply list_elem_of_here.
  - lia.
  - vm_compute. reflexivity.
  - discriminate.
  - exists v, w'. split; [exact Hrun|]. split; [exact Hv1 | exact Hv2].
Defined.

(** X28. resize(newsize, x) within the capacity either cuts the vector
    down to its first newsize elements or appends copies of what x
    denotes up to newsize elements; x may refer to any initialised word,
    an element of the vector included. *)
Theorem vector_resize
        (w : World) (v : vector) (xs : list Z) (cap newsize : nat)
        (x : const_ref) (xv : Z) :
  vec_repr w v xs cap -> (newsize <= cap)%nat -> ref_holds w x xv ->
  exists v' w',
    vector.resize (Z.of_nat newsize) x v w = Ok v' w'
    /\ vec_repr w' v' (take newsize xs ++ replicate (newsize - length xs) xv) cap
    /\ vector.size v' = Z.of_nat newsize
    /\ same_but_mem w w'.
Proof.
  intros Hv Hn Hx.
  pose proof Hv as (Hr & Hc & He & Hcp & Hle & Hw).
  pose proof Hr as (Hb0 & Hb1 & _).
  unfold vector.resize.
  assert (Hsize : vector.size v = Z.of_nat (length xs))
    by (unfold vector.size; apply ptr_diff_wrap; lia).
  rewrite Hsize.
  destruct (Z.of_nat newsize <? Z.of_nat (length xs)) eqn:E.
  - apply Z.ltb_lt in E.
    rewrite ptr_add_small by lia.
    destruct (erase_range_run w v xs cap newsize (length xs) Hv ltac:(lia) ltac:(lia))
      as (w' & Hrun & Hs & Hv' & _).
    rewrite <- He in Hrun. unfold bind. rewrite Hrun. unfold ret. cbn [snd].
    rewrite drop_all in Hv'.
    replace (newsize - length xs)%nat with O by lia. simpl replicate.
    eexists. exists w'. split; [reflexivity|]. split; [exact Hv'|].
    split; [|exact Hs].
    unfold vector.size, set_end_. cbn [begin_ end_].
    apply ptr_diff_wrap; lia.
  - apply Z.ltb_ge in E.
    rewrite (wrap_small (Z.of_nat newsize - Z.of_nat (length xs))) by lia.
    replace (Z.of_nat newsize - Z.of_nat (length xs))
      with (Z.of_nat (newsize - length xs)) by lia.
    destruct (insert_append w v xs cap (length xs) (newsize - length xs) x xv Hv
                ltac:(lia) ltac:(lia) ltac:(lia) Hx)
      as (w' & Hrun & Hs & Hv' & _).
    { intros a _. lia. }
    rewrite <- He in Hrun. unfold bind. rewrite Hrun. unfold ret. cbn [snd].
    rewrite drop_all, app_nil_r in Hv'.
    rewrite firstn_all in Hv'.
    rewrite (take_ge xs newsize) by lia.
    eexists. exists w'. split; [reflexivity|]. split; [exact Hv'|].
    split; [|exact Hs].
    unfold vector.size, set_end_. cbn [begin_ end_].
    apply ptr_diff_wrap; lia.
Qed.

Lemma vector_resize_witness :
  exists v' w',
    vector.resize (Z.of_nat 6) (Ref (vector.front range_vec)) range_vec range_world
    = Ok v' w'
    /\ vec_repr w' v' (take 6 [1; 2; 3; 4] ++ replicate (6 - length [1; 2; 3; 4]) 1) 8.
Proof.
  destruct (vector_resize range_world range_vec [1; 2; 3; 4] 8 6
              (Ref (vector.front range_vec)) 1)
    as (v' & w' & Hrun & Hv' & _).
  - apply vec_reprb_spec. vm_compute. reflexivity.
  - lia.
  - split; vm_compute; reflexivity.
  - exists v', w'. split; [exact Hrun | exact Hv'].
Defined.

Lemma clear_same w v xs cap :
  vec_repr w v xs cap ->
  vector.clear v w = Ok (set_end_ (begin_ v) v) w.
Proof.
  intros Hv. destruct (clear_run w v xs cap Hv) as (w' & Hrun & Hs & _ & Hfr).
  rewrite Hrun. f_equal. unfold same_but_mem in Hs. rewrite Hs.
  assert (Hm : mem w' = mem w).
  { apply map_eq. intros a. apply Hfr. lia. }
  rewrite Hm. destruct w; reflexivity.
Qed.

(** X29. assign(n, value) makes the vector n copies of the value.  Within
    the capacity the block is reused, and the value may refer to an element
    of the vector.  Beyond it a new vector is built from the value, which
    may be a temporary or refer to an object in a block the client holds
    (an element of the vector itself included), and swapped in; the old
    block goes back to the allocator through the temporary's destructor,
    with the size it was requested with: afterwards it is at the head of
    its free list when it is pooled, and released to the system heap
    otherwise. *)
Theorem vector_assign
        (w : World) (out : list (Z * Z)) (v : vector) (xs : list Z)
        (cap n : nat) (x : const_ref) (xv : Z) :
  vec_repr w v xs cap -> ref_holds w x xv ->
  ((n <= cap)%nat ->
   exists v' w',
     vector.assign (Z.of_nat n) x v w = Ok v' w'
     /\ vec_repr w' v' (replicate n xv) cap
     /\ same_but_mem w w')
  /\ ((cap < n)%nat -> (0 < cap)%nat -> held_ref out x ->
      ClientInv w out -> (begin_ v, 8 * Z.of_nat cap) ∈ out ->
      8 * Z.of_nat (Nat.max n 16) < 2 ^ 63 ->
      forall p w1,
        vector.DataAllocator_Allocate (Max (Z.of_nat n) 16) w = Ok p w1 -> p <> 0 ->
        exists v' w',
          vector.assign (Z.of_nat n) x v w = Ok v' w'
          /\ begin_ v' = p
          /\ vec_repr w' v' (replicate n xv) (Nat.max n 16)
          /\ given_back w' (begin_ v) (8 * Z.of_nat cap)
          /\ exists out', out ≡ₚ (begin_ v, 8 * Z.of_nat cap) :: out'
                          /\ ClientInv w' ((p, 8 * Z.of_nat (Nat.max n 16)) :: out')).
Proof.
  intros Hv Hx.
  pose proof Hv as (Hr & Hc & He & Hcp & Hle & Hw).
  pose proof Hr as (Hb0 & Hb1 & _).
  assert (Hcapv : vector.capacity (set_end_ (begin_ v) v) = Z.of_nat cap).
  { unfold vector.capacity, set_end_. cbn [begin_ capacity_]. apply ptr_diff_wrap; lia. }
  split.
  - intros Hn. unfold vector.assign. unfold bind at 1.
    rewrite (clear_same w v xs cap Hv). rewrite Hcapv.
    destruct (Z.of_nat cap <? Z.of_nat n) eqn:E; [apply Z.ltb_lt in E; lia|].
    unfold set_end_. cbn [begin_ end_ capacity_].
    unfold uninitialized_fill_n. rewrite Nat2Z.id.
    destruct (uninitialized_fill_n_loop_run n (begin_ v) w x xv)
      as (w' & Hrun & Hs & Hres & _ & _).
    { apply (range_ok_sub w (begin_ v) cap 0 n) in Hr; [|lia].
      replace (begin_ v + 8 * Z.of_nat 0) with (begin_ v) in Hr by lia. exact Hr. }
    { exact Hx. }
    unfold bind. rewrite Hrun. unfold ret.
    rewrite ptr_add_small by lia.
    eexists. exists w'. split; [reflexivity|]. split; [|exact Hs].
    split; [apply (range_ok_same w w' _ _ Hs Hr)|]. split; [exact Hc|].
    cbn [begin_ end_ capacity_]. rewrite length_replicate.
    split; [reflexivity|]. split; [exact Hcp|]. split; [exact Hn | exact Hres].
  - intros Hn Hcap Hheld HC Hin Hb p w1 HA Hp.
    unfold vector.assign. unfold bind at 1.
    rewrite (clear_same w v xs cap Hv). rewrite Hcapv.
    destruct (Z.of_nat cap <? Z.of_nat n) eqn:E; [|apply Z.ltb_ge in E; lia].
    set (c := Nat.max n 16) in *. set (b := begin_ v) in *.
    assert (Hbnz : b <> 0) by (apply (vec_nonnull w v xs cap Hv Hcap)).
    destruct (ctor_fill_run w w1 out n x xv p HC Hx Hheld Hb HA Hp)
      as (w2 & Hrun & Hv2 & HC2 & _).
    fold c in Hrun, Hv2, HC2.
    unfold bind at 1. rewrite Hrun.
    unfold vector.swap, Swap, set_end_. cbn [begin_ end_ capacity_]. fold b.
    apply elem_of_Permutation in Hin. destruct Hin as (out' & Hperm).
    assert (HC2' : ClientInv w2 ((b, 8 * Z.of_nat cap) :: (p, 8 * Z.of_nat c) :: out')).
    { apply (ClientInv_perm w2 ((p, 8 * Z.of_nat c) :: out)); [|exact HC2].
      rewrite Hperm. apply perm_swap. }
    assert (Hblo : 8 * Z.of_nat cap <= block_len (8 * Z.of_nat cap))
      by (apply block_len_ge; lia).
    assert (Hblc : 8 * Z.of_nat c <= block_len (8 * Z.of_nat c))
      by (apply block_len_ge; unfold c; lia).
    pose proof (held_block_range w2 _ b (8 * Z.of_nat cap) HC2'
                  ltac:(apply list_elem_of_here) Hbnz cap Hblo) as Hro.
    assert (Hvold : vec_repr w2 (mkVector b b (capacity_ v)) [] cap).
    { split; [exact Hro|]. split; [exact Hc|]. cbn [begin_ end_ capacity_ length].
      split; [lia|]. split; [exact Hcp|]. split; [lia | apply words_at_nil]. }
    destruct (dtor_run w2 ((p, 8 * Z.of_nat c) :: out') (mkVector b b (capacity_ v))
                [] cap HC2' Hvold Hcap) as (w3 & HD & HC3 & Hfr3 & _ & Hback).
    cbn [begin_] in Hfr3, Hback.
    unfold bind. rewrite HD. unfold ret.
    pose proof (ClientInv_held_disjoint w2 _ out' b (8 * Z.of_nat cap) p (8 * Z.of_nat c)
                  HC2' ltac:(reflexivity) Hbnz Hp) as Hap.
    eexists. exists w3. split; [reflexivity|]. split; [reflexivity|]. split.
    + pose proof Hv2 as (Hr2 & Hc2 & He2 & Hcp2 & Hle2 & Hw2).
      split.
      { apply (held_block_range w3 _ p (8 * Z.of_nat c) HC3
                 ltac:(apply list_elem_of_here) Hp c Hblc). }
      split; [exact Hc2|]. split; [exact He2|]. split; [exact Hcp2|].
      split; [exact Hle2|].
      apply (words_at_frame (mem w2)); [exact Hw2|].
      intros a Ha. cbn [begin_] in Ha. rewrite length_replicate in Ha.
      apply Hfr3. unfold c in *. lia.
    + split; [exact Hback|]. exists out'. split; [exact Hperm | exact HC3].
Qed.

Lemma vector_assign_witness :
  (exists v' w',
     vector.assign (Z.of_nat 2) (Ref (vector.back range_vec)) range_vec range_world
     = Ok v' w'
     /\ vec_repr w' v' (replicate 2 4) 8)
  /\ (exists v' w',
        vector.assign (Z.of_nat 20) (Ref (vector.front vec16)) vec16 vec_w16
        = Ok v' w'
        /\ vec_repr w' v' (replicate 20 7) (Nat.max 20 16)
        /\ given_back w' (begin_ vec16) (8 * Z.of_nat 16)).
Proof.
  split.
  - destruct (vector_assign range_world [] range_vec [1; 2; 3; 4] 8 2
                (Ref (vector.back range_vec)) 4) as [H _].
    + apply vec_reprb_spec. vm_compute. reflexivity.
    + split; vm_compute; reflexivity.
    + destruct (H ltac:(lia)) as (v' & w' & Hrun & Hv' & _).
      exists v', w'. split; [exact Hrun | exact Hv'].
  - destruct vec16_state as [HC Hv].
    destruct (vector_assign vec_w16 [(4096, 128)] vec16 (replicate 16 7) 16 20
                (Ref (vector.front vec16)) 7 Hv) as [_ H].
    + split; vm_compute; reflexivity.
    + destruct (H ltac:(lia) ltac:(lia)) with (p := 1048576)
        (w1 := run_world (vector.DataAllocator_Allocate 20) vec_w16)
        as (v' & w' & Hrun & _ & Hv' & Hback & _).
      * exists 4096, 128. split; [apply list_elem_of_here|].
        split; [discriminate | vm_compute; split; [discriminate | reflexivity]].
      * exact HC.
      * vm_compute. apply list_elem_of_here.
      * vm_compute. reflexivity.
      * vm_compute. reflexivity.
      * discriminate.
      * exists v', w'. split; [exact Hrun|]. split; [exact Hv' | exact Hback].
Defined.

(** * iterator.h: Distance and Advance on pointers *)

Lemma to_ptrdiff_small z : - 2 ^ 63 <= z < 2 ^ 63 -> to_ptrdiff z = z.
Proof.
  intros H. unfold to_ptrdiff, wrap. cbv zeta.
  destruct (Z_lt_ge_dec z 0) as [Hneg | Hpos].
  - assert (Hm : z mod 2 ^ 64 = z + 2 ^ 64)
      by (symmetry; apply (Z.mod_unique z (2 ^ 64) (-1)); lia).
    rewrite Hm.
    destruct (z + 2 ^ 64 <? 2 ^ 63) eqn:E; [apply Z.ltb_lt in E; lia | lia].
  - rewrite Z.mod_small by lia.
    destruct (z <? 2 ^ 63) eqn:E; [reflexivity | apply Z.ltb_ge in E; lia].
Qed.

Lemma Distance_loop_pointers k : forall fuel p n,
  (k < fuel)%nat -> 0 <= p -> p + 8 * Z.of_nat k < 2 ^ 64 ->
  0 <= n -> n + Z.of_nat k < 2 ^ 63 ->
  Distance_loop ptr_inc Z.eqb fuel p (p + 8 * Z.of_nat k) n = Some (n + Z.of_nat k).
Proof.
  induction k as [|k IH]; intros fuel p n Hf H0 H1 Hn Hb.
  - destruct fuel as [|fuel]; [lia|]. cbn [Distance_loop].
    replace (p + 8 * Z.of_nat 0) with p by lia. rewrite Z.eqb_refl. simpl.
    f_equal. lia.
  - destruct fuel as [|fuel]; [lia|]. cbn [Distance_loop].
    destruct (p =? p + 8 * Z.of_nat (S k)) eqn:E; [apply Z.eqb_eq in E; lia|].
    cbn [negb]. rewrite ptr_inc_small by lia. rewrite to_ptrdiff_small by lia.
    replace (p + 8 * Z.of_nat (S k)) with (p + 8 + 8 * Z.of_nat k) by lia.
    rewrite IH by lia. f_equal. lia.
Qed.

Lemma Advance_input_pointers k : forall fuel p,
  (k < fuel)%nat -> 0 <= p -> p + 8 * Z.of_nat k < 2 ^ 64 ->
  Z.of_nat k < 2 ^ 63 ->
  Advance_input ptr_inc fuel p (Z.of_nat k) = Some (p + 8 * Z.of_nat k).
Proof.
  induction k as [|k IH]; intros fuel p Hf H0 H1 Hb.
  - destruct fuel as [|fuel]; [lia|]. cbn [Advance_input]. simpl.
    f_equal. lia.
  - destruct fuel as [|fuel]; [lia|]. cbn [Advance_input].
    destruct (Z.of_nat (S k) =? 0) eqn:E; [apply Z.eqb_eq in E; lia|].
    cbn [negb]. rewrite ptr_inc_small by lia. rewrite to_ptrdiff_small by lia.
    replace (Z.of_nat (S k) - 1) with (Z.of_nat k) by lia.
    rewrite IH by lia. f_equal. lia.
Qed.

Lemma Advance_back_pointers k : forall fuel p,
  (k < fuel)%nat -> 0 <= p - 8 * Z.of_nat k -> p < 2 ^ 64 ->
  Z.of_nat k <= 2 ^ 63 ->
  Advance_back ptr_dec fuel p (- Z.of_nat k) = Some (p - 8 * Z.of_nat k).
Proof.
  induction k as [|k IH]; intros fuel p Hf H0 H1 Hb.
  - destruct fuel as [|fuel]; [lia|]. cbn [Advance_back]. simpl.
    f_equal. lia.
  - destruct fuel as [|fuel]; [lia|]. cbn [Advance_back].
    destruct (- Z.of_nat (S k) =? 0) eqn:E; [apply Z.eqb_eq in E; lia|].
    cbn [negb]. rewrite ptr_dec_small by lia. rewrite to_ptrdiff_small by lia.
    replace (- Z.of_nat (S k) + 1) with (- Z.of_nat k) by lia.
    rewrite IH by lia. f_equal. lia.
Qed.

(** X30. On pointers the overloads of Distance and of Advance agree, and
    Advance undoes Distance.  For a range of k elements from first to
    last, both Distance overloads give k; advancing first by k gives last
    with every Advance overload; and advancing last by -k gives first with
    the bidirectional and the random access overload. *)
Theorem Distance_Advance_pointers (first : Z) (k fuel : nat) :
  (k < fuel)%nat -> 0 <= first -> first + 8 * Z.of_nat k < 2 ^ 64 ->
  8 * Z.of_nat k < 2 ^ 63 ->
  let last := first + 8 * Z.of_nat k in
  Distance_input ptr_inc Z.eqb fuel first last = Some (Distance_random first last)
  /\ Distance_random first last = Z.of_nat k
  /\ Advance_input ptr_inc fuel first (Distance_random first last) = Some last
  /\ Advance_bidirectional ptr_inc ptr_dec fuel first (Distance_random first last)
     = Some last
  /\ Advance_random first (Distance_random first last) = last
  /\ Advance_bidirectional ptr_inc ptr_dec fuel last (- Distance_random first last)
     = Some first
  /\ Advance_random last (- Distance_random first last) = first.
Proof.
  intros Hf H0 H1 Hb last.
  assert (Hd : Distance_random first last = Z.of_nat k).
  { unfold Distance_random. apply (ptr_diff_small last first (Z.of_nat k)); [reflexivity | lia]. }
  rewrite Hd.
  split.
  { unfold Distance_input. rewrite (Distance_loop_pointers k) by lia. f_equal. }
  split; [reflexivity|].
  split; [apply Advance_input_pointers; lia|].
  split.
  { unfold Advance_bidirectional. destruct (0 <? Z.of_nat k) eqn:E.
    - apply Advance_input_pointers; lia.
    - apply Z.ltb_ge in E. assert (k = O) by lia. subst k.
      destruct fuel as [|fuel]; [lia|]. unfold last. simpl. f_equal. lia. }
  split; [unfold Advance_random; apply ptr_add_small; unfold last; lia|].
  split.
  { unfold Advance_bidirectional.
    destruct (0 <? - Z.of_nat k) eqn:E; [apply Z.ltb_lt in E; lia|].
    rewrite (Advance_back_pointers k) by (unfold last; lia). f_equal. unfold last. lia. }
  unfold Advance_random, ptr_add. unfold last. rewrite wrap_small by lia. lia.
Qed.

Lemma Distance_Advance_pointers_witness :
  Distance_input ptr_inc Z.eqb 4 4096 (4096 + 8 * Z.of_nat 3)
  = Some (Distance_random 4096 (4096 + 8 * Z.of_nat 3))
  /\ Advance_input ptr_inc 4 4096 (Distance_random 4096 (4096 + 8 * Z.of_nat 3))
     = Some (4096 + 8 * Z.of_nat 3).
Proof.
  destruct (Distance_Advance_pointers 4096 3 4) as (H1 & _ & H2 & _).
  - lia.
  - lia.
  - simpl. lia.
  - simpl. lia.
  - split; [exact H1 | exact H2].
Defined.
